(** * sink: a shallow embedding of the scripting core in src2/sink.c

  The development follows the layout of the C source: tagged 64-bit values
  (sink.h), the bitmap allocators behind the string and list pools, the
  numeric-literal assembly of the lexer, the pipe rewrite of the parser, the
  run-time helpers used by the opcodes ([sortboth], [pk_tojson],
  [opi_list_pushnils], the body of [OP_SETAT]), the collector, the readers
  of pickled values ([pk_isjson], [pk_fmjson], [pk_fmbin]), the UTF-8
  functions, the tick accounting of the dispatch loop, and the bytecode
  validator together with the operand decoding of the dispatch loop and
  its call and return.

  C [int] and [uint64_t] quantities are integers in [Z]; the bit layout of a
  value is kept and inspected with [Z.land], [Z.shiftr] and [Z.testbit].
  C arrays are lists. *)

From Stdlib Require Import ZArith List Lia Bool String Ascii QArith Qpower Relations.
From stdpp Require Import base list.

Set Warnings "-register-all".

Open Scope Z_scope.

(** ** Values (sink.h) *)

Module Value.

(** [sink_val] is a union of a [uint64_t u] and a [double f]; the model keeps
    the 64-bit pattern [u] and reads [f] through the IEEE-754 binary64
    layout. *)
Abbreviation sink_val := Z (only parsing).

Definition SINK_NAN        : Z := 0x7FF8000000000000.
Definition SINK_NIL        : Z := 0x7FF0000100000000.
Definition SINK_TAG_STR    : Z := 0x7FF0000200000000.
Definition SINK_TAG_LIST   : Z := 0x7FF0000300000000.
Definition SINK_TAG_MASK   : Z := 0xFFFFFFFF80000000.
Definition SINK_INDEX_MASK : Z := 0x000000007FFFFFFF.
Definition SINK_NAN_MASK   : Z := 0x7FF8000000000000.

Inductive sink_type := SINK_TYPE_NIL | SINK_TYPE_NUM | SINK_TYPE_STR | SINK_TYPE_LIST.

Definition sink_type_eqb (a b : sink_type) : bool :=
  match a, b with
  | SINK_TYPE_NIL, SINK_TYPE_NIL | SINK_TYPE_NUM, SINK_TYPE_NUM
  | SINK_TYPE_STR, SINK_TYPE_STR | SINK_TYPE_LIST, SINK_TYPE_LIST => true
  | _, _ => false
  end.

Definition sink_isnil (v : sink_val) : bool := v =? SINK_NIL.
Definition sink_isstr (v : sink_val) : bool := Z.land v SINK_TAG_MASK =? SINK_TAG_STR.
Definition sink_islist (v : sink_val) : bool := Z.land v SINK_TAG_MASK =? SINK_TAG_LIST.
Definition sink_isnum (v : sink_val) : bool :=
  negb (sink_isnil v) && negb (sink_isstr v) && negb (sink_islist v).

Definition sink_typeof (v : sink_val) : sink_type :=
  if sink_isnil v then SINK_TYPE_NIL
  else if sink_isstr v then SINK_TYPE_STR
  else if sink_islist v then SINK_TYPE_LIST
  else SINK_TYPE_NUM.

Definition sink_num_isnan (v : sink_val) : bool :=
  Z.land v SINK_NAN_MASK =? SINK_NAN_MASK.

Definition var_index (v : sink_val) : Z := Z.land v SINK_INDEX_MASK.

Definition str_val (index : Z) : sink_val := Z.lor SINK_TAG_STR index.
Definition list_val (index : Z) : sink_val := Z.lor SINK_TAG_LIST index.

(** *** The [double] member

    Sign, biased exponent and fraction fields of the binary64 layout. *)
Definition dbl_sign (v : sink_val) : bool := Z.testbit v 63.
Definition dbl_exp (v : sink_val) : Z := Z.land (Z.shiftr v 52) 0x7FF.
Definition dbl_mant (v : sink_val) : Z := Z.land v 0xFFFFFFFFFFFFF.

Definition dbl_isnan (v : sink_val) : bool :=
  (dbl_exp v =? 0x7FF) && negb (dbl_mant v =? 0).
Definition dbl_isinf (v : sink_val) : bool :=
  (dbl_exp v =? 0x7FF) && (dbl_mant v =? 0).
Definition dbl_nonfinite (v : sink_val) : bool := dbl_exp v =? 0x7FF.

(** Sign-magnitude key: both zeros map to 0, and for non-NaN patterns the
    order of the keys is the order of the doubles. *)
Definition dbl_key (v : sink_val) : Z :=
  let m := Z.land v 0x7FFFFFFFFFFFFFFF in
  if dbl_sign v then - m else m.

(** The C comparison [a.f < b.f]: false as soon as one side is a NaN. *)
Definition dbl_lt (a b : sink_val) : bool :=
  negb (dbl_isnan a) && negb (dbl_isnan b) && (dbl_key a <? dbl_key b).

Definition INT_MIN : Z := -2147483648.
Definition INT_MAX : Z := 2147483647.

(** Truncation of a finite double toward zero. *)
Definition dbl_trunc (v : sink_val) : option Z :=
  if dbl_nonfinite v then None
  else
    let e := dbl_exp v in
    let m := if e =? 0 then dbl_mant v else dbl_mant v + 2 ^ 52 in
    let e' := if e =? 0 then 1 else e in
    let mag := if 1075 <=? e' then Z.shiftl m (e' - 1075) else Z.shiftr m (1075 - e') in
    Some (if dbl_sign v then - mag else mag).

(** The C conversion [(int)v.f]; it is undefined (here [None]) when the
    truncated value does not fit an [int]. *)
Definition dbl_to_int (v : sink_val) : option Z :=
  match dbl_trunc v with
  | Some t => if (INT_MIN <=? t) && (t <=? INT_MAX) then Some t else None
  | None => None
  end.

End Value.

Import Value.

(** ** Bitmap allocation of pool slots *)

Module Pool.

Definition UINT64_MAX : Z := 0xFFFFFFFFFFFFFFFF.

(** [~w] on a [uint64_t]. *)
Definition u64_not (w : Z) : Z := Z.lxor w UINT64_MAX.

(** libc's [ffsll]: one plus the index of the least significant set bit of
    a 64-bit word, and 0 when no bit is set. *)
Fixpoint ffs_from (n : nat) (i : Z) (x : Z) : Z :=
  match n with
  | O => 0
  | S n' => if Z.testbit x i then i + 1 else ffs_from n' (i + 1) x
  end.

Definition ffsll (x : Z) : Z := ffs_from 64 0 x.

(** [bmp_alloc]: [bmp] is the cursor into the word array, [count] the number
    of slots still to be searched, [loop] the number of words skipped.  The
    result is the returned index and the words from the cursor on. *)
Fixpoint bmp_alloc_from (bmp : list Z) (count loop : Z) : Z * list Z :=
  if count <=? 0 then (-1, bmp)
  else
    match bmp with
    | [] => (-1, [])
    | w :: rest =>
        if w =? UINT64_MAX then
          let '(r, rest') := bmp_alloc_from rest (count - 64) (loop + 1) in
          (r, w :: rest')
        else
          let pos := ffsll (u64_not w) - 1 in
          (loop * 64 + pos, Z.lor w (Z.shiftl 1 pos) :: rest)
    end.

Definition bmp_alloc (bmp : list Z) (count : Z) : Z * list Z :=
  bmp_alloc_from bmp count 0.

(** Bit [index] of a bitmap, as tested by [bmp[index / 64] & (1 << index % 64)]. *)
Definition bmp_bit (bmp : list Z) (index : Z) : bool :=
  Z.testbit (nth (Z.to_nat (Z.quot index 64)) bmp 0) (Z.rem index 64).

(** [mem_realloc] to [n] elements: the old elements that fit are kept, the
    added ones hold whatever [junk] the allocator left there ([junkw] for the
  words of a bitmap, which [bmp_reserve] then clears with [memset]). *)
Definition mem_realloc {T} (l : list T) (n : Z) (junk : T) : list T :=
  take (Z.to_nat n) l ++ replicate (Z.to_nat n - length l) junk.

(** [memset(&words[start], 0, sizeof(uint64_t) * n)]. *)
Definition memset0 (words : list Z) (start n : Z) : list Z :=
  take (Z.to_nat start) words
    ++ replicate (Nat.min (Z.to_nat n) (length words - Z.to_nat start)) 0
    ++ drop (Z.to_nat start + Z.to_nat n) words.

(** [words[k] |= 1]. *)
Definition or1_at (words : list Z) (k : Z) : list Z :=
  match words !! Z.to_nat k with
  | Some w => <[Z.to_nat k := Z.lor w 1]> words
  | None => words
  end.

Record pool (T : Type) := mkPool {
  tbl  : list T;   (* the object array *)
  size : Z;        (* number of slots *)
  aloc : list Z;   (* allocation bitmap, 64 slots per word *)
  ref  : list Z    (* reachability bitmap *)
}.
Arguments mkPool {T}.
Arguments tbl {T}.
Arguments size {T}.
Arguments aloc {T}.
Arguments ref {T}.

(** [bmp_reserve] either returns an index and the updated pool, or prints
    "Out of memory!" and leaves the process with [exit(1)]. *)
Inductive reserved (T : Type) :=
| Reserved (index : Z) (p : pool T)
| OutOfMemory.
Arguments Reserved {T}.
Arguments OutOfMemory {T}.

Definition bmp_reserve {T} (junk : T) (junkw : Z) (p : pool T) : reserved T :=
  let '(index, aloc1) := bmp_alloc (aloc p) (size p) in
  if 0 <=? index then Reserved index (mkPool (tbl p) (size p) aloc1 (ref p))
  else if 0x3FFFFFFF <=? size p then OutOfMemory
  else
    let new_count := size p * 2 in
    let tbl2 := mem_realloc (tbl p) new_count junk in
    let aloc2 := mem_realloc aloc1 (Z.quot new_count 64) junkw in
    let aloc3 := memset0 aloc2 (Z.quot (size p) 64) (Z.quot (size p) 64) in
    let ref2 := mem_realloc (ref p) (Z.quot new_count 64) junkw in
    let ref3 := memset0 ref2 (Z.quot (size p) 64) (Z.quot (size p) 64) in
    let aloc4 := or1_at aloc3 (Z.quot new_count 128) in
    Reserved (Z.quot new_count 2) (mkPool tbl2 new_count aloc4 ref3).

(** A pool as [context_new] and [bmp_reserve] shape it: a positive number of
    slots, 64 per bitmap word, and genuine 64-bit words. *)
Definition pool_wf {T} (p : pool T) : Prop :=
  0 < size p /\ size p = 64 * Z.of_nat (length (aloc p))
  /\ Z.of_nat (length (tbl p)) = size p
  /\ Forall (fun w => 0 <= w <= UINT64_MAX) (aloc p).

(** Genuine 64-bit words. *)
Definition words_ok (bmp : list Z) : Prop := Forall (fun w => 0 <= w <= UINT64_MAX) bmp.

(** Every slot of [p] is allocated: every bit of the allocation bitmap is set. *)
Definition pool_full {T} (p : pool T) : Prop :=
  forall i, 0 <= i < size p -> bmp_bit (aloc p) i = true.

(** [k] is the lowest-numbered free slot of [p]. *)
Definition first_free {T} (p : pool T) (k : Z) : Prop :=
  0 <= k < size p /\ bmp_bit (aloc p) k = false
  /\ forall j, 0 <= j < k -> bmp_bit (aloc p) j = true.

(** A pool of [0x40000000] slots, all of them allocated. *)
Definition cap_pool : pool unit :=
  mkPool (replicate (Z.to_nat 0x40000000) tt) 0x40000000
         (replicate (Z.to_nat 0x1000000) UINT64_MAX)
         (replicate (Z.to_nat 0x1000000) 0).

(** A pool of 64 slots, all of them allocated. *)
Definition small_full_pool : pool Z :=
  mkPool (replicate 64 7) 64 [UINT64_MAX] [0].

End Pool.

(** ** Numeric literals (lexer) *)

Module Numpart.

(** [numpart_info].  The two [double] fields hold digit sums; they are kept as
    exact rationals, and [pow] below is the exact power, so the arithmetic of
    [numpart_calc] is that of the C expression without rounding. *)
Record numpart_info := mkNumpart {
  np_sign  : Z;   (* value sign -1 or 1 *)
  np_val   : Q;   (* integer part *)
  np_base  : Z;   (* number base 2, 8, 10, or 16 *)
  np_frac  : Q;   (* fractional part >= 0 *)
  np_flen  : Z;   (* number of fractional digits *)
  np_esign : Z;   (* exponent sign -1 or 1 *)
  np_eval  : Z    (* exponent value >= 0 *)
}.

Definition numpart_new : numpart_info := mkNumpart 1 0%Q 10 0%Q 0 1 0.

(** libm's [pow] at an integer exponent. *)
Definition pow (x : Q) (y : Z) : Q := Qpower x y.

Definition numpart_calc (info : numpart_info) : Q :=
  let val := np_val info in
  let e := if 0 <? np_eval info
           then pow (if np_base info =? 10 then 10%Q else 2%Q) (np_esign info * np_eval info)
           else 1%Q in
  let val := if 0 <? np_eval info then (val * e)%Q else val in
  let val := if 0 <? np_flen info
             then let d := pow (inject_Z (np_base info)) (np_flen info) in
                  ((val * d + np_frac info * e) / d)%Q
             else val in
  (inject_Z (np_sign info) * val)%Q.

(** The lexer's updates of the record, one per accepted character
    ([lex_process]: states LEX_NUM_0, LEX_NUM_BODY, LEX_NUM_FRAC, LEX_NUM_EXP and
    LEX_NUM_EXP_BODY).  A digit [v] not below the base is the lexer error
    "Invalid number", here [None]. *)
Definition lex_num_setbase (info : numpart_info) (b : Z) : numpart_info :=
  mkNumpart (np_sign info) (np_val info) b (np_frac info) (np_flen info)
            (np_esign info) (np_eval info).

Definition lex_num_body_digit (info : numpart_info) (v : Z) : option numpart_info :=
  if np_base info <=? v then None
  else Some (mkNumpart (np_sign info) (np_val info * inject_Z (np_base info) + inject_Z v)%Q
                       (np_base info) (np_frac info) (np_flen info)
                       (np_esign info) (np_eval info)).

Definition lex_num_frac_digit (info : numpart_info) (v : Z) : option numpart_info :=
  if np_base info <=? v then None
  else Some (mkNumpart (np_sign info) (np_val info) (np_base info)
                       (np_frac info * inject_Z (np_base info) + inject_Z v)%Q
                       (np_flen info + 1) (np_esign info) (np_eval info)).

Definition lex_num_exp_sign (info : numpart_info) (minus : bool) : numpart_info :=
  mkNumpart (np_sign info) (np_val info) (np_base info) (np_frac info) (np_flen info)
            (if minus then -1 else 1) (np_eval info).

Definition lex_num_exp_digit (info : numpart_info) (v : Z) : numpart_info :=
  mkNumpart (np_sign info) (np_val info) (np_base info) (np_frac info) (np_flen info)
            (np_esign info) (np_eval info * 10 + v).


(** What every record built by the lexer satisfies: one of the four bases,
    counters that are not negative, and no fractional digits accumulated
    unless they were counted. *)
Definition numpart_ok (info : numpart_info) : Prop :=
  In (np_base info) [2; 8; 10; 16]
  /\ 0 <= np_eval info /\ 0 <= np_flen info
  /\ (np_flen info = 0 -> (np_frac info == 0)%Q).

(** The record of the literal [0x1F.8p3]. *)
Definition hex_literal : numpart_info := mkNumpart 1 31%Q 16 8%Q 1 1 3.

End Numpart.
(** ** Expressions and the infix step of the parser *)

Module Parser.

Inductive ks_enum :=
| KS_INVALID | KS_PLUS | KS_UNPLUS | KS_MINUS | KS_UNMINUS | KS_PERCENT | KS_STAR
| KS_SLASH | KS_CARET | KS_AMP | KS_LT | KS_GT | KS_BANG | KS_EQU | KS_TILDE
| KS_COLON | KS_COMMA | KS_PERIOD | KS_PIPE | KS_LPAREN | KS_LBRACKET | KS_LBRACE
| KS_RPAREN | KS_RBRACKET | KS_RBRACE | KS_PLUSEQU | KS_MINUSEQU | KS_PERCENTEQU
| KS_STAREQU | KS_SLASHEQU | KS_CARETEQU | KS_LTEQU | KS_GTEQU | KS_BANGEQU | KS_EQU2
| KS_TILDEEQU | KS_AMP2 | KS_PIPE2 | KS_PERIOD3 | KS_PIPE2EQU | KS_AMP2EQU | KS_BREAK
| KS_CONTINUE | KS_DECLARE | KS_DEF | KS_DO | KS_ELSE | KS_ELSEIF | KS_END | KS_ENUM
| KS_FOR | KS_GOTO | KS_IF | KS_INCLUDE | KS_NAMESPACE | KS_NIL | KS_RETURN | KS_USING
| KS_VAR | KS_WHILE.

Scheme Equality for ks_enum.

Record filepos_st := mkFilepos {
  fullfile : Z;   (* index into script's files *)
  basefile : Z;   (* index into program's debug strings *)
  line : Z;
  chr : Z
}.

(** [expr_st]: the tag and the member of the union it selects.  A [list_ptr]
    of expressions is a list; the optional body of a list literal ([u.ex] may
    be NULL) is an option.  Numbers are the 64-bit patterns of doubles, strings
    are byte lists, a name is a list of identifiers. *)
Inductive expr :=
| EXPR_NIL (flp : filepos_st)
| EXPR_NUM (flp : filepos_st) (num : Z)
| EXPR_STR (flp : filepos_st) (str : list Z)
| EXPR_LIST (flp : filepos_st) (ex : option expr)
| EXPR_NAMES (flp : filepos_st) (names : list (list Z))
| EXPR_PAREN (flp : filepos_st) (ex : expr)
| EXPR_GROUP (flp : filepos_st) (group : list expr)
| EXPR_CAT (flp : filepos_st) (cat : list expr)
| EXPR_PREFIX (flp : filepos_st) (k : ks_enum) (ex : expr)
| EXPR_INFIX (flp : filepos_st) (k : ks_enum) (left right : expr)
| EXPR_CALL (flp : filepos_st) (cmd params : expr)
| EXPR_INDEX (flp : filepos_st) (obj key : expr)
| EXPR_SLICE (flp : filepos_st) (obj start len : expr).

(** [ex->flp] *)
Definition expr_flp (ex : expr) : filepos_st :=
  match ex with
  | EXPR_NIL f | EXPR_NUM f _ | EXPR_STR f _ | EXPR_LIST f _ | EXPR_NAMES f _
  | EXPR_PAREN f _ | EXPR_GROUP f _ | EXPR_CAT f _ | EXPR_PREFIX f _ _
  | EXPR_INFIX f _ _ _ | EXPR_CALL f _ _ | EXPR_INDEX f _ _ | EXPR_SLICE f _ _ _ => f
  end.

Definition expr_paren (flp : filepos_st) (ex : expr) : expr :=
  match ex with
  | EXPR_NUM _ _ => ex
  | _ => EXPR_PAREN flp ex
  end.

Definition expr_group (flp : filepos_st) (left right : expr) : expr :=
  let g := match left with EXPR_GROUP _ lg => lg | _ => [left] end in
  let g := g ++ match right with EXPR_GROUP _ rg => rg | _ => [right] end in
  EXPR_GROUP flp g.

(** The two [while] loops of [expr_cat] that unwrap parentheses. *)
Fixpoint unwrap_parens (ex : expr) : expr :=
  match ex with
  | EXPR_PAREN _ inner => unwrap_parens inner
  | _ => ex
  end.

Definition expr_cat (flp : filepos_st) (left right : expr) : expr :=
  let left := unwrap_parens left in
  let right := unwrap_parens right in
  match left, right with
  | EXPR_STR lf ls, EXPR_STR _ rs => EXPR_STR lf (ls ++ rs)
  | EXPR_LIST lf lex, EXPR_LIST _ rex =>
      match rex with
      | Some r =>
          match lex with
          | Some l => EXPR_LIST lf (Some (expr_group flp l r))
          | None => EXPR_LIST lf (Some r)
          end
      | None => left
      end
  | _, _ =>
      let c := match left with EXPR_CAT _ lc => lc | _ => [left] end in
      let c := c ++ match right with EXPR_CAT _ rc => rc | _ => [right] end in
      EXPR_CAT flp c
  end.

Section Infix.

(** The [double] arithmetic used to fold constants: [+], [-], [fmod], [*],
    [/] and [pow] of C, on the patterns of the operands. *)
Variables dbl_add dbl_sub dbl_fmod dbl_mul dbl_div dbl_pow : Z -> Z -> Z.

Definition fold_numbers (k : ks_enum) (a b : Z) : option Z :=
  match k with
  | KS_PLUS => Some (dbl_add a b)
  | KS_MINUS => Some (dbl_sub a b)
  | KS_PERCENT => Some (dbl_fmod a b)
  | KS_STAR => Some (dbl_mul a b)
  | KS_SLASH => Some (dbl_div a b)
  | KS_CARET => Some (dbl_pow a b)
  | _ => None
  end.

Definition expr_infix_build (flp : filepos_st) (k : ks_enum) (left right : expr) : expr :=
  if ks_enum_beq k KS_COMMA then expr_group flp left right
  else if ks_enum_beq k KS_TILDE then expr_cat flp left right
  else EXPR_INFIX flp k left right.

Definition expr_infix (flp : filepos_st) (k : ks_enum) (left right : expr) : expr :=
  match left, right with
  | EXPR_NUM lf a, EXPR_NUM _ b =>
      (* check for compile-time numeric optimizations *)
      match fold_numbers k a b with
      | Some c => EXPR_NUM lf c
      | None => expr_infix_build flp k left right
      end
  | _, _ => expr_infix_build flp k left right
  end.

Definition expr_call (flp : filepos_st) (cmd params : expr) : expr :=
  EXPR_CALL flp cmd params.

(** [pri_st] *)
Inductive pri_st :=
| pri_ok (ex : expr)
| pri_error (msg : string).

Definition parser_infix (flp : filepos_st) (k : ks_enum) (left right : expr) : pri_st :=
  if ks_enum_beq k KS_PIPE then
    match right with
    | EXPR_CALL rflp cmd params =>
        pri_ok (EXPR_CALL rflp cmd
                  (expr_infix flp KS_COMMA (expr_paren (expr_flp left) left) params))
    | EXPR_NAMES rflp _ =>
        pri_ok (expr_call rflp right (expr_paren (expr_flp left) left))
    | _ => pri_error "Invalid pipe"
    end
  else pri_ok (expr_infix flp k left right).

End Infix.

(** The arguments a call passes, as [program_evalCallArgcount] reads its
    [params]: the members of a group, or the single expression. *)
Definition call_args (params : expr) : list expr :=
  match params with
  | EXPR_GROUP _ g => g
  | _ => [params]
  end.

(** The names [f], [x] and [y] at one source position, for the examples. *)
Definition fp0 : filepos_st := mkFilepos 0 0 1 1.
Definition name_f : expr := EXPR_NAMES fp0 [[102]].
Definition name_x : expr := EXPR_NAMES fp0 [[120]].
Definition name_y : expr := EXPR_NAMES fp0 [[121]].

End Parser.
(** ** The run-time context *)

Module Ctx.
Import Pool.

(** [list_st]: the elements ([size] is their number) and the capacity
    [count] of the backing array. *)
Record list_st := mkList {
  vals : list sink_val;
  count : Z
}.

(** [str_st]: the bytes of a string ([size] is their number). *)
Abbreviation str_st := (list Z) (only parsing).

Definition ls_size (ls : list_st) : Z := Z.of_nat (length (vals ls)).
Definition str_size (s : str_st) : Z := Z.of_nat (length s).

(** [program]: the opcode buffer, the string and native-key tables, and the
    REPL flag. *)
Record program := mkProgram {
  ops : list Z;
  strTable : list (list Z);
  keyTable : list Z;
  repl : bool
}.

(** [ccs_st], a saved caller. *)
Record ccs_st := mkCcs {
  ccs_pc : Z;
  ccs_frame : Z;
  ccs_index : Z;
  ccs_lex_index : Z
}.

Inductive sink_gc_level := SINK_GC_NONE | SINK_GC_DEFAULT | SINK_GC_LOWMEM.

Inductive sink_run :=
| SINK_RUN_PASS | SINK_RUN_FAIL | SINK_RUN_ASYNC | SINK_RUN_TIMEOUT | SINK_RUN_REPLMORE.

(** [context_st].  Each entry of [lex_stk] is the chain of frames of one
    lexical level, current frame first; a frame is its 256 registers.  [err]
    keeps the message given to [opi_abort] (the stored text also carries the
    prefix "Error: " and the stack-trace lines read off the debug tables).
    [call_stk] has its top first.  [pinned] is the pinned-values set;
    [str_prealloc_memset] and [str_prealloc_lastmask] describe the slots of
    the string pool that hold the program's string table. *)
Record context := mkContext {
  prg : program;
  call_stk : list ccs_st;
  lex_stk : list (list (list sink_val));
  str_pool : pool str_st;
  list_pool : pool list_st;
  lex_index : Z;
  pc : Z;
  lastpc : Z;
  timeout : Z;
  timeout_left : Z;
  gc_left : Z;
  gc_level : sink_gc_level;
  err : option string;
  passed : bool;
  failed : bool;
  async : bool;
  pinned : list sink_val;
  str_prealloc_memset : Z;
  str_prealloc_lastmask : Z
}.

Definition with_call_lex (ctx : context) (cs : list ccs_st) (lx : list (list (list sink_val)))
    (li : Z) (p : Z) : context :=
  mkContext (prg ctx) cs lx (str_pool ctx) (list_pool ctx) li p (lastpc ctx)
            (timeout ctx) (timeout_left ctx) (gc_left ctx) (gc_level ctx)
            (err ctx) (passed ctx) (failed ctx) (async ctx)
            (pinned ctx) (str_prealloc_memset ctx) (str_prealloc_lastmask ctx).

Definition with_str_pool (ctx : context) (sp : pool str_st) : context :=
  mkContext (prg ctx) (call_stk ctx) (lex_stk ctx) sp (list_pool ctx) (lex_index ctx)
            (pc ctx) (lastpc ctx) (timeout ctx) (timeout_left ctx) (gc_left ctx)
            (gc_level ctx) (err ctx) (passed ctx) (failed ctx) (async ctx)
            (pinned ctx) (str_prealloc_memset ctx) (str_prealloc_lastmask ctx).

Definition with_list_pool (ctx : context) (lp : pool list_st) : context :=
  mkContext (prg ctx) (call_stk ctx) (lex_stk ctx) (str_pool ctx) lp (lex_index ctx)
            (pc ctx) (lastpc ctx) (timeout ctx) (timeout_left ctx) (gc_left ctx)
            (gc_level ctx) (err ctx) (passed ctx) (failed ctx) (async ctx)
            (pinned ctx) (str_prealloc_memset ctx) (str_prealloc_lastmask ctx).

Definition with_pc (ctx : context) (p lp : Z) : context :=
  mkContext (prg ctx) (call_stk ctx) (lex_stk ctx) (str_pool ctx) (list_pool ctx)
            (lex_index ctx) p lp (timeout ctx) (timeout_left ctx) (gc_left ctx)
            (gc_level ctx) (err ctx) (passed ctx) (failed ctx) (async ctx)
            (pinned ctx) (str_prealloc_memset ctx) (str_prealloc_lastmask ctx).

Definition with_ticks (ctx : context) (tl gl : Z) : context :=
  mkContext (prg ctx) (call_stk ctx) (lex_stk ctx) (str_pool ctx) (list_pool ctx)
            (lex_index ctx) (pc ctx) (lastpc ctx) (timeout ctx) tl gl
            (gc_level ctx) (err ctx) (passed ctx) (failed ctx) (async ctx)
            (pinned ctx) (str_prealloc_memset ctx) (str_prealloc_lastmask ctx).

Definition with_status (ctx : context) (e : option string) (p f a : bool) : context :=
  mkContext (prg ctx) (call_stk ctx) (lex_stk ctx) (str_pool ctx) (list_pool ctx)
            (lex_index ctx) (pc ctx) (lastpc ctx) (timeout ctx) (timeout_left ctx)
            (gc_left ctx) (gc_level ctx) e p f a
            (pinned ctx) (str_prealloc_memset ctx) (str_prealloc_lastmask ctx).

(** [var_get]: register [index] of the current frame of level [frame]. *)
Definition var_get (ctx : context) (frame index : Z) : sink_val :=
  nth (Z.to_nat index) (hd [] (nth (Z.to_nat frame) (lex_stk ctx) [])) SINK_NIL.

Definition empty_list : list_st := mkList [] 0.

Definition var_caststr (ctx : context) (a : sink_val) : str_st :=
  nth (Z.to_nat (var_index a)) (tbl (str_pool ctx)) [].

Definition var_castlist (ctx : context) (a : sink_val) : list_st :=
  nth (Z.to_nat (var_index a)) (tbl (list_pool ctx)) empty_list.

(** A write through the pointer returned by [var_castmlist]. *)
Definition store_list (ctx : context) (a : sink_val) (ls : list_st) : context :=
  with_list_pool ctx
    (mkPool (<[Z.to_nat (var_index a) := ls]> (tbl (list_pool ctx)))
            (size (list_pool ctx)) (aloc (list_pool ctx)) (ref (list_pool ctx))).

(** [opi_abort] with a message: the context fails and keeps the message. *)
Definition opi_abort (ctx : context) (msg : string) : context :=
  with_status ctx (Some msg) (passed ctx) true (async ctx).

Definition opi_abortcstr (ctx : context) (msg : string) : context := opi_abort ctx msg.

(** [sink_str_newblobgive] for a NUL-terminated buffer: a slot of the string
    pool is reserved and filled; the result is the tagged index.  [None] stands
    for the process ending in [bmp_reserve]. *)
Definition sink_str_newblobgive (junk : str_st) (junkw : Z) (ctx : context) (bytes : str_st)
    : option (sink_val * context) :=
  match bmp_reserve junk junkw (str_pool ctx) with
  | OutOfMemory => None
  | Reserved index p =>
      Some (str_val index,
            with_str_pool ctx
              (mkPool (<[Z.to_nat index := bytes]> (tbl p)) (size p) (aloc p) (ref p)))
  end.

(** [list_int]: the stack of list indices carried by the recursive walks. *)
Definition list_int_has (li : list Z) (v : Z) : bool := existsb (Z.eqb v) li.
Definition list_int_push (li : list Z) (v : Z) : list Z := li ++ [v].
Definition list_int_pop (li : list Z) : list Z := removelast li.

(** The number of slots of a pool of [n] lists whose index is not on [li]. *)
Definition unvisited (n : nat) (li : list Z) : nat :=
  length (List.filter (fun i => negb (list_int_has li (Z.of_nat i))) (seq 0 n)).

End Ctx.
(** ** Storing into a list by index *)

Module Setat.
Import Pool Ctx.

Definition sink_list_grow : Z := 200.

(** The loop [while (ls->size < totalsize) ls->vals[ls->size++] = SINK_NIL],
    by the number of iterations left. *)
Fixpoint pushnils_loop (n : nat) (vs : list sink_val) : list sink_val :=
  match n with
  | O => vs
  | S n' => pushnils_loop n' (vs ++ [SINK_NIL])
  end.

Definition opi_list_pushnils (ls : list_st) (totalsize : Z) : list_st :=
  if totalsize <=? ls_size ls then ls
  else
    let count' := if count ls <? totalsize then totalsize + sink_list_grow else count ls in
    mkList (pushnils_loop (Z.to_nat (totalsize - ls_size ls)) (vals ls)) count'.

(** How one case of the dispatch [switch] ends: at its [break] with a new
    context, or in [RUNDONE] with a run status.  [OpUndefined] marks the inputs
    on which C gives the code no meaning (a [double] outside the range of
    [int], a signed overflow). *)
Inductive op_result :=
| OpNext (ctx : context)
| OpDone (r : sink_run) (ctx : context)
| OpUndefined.

(** The case [OP_SETAT] after [LOAD_abcdef]: [A]..[F] are the operand bytes. *)
Definition op_setat (ctx : context) (A B C D E F : Z) : op_result :=
  let X := var_get ctx A B in
  if negb (sink_islist X) then
    OpDone SINK_RUN_FAIL (opi_abortcstr ctx "Expecting list when setting index")
  else
    let Y := var_get ctx C D in
    if negb (sink_isnum Y) then
      OpDone SINK_RUN_FAIL (opi_abortcstr ctx "Expecting index to be number")
    else
      match dbl_to_int Y with
      | None => OpUndefined
      | Some a =>
          let ls2 := var_castlist ctx X in
          let a := if a <? 0 then a + ls_size ls2 else a in
          if INT_MAX <=? a then OpUndefined
          else
            let ls2 := opi_list_pushnils ls2 (a + 1) in
            let ctx := store_list ctx X ls2 in
            if (0 <=? a) && (a <? ls_size ls2) then
              OpNext (store_list ctx X
                        (mkList (<[Z.to_nat a := var_get ctx E F]> (vals ls2)) (count ls2)))
            else OpNext ctx
      end.


(** A context for the examples: list 0 is [{nil, nil}] with registers
    r0 = that list, r1 = 4.0, r2 = -5.0, r3 = 7.0 in the frame of level 0. *)
Definition dbl_4 : sink_val := 0x4010000000000000.
Definition dbl_m5 : sink_val := 0xC014000000000000.
Definition dbl_7 : sink_val := 0x401C000000000000.

Definition setat_ctx : context :=
  mkContext (mkProgram [] [] [] false) []
            [[[list_val 0; dbl_4; dbl_m5; dbl_7]]]
            (mkPool [] 64 [0] [0])
            (mkPool (mkList [SINK_NIL; SINK_NIL] 200 :: replicate 63 empty_list) 64 [1] [0])
            0 0 0 0 0 0 SINK_GC_NONE None false false false [] 0 0.

End Setat.
(** ** Ordering of values *)

Module Order.
Import Pool Ctx.

(** libc's [memcmp] on the first [n] bytes: zero when they agree, otherwise
    the difference of the first two bytes that differ (its sign is what the C
    standard fixes). *)
Fixpoint memcmp (s1 s2 : list Z) (n : nat) : Z :=
  match n with
  | O => 0
  | S n' =>
      match s1, s2 with
      | b1 :: r1, b2 :: r2 => if b1 =? b2 then memcmp r1 r2 n' else b1 - b2
      | _, _ => 0
      end
  end.

(** The [for] loop of [sortboth] over the first [minsize] elements: [rec] is
    the recursive call.  The result is the first non-zero comparison, or 0. *)
Fixpoint sortboth_elems (rec : context -> sink_val -> sink_val -> option (Z * context))
    (ctx : context) (v1 v2 : list sink_val) : option (Z * context) :=
  match v1, v2 with
  | x :: r1, y :: r2 =>
      match rec ctx x y with
      | None => None
      | Some (res, ctx') =>
          if res =? 0 then sortboth_elems rec ctx' r1 r2 else Some (res, ctx')
      end
  | _, _ => Some (0, ctx)
  end.

(** [sortboth].  The stack [li] is pushed twice before the element loop and
    popped twice on each way out of it, so the caller finds it as it left it;
    the model passes the pushed stack down and returns the result and the
    context.  [fuel] bounds the depth of the recursion ([None]: not enough). *)
Fixpoint sortboth (fuel : nat) (ctx : context) (li : list Z) (a b : sink_val)
    : option (Z * context) :=
  match fuel with
  | O => None
  | S fuel' =>
      let atype := sink_typeof a in
      let btype := sink_typeof b in
      if a =? b then Some (0, ctx)
      else if negb (sink_type_eqb atype btype) then
        Some (match atype with
              | SINK_TYPE_NIL => -1
              | SINK_TYPE_NUM => match btype with SINK_TYPE_NIL => 1 | _ => -1 end
              | SINK_TYPE_STR => match btype with SINK_TYPE_LIST => -1 | _ => 1 end
              | SINK_TYPE_LIST => 1
              end, ctx)
      else if sink_type_eqb atype SINK_TYPE_NUM then
        if sink_num_isnan a then
          if sink_num_isnan b then Some (0, ctx) else Some (-1, ctx)
        else if sink_num_isnan b then Some (1, ctx)
        else Some (if dbl_lt a b then -1 else 1, ctx)
      else if sink_type_eqb atype SINK_TYPE_STR then
        let s1 := var_caststr ctx a in
        let s2 := var_caststr ctx b in
        if str_size s1 =? 0 then
          if str_size s2 =? 0 then Some (0, ctx) else Some (-1, ctx)
        else if str_size s2 =? 0 then Some (1, ctx)
        else
          let res := memcmp s1 s2
                       (Z.to_nat (if str_size s1 <? str_size s2 then str_size s1
                                  else str_size s2)) in
          if res =? 0 then
            Some (if str_size s1 =? str_size s2 then 0
                  else if str_size s1 <? str_size s2 then -1 else 1, ctx)
          else Some (if res <? 0 then -1 else 1, ctx)
      else
        (* otherwise, comparing two lists *)
        let idx1 := var_index a in
        let idx2 := var_index b in
        if list_int_has li idx1 || list_int_has li idx2 then
          Some (-1, opi_abortcstr ctx "Cannot sort circular lists")
        else
          let ls1 := var_castlist ctx a in
          let ls2 := var_castlist ctx b in
          if ls_size ls1 =? 0 then
            if ls_size ls2 =? 0 then Some (0, ctx) else Some (-1, ctx)
          else if ls_size ls2 =? 0 then Some (1, ctx)
          else
            let minsize := if ls_size ls1 <? ls_size ls2 then ls_size ls1 else ls_size ls2 in
            let li := list_int_push (list_int_push li idx1) idx2 in
            match sortboth_elems (fun c x y => sortboth fuel' c li x y) ctx
                    (take (Z.to_nat minsize) (vals ls1))
                    (take (Z.to_nat minsize) (vals ls2)) with
            | None => None
            | Some (res, ctx') =>
                if negb (res =? 0) then Some (res, ctx')
                else if ls_size ls1 <? ls_size ls2 then Some (-1, ctx')
                else if ls_size ls2 <? ls_size ls1 then Some (1, ctx')
                else Some (0, ctx')
            end
  end.

(** [opi_order]: a fresh stack.  Every level of the recursion adds a list
    index that was not on the stack, so one unit of fuel per list of the pool,
    and one more, is enough (see [opi_order_total]). *)
Definition opi_order (ctx : context) (a b : sink_val) : option (Z * context) :=
  sortboth (S (length (tbl (list_pool ctx)))) ctx [] a b.

(** *** What the comparison is meant to compute *)

(** nil < number < string < list *)
Definition type_rank (t : sink_type) : Z :=
  match t with
  | SINK_TYPE_NIL => 0
  | SINK_TYPE_NUM => 1
  | SINK_TYPE_STR => 2
  | SINK_TYPE_LIST => 3
  end.

(** Byte strings: the first differing byte decides, then the length. *)
Fixpoint bytes_order (s1 s2 : list Z) : Z :=
  match s1, s2 with
  | [], [] => 0
  | [], _ :: _ => -1
  | _ :: _, [] => 1
  | x :: r1, y :: r2 =>
      if x <? y then -1 else if y <? x then 1 else bytes_order r1 r2
  end.

(** The comparison without the stack of visited lists: same pattern, then the
    types, then within a type numbers by value with NaN first, strings by
    [bytes_order], lists by their first differing element and then by
    length. *)
Inductive val_order (ctx : context) : sink_val -> sink_val -> Z -> Prop :=
| vo_same a : val_order ctx a a 0
| vo_types a b :
    type_rank (sink_typeof a) <> type_rank (sink_typeof b) ->
    val_order ctx a b (if type_rank (sink_typeof a) <? type_rank (sink_typeof b) then -1 else 1)
| vo_nan_nan a b :
    sink_typeof a = SINK_TYPE_NUM -> sink_typeof b = SINK_TYPE_NUM ->
    sink_num_isnan a = true -> sink_num_isnan b = true -> val_order ctx a b 0
| vo_nan_l a b :
    sink_typeof a = SINK_TYPE_NUM -> sink_typeof b = SINK_TYPE_NUM ->
    sink_num_isnan a = true -> sink_num_isnan b = false -> val_order ctx a b (-1)
| vo_nan_r a b :
    sink_typeof a = SINK_TYPE_NUM -> sink_typeof b = SINK_TYPE_NUM ->
    sink_num_isnan a = false -> sink_num_isnan b = true -> val_order ctx a b 1
| vo_num_lt a b :
    sink_typeof a = SINK_TYPE_NUM -> sink_typeof b = SINK_TYPE_NUM ->
    sink_num_isnan a = false -> sink_num_isnan b = false ->
    dbl_lt a b = true -> val_order ctx a b (-1)
| vo_num_gt a b :
    sink_typeof a = SINK_TYPE_NUM -> sink_typeof b = SINK_TYPE_NUM ->
    sink_num_isnan a = false -> sink_num_isnan b = false ->
    dbl_lt b a = true -> val_order ctx a b 1
| vo_str a b :
    sink_typeof a = SINK_TYPE_STR -> sink_typeof b = SINK_TYPE_STR ->
    val_order ctx a b (bytes_order (var_caststr ctx a) (var_caststr ctx b))
| vo_list a b r :
    sink_typeof a = SINK_TYPE_LIST -> sink_typeof b = SINK_TYPE_LIST ->
    elems_order ctx (vals (var_castlist ctx a)) (vals (var_castlist ctx b)) r ->
    val_order ctx a b r
with elems_order (ctx : context) : list sink_val -> list sink_val -> Z -> Prop :=
| eo_nil_nil : elems_order ctx [] [] 0
| eo_nil_l y r2 : elems_order ctx [] (y :: r2) (-1)
| eo_nil_r x r1 : elems_order ctx (x :: r1) [] 1
| eo_differ x y r1 r2 r :
    val_order ctx x y r -> r <> 0 -> elems_order ctx (x :: r1) (y :: r2) r
| eo_equal x y r1 r2 r :
    val_order ctx x y 0 -> elems_order ctx r1 r2 r -> elems_order ctx (x :: r1) (y :: r2) r.

Definition is_sign (r : Z) : Prop := r = -1 \/ r = 0 \/ r = 1.

(** How a comparison leaves the context: untouched, or aborted with -1. *)
Definition order_outcome (ctx : context) (r : Z) (ctx' : context) : Prop :=
  is_sign r
  /\ (ctx' = ctx \/ (ctx' = opi_abortcstr ctx "Cannot sort circular lists" /\ r = -1)).

Definition ctx_outcome (ctx : context) (r : Z) (ctx' : context) : Prop :=
  ctx' = ctx \/ (ctx' = opi_abortcstr ctx "Cannot sort circular lists" /\ r = -1).

(** The result of a list comparison from the result of the loop. *)
Definition list_finish (res : Z) (n1 n2 : nat) : Z :=
  if negb (res =? 0) then res
  else if (n1 <? n2)%nat then -1 else if (n2 <? n1)%nat then 1 else 0.

(** A number whose pattern other code can produce: a quiet NaN, or a
    finite or infinite double other than negative zero. *)
Definition plain_num (v : sink_val) : Prop :=
  0 <= v <= UINT64_MAX
  /\ (sink_num_isnan v = true \/ (dbl_isnan v = false /\ v <> 0x8000000000000000)).

(** Every number among [a], [b] and the elements of the lists is plain. *)
Definition plain_nums (ctx : context) (a b : sink_val) : Prop :=
  (sink_isnum a = true -> plain_num a) /\ (sink_isnum b = true -> plain_num b)
  /\ Forall (fun ls => Forall (fun v => sink_isnum v = true -> plain_num v) (vals ls))
            (tbl (list_pool ctx)).

(** Contexts for the examples.  [cyc_ctx]: list 0 is [{list 0}] and list 1 is
    [{list 1}].  [ord_ctx]: string 0 is "ab", string 1 is "abc", list 0 is
    [{1.0, string 0}], list 1 is [{1.0, string 1}]. *)
Definition base_ctx (strs : list str_st) (lists : list list_st) : context :=
  mkContext (mkProgram [] [] [] false) [] [[replicate 256 SINK_NIL]]
            (mkPool strs 64 [0] [0]) (mkPool lists 64 [0] [0])
            0 0 0 0 0 0 SINK_GC_NONE None false false false [] 0 0.

Definition cyc_ctx : context :=
  base_ctx [] [mkList [list_val 0] 200; mkList [list_val 1] 200].

Definition dbl_1 : sink_val := 0x3FF0000000000000.
Definition dbl_2 : sink_val := 0x4000000000000000.
Definition dbl_neg0 : sink_val := 0x8000000000000000.

Definition ord_ctx : context :=
  base_ctx [[97; 98]; [97; 98; 99]]
           [mkList [dbl_1; str_val 0] 200; mkList [dbl_1; str_val 1] 200].

End Order.
(** ** Pickling to JSON *)

Module Pickle.
Import Pool Ctx.

(** The code of a character. *)
Definition ch (c : ascii) : Z := Z.of_N (N_of_ascii c).

(** The double quote, written by its code. *)
Definition DQUOTE : Z := 34.

Definition isSpace (c : Z) : bool :=
  (c =? ch " ") || (c =? 10) || (c =? 13) || (c =? 9).

Definition isNum (c : Z) : bool := (ch "0" <=? c) && (c <=? ch "9").

Definition isHex (c : Z) : bool :=
  isNum c || ((ch "a" <=? c) && (c <=? ch "f")) || ((ch "A" <=? c) && (c <=? ch "F")).

Definition toNibble (n : Z) : Z :=
  if (0 <=? n) && (n <=? 9) then ch "0" + n
  else if n <? 16 then ch "A" + (n - 10)
  else ch "0".

Inductive pkv :=
| PKV_START | PKV_NULL1 | PKV_NULL2 | PKV_NULL3 | PKV_NUM_0 | PKV_NUM_NEG | PKV_NUM_INT
| PKV_NUM_FRAC | PKV_NUM_FRACE | PKV_NUM_FRACE2 | PKV_NUM_EXP | PKV_STR | PKV_STR_ESC
| PKV_STR_U1 | PKV_STR_U2 | PKV_STR_U3 | PKV_STR_U4 | PKV_ARRAY | PKV_ENDVAL.

Definition is_dot_or_e (c : Z) : bool := (c =? ch ".") || (c =? ch "e") || (c =? ch "E").

(** One turn of the loop of [pk_isjson] on the byte [b] and its successor
    [nb] (0 past the end): [None] is [return false]; otherwise the new state,
    the new count of open arrays, and whether the turn did [i++] to skip the
    sign of an exponent. *)
Definition pk_isjson_step (state : pkv) (arrays b nb : Z) : option (pkv * Z * bool) :=
  let goto (s : pkv) := Some (s, arrays, false) in
  match state with
  | PKV_START =>
      if b =? ch "n" then
        if negb (nb =? ch "u") then None else goto PKV_NULL1
      else if b =? ch "0" then
        if is_dot_or_e nb then goto PKV_NUM_0 else goto PKV_ENDVAL
      else if b =? ch "-" then goto PKV_NUM_NEG
      else if isNum b then
        if isNum nb then goto PKV_NUM_INT
        else if is_dot_or_e nb then goto PKV_NUM_0
        else goto PKV_ENDVAL
      else if b =? DQUOTE then goto PKV_STR
      else if b =? ch "[" then
        if isSpace nb || (nb =? ch "]") then Some (PKV_ARRAY, arrays + 1, false)
        else Some (PKV_START, arrays + 1, false)
      else if negb (isSpace b) then None
      else goto PKV_START
  | PKV_NULL1 => if negb (nb =? ch "l") then None else goto PKV_NULL2
  | PKV_NULL2 => if negb (nb =? ch "l") then None else goto PKV_NULL3
  | PKV_NULL3 => goto PKV_ENDVAL
  | PKV_NUM_0 =>
      if b =? ch "." then goto PKV_NUM_FRAC
      else if (b =? ch "e") || (b =? ch "E") then
        Some (PKV_NUM_EXP, arrays, (nb =? ch "+") || (nb =? ch "-"))
      else None
  | PKV_NUM_NEG =>
      if b =? ch "0" then
        if is_dot_or_e nb then goto PKV_NUM_0 else goto PKV_ENDVAL
      else if isNum b then
        if isNum nb then goto PKV_NUM_INT
        else if is_dot_or_e nb then goto PKV_NUM_0
        else goto PKV_ENDVAL
      else None
  | PKV_NUM_INT =>
      if negb (isNum b) then None
      else if is_dot_or_e nb then goto PKV_NUM_0
      else if negb (isNum nb) then goto PKV_ENDVAL
      else goto PKV_NUM_INT
  | PKV_NUM_FRAC =>
      if negb (isNum b) then None
      else if (nb =? ch "e") || (nb =? ch "E") then goto PKV_NUM_FRACE
      else if negb (isNum nb) then goto PKV_ENDVAL
      else goto PKV_NUM_FRAC
  | PKV_NUM_FRACE => goto PKV_NUM_FRACE2
  | PKV_NUM_FRACE2 =>
      if isNum b then
        if isNum nb then goto PKV_NUM_EXP else goto PKV_ENDVAL
      else if (b =? ch "+") || (b =? ch "-") then goto PKV_NUM_EXP
      else None
  | PKV_NUM_EXP =>
      if negb (isNum b) then None
      else if negb (isNum nb) then goto PKV_ENDVAL
      else goto PKV_NUM_EXP
  | PKV_STR =>
      if b =? ch "\" then goto PKV_STR_ESC
      else if b =? DQUOTE then goto PKV_ENDVAL
      else if b <? ch " " then None
      else goto PKV_STR
  | PKV_STR_ESC =>
      if (b =? DQUOTE) || (b =? ch "\") || (b =? ch "/") || (b =? ch "b")
         || (b =? ch "f") || (b =? ch "n") || (b =? ch "r") || (b =? ch "t")
      then goto PKV_STR
      else if b =? ch "u" then
        if negb (nb =? ch "0") then None else goto PKV_STR_U1
      else None
  | PKV_STR_U1 => if negb (nb =? ch "0") then None else goto PKV_STR_U2
  | PKV_STR_U2 => if negb (isHex nb) then None else goto PKV_STR_U3
  | PKV_STR_U3 => if negb (isHex nb) then None else goto PKV_STR_U4
  | PKV_STR_U4 => goto PKV_STR
  | PKV_ARRAY =>
      if b =? ch "]" then goto PKV_ENDVAL
      else if negb (isSpace nb) && negb (nb =? ch "]") then goto PKV_START
      else goto PKV_ARRAY
  | PKV_ENDVAL =>
      if 0 <? arrays then
        if b =? ch "," then goto PKV_START
        else if b =? ch "]" then Some (PKV_ENDVAL, arrays - 1, false)
        else if negb (isSpace b) then None
        else goto PKV_ENDVAL
      else if negb (isSpace b) then None
      else goto PKV_ENDVAL
  end.

Definition pkv_is_endval (s : pkv) : bool :=
  match s with PKV_ENDVAL => true | _ => false end.

Fixpoint pk_isjson_loop (s : list Z) (state : pkv) (arrays : Z) : bool :=
  match s with
  | [] => pkv_is_endval state
  | b :: rest =>
      let nb := match rest with [] => 0 | c :: _ => c end in
      match pk_isjson_step state arrays b nb with
      | None => false
      | Some (state', arrays', skip) =>
          if skip then
            match rest with
            | [] => pkv_is_endval state'
            | _ :: rest' => pk_isjson_loop rest' state' arrays'
            end
          else pk_isjson_loop rest state' arrays'
      end
  end.

Definition pk_isjson (s : str_st) : bool := pk_isjson_loop s PKV_START 0.

Definition json_null : str_st := [ch "n"; ch "u"; ch "l"; ch "l"].

(** The bytes [pk_tojson] writes for one byte of a string. *)
Definition json_escape (b : Z) : list Z :=
  if (b =? DQUOTE) || (b =? ch "\") then [ch "\"; b]
  else if b =? 8 then [ch "\"; ch "b"]
  else if b =? 12 then [ch "\"; ch "f"]
  else if b =? 10 then [ch "\"; ch "n"]
  else if b =? 13 then [ch "\"; ch "r"]
  else if b =? 9 then [ch "\"; ch "t"]
  else if (b <? 0x20) || (0x80 <=? b) then
    [ch "\"; ch "u"; ch "0"; ch "0";
     toNibble (Z.land (Z.shiftr b 4) 0x0F); toNibble (Z.land b 0x0F)]
  else [b].

Definition json_string (src : str_st) : str_st :=
  DQUOTE :: concat (map json_escape src) ++ [DQUOTE].

(** The elements of an array, separated by commas, between brackets. *)
Fixpoint json_join (strs : list str_st) : list Z :=
  match strs with
  | [] => []
  | [s] => s
  | s :: rest => s ++ ch "," :: json_join rest
  end.

Definition json_array (strs : list str_st) : str_st :=
  ch "[" :: json_join strs ++ [ch "]"].

(** The loop of [pk_tojson] over the elements of a list: [rec] is the
    recursive call, [li] the stack of list indices, [strs] the renderings
    gathered so far.  [Some (None, li)] is the early [return false]. *)
Fixpoint pk_tojson_elems
    (rec : sink_val -> list Z -> option (option str_st * list Z))
    (vs : list sink_val) (li : list Z) (strs : list str_st)
    : option (option (list str_st) * list Z) :=
  match vs with
  | [] => Some (Some strs, li)
  | v :: rest =>
      match rec v li with
      | None => None
      | Some (None, li') => Some (None, li')
      | Some (Some s2, li') => pk_tojson_elems rec rest li' (strs ++ [s2])
      end
  end.

Section ToJson.

(** [snprintf(buf, bufsize, "%.16g", num)]: the text printed for the double
    with pattern [num]. *)
Variable snprintf_g16 : sink_val -> list Z.

Definition numtostr (num : sink_val) : list Z :=
  match snprintf_g16 num with
  | [45; 48] => [48]   (* fix negative zero silliness *)
  | buf => buf
  end.

(** [pk_tojson]: [Some s] is [true] with the rendering [s], [None] is [false]
    (circular); the stack is returned as the call leaves it.  [fuel] bounds
    the depth of the recursion. *)
Fixpoint pk_tojson (fuel : nat) (ctx : context) (a : sink_val) (li : list Z)
    : option (option str_st * list Z) :=
  match fuel with
  | O => None
  | S fuel' =>
      match sink_typeof a with
      | SINK_TYPE_NIL => Some (Some json_null, li)
      | SINK_TYPE_NUM =>
          let s2 := numtostr a in
          if pk_isjson s2 then Some (Some s2, li)
          else Some (Some json_null, li)
      | SINK_TYPE_STR => Some (Some (json_string (var_caststr ctx a)), li)
      | SINK_TYPE_LIST =>
          let idx := var_index a in
          if list_int_has li idx then Some (None, li)   (* circular *)
          else
            let li := list_int_push li idx in
            let ls := var_castlist ctx a in
            match pk_tojson_elems (pk_tojson fuel' ctx) (vals ls) li [] with
            | None => None
            | Some (None, li') => Some (None, li')
            | Some (Some strs, li') => Some (Some (json_array strs), list_int_pop li')
            end
      end
  end.

(** What a call can come to: a result, the end of the process in
    [bmp_reserve], or a model that ran out of fuel. *)
Inductive outcome (A : Type) :=
| Returned (x : A)
| ProcessExit
| OutOfFuel.
Arguments Returned {A}.
Arguments ProcessExit {A}.
Arguments OutOfFuel {A}.

(** [opi_pickle_json].  One unit of fuel per list of the pool, and one more,
    is enough (see [pk_tojson_total]). *)
Definition opi_pickle_json (junk : str_st) (junkw : Z) (ctx : context) (a : sink_val)
    : outcome (sink_val * context) :=
  match pk_tojson (S (length (tbl (list_pool ctx)))) ctx a [] with
  | None => OutOfFuel
  | Some (None, _) =>
      Returned (SINK_NIL,
                if failed ctx then ctx
                else opi_abortcstr ctx "Cannot pickle circular structure to JSON format")
  | Some (Some s, _) =>
      match sink_str_newblobgive junk junkw ctx s with
      | None => ProcessExit
      | Some (v, ctx') => Returned (v, ctx')
      end
  end.

End ToJson.

Arguments Returned {A}.
Arguments ProcessExit {A}.
Arguments OutOfFuel {A}.

(** *** Reference cycles *)

(** List [i] has list [j] among its elements. *)
Definition list_edge (ctx : context) (i j : Z) : Prop :=
  exists v, In v (vals (nth (Z.to_nat i) (tbl (list_pool ctx)) empty_list))
            /\ sink_typeof v = SINK_TYPE_LIST /\ var_index v = j.

(** [a] contains a reference cycle: it is a list from which a list [k] can be
    reached (through elements, in any number of steps, possibly none) that can
    be reached from one of its own elements. *)
Definition has_cycle (ctx : context) (a : sink_val) : Prop :=
  sink_typeof a = SINK_TYPE_LIST
  /\ exists k, clos_refl_trans Z (list_edge ctx) (var_index a) k
               /\ clos_trans Z (list_edge ctx) k k.

(** The walk of [pk_tojson] from [a] with stack [li] meets a list that is on
    the stack. *)
Inductive circ (ctx : context) : list Z -> sink_val -> Prop :=
| circ_here li a :
    sink_typeof a = SINK_TYPE_LIST -> list_int_has li (var_index a) = true ->
    circ ctx li a
| circ_deep li a v :
    sink_typeof a = SINK_TYPE_LIST -> list_int_has li (var_index a) = false ->
    In v (vals (var_castlist ctx a)) ->
    circ ctx (list_int_push li (var_index a)) v ->
    circ ctx li a.

(** From [a] a list can be reached that is on the stack [li] or that lies on
    a cycle. *)
Definition leads_back (ctx : context) (li : list Z) (a : sink_val) : Prop :=
  exists k, clos_refl_trans Z (list_edge ctx) (var_index a) k
            /\ (list_int_has li k = true \/ clos_trans Z (list_edge ctx) k k).

(** The C standard's texts for values that are not finite: "inf" or
    "infinity", "nan" or "nan(...)", each after an optional minus sign. *)
Definition nonfinite_text (s : list Z) : Prop :=
  exists sign rest, (sign = [] \/ sign = [ch "-"])
    /\ (s = sign ++ [ch "i"; ch "n"; ch "f"] ++ rest
        \/ s = sign ++ [ch "n"; ch "a"; ch "n"] ++ rest).

(** A [printf] that follows the standard on values that are not finite. *)
Definition c99_nonfinite (snprintf_g16 : sink_val -> list Z) : Prop :=
  forall v, dbl_nonfinite v = true -> nonfinite_text (snprintf_g16 v).

(** A string pool that has room: well formed, and below the size at which
    [bmp_reserve] gives up. *)
Definition str_pool_room (ctx : context) : Prop :=
  pool_wf (str_pool ctx) /\ size (str_pool ctx) < 0x3FFFFFFF.

(** A [printf] for the examples: "inf", "-inf" and "nan" for the values that
    are not finite, "1" for everything else. *)
Definition printf_example (v : sink_val) : list Z :=
  if dbl_isnan v then [ch "n"; ch "a"; ch "n"]
  else if dbl_isinf v then
    if dbl_sign v then [ch "-"; ch "i"; ch "n"; ch "f"] else [ch "i"; ch "n"; ch "f"]
  else [ch "1"].

Definition dbl_inf : sink_val := 0x7FF0000000000000.

(** Contexts for the examples: in [loop_ctx] list 0 is [{1.0, list 1}] and
    list 1 is [{list 0}]; in [tree_ctx] list 0 is [{1.0, list 1, list 1}] and
    list 1 is [{nil}]. *)
Definition pk_ctx (lists : list list_st) : context :=
  mkContext (mkProgram [] [] [] false) [] [[replicate 256 SINK_NIL]]
            (mkPool (replicate 64 []) 64 [0] [0])
            (mkPool lists 64 [3] [0])
            0 0 0 0 0 0 SINK_GC_NONE None false false false [] 0 0.

Definition loop_ctx : context :=
  pk_ctx [mkList [0x3FF0000000000000; list_val 1] 200; mkList [list_val 0] 200].

Definition tree_ctx : context :=
  pk_ctx [mkList [0x3FF0000000000000; list_val 1; list_val 1] 200; mkList [SINK_NIL] 200].

End Pickle.
(** ** Garbage collection *)

Module Gc.
Import Pool Ctx.

Definition SINK_GC_TICKS : Z := 100.

(** [bmp[index / 64] |= 1 << (index % 64)]. *)
Definition bmp_setbit (bmp : list Z) (index : Z) : list Z :=
  let k := Z.to_nat (Z.quot index 64) in
  match bmp !! k with
  | Some w => <[k := Z.lor w (Z.shiftl 1 (Z.rem index 64))]> bmp
  | None => bmp
  end.

(** [bmp_hassetbit]: whether the bit was set, and the bitmap with the bit set. *)
Definition bmp_hassetbit (bmp : list Z) (index : Z) : bool * list Z :=
  if bmp_bit bmp index then (true, bmp) else (false, bmp_setbit bmp index).

(** [memset(words, 0xFF, sizeof(uint64_t) * n)]. *)
Definition memset_ones (words : list Z) (n : Z) : list Z :=
  replicate (Nat.min (Z.to_nat n) (length words)) UINT64_MAX ++ drop (Z.to_nat n) words.

(** [context_clearref]: both reachability bitmaps are cleared, then the slots
    of the program's string table are marked. *)
Definition context_clearref (ctx : context) : context :=
  let sp := str_pool ctx in
  let lp := list_pool ctx in
  let sref := memset0 (ref sp) 0 (Z.quot (size sp) 64) in
  let lref := memset0 (ref lp) 0 (Z.quot (size lp) 64) in
  let sref := if 0 <? str_prealloc_memset ctx
              then memset_ones sref (str_prealloc_memset ctx) else sref in
  let sref := <[Z.to_nat (str_prealloc_memset ctx) := str_prealloc_lastmask ctx]> sref in
  with_str_pool (with_list_pool ctx (mkPool (tbl lp) (size lp) (aloc lp) lref))
                (mkPool (tbl sp) (size sp) (aloc sp) sref).

(** The loop of [context_markvals] over [vs]; [rec] is the recursive call on
    the elements of a list met for the first time.  The pair is
    ([str_ref], [list_ref]). *)
Fixpoint markvals_loop (rec : list sink_val -> list Z * list Z -> option (list Z * list Z))
    (ltbl : list list_st) (vs : list sink_val) (refs : list Z * list Z)
    : option (list Z * list Z) :=
  match vs with
  | [] => Some refs
  | v :: rest =>
      if sink_isstr v then
        markvals_loop rec ltbl rest (bmp_setbit (fst refs) (var_index v), snd refs)
      else if sink_islist v then
        let '(was, lref) := bmp_hassetbit (snd refs) (var_index v) in
        if was then markvals_loop rec ltbl rest (fst refs, lref)
        else
          match rec (vals (nth (Z.to_nat (var_index v)) ltbl empty_list)) (fst refs, lref) with
          | Some refs' => markvals_loop rec ltbl rest refs'
          | None => None
          end
      else markvals_loop rec ltbl rest refs
  end.

(** [context_markvals]; [fuel] bounds the depth of the recursion. *)
Fixpoint context_markvals (fuel : nat) (ltbl : list list_st) (vs : list sink_val)
    (refs : list Z * list Z) : option (list Z * list Z) :=
  markvals_loop
    (match fuel with
     | O => fun _ _ => None
     | S f => context_markvals f ltbl
     end) ltbl vs refs.

(** The depth [context_markvals] can reach: one level per clear bit of
    [list_ref], and one more. *)
Definition mark_fuel (lref : list Z) : nat := S (64 * length lref).

Definition markvals_top (ltbl : list list_st) (vs : list sink_val) (refs : list Z * list Z)
    : option (list Z * list Z) :=
  context_markvals (mark_fuel (snd refs)) ltbl vs refs.

(** Marking from each array of [roots] in turn. *)
Fixpoint mark_roots (ltbl : list list_st) (roots : list (list sink_val))
    (refs : list Z * list Z) : option (list Z * list Z) :=
  match roots with
  | [] => Some refs
  | vs :: more =>
      match markvals_top ltbl vs refs with
      | Some refs' => mark_roots ltbl more refs'
      | None => None
      end
  end.

(** The arrays [context_mark] starts from: the pinned values, then every
    frame of every lexical level. *)
Definition gc_roots (ctx : context) : list (list sink_val) :=
  pinned ctx :: concat (lex_stk ctx).

Definition context_mark (ctx : context) : option context :=
  let sp := str_pool ctx in
  let lp := list_pool ctx in
  match mark_roots (tbl lp) (gc_roots ctx) (ref sp, ref lp) with
  | Some (sref, lref) =>
      Some (with_str_pool (with_list_pool ctx (mkPool (tbl lp) (size lp) (aloc lp) lref))
                          (mkPool (tbl sp) (size sp) (aloc sp) sref))
  | None => None
  end.

(** The inner loop of [context_sweephelp] over the bits of one word: [n] bits
    are left, [bi] is the next one. *)
Fixpoint sweep_bits (n : nat) (bi : Z) (aw rw : Z) : Z :=
  match n with
  | O => aw
  | S n' =>
      let bit := Z.shiftl 1 bi in
      if (Z.land aw bit =? 0) || negb (Z.land rw bit =? 0)
      then sweep_bits n' (bi + 1) aw rw
      else sweep_bits n' (bi + 1) (Z.lxor aw bit) rw
  end.

Definition sweep_word (aw rw : Z) : Z :=
  if aw =? rw then aw else sweep_bits 64 0 aw rw.

(** [context_sweephelp] on the first [ms] words; the result is the allocation
    bitmap.  The objects of the freed slots are released and their table
    entries are left as they are. *)
Fixpoint context_sweephelp (ms : nat) (aloc ref : list Z) : list Z :=
  match ms, aloc, ref with
  | S m, aw :: al, rw :: rl => sweep_word aw rw :: context_sweephelp m al rl
  | _, _, _ => aloc
  end.

Definition sweep_pool {T} (p : pool T) : pool T :=
  mkPool (tbl p) (size p)
         (context_sweephelp (Z.to_nat (Z.quot (size p) 64)) (aloc p) (ref p)) (ref p).

Definition context_sweep (ctx : context) : context :=
  with_list_pool (with_str_pool ctx (sweep_pool (str_pool ctx))) (sweep_pool (list_pool ctx)).

Definition context_gcleft (ctx : context) (set : bool) : context :=
  if set then
    match gc_level ctx with
    | SINK_GC_DEFAULT => with_ticks ctx (timeout_left ctx) 10000
    | SINK_GC_LOWMEM => with_ticks ctx (timeout_left ctx) 1000
    | SINK_GC_NONE => ctx
    end
  else
    match gc_level ctx with
    | SINK_GC_DEFAULT =>
        if 10000 <? gc_left ctx then with_ticks ctx (timeout_left ctx) 10000 else ctx
    | SINK_GC_LOWMEM =>
        if 1000 <? gc_left ctx then with_ticks ctx (timeout_left ctx) 1000 else ctx
    | SINK_GC_NONE => ctx
    end.

Definition context_gc (ctx : context) : option context :=
  match context_mark (context_clearref ctx) with
  | None => None
  | Some ctx1 =>
      let ctx2 := context_gcleft (context_sweep ctx1) true in
      Some (with_ticks ctx2
              (if timeout_left ctx2 <=? SINK_GC_TICKS then 0
               else timeout_left ctx2 - SINK_GC_TICKS)
              (gc_left ctx2))
  end.

(** The number of clear bits among the slots a bitmap covers. *)
Definition clear_bits (bmp : list Z) : nat :=
  length (List.filter (fun i => negb (bmp_bit bmp (Z.of_nat i))) (seq 0 (64 * length bmp))).

(** The word of bit [index] exists in the bitmap. *)
Definition in_words (bmp : list Z) (index : Z) : Prop :=
  (Z.to_nat (Z.quot index 64) < length bmp)%nat.

(** The object [v] refers to has its bit in ([str_ref], [list_ref]). *)
Definition marked (refs : list Z * list Z) (v : sink_val) : Prop :=
  (sink_isstr v = true -> in_words (fst refs) (var_index v) ->
   bmp_bit (fst refs) (var_index v) = true)
  /\ (sink_islist v = true -> in_words (snd refs) (var_index v) ->
      bmp_bit (snd refs) (var_index v) = true).

(** Bits are only ever set. *)
Definition refs_le (r r' : list Z * list Z) : Prop :=
  length (fst r') = length (fst r) /\ length (snd r') = length (snd r)
  /\ (forall i, 0 <= i -> bmp_bit (fst r) i = true -> bmp_bit (fst r') i = true)
  /\ (forall i, 0 <= i -> bmp_bit (snd r) i = true -> bmp_bit (snd r') i = true).

(** Every list marked between [r] and [r'] has all its elements marked. *)
Definition closed_since (ltbl : list list_st) (r r' : list Z * list Z) : Prop :=
  forall idx, 0 <= idx -> bmp_bit (snd r) idx = false -> bmp_bit (snd r') idx = true ->
    Forall (marked r') (vals (nth (Z.to_nat idx) ltbl empty_list)).

(** The values a collection must keep: those of the root arrays, and the
    elements of every list among them. *)
Inductive reach (ltbl : list list_st) (roots : list (list sink_val)) : sink_val -> Prop :=
| reach_root vs v : In vs roots -> In v vs -> reach ltbl roots v
| reach_elem l e :
    reach ltbl roots l -> sink_islist l = true ->
    In e (vals (nth (Z.to_nat (var_index l)) ltbl empty_list)) ->
    reach ltbl roots e.

(** Every list bit set in [r] was set in [r0] or is the bit of a list that
    can be reached. *)
Definition only_reach (ltbl : list list_st) (roots : list (list sink_val))
    (r0 r : list Z * list Z) : Prop :=
  forall idx, 0 <= idx -> bmp_bit (snd r) idx = true ->
    bmp_bit (snd r0) idx = true
    \/ exists v, reach ltbl roots v /\ sink_islist v = true /\ var_index v = idx.

(** The shape [context_new] and [bmp_reserve] give the list pool: the
    reachability bitmap reaches every slot of the table, and has one word for
    every 64 slots of [size]. *)
Definition gc_shape (ctx : context) : Prop :=
  (length (tbl (list_pool ctx)) <= 64 * length (ref (list_pool ctx)))%nat
  /\ Z.of_nat (length (ref (list_pool ctx))) <= Z.quot (size (list_pool ctx)) 64.

(** The reachability bitmap of the list pool reaches every slot of its table. *)
Definition ref_covers (ctx : context) : Prop :=
  (length (tbl (list_pool ctx)) <= 64 * length (ref (list_pool ctx)))%nat.

(** A context for the examples.  Register 0 holds list 0; list 0 is
    [{string 1, list 1}] and list 1 is [{list 0}], a cycle; list 2 and
    string 0 are allocated and referred to by nothing. *)
Definition gc_ctx : context :=
  mkContext (mkProgram [] [] [] false) [] [[list_val 0 :: replicate 255 SINK_NIL]]
            (mkPool (replicate 64 []) 64 [3] [0])
            (mkPool (mkList [str_val 1; list_val 1] 200 :: mkList [list_val 0] 200
                     :: mkList [] 200 :: replicate 61 empty_list) 64 [7] [0])
            0 0 0 0 0 10000 SINK_GC_DEFAULT None false false false [] 0 0.

(** The host's tick interface. *)
Definition sink_ctx_settimeout (ctx : context) (timeout : Z) : context :=
  let timeout := if timeout <? 0 then 0 else timeout in
  mkContext (prg ctx) (call_stk ctx) (lex_stk ctx) (str_pool ctx) (list_pool ctx)
            (lex_index ctx) (pc ctx) (lastpc ctx) timeout timeout (gc_left ctx)
            (gc_level ctx) (err ctx) (passed ctx) (failed ctx) (async ctx)
            (pinned ctx) (str_prealloc_memset ctx) (str_prealloc_lastmask ctx).



End Gc.
(** ** The dispatch loop: operand loading and the cases of the [switch] *)

Module Vm.
Import Pool Ctx Gc Setat Order.

Definition OP_NOP : Z := 0x00.
Definition OP_MOVE : Z := 0x01.
Definition OP_NIL : Z := 0x03.
Definition OP_SETAT : Z := 0x1A.
Definition OP_JUMP : Z := 0x1C.
Definition OP_JUMPTRUE : Z := 0x1D.
Definition OP_JUMPFALSE : Z := 0x1E.
Definition OP_CMDHEAD : Z := 0x1F.
Definition OP_CMDTAIL : Z := 0x20.
Definition OP_CALL : Z := 0x21.
Definition OP_RETURN : Z := 0x24.
Definition OP_RETURNTAIL : Z := 0x25.
Definition OP_ORDER : Z := 0x27.
Definition OP_GC_GETLEVEL : Z := 0x96.
Definition OP_GC_SETLEVEL : Z := 0x97.
Definition OP_GC_RUN : Z := 0x98.

(** A read of [ops->bytes[i]]: the byte, or the index when it lies outside
    the buffer. *)
Inductive loaded (A : Type) :=
| Loaded (a : A)
| OutOfBuffer (index : Z).
Arguments Loaded {A}.
Arguments OutOfBuffer {A}.

Definition byte_at (ops : list Z) (i : Z) : loaded Z :=
  if i <? 0 then OutOfBuffer i
  else match ops !! Z.to_nat i with
       | Some b => Loaded b
       | None => OutOfBuffer i
       end.

(** [n] reads [ops->bytes[i]], [ops->bytes[i + 1]], ... in this order. *)
Fixpoint load_bytes (n : nat) (ops : list Z) (i : Z) : loaded (list Z) :=
  match n with
  | O => Loaded []
  | S n' =>
      match byte_at ops i with
      | OutOfBuffer j => OutOfBuffer j
      | Loaded b =>
          match load_bytes n' ops (i + 1) with
          | OutOfBuffer j => OutOfBuffer j
          | Loaded bs => Loaded (b :: bs)
          end
      end
  end.

(** The macros [LOAD_ab] (n = 2) to [LOAD_abcdefghij] (n = 10): [ctx->pc++],
    then [n] operand bytes are read, each with [ctx->pc++]. *)
Definition LOAD (n : nat) (ctx : context) : loaded (list Z * context) :=
  match load_bytes n (ops (prg ctx)) (pc ctx + 1) with
  | OutOfBuffer j => OutOfBuffer j
  | Loaded bs => Loaded (bs, with_pc ctx (pc ctx + 1 + Z.of_nat n) (lastpc ctx))
  end.

(** The argument loops
    [for (I = 0; I < G; I++){ E = ops->bytes[ctx->pc++]; F = ops->bytes[ctx->pc++];
    p[I] = var_get(ctx, E, F); }]. *)
Fixpoint load_args (n : nat) (ctx : context) : loaded (list sink_val * context) :=
  match n with
  | O => Loaded ([], ctx)
  | S n' =>
      match load_bytes 2 (ops (prg ctx)) (pc ctx) with
      | Loaded [E; F] =>
          match load_args n' (with_pc ctx (pc ctx + 2) (lastpc ctx)) with
          | Loaded (p, ctx') => Loaded (var_get ctx E F :: p, ctx')
          | OutOfBuffer j => OutOfBuffer j
          end
      | Loaded _ => OutOfBuffer (pc ctx)
      | OutOfBuffer j => OutOfBuffer j
      end
  end.

(** A value computed in [int]: the low 32 bits, read as two's complement. *)
Definition to_int32 (z : Z) : Z :=
  let m := z mod 2 ^ 32 in
  if m <? 2 ^ 31 then m else m - 2 ^ 32.

(** [A + (B << 8) + (C << 16) + ((D << 23) * 2)] on operand bytes. *)
Definition loc32 (A B C D : Z) : Z :=
  to_int32 (A + Z.shiftl B 8 + Z.shiftl C 16 + Z.shiftl D 23 * 2).

(** [sink_num] of an integer: the binary64 pattern of [z], exact for
    [|z| < 2^53]. *)
Definition sink_num_int (z : Z) : sink_val :=
  if z =? 0 then 0
  else
    let a := Z.abs z in
    let e := Z.log2 a in
    Z.lor (if z <? 0 then Z.shiftl 1 63 else 0)
          (Z.lor (Z.shiftl (e + 1023) 52) (Z.shiftl (a - 2 ^ e) (52 - e))).

(** [var_set]; C gives no meaning to a store into a level without a frame or
    beyond the registers of the frame ([None]). *)
Definition var_set (ctx : context) (frame index : Z) (val : sink_val) : option context :=
  match lex_stk ctx !! Z.to_nat frame with
  | Some (fr :: chain) =>
      if index <? Z.of_nat (length fr) then
        Some (with_call_lex ctx (call_stk ctx)
                (<[Z.to_nat frame := <[Z.to_nat index := val]> fr :: chain]> (lex_stk ctx))
                (lex_index ctx) (pc ctx))
      else None
  | _ => None
  end.

(** [sink_list_newblob]: a copy of [vs] in a fresh slot of the list pool, with
    room for [sink_list_grow] more elements.  [None] stands for the process
    ending in [bmp_reserve]. *)
Definition sink_list_newblob (junk : list_st) (junkw : Z) (ctx : context) (vs : list sink_val)
    : option (sink_val * context) :=
  match bmp_reserve junk junkw (list_pool ctx) with
  | OutOfMemory => None
  | Reserved index p =>
      Some (list_val index,
            with_list_pool ctx
              (mkPool (<[Z.to_nat index := mkList vs (Z.of_nat (length vs) + sink_list_grow)]>
                         (tbl p))
                      (size p) (aloc p) (ref p)))
  end.

Definition sink_list_newempty (junk : list_st) (junkw : Z) (ctx : context)
    : option (sink_val * context) :=
  sink_list_newblob junk junkw ctx [].

(** [lxs_get]: a frame of 256 registers holding the arguments, then nil. *)
Definition lxs_get (p : list sink_val) : list sink_val :=
  take 256 (p ++ replicate (256 - length p) SINK_NIL).

(** How one pass through the [switch] ends. *)
Inductive switch_result :=
| SwBreak (ctx : context)                  (* at the [break] of the case *)
| SwDone (r : sink_run) (ctx : context)    (* in [RUNDONE(r)] *)
| SwWait (ctx : context)                   (* in [GOTWAIT], on a wait without result *)
| SwOutOfBuffer (index : Z)                (* [ops->bytes[index]] read outside the buffer *)
| SwProcessExit                            (* in [exit(1)] of [bmp_reserve] *)
| SwUndefined                              (* C gives the step no meaning *)
| SwOther (op : Z).                        (* a case that is not part of this development *)

Definition of_op_result (r : op_result) : switch_result :=
  match r with
  | OpNext ctx => SwBreak ctx
  | OpDone s ctx => SwDone s ctx
  | OpUndefined => SwUndefined
  end.

Definition break_with (o : option context) : switch_result :=
  match o with
  | Some ctx => SwBreak ctx
  | None => SwUndefined
  end.

(** The end of a command, shared by [OP_CMDTAIL] and [OP_RETURN]: the caller
    is popped, the frame of the current level is released, and [X] is stored
    into the caller's target. *)
Definition leave_command (ctx : context) (X : sink_val) : option context :=
  match call_stk ctx with
  | [] => None
  | s :: cs =>
      match lex_stk ctx !! Z.to_nat (lex_index ctx) with
      | Some (_ :: chain) =>
          let lx := <[Z.to_nat (lex_index ctx) := chain]> (lex_stk ctx) in
          match var_set (with_call_lex ctx cs lx (ccs_lex_index s) (pc ctx))
                        (ccs_frame s) (ccs_index s) X with
          | Some ctx' => Some (with_pc ctx' (ccs_pc s) (lastpc ctx'))
          | None => None
          end
      | _ => None
      end
  end.

(** The arguments a command body receives, shared by [OP_CALL] and
    [OP_RETURNTAIL]: with a rest position [C] other than 0xFF the arguments
    from [C] on are gathered into a new list. *)
Definition rest_args (junk : list_st) (junkw : Z) (ctx : context) (p : list sink_val) (C : Z)
    : option (list sink_val * context) :=
  if C =? 0xFF then Some (p, ctx)
  else if Z.of_nat (length p) <=? C then
    match sink_list_newempty junk junkw ctx with
    | Some (l, ctx') =>
        Some (p ++ replicate (Z.to_nat C - length p) SINK_NIL ++ [l], ctx')
    | None => None
    end
  else
    match sink_list_newblob junk junkw ctx (drop (Z.to_nat C) p) with
    | Some (l, ctx') => Some (take (Z.to_nat C) p ++ [l], ctx')
    | None => None
    end.

(** [while (ctx->lex_index >= ctx->lex_stk->size) list_ptr_push(ctx->lex_stk, NULL)]. *)
Definition lex_grow (lx : list (list (list sink_val))) (li : Z)
    : list (list (list sink_val)) :=
  lx ++ replicate (Z.to_nat (li + 1) - length lx) [].

Definition op_call (junk : list_st) (junkw : Z) (ctx : context) : switch_result :=
  match LOAD 7 ctx with
  | OutOfBuffer j => SwOutOfBuffer j
  | Loaded ([A; B; C; D; E; F; G], ctx1) =>
      let loc := loc32 C D E F in
      if loc =? -1 then SwDone SINK_RUN_REPLMORE (with_pc ctx1 (pc ctx1 - 8) (lastpc ctx1))
      else
        match load_args (Z.to_nat G) ctx1 with
        | OutOfBuffer j => SwOutOfBuffer j
        | Loaded (p, ctx2) =>
            let ctx3 :=
              with_call_lex ctx2 (mkCcs (pc ctx2) A B (lex_index ctx2) :: call_stk ctx2)
                            (lex_stk ctx2) (lex_index ctx2) (loc - 1) in
            match LOAD 3 ctx3 with
            | OutOfBuffer j => SwOutOfBuffer j
            | Loaded ([_; B'; C'], ctx4) =>
                match rest_args junk junkw ctx4 p C' with
                | None => SwProcessExit
                | Some (p', ctx5) =>
                    let lx := lex_grow (lex_stk ctx5) B' in
                    let chain := nth (Z.to_nat B') lx [] in
                    SwBreak (with_call_lex ctx5 (call_stk ctx5)
                               (<[Z.to_nat B' := lxs_get p' :: chain]> lx) B' (pc ctx5))
                end
            | Loaded _ => SwUndefined
            end
        end
  | Loaded _ => SwUndefined
  end.

Definition op_returntail (junk : list_st) (junkw : Z) (ctx : context) : switch_result :=
  match LOAD 5 ctx with
  | OutOfBuffer j => SwOutOfBuffer j
  | Loaded ([A; B; C; D; E], ctx1) =>
      let loc := loc32 A B C D in
      if loc =? -1 then SwDone SINK_RUN_REPLMORE (with_pc ctx1 (pc ctx1 - 6) (lastpc ctx1))
      else
        match load_args (Z.to_nat E) ctx1 with
        | OutOfBuffer j => SwOutOfBuffer j
        | Loaded (p, ctx2) =>
            match LOAD 3 (with_pc ctx2 (loc - 1) (lastpc ctx2)) with
            | OutOfBuffer j => SwOutOfBuffer j
            | Loaded ([_; _; C'], ctx4) =>
                match rest_args junk junkw ctx4 p C' with
                | None => SwProcessExit
                | Some (p', ctx5) =>
                    match lex_stk ctx5 !! Z.to_nat (lex_index ctx5) with
                    | Some (_ :: lx2) =>
                        SwBreak (with_call_lex ctx5 (call_stk ctx5)
                                   (<[Z.to_nat (lex_index ctx5) := lxs_get p' :: lx2]>
                                      (lex_stk ctx5))
                                   (lex_index ctx5) (pc ctx5))
                    | _ => SwUndefined
                    end
                end
            | Loaded _ => SwUndefined
            end
        end
  | Loaded _ => SwUndefined
  end.

(** [OP_JUMPTRUE] ([on_nil] = false) and [OP_JUMPFALSE] ([on_nil] = true). *)
Definition op_jumpif (on_nil : bool) (ctx : context) : switch_result :=
  match LOAD 6 ctx with
  | OutOfBuffer j => SwOutOfBuffer j
  | Loaded ([A; B; C; D; E; F], ctx1) =>
      let loc := loc32 C D E F in
      if Bool.eqb (sink_isnil (var_get ctx1 A B)) on_nil then
        if repl (prg ctx1) && (loc =? -1) then
          SwDone SINK_RUN_REPLMORE (with_pc ctx1 (pc ctx1 - 7) (lastpc ctx1))
        else SwBreak (with_pc ctx1 loc (lastpc ctx1))
      else SwBreak ctx1
  | Loaded _ => SwUndefined
  end.

Definition gc_level_num (l : sink_gc_level) : Z :=
  match l with
  | SINK_GC_NONE => 0
  | SINK_GC_DEFAULT => 1
  | SINK_GC_LOWMEM => 2
  end.

Definition with_gc_level (ctx : context) (l : sink_gc_level) : context :=
  mkContext (prg ctx) (call_stk ctx) (lex_stk ctx) (str_pool ctx) (list_pool ctx)
            (lex_index ctx) (pc ctx) (lastpc ctx) (timeout ctx) (timeout_left ctx)
            (gc_left ctx) l (err ctx) (passed ctx) (failed ctx) (async ctx)
            (pinned ctx) (str_prealloc_memset ctx) (str_prealloc_lastmask ctx).

Definition op_gc_setlevel (ctx : context) : switch_result :=
  match LOAD 4 ctx with
  | OutOfBuffer j => SwOutOfBuffer j
  | Loaded ([A; B; C; D], ctx1) =>
      let X := var_get ctx1 C D in
      let msg := "Expecting one of gc.NONE, gc.DEFAULT, or gc.LOWMEM"%string in
      if negb (sink_isnum X) then SwDone SINK_RUN_FAIL (opi_abortcstr ctx1 msg)
      else
        match dbl_to_int X with
        | None => SwUndefined
        | Some J =>
            let set l :=
              break_with (var_set (context_gcleft (with_gc_level ctx1 l) false) A B SINK_NIL) in
            if J =? 0 then set SINK_GC_NONE
            else if J =? 1 then set SINK_GC_DEFAULT
            else if J =? 2 then set SINK_GC_LOWMEM
            else SwDone SINK_RUN_FAIL (opi_abortcstr ctx1 msg)
        end
  | Loaded _ => SwUndefined
  end.

(** [opi_exit]. *)
Definition opi_exit (ctx : context) : context :=
  with_status ctx (err ctx) true (failed ctx) (async ctx).

(** The [switch] of [context_run_w] on the opcode at [ctx->pc], for the cases
    of this development.  A byte above 0x98 reaches [default: break]. *)
Definition vm_switch (junk : list_st) (junkw : Z) (ctx : context) : switch_result :=
  match byte_at (ops (prg ctx)) (pc ctx) with
  | OutOfBuffer j => SwOutOfBuffer j
  | Loaded op =>
      if op =? OP_NOP then SwBreak (with_pc ctx (pc ctx + 1) (lastpc ctx))
      else if op =? OP_MOVE then
        match LOAD 4 ctx with
        | OutOfBuffer j => SwOutOfBuffer j
        | Loaded ([A; B; C; D], ctx1) => break_with (var_set ctx1 A B (var_get ctx1 C D))
        | Loaded _ => SwUndefined
        end
      else if op =? OP_NIL then
        match LOAD 2 ctx with
        | OutOfBuffer j => SwOutOfBuffer j
        | Loaded ([A; B], ctx1) => break_with (var_set ctx1 A B SINK_NIL)
        | Loaded _ => SwUndefined
        end
      else if op =? OP_SETAT then
        match LOAD 6 ctx with
        | OutOfBuffer j => SwOutOfBuffer j
        | Loaded ([A; B; C; D; E; F], ctx1) => of_op_result (op_setat ctx1 A B C D E F)
        | Loaded _ => SwUndefined
        end
      else if op =? OP_JUMP then
        match LOAD 4 ctx with
        | OutOfBuffer j => SwOutOfBuffer j
        | Loaded ([A; B; C; D], ctx1) =>
            let loc := loc32 A B C D in
            if repl (prg ctx1) && (loc =? -1) then
              SwDone SINK_RUN_REPLMORE (with_pc ctx1 (pc ctx1 - 5) (lastpc ctx1))
            else SwBreak (with_pc ctx1 loc (lastpc ctx1))
        | Loaded _ => SwUndefined
        end
      else if op =? OP_JUMPTRUE then op_jumpif false ctx
      else if op =? OP_JUMPFALSE then op_jumpif true ctx
      else if op =? OP_CMDTAIL then break_with (leave_command ctx SINK_NIL)
      else if op =? OP_CALL then op_call junk junkw ctx
      else if op =? OP_RETURN then
        match call_stk ctx with
        | [] => SwDone SINK_RUN_PASS (opi_exit ctx)
        | _ =>
            match LOAD 2 ctx with
            | OutOfBuffer j => SwOutOfBuffer j
            | Loaded ([A; B], ctx1) => break_with (leave_command ctx1 (var_get ctx1 A B))
            | Loaded _ => SwUndefined
            end
        end
      else if op =? OP_RETURNTAIL then op_returntail junk junkw ctx
      else if op =? OP_ORDER then
        match LOAD 6 ctx with
        | OutOfBuffer j => SwOutOfBuffer j
        | Loaded ([A; B; C; D; E; F], ctx1) =>
            match opi_order ctx1 (var_get ctx1 C D) (var_get ctx1 E F) with
            | Some (r, ctx2) => break_with (var_set ctx2 A B (sink_num_int r))
            | None => SwUndefined
            end
        | Loaded _ => SwUndefined
        end
      else if op =? OP_GC_GETLEVEL then
        match LOAD 2 ctx with
        | OutOfBuffer j => SwOutOfBuffer j
        | Loaded ([A; B], ctx1) =>
            break_with (var_set ctx1 A B (sink_num_int (gc_level_num (gc_level ctx1))))
        | Loaded _ => SwUndefined
        end
      else if op =? OP_GC_SETLEVEL then op_gc_setlevel ctx
      else if op =? OP_GC_RUN then
        match LOAD 2 ctx with
        | OutOfBuffer j => SwOutOfBuffer j
        | Loaded ([A; B], ctx1) =>
            match context_gc ctx1 with
            | Some ctx2 => break_with (var_set ctx2 A B SINK_NIL)
            | None => SwUndefined
            end
        | Loaded _ => SwUndefined
        end
      else if 0x98 <? op then SwBreak ctx
      else SwOther op
  end.

End Vm.
(** ** Reading pickled values back *)

Module Unpickle.
Import Pool Ctx Vm Pickle.

(** A value stored into a [uint8_t], a [uint32_t]. *)
Definition uint8 (z : Z) : Z := z mod 2 ^ 8.
Definition uint32 (z : Z) : Z := z mod 2 ^ 32.

Definition toHex (c : Z) : Z :=
  if isNum c then c - 48
  else if ch "a" <=? c then c - 87
  else c - 55.

(** *** JSON strings *)

(** The loop of the string branch of [pk_fmjson] on the bytes from [*pos] on
    (the opening quote has been read); [str] holds the bytes gathered so far.
    [Some (bytes, rest)] is [return true] with the bytes of the new string
    and what follows the closing quote, [None] is [return false]. *)
Fixpoint fmjson_str (s : list Z) (str : list Z) : option (list Z * list Z) :=
  match s with
  | [] => None
  | b :: rest =>
      if b =? DQUOTE then Some (str, rest)
      else if b =? ch "\" then
        match rest with
        | [] => None
        | e :: rest1 =>
            if (e =? DQUOTE) || (e =? ch "\") then fmjson_str rest1 (str ++ [e])
            else if e =? ch "b" then fmjson_str rest1 (str ++ [8])
            else if e =? ch "f" then fmjson_str rest1 (str ++ [12])
            else if e =? ch "n" then fmjson_str rest1 (str ++ [10])
            else if e =? ch "r" then fmjson_str rest1 (str ++ [13])
            else if e =? ch "t" then fmjson_str rest1 (str ++ [9])
            else if e =? ch "u" then
              match rest1 with
              | h1 :: h2 :: h3 :: h4 :: rest2 =>
                  if negb (h1 =? ch "0") || negb (h2 =? ch "0")
                     || negb (isHex h3) || negb (isHex h4) then None
                  else
                    fmjson_str rest2
                      (str ++ [uint8 (Z.lor (Z.shiftl (toHex h3) 4) (toHex h4))])
              | _ => None
              end
            else None
        end
      else if b <? 0x20 then None
      else fmjson_str rest (str ++ [b])
  end.

(** [pk_fmjson] on a text that starts, after white space, with a double
    quote.  [None] also stands for a text that starts otherwise. *)
Fixpoint pk_fmjson_string (s : list Z) : option (list Z * list Z) :=
  match s with
  | [] => None
  | b :: rest =>
      if isSpace b then pk_fmjson_string rest
      else if b =? DQUOTE then fmjson_str rest []
      else None
  end.

(** The size [pk_tojson] computes for the text of a string before it
    allocates the buffer ([tot], an [int], is kept in [Z]): the two quotes and,
    for each byte, what its rendering takes. *)
Definition json_width (b : Z) : Z :=
  if (b =? DQUOTE) || (b =? ch "\") || (b =? 8) || (b =? 12) || (b =? 10) || (b =? 13)
     || (b =? 9) then 2
  else if (b <? 0x20) || (0x80 <=? b) then 6
  else 1.

Fixpoint json_tot_loop (src : list Z) (tot : Z) : Z :=
  match src with
  | [] => tot
  | b :: rest => json_tot_loop rest (tot + json_width b)
  end.

Definition json_tot (src : list Z) : Z := json_tot_loop src 2.

(** Bytes. *)
Definition is_bytes (s : list Z) : Prop := Forall (fun b => 0 <= b < 256) s.

(** *** The binary format: sizes and indices *)

(** [pk_tobin_vint]: the bytes pushed for the [uint32_t i]. *)
Definition pk_tobin_vint (i : Z) : list Z :=
  if i <? 128 then [uint8 i]
  else [uint8 (Z.lor 0x80 (Z.shiftr i 24));
        uint8 (Z.land (Z.shiftr i 16) 0xFF);
        uint8 (Z.land (Z.shiftr i 8) 0xFF);
        uint8 (Z.land i 0xFF)].

(** [pk_fmbin_vint] on the bytes from [*pos] on: the number read and the
    bytes after it, or [None] for [return false]. *)
Definition pk_fmbin_vint (s : list Z) : option (Z * list Z) :=
  match s with
  | [] => None
  | v :: rest =>
      if v <? 128 then Some (v, rest)
      else
        match rest with
        | b0 :: b1 :: b2 :: rest' =>
            Some (uint32 (Z.lor (Z.lor (Z.lor (uint32 (Z.shiftl (Z.lxor v 0x80) 24))
                                              (uint32 (Z.shiftl b0 16)))
                                       (uint32 (Z.shiftl b1 8)))
                                b2),
                  rest')
        | _ => None
        end
  end.

(** *** The binary format: numbers *)

(** [floor(a.f) == a.f]: no NaN, and no bit of the significand below the
    binary point. *)
Definition dbl_integral (v : sink_val) : bool :=
  if dbl_isnan v then false
  else if dbl_isinf v then true
  else
    let e := dbl_exp v in
    let m := if e =? 0 then dbl_mant v else dbl_mant v + 2 ^ 52 in
    let e' := if e =? 0 then 1 else e in
    if 1075 <=? e' then true else Z.land m (Z.ones (1075 - e')) =? 0.

(** The bytes pushed for the [int64_t num] of an integral double between
    [-4294967296] and [4294967295]. *)
Definition pk_tobin_int (num : Z) : list Z :=
  if num <? 0 then
    if -256 <=? num then
      let num := num + 256 in
      [0xF1; uint8 (Z.land num 0xFF)]
    else if -65536 <=? num then
      let num := num + 65536 in
      [0xF3; uint8 (Z.land num 0xFF); uint8 (Z.shiftr num 8)]
    else
      let num := num + 4294967296 in
      [0xF5; uint8 (Z.land num 0xFF); uint8 (Z.land (Z.shiftr num 8) 0xFF);
       uint8 (Z.land (Z.shiftr num 16) 0xFF); uint8 (Z.land (Z.shiftr num 24) 0xFF)]
  else
    if num <? 256 then [0xF0; uint8 (Z.land num 0xFF)]
    else if num <? 65536 then [0xF2; uint8 (Z.land num 0xFF); uint8 (Z.shiftr num 8)]
    else
      [0xF4; uint8 (Z.land num 0xFF); uint8 (Z.land (Z.shiftr num 8) 0xFF);
       uint8 (Z.land (Z.shiftr num 16) 0xFF); uint8 (Z.land (Z.shiftr num 24) 0xFF)].

(** The byte [k] of the pattern. *)
Definition pattern_byte (a : sink_val) (k : Z) : Z :=
  uint8 (Z.land (Z.shiftr a (8 * k)) 0xFF).

(** The case [SINK_TYPE_NUM] of [pk_tobin]: the bytes pushed to [body]. *)
Definition pk_tobin_num (a : sink_val) : list Z :=
  match dbl_trunc a with
  | Some num =>
      if dbl_integral a && (-4294967296 <=? num) && (num <? 4294967296)
      then pk_tobin_int num
      else 0xF6 :: map (pattern_byte a) [0; 1; 2; 3; 4; 5; 6; 7]
  | None => 0xF6 :: map (pattern_byte a) [0; 1; 2; 3; 4; 5; 6; 7]
  end.

(** How [pk_fmbin] ends on a number: [return true] with the value and the
    bytes after it, [return false], a shift of a byte into the sign bit of an
    [int] (to which C gives no meaning), or a command that is not one of a
    number. *)
Inductive fmbin_result :=
| FmOk (v : sink_val) (rest : list Z)
| FmFalse
| FmUndefined
| FmOther (cmd : Z).

(** The cases [0xF0] to [0xF6] of [pk_fmbin] on the bytes from [*pos] on. *)
Definition pk_fmbin_num (s : list Z) : fmbin_result :=
  match s with
  | [] => FmFalse
  | cmd :: r =>
      if cmd =? 0xF0 then
        match r with
        | b :: r' => FmOk (sink_num_int b) r'
        | _ => FmFalse
        end
      else if cmd =? 0xF1 then
        match r with
        | b :: r' => FmOk (sink_num_int (b - 256)) r'
        | _ => FmFalse
        end
      else if cmd =? 0xF2 then
        match r with
        | b0 :: b1 :: r' => FmOk (sink_num_int (Z.lor b0 (Z.shiftl b1 8))) r'
        | _ => FmFalse
        end
      else if cmd =? 0xF3 then
        match r with
        | b0 :: b1 :: r' => FmOk (sink_num_int (Z.lor b0 (Z.shiftl b1 8) - 65536)) r'
        | _ => FmFalse
        end
      else if cmd =? 0xF4 then
        match r with
        | b0 :: b1 :: b2 :: b3 :: r' =>
            if 128 <=? b3 then FmUndefined
            else
              FmOk (sink_num_int (Z.lor (Z.lor (Z.lor b0 (Z.shiftl b1 8)) (Z.shiftl b2 16))
                                        (Z.shiftl b3 24))) r'
        | _ => FmFalse
        end
      else if cmd =? 0xF5 then
        match r with
        | b0 :: b1 :: b2 :: b3 :: r' =>
            FmOk (sink_num_int
                    (uint32 (Z.lor (Z.lor (Z.lor b0 (Z.shiftl b1 8)) (Z.shiftl b2 16))
                                   (Z.shiftl b3 24)) - 4294967296)) r'
        | _ => FmFalse
        end
      else if cmd =? 0xF6 then
        match r with
        | b0 :: b1 :: b2 :: b3 :: b4 :: b5 :: b6 :: b7 :: r' =>
            let u := Z.lor (Z.lor (Z.lor (Z.lor (Z.lor (Z.lor (Z.lor
                       b0 (Z.shiftl b1 8)) (Z.shiftl b2 16)) (Z.shiftl b3 24))
                       (Z.shiftl b4 32)) (Z.shiftl b5 40)) (Z.shiftl b6 48)) (Z.shiftl b7 56) in
            FmOk (if dbl_isnan u then SINK_NAN else u) r'
        | _ => FmFalse
        end
      else if (0xF7 <=? cmd) && (cmd <=? 0xFA) then FmOther cmd
      else FmFalse
  end.

(** An integral double from 2147483648 to 4294967295: written with the
    command [0xF4] and a last byte of 128 or more. *)
Definition high_uint (a : sink_val) : Prop :=
  exists num, dbl_trunc a = Some num /\ dbl_integral a = true /\ 2 ^ 31 <= num < 2 ^ 32.

Definition dbl_3e9 : sink_val := 0x41E65A0BC0000000.
Definition dbl_m300 : sink_val := 0xC072C00000000000.
Definition dbl_half : sink_val := 0x3FE0000000000000.

(** A text [pk_isjson] accepts. *)
Definition accepted (s : list Z) : Prop := pk_isjson_loop s PKV_START 0 = true.

End Unpickle.
(** ** UTF-8 *)

Module Utf8.
Import Unpickle.

(** The tests of [opihelp_codepoint] on the integer [b.f]: within the range
    of Unicode, and no surrogate. *)
Definition codepoint_ok (b : Z) : bool :=
  (0 <=? b) && (b <? 0x110000) && ((b <? 0xD800) || (0xE000 <=? b)).

(** The first loop of [opi_utf8_str]: the number of bytes of the codepoint
    [b], added to [tot]. *)
Definition utf8_width (b : Z) : Z :=
  if b <? 0x80 then 1
  else if b <? 0x800 then 2
  else if b <? 0x10000 then 3
  else 4.

Fixpoint utf8_tot_loop (cps : list Z) (tot : Z) : Z :=
  match cps with
  | [] => tot
  | b :: rest => utf8_tot_loop rest (tot + utf8_width b)
  end.

(** The second loop of [opi_utf8_str]: the bytes stored for the [int b]. *)
Definition utf8_encode (b : Z) : list Z :=
  if b <? 0x80 then [uint8 b]
  else if b <? 0x800 then
    [uint8 (Z.lor 0xC0 (Z.shiftr b 6));
     uint8 (Z.lor 0x80 (Z.land b 0x3F))]
  else if b <? 0x10000 then
    [uint8 (Z.lor 0xE0 (Z.shiftr b 12));
     uint8 (Z.lor 0x80 (Z.land (Z.shiftr b 6) 0x3F));
     uint8 (Z.lor 0x80 (Z.land b 0x3F))]
  else
    [uint8 (Z.lor 0xF0 (Z.shiftr b 18));
     uint8 (Z.lor 0x80 (Z.land (Z.shiftr b 12) 0x3F));
     uint8 (Z.lor 0x80 (Z.land (Z.shiftr b 6) 0x3F));
     uint8 (Z.lor 0x80 (Z.land b 0x3F))].

Fixpoint utf8_str_loop (cps : list Z) (bytes : list Z) : list Z :=
  match cps with
  | [] => bytes
  | b :: rest => utf8_str_loop rest (bytes ++ utf8_encode b)
  end.

(** The bytes of the string [opi_utf8_str] makes of a list whose elements are
    the integers [cps], each a codepoint. *)
Definition utf8_str_bytes (cps : list Z) : list Z := utf8_str_loop cps [].

(** The test that ends a sequence, in [opi_utf8_valid] and [opi_utf8_list]:
    overlong, huge, or a surrogate. *)
Definition utf8_reject (codepoint min : Z) : bool :=
  (codepoint <? min) || (0x110000 <=? codepoint)
  || ((0xD800 <=? codepoint) && (codepoint <? 0xE000)).

(** The loop of [opi_utf8_list] on the bytes left: [res] holds the integers
    pushed so far (each one through [sink_num]); [None] is [goto fail]. *)
Fixpoint utf8_list_loop (s : list Z) (state codepoint min : Z) (res : list Z)
    : option (list Z) :=
  match s with
  | [] => Some res
  | b :: rest =>
      if state =? 0 then
        if b <? 0x80 then utf8_list_loop rest state codepoint min (res ++ [b])
        else if b <? 0xC0 then None
        else if b <? 0xE0 then utf8_list_loop rest 1 (Z.land b 0x1F) 0x80 res
        else if b <? 0xF0 then utf8_list_loop rest 2 (Z.land b 0x0F) 0x800 res
        else if b <? 0xF8 then utf8_list_loop rest 3 (Z.land b 0x07) 0x10000 res
        else None
      else
        if (b <? 0x80) || (0xC0 <=? b) then None
        else
          let codepoint := Z.lor (Z.shiftl codepoint 6) (Z.land b 0x3F) in
          let state := state - 1 in
          if state =? 0 then
            if utf8_reject codepoint min then None
            else utf8_list_loop rest state codepoint min (res ++ [codepoint])
          else utf8_list_loop rest state codepoint min res
  end.

(** The loop of [opi_utf8_valid] on the bytes of a string, and the
    [return state == 0] after it. *)
Fixpoint utf8_valid_loop (s : list Z) (state codepoint min : Z) : bool :=
  match s with
  | [] => state =? 0
  | b :: rest =>
      if state =? 0 then
        if b <? 0x80 then utf8_valid_loop rest state codepoint min
        else if b <? 0xC0 then false
        else if b <? 0xE0 then utf8_valid_loop rest 1 (Z.land b 0x1F) 0x80
        else if b <? 0xF0 then utf8_valid_loop rest 2 (Z.land b 0x0F) 0x800
        else if b <? 0xF8 then utf8_valid_loop rest 3 (Z.land b 0x07) 0x10000
        else false
      else
        if (b <? 0x80) || (0xC0 <=? b) then false
        else
          let codepoint := Z.lor (Z.shiftl codepoint 6) (Z.land b 0x3F) in
          let state := state - 1 in
          if state =? 0 then
            if utf8_reject codepoint min then false
            else utf8_valid_loop rest state codepoint min
          else utf8_valid_loop rest state codepoint min
  end.

(** The two functions on the bytes of a string. *)
Definition utf8_list (s : list Z) : option (list Z) := utf8_list_loop s 0 0 0 [].
Definition utf8_valid (s : list Z) : bool := utf8_valid_loop s 0 0 0.

(** The first byte of a sequence of two, three or four bytes. *)
Definition utf8_lead (b : Z) : Prop := 0xC0 <= b < 0xF8.

End Utf8.
(** ** The run loop: results, garbage-collection and timeout ticks *)

Module Run.
Import Pool Ctx Gc Vm.

(** What a call of [context_run_w] leaves in the wait object [wrun]: a result,
    or nothing yet (the context waits for an asynchronous result). *)
Inductive run_outcome :=
| RunResult (r : sink_run) (ctx : context)
| RunPending (ctx : context)
| RunOutOfBuffer (index : Z)
| RunProcessExit
| RunUndefined
| RunOther (op : Z)
| RunOutOfFuel.

(** The [while] loop of [context_reset]: every caller on the call stack is
    popped, and with it the frame of the level it was called into. *)
Fixpoint unwind (cs : list ccs_st) (lx : list (list (list sink_val))) (li : Z)
    : list (list (list sink_val)) * Z :=
  match cs with
  | [] => (lx, li)
  | s :: cs' =>
      unwind cs' (<[Z.to_nat li := tail (nth (Z.to_nat li) lx [])]> lx) (ccs_lex_index s)
  end.

Definition context_reset (ctx : context) : context :=
  let '(lx, li) := unwind (call_stk ctx) (lex_stk ctx) (lex_index ctx) in
  let ctx1 := with_call_lex ctx [] lx li (Z.of_nat (length (ops (prg ctx)))) in
  let ctx2 := with_status ctx1 (err ctx1) false false (async ctx1) in
  with_ticks ctx2 (timeout ctx2) (gc_left ctx2).

(** The macro [RUNDONE]. *)
Definition RUNDONE (res : sink_run) (ctx : context) : run_outcome :=
  match res with
  | SINK_RUN_PASS | SINK_RUN_FAIL =>
      let ctx1 := context_reset ctx in
      RunResult res
        (if repl (prg ctx1) then ctx1
         else with_status ctx1 (err ctx1)
                (match res with SINK_RUN_PASS => true | _ => false end)
                (match res with SINK_RUN_FAIL => true | _ => false end)
                (async ctx1))
  | _ => RunResult res ctx
  end.

(** Lines 14753-14757: the garbage-collection countdown after an opcode. *)
Definition gc_tick (ctx : context) : option context :=
  match gc_level ctx with
  | SINK_GC_NONE => Some ctx
  | _ =>
      let ctx1 := with_ticks ctx (timeout_left ctx) (gc_left ctx - 1) in
      if gc_left ctx1 <=? 0 then context_gc ctx1 else Some ctx1
  end.

(** Whether the countdown of [gc_tick] starts a collection. *)
Definition gc_due (ctx : context) : bool :=
  match gc_level ctx with
  | SINK_GC_NONE => false
  | _ => gc_left ctx - 1 <=? 0
  end.

(** Lines 14758-14764: the timeout countdown after an opcode. *)
Inductive tick_result :=
| Continue (ctx : context)
| TimedOut (ctx : context).

Definition timeout_tick (ctx : context) : tick_result :=
  if 0 <? timeout ctx then
    let ctx1 := with_ticks ctx (timeout_left ctx - 1) (gc_left ctx) in
    if timeout_left ctx1 <=? 0
    then TimedOut (with_ticks ctx1 (timeout ctx1) (gc_left ctx1))
    else Continue ctx1
  else Continue ctx.

(** The way [GOTWAIT] leaves the context when the wait has no result yet. *)
Definition wait_pending (ctx : context) : context :=
  let ctx1 := with_status ctx (err ctx) (passed ctx) (failed ctx) true in
  with_ticks ctx1 (timeout ctx1) (gc_left ctx1).

Section Loop.

(** The [switch] statement, applied to the context with [lastpc] set. *)
Variable op_switch : context -> switch_result.

(** One pass through the body of the [while] loop. *)
Inductive pass_result :=
| Again (ctx : context)
| Leave (o : run_outcome).

Definition loop_pass (ctx : context) : pass_result :=
  match op_switch (with_pc ctx (pc ctx) (pc ctx)) with
  | SwBreak ctx1 =>
      match gc_tick ctx1 with
      | None => Leave RunOutOfFuel
      | Some ctx2 =>
          match timeout_tick ctx2 with
          | Continue ctx3 => Again ctx3
          | TimedOut ctx3 => Leave (RUNDONE SINK_RUN_TIMEOUT ctx3)
          end
      end
  | SwDone r ctx1 => Leave (RUNDONE r ctx1)
  | SwWait ctx1 => Leave (RunPending (wait_pending ctx1))
  | SwOutOfBuffer j => Leave (RunOutOfBuffer j)
  | SwProcessExit => Leave RunProcessExit
  | SwUndefined => Leave RunUndefined
  | SwOther op => Leave (RunOther op)
  end.

(** The loop and what follows it; [fuel] bounds the number of passes. *)
Fixpoint run_loop (fuel : nat) (ctx : context) : run_outcome :=
  if pc ctx <? Z.of_nat (length (ops (prg ctx))) then
    match fuel with
    | O => RunOutOfFuel
    | S fuel' =>
        match loop_pass ctx with
        | Again ctx' => run_loop fuel' ctx'
        | Leave o => o
        end
    end
  else if repl (prg ctx) then RUNDONE SINK_RUN_REPLMORE ctx
  else RUNDONE SINK_RUN_PASS (opi_exit ctx).

Definition context_run_w (fuel : nat) (ctx : context) : run_outcome :=
  if passed ctx then RUNDONE SINK_RUN_PASS ctx
  else if failed ctx then RUNDONE SINK_RUN_FAIL ctx
  else if async ctx then RUNDONE SINK_RUN_ASYNC ctx
  else if (0 <? timeout ctx) && (timeout_left ctx <=? 0) then
    RUNDONE SINK_RUN_TIMEOUT (with_ticks ctx (timeout ctx) (gc_left ctx))
  else run_loop fuel ctx.

End Loop.




(** [context_new] for a program that is not a REPL and has empty tables: one
    empty frame at level 0, a string pool of 128 slots and a list pool of 64,
    no timeout. *)
Definition new_ctx (code : list Z) : context :=
  mkContext (mkProgram code [] [] false) [] [[replicate 256 SINK_NIL]]
            (mkPool (replicate 128 []) 128 [0; 0] [0; 0])
            (mkPool (replicate 64 empty_list) 64 [0] [0])
            0 0 0 0 0 10000 SINK_GC_DEFAULT None false false false [] 0 0.

(** Two [OP_NOP]. *)
Definition nop_ctx : context := new_ctx [OP_NOP; OP_NOP].

(** [OP_JUMP] to location 0: a loop. *)
Definition spin_ctx : context := new_ctx [OP_JUMP; 0; 0; 0; 0].

(** The loop with a timeout of 3 ticks. *)
Definition timed_ctx : context := sink_ctx_settimeout spin_ctx 3.


(** A byte without a case. *)
Definition stuck_ctx : context := new_ctx [0xC7].

(** The switch of the examples: the allocator's new memory holds zeros. *)
Definition switch0 : context -> switch_result := vm_switch empty_list 0.

End Run.
(** ** Validation of a program's opcode buffer *)

Module Validate.
Import Ctx Vm Run.

Inductive op_pcat :=
| OPPC_INVALID
| OPPC_STR        (* [VAR], [[INDEX]] *)
| OPPC_CMDHEAD    (* LEVEL, RESTPOS *)
| OPPC_CMDTAIL    (* *)
| OPPC_JUMP       (* [[LOCATION]] *)
| OPPC_VJUMP      (* [VAR], [[LOCATION]] *)
| OPPC_CALL       (* [VAR], [[LOCATION]], ARGCOUNT, [VARS]... *)
| OPPC_ISNATIVE   (* [VAR], [[INDEX]] *)
| OPPC_NATIVE     (* [VAR], [[INDEX]], ARGCOUNT, [VARS]... *)
| OPPC_RETURNTAIL (* [[LOCATION]], ARGCOUNT, [VARS]... *)
| OPPC_VVVV       (* [VAR], [VAR], [VAR], [VAR] *)
| OPPC_VVV        (* [VAR], [VAR], [VAR] *)
| OPPC_VV         (* [VAR], [VAR] *)
| OPPC_V          (* [VAR] *)
| OPPC_EMPTY      (* nothing *)
| OPPC_VA         (* [VAR], ARGCOUNT, [VARS]... *)
| OPPC_VN         (* [VAR], DATA *)
| OPPC_VNN        (* [VAR], [DATA] *)
| OPPC_VNNNN      (* [VAR], [[DATA]] *)
| OPPC_VNNNNNNNN. (* [VAR], [[[DATA]]] *)

(** [op_paramcat] on an opcode byte. *)
Definition op_paramcat (op : Z) : op_pcat :=
  match op with
  | 0x00 => OPPC_EMPTY  (* OP_NOP *)
  | 0x01 => OPPC_VV  (* OP_MOVE *)
  | 0x02 => OPPC_V  (* OP_INC *)
  | 0x03 => OPPC_V  (* OP_NIL *)
  | 0x04 => OPPC_VN  (* OP_NUMP8 *)
  | 0x05 => OPPC_VN  (* OP_NUMN8 *)
  | 0x06 => OPPC_VNN  (* OP_NUMP16 *)
  | 0x07 => OPPC_VNN  (* OP_NUMN16 *)
  | 0x08 => OPPC_VNNNN  (* OP_NUMP32 *)
  | 0x09 => OPPC_VNNNN  (* OP_NUMN32 *)
  | 0x0A => OPPC_VNNNNNNNN  (* OP_NUMDBL *)
  | 0x0B => OPPC_STR  (* OP_STR *)
  | 0x0C => OPPC_VN  (* OP_LIST *)
  | 0x0D => OPPC_VV  (* OP_ISNUM *)
  | 0x0E => OPPC_VV  (* OP_ISSTR *)
  | 0x0F => OPPC_VV  (* OP_ISLIST *)
  | 0x10 => OPPC_VV  (* OP_NOT *)
  | 0x11 => OPPC_VV  (* OP_SIZE *)
  | 0x12 => OPPC_VV  (* OP_TONUM *)
  | 0x13 => OPPC_VA  (* OP_CAT *)
  | 0x14 => OPPC_VVV  (* OP_LT *)
  | 0x15 => OPPC_VVV  (* OP_LTE *)
  | 0x16 => OPPC_VVV  (* OP_NEQ *)
  | 0x17 => OPPC_VVV  (* OP_EQU *)
  | 0x18 => OPPC_VVV  (* OP_GETAT *)
  | 0x19 => OPPC_VVVV  (* OP_SLICE *)
  | 0x1A => OPPC_VVV  (* OP_SETAT *)
  | 0x1B => OPPC_VVVV  (* OP_SPLICE *)
  | 0x1C => OPPC_JUMP  (* OP_JUMP *)
  | 0x1D => OPPC_VJUMP  (* OP_JUMPTRUE *)
  | 0x1E => OPPC_VJUMP  (* OP_JUMPFALSE *)
  | 0x1F => OPPC_CMDHEAD  (* OP_CMDHEAD *)
  | 0x20 => OPPC_CMDTAIL  (* OP_CMDTAIL *)
  | 0x21 => OPPC_CALL  (* OP_CALL *)
  | 0x22 => OPPC_ISNATIVE  (* OP_ISNATIVE *)
  | 0x23 => OPPC_NATIVE  (* OP_NATIVE *)
  | 0x24 => OPPC_V  (* OP_RETURN *)
  | 0x25 => OPPC_RETURNTAIL  (* OP_RETURNTAIL *)
  | 0x26 => OPPC_VVVV  (* OP_RANGE *)
  | 0x27 => OPPC_VVV  (* OP_ORDER *)
  | 0x28 => OPPC_VA  (* OP_SAY *)
  | 0x29 => OPPC_VA  (* OP_WARN *)
  | 0x2A => OPPC_VA  (* OP_ASK *)
  | 0x2B => OPPC_VA  (* OP_EXIT *)
  | 0x2C => OPPC_VA  (* OP_ABORT *)
  | 0x2D => OPPC_V  (* OP_STACKTRACE *)
  | 0x2E => OPPC_VV  (* OP_NUM_NEG *)
  | 0x2F => OPPC_VVV  (* OP_NUM_ADD *)
  | 0x30 => OPPC_VVV  (* OP_NUM_SUB *)
  | 0x31 => OPPC_VVV  (* OP_NUM_MUL *)
  | 0x32 => OPPC_VVV  (* OP_NUM_DIV *)
  | 0x33 => OPPC_VVV  (* OP_NUM_MOD *)
  | 0x34 => OPPC_VVV  (* OP_NUM_POW *)
  | 0x35 => OPPC_VV  (* OP_NUM_ABS *)
  | 0x36 => OPPC_VV  (* OP_NUM_SIGN *)
  | 0x37 => OPPC_VA  (* OP_NUM_MAX *)
  | 0x38 => OPPC_VA  (* OP_NUM_MIN *)
  | 0x39 => OPPC_VVVV  (* OP_NUM_CLAMP *)
  | 0x3A => OPPC_VV  (* OP_NUM_FLOOR *)
  | 0x3B => OPPC_VV  (* OP_NUM_CEIL *)
  | 0x3C => OPPC_VV  (* OP_NUM_ROUND *)
  | 0x3D => OPPC_VV  (* OP_NUM_TRUNC *)
  | 0x3E => OPPC_V  (* OP_NUM_NAN *)
  | 0x3F => OPPC_V  (* OP_NUM_INF *)
  | 0x40 => OPPC_VV  (* OP_NUM_ISNAN *)
  | 0x41 => OPPC_VV  (* OP_NUM_ISFINITE *)
  | 0x42 => OPPC_VV  (* OP_NUM_SIN *)
  | 0x43 => OPPC_VV  (* OP_NUM_COS *)
  | 0x44 => OPPC_VV  (* OP_NUM_TAN *)
  | 0x45 => OPPC_VV  (* OP_NUM_ASIN *)
  | 0x46 => OPPC_VV  (* OP_NUM_ACOS *)
  | 0x47 => OPPC_VV  (* OP_NUM_ATAN *)
  | 0x48 => OPPC_VVV  (* OP_NUM_ATAN2 *)
  | 0x49 => OPPC_VV  (* OP_NUM_LOG *)
  | 0x4A => OPPC_VV  (* OP_NUM_LOG2 *)
  | 0x4B => OPPC_VV  (* OP_NUM_LOG10 *)
  | 0x4C => OPPC_VV  (* OP_NUM_EXP *)
  | 0x4D => OPPC_VVVV  (* OP_NUM_LERP *)
  | 0x4E => OPPC_VVV  (* OP_NUM_HEX *)
  | 0x4F => OPPC_VVV  (* OP_NUM_OCT *)
  | 0x50 => OPPC_VVV  (* OP_NUM_BIN *)
  | 0x51 => OPPC_VV  (* OP_INT_NEW *)
  | 0x52 => OPPC_VV  (* OP_INT_NOT *)
  | 0x53 => OPPC_VA  (* OP_INT_AND *)
  | 0x54 => OPPC_VA  (* OP_INT_OR *)
  | 0x55 => OPPC_VA  (* OP_INT_XOR *)
  | 0x56 => OPPC_VVV  (* OP_INT_SHL *)
  | 0x57 => OPPC_VVV  (* OP_INT_SHR *)
  | 0x58 => OPPC_VVV  (* OP_INT_SAR *)
  | 0x59 => OPPC_VVV  (* OP_INT_ADD *)
  | 0x5A => OPPC_VVV  (* OP_INT_SUB *)
  | 0x5B => OPPC_VVV  (* OP_INT_MUL *)
  | 0x5C => OPPC_VVV  (* OP_INT_DIV *)
  | 0x5D => OPPC_VVV  (* OP_INT_MOD *)
  | 0x5E => OPPC_VV  (* OP_INT_CLZ *)
  | 0x5F => OPPC_VV  (* OP_INT_POP *)
  | 0x60 => OPPC_VV  (* OP_INT_BSWAP *)
  | 0x61 => OPPC_VV  (* OP_RAND_SEED *)
  | 0x62 => OPPC_V  (* OP_RAND_SEEDAUTO *)
  | 0x63 => OPPC_V  (* OP_RAND_INT *)
  | 0x64 => OPPC_V  (* OP_RAND_NUM *)
  | 0x65 => OPPC_VVVV  (* OP_RAND_RANGE *)
  | 0x66 => OPPC_V  (* OP_RAND_GETSTATE *)
  | 0x67 => OPPC_VV  (* OP_RAND_SETSTATE *)
  | 0x68 => OPPC_VV  (* OP_RAND_PICK *)
  | 0x69 => OPPC_VV  (* OP_RAND_SHUFFLE *)
  | 0x6A => OPPC_VA  (* OP_STR_NEW *)
  | 0x6B => OPPC_VVV  (* OP_STR_SPLIT *)
  | 0x6C => OPPC_VVVV  (* OP_STR_REPLACE *)
  | 0x6D => OPPC_VVV  (* OP_STR_BEGINS *)
  | 0x6E => OPPC_VVV  (* OP_STR_ENDS *)
  | 0x6F => OPPC_VVV  (* OP_STR_PAD *)
  | 0x70 => OPPC_VVVV  (* OP_STR_FIND *)
  | 0x71 => OPPC_VVVV  (* OP_STR_RFIND *)
  | 0x72 => OPPC_VV  (* OP_STR_LOWER *)
  | 0x73 => OPPC_VV  (* OP_STR_UPPER *)
  | 0x74 => OPPC_VV  (* OP_STR_TRIM *)
  | 0x75 => OPPC_VV  (* OP_STR_REV *)
  | 0x76 => OPPC_VVV  (* OP_STR_REP *)
  | 0x77 => OPPC_VV  (* OP_STR_LIST *)
  | 0x78 => OPPC_VVV  (* OP_STR_BYTE *)
  | 0x79 => OPPC_VVV  (* OP_STR_HASH *)
  | 0x7A => OPPC_VV  (* OP_UTF8_VALID *)
  | 0x7B => OPPC_VV  (* OP_UTF8_LIST *)
  | 0x7C => OPPC_VV  (* OP_UTF8_STR *)
  | 0x7D => OPPC_VV  (* OP_STRUCT_SIZE *)
  | 0x7E => OPPC_VVV  (* OP_STRUCT_STR *)
  | 0x7F => OPPC_VVV  (* OP_STRUCT_LIST *)
  | 0x80 => OPPC_V  (* OP_STRUCT_ISLE *)
  | 0x81 => OPPC_VVV  (* OP_LIST_NEW *)
  | 0x82 => OPPC_VV  (* OP_LIST_SHIFT *)
  | 0x83 => OPPC_VV  (* OP_LIST_POP *)
  | 0x84 => OPPC_VVV  (* OP_LIST_PUSH *)
  | 0x85 => OPPC_VVV  (* OP_LIST_UNSHIFT *)
  | 0x86 => OPPC_VVV  (* OP_LIST_APPEND *)
  | 0x87 => OPPC_VVV  (* OP_LIST_PREPEND *)
  | 0x88 => OPPC_VVVV  (* OP_LIST_FIND *)
  | 0x89 => OPPC_VVVV  (* OP_LIST_RFIND *)
  | 0x8A => OPPC_VVV  (* OP_LIST_JOIN *)
  | 0x8B => OPPC_VV  (* OP_LIST_REV *)
  | 0x8C => OPPC_VV  (* OP_LIST_STR *)
  | 0x8D => OPPC_VV  (* OP_LIST_SORT *)
  | 0x8E => OPPC_VV  (* OP_LIST_RSORT *)
  | 0x8F => OPPC_VV  (* OP_PICKLE_JSON *)
  | 0x90 => OPPC_VV  (* OP_PICKLE_BIN *)
  | 0x91 => OPPC_VV  (* OP_PICKLE_VAL *)
  | 0x92 => OPPC_VV  (* OP_PICKLE_VALID *)
  | 0x93 => OPPC_VV  (* OP_PICKLE_SIBLING *)
  | 0x94 => OPPC_VV  (* OP_PICKLE_CIRCULAR *)
  | 0x95 => OPPC_VV  (* OP_PICKLE_COPY *)
  | 0x96 => OPPC_V  (* OP_GC_GETLEVEL *)
  | 0x97 => OPPC_VV  (* OP_GC_SETLEVEL *)
  | 0x98 => OPPC_V  (* OP_GC_RUN *)
  | _ => OPPC_INVALID
  end.

(** The locals of [program_validate] that live across opcodes. *)
Record vstate := mkV {
  v_pc : Z;
  v_level : Z;
  v_wasjump : bool;
  v_jumploc : Z;
  v_jumplocs : list Z;
  op_actual : list Z;
  op_need : list Z
}.

Definition set_pc (st : vstate) (p : Z) : vstate :=
  mkV p (v_level st) (v_wasjump st) (v_jumploc st) (v_jumplocs st) (op_actual st) (op_need st).

(** The error monad of the macros: [None] is [goto fail]. *)
Definition bindo {A B} (o : option A) (f : A -> option B) : option B :=
  match o with
  | Some a => f a
  | None => None
  end.

Notation "'do' x <- o ; k" := (bindo o (fun x => k))
  (at level 10, x name, o at level 100, k at level 200).

Definition osize (ops : list Z) : Z := Z.of_nat (length ops).

(** [ops->bytes[i]], read after a check that keeps [i] inside the buffer. *)
Definition bytes (ops : list Z) (i : Z) : Z := nth (Z.to_nat i) ops 0.

(** A value computed in [int] and stored into a [uint32_t]. *)
Definition to_uint32 (z : Z) : Z := z mod 2 ^ 32.

Definition READVAR (ops : list Z) (st : vstate) : option vstate :=
  if osize ops <? v_pc st + 2 then None
  else if v_level st <? bytes ops (v_pc st) then None
  else Some (set_pc st (v_pc st + 2)).

Definition READLOC (L : Z) (ops : list Z) (st : vstate) : option vstate :=
  if osize ops <? v_pc st + 4 then None
  else
    let A := bytes ops (v_pc st) in
    let B := bytes ops (v_pc st + 1) in
    let C := bytes ops (v_pc st + 2) in
    let D := bytes ops (v_pc st + 3) in
    let jumploc := to_uint32 (A + Z.shiftl B 8 + Z.shiftl C 16 + Z.shiftl D 23 * 2) in
    if 0x80000000 <=? jumploc then None
    else
      Some (mkV (v_pc st + 4) (v_level st) (v_wasjump st) jumploc (v_jumplocs st)
                (op_actual st)
                (if jumploc <? osize ops then <[Z.to_nat jumploc := L]> (op_need st)
                 else op_need st)).

Definition READDATA (S : Z) (ops : list Z) (st : vstate) : option vstate :=
  if osize ops <? v_pc st + S then None
  else Some (set_pc st (v_pc st + S)).

(** The loop [for (D = 0; D < C; D++) READVAR();]. *)
Fixpoint readvars (n : nat) (ops : list Z) (st : vstate) : option vstate :=
  match n with
  | O => Some st
  | S n' => do st1 <- READVAR ops st; readvars n' ops st1
  end.

Definition READCNT (ops : list Z) (st : vstate) : option vstate :=
  if osize ops <? v_pc st + 1 then None
  else readvars (Z.to_nat (bytes ops (v_pc st))) ops (set_pc st (v_pc st + 1)).

(** [READINDEX]: the index, computed in [int], and the state. *)
Definition READINDEX (ops : list Z) (st : vstate) : option (Z * vstate) :=
  if osize ops <? v_pc st + 4 then None
  else
    let A := bytes ops (v_pc st) in
    let B := bytes ops (v_pc st + 1) in
    let C := bytes ops (v_pc st + 2) in
    let D := bytes ops (v_pc st + 3) in
    Some (loc32 A B C D, set_pc st (v_pc st + 4)).

(** The body of the [while] loop for the opcode at [v_pc st]. *)
Definition validate_op (prg : program) (st : vstate) : option vstate :=
  let ops := ops prg in
  let pc := v_pc st in
  let opc := op_paramcat (bytes ops pc) in
  let st := mkV (pc + 1) (v_level st) (v_wasjump st) (v_jumploc st) (v_jumplocs st)
                (<[Z.to_nat pc := 1]> (op_actual st)) (op_need st) in
  do st' <-
    match opc with
    | OPPC_INVALID => None
    | OPPC_STR =>
        do st1 <- READVAR ops st;
        do r <- READINDEX ops st1;
        if (fst r <? 0) || (Z.of_nat (length (strTable prg)) <=? fst r) then None
        else Some (snd r)
    | OPPC_CMDHEAD =>
        if negb (v_wasjump st) then None
        else if osize ops <? v_pc st + 2 then None
        else if 255 <? v_level st then None
        else
          let level := v_level st + 1 in
          if negb (bytes ops (v_pc st) =? level) then None
          else
            Some (mkV (v_pc st + 2) level (v_wasjump st) (v_jumploc st)
                      (<[Z.to_nat (v_level st) := v_jumploc st]> (v_jumplocs st))
                      (<[Z.to_nat (v_pc st - 1) := 2]> (op_actual st)) (op_need st))
    | OPPC_CMDTAIL =>
        if v_level st <=? 0 then None
        else
          let level := v_level st - 1 in
          if negb (nth (Z.to_nat level) (v_jumplocs st) 0 =? v_pc st) then None
          else
            Some (mkV (v_pc st) level (v_wasjump st) (v_jumploc st) (v_jumplocs st)
                      (op_actual st) (op_need st))
    | OPPC_JUMP => READLOC 1 ops st
    | OPPC_VJUMP => do st1 <- READVAR ops st; READLOC 1 ops st1
    | OPPC_CALL =>
        do st1 <- READVAR ops st;
        do st2 <- READLOC 2 ops st1;
        READCNT ops st2
    | OPPC_ISNATIVE =>
        do st1 <- READVAR ops st;
        do r <- READINDEX ops st1;
        if (fst r <? 0) || (Z.of_nat (length (keyTable prg)) <=? fst r) then None
        else Some (snd r)
    | OPPC_NATIVE =>
        do st1 <- READVAR ops st;
        do r <- READINDEX ops st1;
        if (fst r <? 0) || (Z.of_nat (length (keyTable prg)) <=? fst r) then None
        else READCNT ops (snd r)
    | OPPC_RETURNTAIL =>
        do st1 <- READLOC 2 ops st;
        do st2 <- READCNT ops st1;
        if v_jumploc st2 <? osize ops - 1 then
          if negb (bytes ops (v_jumploc st2) =? OP_CMDHEAD)
             || negb (bytes ops (v_jumploc st2 + 1) =? v_level st2)
          then None else Some st2
        else Some st2
    | OPPC_VVVV => readvars 4 ops st
    | OPPC_VVV => readvars 3 ops st
    | OPPC_VV => readvars 2 ops st
    | OPPC_V => readvars 1 ops st
    | OPPC_EMPTY => Some st
    | OPPC_VA => do st1 <- READVAR ops st; READCNT ops st1
    | OPPC_VN => do st1 <- READVAR ops st; READDATA 1 ops st1
    | OPPC_VNN => do st1 <- READVAR ops st; READDATA 2 ops st1
    | OPPC_VNNNN => do st1 <- READVAR ops st; READDATA 4 ops st1
    | OPPC_VNNNNNNNN => do st1 <- READVAR ops st; READDATA 8 ops st1
    end;
  Some (mkV (v_pc st') (v_level st')
            (match opc with OPPC_JUMP => true | _ => false end)
            (v_jumploc st') (v_jumplocs st') (op_actual st') (op_need st')).

(** How the scan of the buffer ends. *)
Inductive scanned :=
| ScanDone (st : vstate)
| ScanFail
| ScanOutOfFuel.

(** The [while (pc < ops->size)] loop; [fuel] bounds the number of opcodes. *)
Fixpoint validate_loop (fuel : nat) (prg : program) (st : vstate) : scanned :=
  if v_pc st <? osize (ops prg) then
    match fuel with
    | O => ScanOutOfFuel
    | S fuel' =>
        match validate_op prg st with
        | Some st' => validate_loop fuel' prg st'
        | None => ScanFail
        end
    end
  else ScanDone st.

(** The final loop: every required alignment is the actual one. *)
Fixpoint aligned (need actual : list Z) : bool :=
  match need, actual with
  | n :: need', a :: actual' =>
      if negb (n =? 0) && negb (n =? a) then false else aligned need' actual'
  | _, _ => true
  end.

Definition validate_start (prg : program) : vstate :=
  mkV 0 0 false 0 (replicate 256 0)
      (replicate (length (ops prg)) 0) (replicate (length (ops prg)) 0).

(** A required alignment, once recorded, stays recorded. *)
Definition need_le (st st' : vstate) : Prop :=
  length (op_need st') = length (op_need st)
  /\ forall t, nth t (op_need st) 0 <> 0 -> nth t (op_need st') 0 <> 0.

(** What a macro does to the scan: the cursor moves forward and stays inside
    the buffer, the actual alignments and the level are left alone, and no
    required alignment is dropped. *)
Definition scans (ops : list Z) (st st' : vstate) : Prop :=
  v_pc st <= v_pc st' <= osize ops
  /\ op_actual st' = op_actual st
  /\ v_level st' = v_level st
  /\ need_le st st'.

(** The scan of a whole program. *)
Definition validate_scan (prg : program) : scanned :=
  validate_loop (length (ops prg)) prg (validate_start prg).

(** [program_validate]; [None] only if the scan ran out of fuel. *)
Definition program_validate (prg : program) : option bool :=
  match validate_scan prg with
  | ScanDone st => Some (aligned (op_need st) (op_actual st))
  | ScanFail => Some false
  | ScanOutOfFuel => None
  end.

(** Location [i] was the cursor of the scan at the start of an opcode. *)
Definition opcode_start (st : vstate) (i : nat) : Prop := nth i (op_actual st) 0 <> 0.

(** The scan accepted the opcode at location [i] in state [s], and went on
    from [s']. *)
Definition visit (prg : program) (st : vstate) (i : nat) (s s' : vstate) : Prop :=
  v_pc s = Z.of_nat i
  /\ validate_op prg s = Some s'
  /\ need_le s' st
  /\ (v_pc s' = v_pc st \/ opcode_start st (Z.to_nat (v_pc s'))).

(** Every location recorded as the start of an opcode lies before the cursor
    and was visited. *)
Definition visited (prg : program) (st : vstate) : Prop :=
  0 <= v_pc st <= osize (ops prg)
  /\ length (op_actual st) = length (ops prg)
  /\ length (op_need st) = length (ops prg)
  /\ forall i, opcode_start st i ->
       Z.of_nat i < v_pc st /\ exists s s', visit prg st i s s'.

(** The number of operand bytes that follow the opcode at location [i], as
    the comments of [op_pcat] lay them out: two bytes for a [VAR], four for a
    [[LOCATION]] or an [[INDEX]], one for ARGCOUNT and two for each of the
    [VARS] it counts. *)
Definition operand_bytes (ops : list Z) (i : Z) (c : op_pcat) : Z :=
  match c with
  | OPPC_INVALID => 0
  | OPPC_STR => 2 + 4
  | OPPC_CMDHEAD => 1 + 1
  | OPPC_CMDTAIL => 0
  | OPPC_JUMP => 4
  | OPPC_VJUMP => 2 + 4
  | OPPC_CALL => 2 + 4 + 1 + 2 * bytes ops (i + 7)
  | OPPC_ISNATIVE => 2 + 4
  | OPPC_NATIVE => 2 + 4 + 1 + 2 * bytes ops (i + 7)
  | OPPC_RETURNTAIL => 4 + 1 + 2 * bytes ops (i + 5)
  | OPPC_VVVV => 2 + 2 + 2 + 2
  | OPPC_VVV => 2 + 2 + 2
  | OPPC_VV => 2 + 2
  | OPPC_V => 2
  | OPPC_EMPTY => 0
  | OPPC_VA => 2 + 1 + 2 * bytes ops (i + 3)
  | OPPC_VN => 2 + 1
  | OPPC_VNN => 2 + 2
  | OPPC_VNNNN => 2 + 4
  | OPPC_VNNNNNNNN => 2 + 8
  end.

(** The elements of a buffer of [uint8_t]. *)
Definition bytes_ok (ops : list Z) : Prop := Forall (fun b => 0 <= b <= 255) ops.

(** The location operand of the jumps: at offset 1 after [OP_JUMP], at offset
    3 (after the [VAR]) for [OP_JUMPTRUE] and [OP_JUMPFALSE]. *)
Definition jump_offset (c : op_pcat) : option Z :=
  match c with
  | OPPC_JUMP => Some 1
  | OPPC_VJUMP => Some 3
  | _ => None
  end.

(** The table an [[INDEX]] operand points into. *)
Definition index_table (prg : program) (c : op_pcat) : option Z :=
  match c with
  | OPPC_STR => Some (Z.of_nat (length (strTable prg)))
  | OPPC_ISNATIVE | OPPC_NATIVE => Some (Z.of_nat (length (keyTable prg)))
  | _ => None
  end.

(** The four operand bytes at [i], put together as the run loop does. *)
Definition loc_at (ops : list Z) (i : Z) : Z :=
  loc32 (bytes ops i) (bytes ops (i + 1)) (bytes ops (i + 2)) (bytes ops (i + 3)).

(** The opcodes of [vm_switch] that go on with the next opcode. *)
Definition plain_ops : list Z :=
  [OP_NOP; OP_MOVE; OP_NIL; OP_SETAT; OP_ORDER; OP_GC_GETLEVEL; OP_GC_SETLEVEL; OP_GC_RUN].

(** The jumps of [vm_switch]. *)
Definition jump_ops : list Z := [OP_JUMP; OP_JUMPTRUE; OP_JUMPFALSE].

(** A call to location 16 in a buffer of 8 bytes:
    [OP_CALL] target r0 of level 0, location 0x00000010, no arguments. *)
Definition stray_call : program :=
  mkProgram [OP_CALL; 0; 0; 0x10; 0; 0; 0; 0] [] [] false.

(** A command at location 5 that returns its first register, and a call of it. *)
Definition call_prog : program :=
  mkProgram [OP_JUMP; 12; 0; 0; 0; OP_CMDHEAD; 1; 0xFF; OP_RETURN; 1; 0; OP_CMDTAIL;
             OP_CALL; 0; 0; 5; 0; 0; 0; 0] [] [] false.

(** The state the scan of [call_prog] ends in: opcodes start at 0, 5, 8, 11
    and 12; location 5 is a call target, location 12 a jump target. *)
Definition call_prog_scan : vstate :=
  mkV 20 0 false 5 (<[0%nat := 12]> (replicate 256 0))
      [1; 0; 0; 0; 0; 2; 0; 0; 1; 0; 0; 1; 1; 0; 0; 0; 0; 0; 0; 0]
      [0; 0; 0; 0; 0; 2; 0; 0; 0; 0; 0; 0; 1; 0; 0; 0; 0; 0; 0; 0].

(** Register 1 is moved to register 0, then nothing. *)
Definition move_prog : program := mkProgram [OP_MOVE; 0; 0; 0; 1; OP_NOP] [] [] false.

(** The state the scan of [move_prog] ends in. *)
Definition move_prog_scan : vstate :=
  mkV 6 0 false 0 (replicate 256 0) [1; 0; 0; 0; 0; 1] [0; 0; 0; 0; 0; 0].

(** Register 0 of level 0 is set to string 1 of a table of two. *)
Definition str_prog : program :=
  mkProgram [0x0B; 0; 0; 1; 0; 0; 0] [[104; 105]; [33]] [] false.

(** [call_prog] about to run its [OP_CALL], and in the command called. *)
Definition call_site : context := with_pc (new_ctx (ops call_prog)) 12 12.

Definition called_ctx : context :=
  match op_call empty_list 0 call_site with
  | SwBreak c => c
  | _ => call_site
  end.

(** What an operand load leaves of the context: everything but [pc]. *)
Definition same_frames (c c' : context) : Prop :=
  call_stk c' = call_stk c /\ lex_stk c' = lex_stk c /\ lex_index c' = lex_index c
  /\ prg c' = prg c.

End Validate.
(* ===================================================================== *)
(** * Properties *)
(* ===================================================================== *)

(** ** Tagged values *)

Module ValueFacts.

Lemma index_mask_small i : 0 <= i < 2 ^ 31 -> Z.land i SINK_INDEX_MASK = i.
Proof.
  intros Hi. change SINK_INDEX_MASK with (Z.ones 31).
  rewrite Z.land_ones by lia. apply Z.mod_small. lia.
Qed.

Lemma tag_mask_small i : 0 <= i < 2 ^ 31 -> Z.land i SINK_TAG_MASK = 0.
Proof.
  intros Hi. apply Z.bits_inj'. intros k Hk. rewrite Z.land_spec, Z.bits_0.
  destruct (Z_lt_ge_dec k 31) as [Hlt|Hge].
  - change SINK_TAG_MASK with (Z.shiftl (Z.ones 33) 31).
    rewrite Z.shiftl_spec_low by lia. apply andb_false_r.
  - destruct (Z.eq_dec i 0) as [->|Hne]; [rewrite Z.bits_0; reflexivity|].
    rewrite (Z.bits_above_log2 i k); [reflexivity|lia|].
    assert (Z.log2 i < 31) by (apply Z.log2_lt_pow2; lia). lia.
Qed.

Lemma var_index_str_val i : 0 <= i < 2 ^ 31 -> var_index (str_val i) = i.
Proof.
  intros Hi. unfold var_index, str_val.
  rewrite Z.land_lor_distr_l, (index_mask_small i) by lia. reflexivity.
Qed.

Lemma sink_isstr_str_val i : 0 <= i < 2 ^ 31 -> sink_isstr (str_val i) = true.
Proof.
  intros Hi. unfold sink_isstr, str_val.
  rewrite Z.land_lor_distr_l, (tag_mask_small i) by lia. reflexivity.
Qed.

Lemma var_index_list_val i : 0 <= i < 2 ^ 31 -> var_index (list_val i) = i.
Proof.
  intros Hi. unfold var_index, list_val.
  rewrite Z.land_lor_distr_l, (index_mask_small i) by lia. reflexivity.
Qed.

(** The four type tests exclude one another. *)
Lemma typeof_list_islist v : sink_typeof v = SINK_TYPE_LIST <-> sink_islist v = true.
Proof.
  unfold sink_typeof, sink_isnil, sink_isstr, sink_islist. split.
  - destruct (v =? SINK_NIL); [discriminate|].
    destruct (Z.land v SINK_TAG_MASK =? SINK_TAG_STR); [discriminate|].
    destruct (Z.land v SINK_TAG_MASK =? SINK_TAG_LIST); [reflexivity|discriminate].
  - intros H. apply Z.eqb_eq in H.
    destruct (v =? SINK_NIL) eqn:En.
    + apply Z.eqb_eq in En. subst v. discriminate H.
    + rewrite H. reflexivity.
Qed.

End ValueFacts.
(** ** Pool allocation *)

Module PoolFacts.
Import Pool.

Example bmp_alloc_first_word : bmp_alloc [0x7; 0] 128 = (3, [0xF; 0]).
Proof. reflexivity. Qed.

Example bmp_alloc_second_word : bmp_alloc [UINT64_MAX; 0x1] 128 = (65, [UINT64_MAX; 0x3]).
Proof. reflexivity. Qed.

Example bmp_alloc_none : bmp_alloc [UINT64_MAX] 64 = (-1, [UINT64_MAX]).
Proof. reflexivity. Qed.

Lemma ffs_from_spec n : forall i x, 0 <= i ->
  (ffs_from n i x = 0 /\ forall j, i <= j < i + Z.of_nat n -> Z.testbit x j = false)
  \/ (exists k, ffs_from n i x = k + 1 /\ i <= k < i + Z.of_nat n
        /\ Z.testbit x k = true /\ forall j, i <= j < k -> Z.testbit x j = false).
Proof.
  induction n as [|n IH]; intros i x Hi; simpl ffs_from.
  - left. split; [reflexivity|]. intros j Hj. lia.
  - destruct (Z.testbit x i) eqn:E.
    + right. exists i. repeat split; try lia. exact E.
    + destruct (IH (i + 1) x ltac:(lia)) as [[H0 Hall]|[k (Hk & Hr & Hb & Hlow)]].
      * left. split; [exact H0|]. intros j Hj.
        destruct (Z.eq_dec j i) as [->|Hne]; [exact E|]. apply Hall. lia.
      * right. exists k. repeat split; try lia; try assumption.
        intros j Hj. destruct (Z.eq_dec j i) as [->|Hne]; [exact E|]. apply Hlow. lia.
Qed.

Lemma max_testbit k : 0 <= k < 64 -> Z.testbit UINT64_MAX k = true.
Proof.
  intros Hk. change UINT64_MAX with (Z.ones 64). apply Z.ones_spec_low. lia.
Qed.

Lemma word_high_bits w k : 0 <= w <= UINT64_MAX -> 64 <= k -> Z.testbit w k = false.
Proof.
  intros Hw Hk. destruct (Z.eq_dec w 0) as [->|Hne]; [apply Z.bits_0|].
  apply Z.bits_above_log2; [lia|].
  assert (Z.log2 w < 64); [|lia].
  apply Z.log2_lt_pow2; [lia|]. unfold UINT64_MAX in Hw. lia.
Qed.

Lemma u64_not_testbit w k : 0 <= k < 64 ->
  Z.testbit (u64_not w) k = negb (Z.testbit w k).
Proof.
  intros Hk. unfold u64_not. rewrite Z.lxor_spec, max_testbit by lia.
  destruct (Z.testbit w k); reflexivity.
Qed.

Lemma word_all_ones w : 0 <= w <= UINT64_MAX ->
  (forall j, 0 <= j < 64 -> Z.testbit w j = true) -> w = UINT64_MAX.
Proof.
  intros Hw Hall. apply Z.bits_inj'. intros k Hk.
  destruct (Z_lt_ge_dec k 64) as [Hlt|Hge].
  - rewrite Hall, max_testbit by lia. reflexivity.
  - rewrite (word_high_bits w) by lia.
    rewrite (word_high_bits UINT64_MAX) by (unfold UINT64_MAX; lia). reflexivity.
Qed.

(** The first clear bit of a word that is not all ones. *)
Lemma ffsll_not_spec w : 0 <= w <= UINT64_MAX -> w <> UINT64_MAX ->
  exists k, ffsll (u64_not w) - 1 = k /\ 0 <= k < 64
    /\ Z.testbit w k = false /\ forall j, 0 <= j < k -> Z.testbit w j = true.
Proof.
  intros Hw Hne. unfold ffsll.
  destruct (ffs_from_spec 64 0 (u64_not w) ltac:(lia)) as [[_ Hall]|[k (Hk & Hr & Hb & Hlow)]].
  - exfalso. apply Hne. apply word_all_ones; [exact Hw|]. intros j Hj.
    specialize (Hall j ltac:(lia)). rewrite u64_not_testbit in Hall by lia.
    destruct (Z.testbit w j); [reflexivity|discriminate].
  - exists k. rewrite Hk. split; [lia|]. split; [lia|]. split.
    + rewrite u64_not_testbit in Hb by lia. destruct (Z.testbit w k); [discriminate|reflexivity].
    + intros j Hj. specialize (Hlow j ltac:(lia)). rewrite u64_not_testbit in Hlow by lia.
      destruct (Z.testbit w j); [reflexivity|discriminate].
Qed.

Lemma set_bit_range w k : 0 <= w <= UINT64_MAX -> 0 <= k < 64 ->
  0 <= Z.lor w (Z.shiftl 1 k) <= UINT64_MAX.
Proof.
  intros Hw Hk.
  assert (H0 : 0 <= Z.lor w (Z.shiftl 1 k)).
  { apply Z.lor_nonneg. split; [lia|]. apply Z.shiftl_nonneg. lia. }
  split; [exact H0|].
  destruct (Z.eq_dec (Z.lor w (Z.shiftl 1 k)) 0) as [->|Hne]; [unfold UINT64_MAX; lia|].
  assert (Z.log2 (Z.lor w (Z.shiftl 1 k)) < 64).
  { rewrite Z.log2_lor; [|lia|apply Z.shiftl_nonneg; lia].
    apply Z.max_lub_lt.
    - destruct (Z.eq_dec w 0) as [->|Hw0]; [simpl; lia|].
      apply Z.log2_lt_pow2; [lia|]. unfold UINT64_MAX in Hw. lia.
    - rewrite Z.shiftl_1_l, Z.log2_pow2; lia. }
  assert (Z.lor w (Z.shiftl 1 k) < 2 ^ 64).
  { apply Z.log2_lt_pow2; lia. }
  unfold UINT64_MAX. lia.
Qed.

Lemma set_bit_testbit w k j : 0 <= k -> 0 <= j ->
  Z.testbit (Z.lor w (Z.shiftl 1 k)) j = if j =? k then true else Z.testbit w j.
Proof.
  intros Hk Hj. rewrite Z.lor_spec, Z.shiftl_1_l, Z.pow2_bits_eqb by lia.
  rewrite (Z.eqb_sym k j). destruct (j =? k), (Z.testbit w j); reflexivity.
Qed.

(** [bmp_bit] on a cursor: the first word holds bits 0..63, the rest follows. *)
Lemma bmp_bit_head w rest i : 0 <= i < 64 -> bmp_bit (w :: rest) i = Z.testbit w i.
Proof.
  intros Hi. unfold bmp_bit.
  rewrite Z.quot_small, Z.rem_small by lia. reflexivity.
Qed.

Lemma bmp_bit_tail w rest i : 64 <= i -> bmp_bit (w :: rest) i = bmp_bit rest (i - 64).
Proof.
  intros Hi. unfold bmp_bit.
  rewrite !Z.quot_div_nonneg, !Z.rem_mod_nonneg by lia.
  replace i with ((i - 64) + 1 * 64) at 1 2 by lia.
  rewrite Z.div_add, Z.mod_add by lia.
  replace (Z.to_nat ((i - 64) / 64 + 1)) with (S (Z.to_nat ((i - 64) / 64))).
  - reflexivity.
  - assert (0 <= (i - 64) / 64) by (apply Z.div_pos; lia). lia.
Qed.

(** What the scan of [bmp_alloc] returns, stated on the bits. *)
Lemma bmp_alloc_from_spec bmp : forall loop, words_ok bmp ->
  let count := 64 * Z.of_nat (length bmp) in
  let '(r, bmp') := bmp_alloc_from bmp count loop in
  (r = -1 /\ bmp' = bmp /\ forall i, 0 <= i < count -> bmp_bit bmp i = true)
  \/ (exists i, r = loop * 64 + i /\ 0 <= i < count
        /\ bmp_bit bmp i = false
        /\ (forall j, 0 <= j < i -> bmp_bit bmp j = true)
        /\ bmp_bit bmp' i = true
        /\ (forall j, 0 <= j -> j <> i -> bmp_bit bmp' j = bmp_bit bmp j)
        /\ length bmp' = length bmp /\ words_ok bmp').
Proof.
  induction bmp as [|w rest IH]; intros loop Hok count.
  - subst count. simpl. left. repeat split; intros; lia.
  - subst count. cbn [bmp_alloc_from].
    replace (64 * Z.of_nat (length (w :: rest)) <=? 0) with false
      by (symmetry; apply Z.leb_gt; cbn [length]; lia).
    inversion Hok as [|w' rest' Hw Hrest]; subst.
    destruct (w =? UINT64_MAX) eqn:Ew.
    + apply Z.eqb_eq in Ew. subst w.
      replace (64 * Z.of_nat (length (UINT64_MAX :: rest)) - 64)
        with (64 * Z.of_nat (length rest)) by (cbn [length]; lia).
      specialize (IH (loop + 1) Hrest). cbv zeta in IH.
      destruct (bmp_alloc_from rest (64 * Z.of_nat (length rest)) (loop + 1)) as [r rest''].
      destruct IH as [(Hr & Heq & Hall)|(i & Hr & Hi & Hclr & Hlow & Hset & Hoth & Hlen & Hok')].
      * left. subst. repeat split. intros i Hi.
        destruct (Z_lt_ge_dec i 64).
        -- rewrite bmp_bit_head by lia. apply max_testbit. lia.
        -- rewrite bmp_bit_tail by lia. apply Hall. cbn [length] in Hi. lia.
      * right. exists (i + 64). repeat split; try (cbn [length]; lia).
        -- rewrite bmp_bit_tail by lia. replace (i + 64 - 64) with i by lia. exact Hclr.
        -- intros j Hj. destruct (Z_lt_ge_dec j 64).
           ++ rewrite bmp_bit_head by lia. apply max_testbit. lia.
           ++ rewrite bmp_bit_tail by lia. apply Hlow. lia.
        -- rewrite bmp_bit_tail by lia. replace (i + 64 - 64) with i by lia. exact Hset.
        -- intros j Hj Hne. destruct (Z_lt_ge_dec j 64).
           ++ rewrite !bmp_bit_head by lia. reflexivity.
           ++ rewrite !bmp_bit_tail by lia. apply Hoth; lia.
        -- constructor; assumption.
    + apply Z.eqb_neq in Ew.
      destruct (ffsll_not_spec w Hw Ew) as (k & Hk & Hr & Hclr & Hlow).
      rewrite Hk. right. exists k. repeat split; try (cbn [length]; lia).
      * rewrite bmp_bit_head by lia. exact Hclr.
      * intros j Hj. rewrite bmp_bit_head by lia. apply Hlow. lia.
      * rewrite bmp_bit_head, set_bit_testbit, Z.eqb_refl by lia. reflexivity.
      * intros j Hj Hne. destruct (Z_lt_ge_dec j 64).
        -- rewrite !bmp_bit_head, set_bit_testbit by lia.
           replace (j =? k) with false by (symmetry; apply Z.eqb_neq; lia). reflexivity.
        -- rewrite !bmp_bit_tail by lia. reflexivity.
      * constructor; [apply set_bit_range; lia|assumption].
Qed.

Lemma bmp_alloc_full bmp : words_ok bmp ->
  (forall i, 0 <= i < 64 * Z.of_nat (length bmp) -> bmp_bit bmp i = true) ->
  bmp_alloc bmp (64 * Z.of_nat (length bmp)) = (-1, bmp).
Proof.
  intros Hok Hall. unfold bmp_alloc.
  pose proof (bmp_alloc_from_spec bmp 0 Hok) as H. cbv zeta in H.
  destruct (bmp_alloc_from bmp (64 * Z.of_nat (length bmp)) 0) as [r bmp'].
  destruct H as [(Hr & Heq & _)|(i & _ & Hi & Hclr & _)].
  - subst. reflexivity.
  - rewrite Hall in Hclr by lia. discriminate.
Qed.

Lemma bmp_alloc_lowest bmp k : words_ok bmp ->
  0 <= k < 64 * Z.of_nat (length bmp) -> bmp_bit bmp k = false ->
  (forall j, 0 <= j < k -> bmp_bit bmp j = true) ->
  exists bmp', bmp_alloc bmp (64 * Z.of_nat (length bmp)) = (k, bmp')
    /\ bmp_bit bmp' k = true
    /\ (forall j, 0 <= j -> j <> k -> bmp_bit bmp' j = bmp_bit bmp j)
    /\ length bmp' = length bmp /\ words_ok bmp'.
Proof.
  intros Hok Hk Hclr Hlow. unfold bmp_alloc.
  pose proof (bmp_alloc_from_spec bmp 0 Hok) as H. cbv zeta in H.
  destruct (bmp_alloc_from bmp (64 * Z.of_nat (length bmp)) 0) as [r bmp'].
  destruct H as [(_ & _ & Hall)|(i & Hr & Hi & Hclr' & Hlow' & Hset & Hoth & Hlen & Hok')].
  - rewrite Hall in Hclr by lia. discriminate.
  - assert (i = k).
    { destruct (Z.lt_trichotomy i k) as [Hlt|[Heq|Hgt]]; [|exact Heq|].
      - rewrite Hlow in Hclr' by lia. discriminate.
      - rewrite Hlow' in Hclr by lia. discriminate. }
    subst i. exists bmp'. replace r with k by lia. repeat split; assumption.
Qed.

(** The bitmap after growing a full pool of [n] words: the old words, then a
    word with bit 0 set, then clear words. *)
Lemma grow_aloc (words : list Z) junkw : (0 < length words)%nat ->
  let n := Z.of_nat (length words) in
  or1_at (memset0 (mem_realloc words (2 * n) junkw) n n) n
  = words ++ 1 :: replicate (length words - 1) 0.
Proof.
  intros Hn n. subst n. unfold mem_realloc, memset0, or1_at.
  rewrite !Nat2Z.id.
  replace (Z.to_nat (2 * Z.of_nat (length words))) with (length words + length words)%nat by lia.
  rewrite (take_ge words) by lia.
  rewrite take_app_length, drop_ge by (rewrite length_app, length_replicate; lia).
  rewrite length_app, length_replicate, app_nil_r.
  replace (Nat.min (length words) (length words + (length words + length words - length words)
             - length words)) with (S (length words - 1)) by lia.
  cbn [replicate].
  rewrite lookup_app_r by lia. rewrite Nat.sub_diag. cbn [lookup list_lookup].
  rewrite (insert_app_r_alt words) by lia. rewrite Nat.sub_diag. reflexivity.
Qed.

Lemma bmp_bit_app_l (l1 l2 : list Z) i : 0 <= i < 64 * Z.of_nat (length l1) ->
  bmp_bit (l1 ++ l2) i = bmp_bit l1 i.
Proof.
  intros Hi. unfold bmp_bit. rewrite Z.quot_div_nonneg by lia.
  rewrite app_nth1; [reflexivity|].
  assert (i / 64 < Z.of_nat (length l1)) by (apply Z.div_lt_upper_bound; lia).
  assert (0 <= i / 64) by (apply Z.div_pos; lia). lia.
Qed.

Lemma bmp_bit_app_r (l1 l2 : list Z) i : 64 * Z.of_nat (length l1) <= i ->
  bmp_bit (l1 ++ l2) i = bmp_bit l2 (i - 64 * Z.of_nat (length l1)).
Proof.
  revert i. induction l1 as [|w l1 IH]; intros i Hi.
  - cbn [app length]. f_equal. lia.
  - cbn [app]. cbn [length] in *. rewrite bmp_bit_tail by lia. rewrite IH by lia.
    f_equal. lia.
Qed.

Lemma bmp_bit_zeros n i : 0 <= i -> bmp_bit (replicate n 0) i = false.
Proof.
  intros Hi. unfold bmp_bit.
  destruct (nth_in_or_default (Z.to_nat (Z.quot i 64)) (replicate n 0) 0) as [Hin | ->].
  - apply list_elem_of_In, elem_of_replicate in Hin. destruct Hin as [-> _]. apply Z.bits_0.
  - apply Z.bits_0.
Qed.

Lemma bmp_bit_ones n i : 0 <= i < 64 * Z.of_nat n ->
  bmp_bit (replicate n UINT64_MAX) i = true.
Proof.
  intros Hi. unfold bmp_bit. rewrite Z.quot_div_nonneg, Z.rem_mod_nonneg by lia.
  assert (0 <= i / 64 < Z.of_nat n).
  { split; [apply Z.div_pos; lia|apply Z.div_lt_upper_bound; lia]. }
  erewrite nth_lookup_Some; [|apply lookup_replicate_2; lia].
  apply max_testbit. apply Z.mod_pos_bound. lia.
Qed.

Lemma pool_wf_words {T} (p : pool T) : pool_wf p -> words_ok (aloc p).
Proof. intros (_ & _ & _ & H). exact H. Qed.

(** A full pool at the size limit is not grown: [bmp_reserve] gives up. *)
Lemma bmp_reserve_out_of_memory {T} (junk : T) junkw (p : pool T) :
  pool_wf p -> pool_full p -> 0x3FFFFFFF <= size p ->
  bmp_reserve junk junkw p = OutOfMemory.
Proof.
  intros Hwf Hfull Hcap. pose proof Hwf as (Hpos & Hsz & Hlen & Hok).
  assert (Ha : bmp_alloc (aloc p) (size p) = (-1, aloc p)).
  { rewrite Hsz. apply bmp_alloc_full; [exact Hok|]. intros i Hi. apply Hfull. lia. }
  unfold bmp_reserve. rewrite Ha.
  cbn [Z.leb Z.compare].
  destruct (0x3FFFFFFF <=? size p) eqn:E; [reflexivity|]. apply Z.leb_gt in E. lia.
Qed.

Lemma bmp_reserve_free {T} (junk : T) junkw (p : pool T) k :
  pool_wf p -> first_free p k ->
  exists p', bmp_reserve junk junkw p = Reserved k p'
    /\ tbl p' = tbl p /\ size p' = size p
    /\ bmp_bit (aloc p') k = true
    /\ (forall j, 0 <= j -> j <> k -> bmp_bit (aloc p') j = bmp_bit (aloc p) j)
    /\ pool_wf p'.
Proof.
  intros Hwf (Hk & Hclr & Hlow). pose proof Hwf as (Hpos & Hsz & Hlen & Hok).
  destruct (bmp_alloc_lowest (aloc p) k Hok ltac:(lia) Hclr Hlow)
    as (bmp' & Ha & Hset & Hoth & Hlen' & Hok').
  rewrite <- Hsz in Ha. unfold bmp_reserve. rewrite Ha.
  replace (0 <=? k) with true by (symmetry; apply Z.leb_le; lia).
  eexists. split; [reflexivity|]. unfold pool_wf. cbn [tbl size aloc].
  repeat split; try assumption; try lia.
Qed.

Lemma bmp_reserve_grow {T} (junk : T) junkw (p : pool T) :
  pool_wf p -> pool_full p -> size p < 0x3FFFFFFF ->
  exists p', bmp_reserve junk junkw p = Reserved (size p) p'
    /\ size p' = 2 * size p
    /\ (forall i x, tbl p !! i = Some x -> tbl p' !! i = Some x)
    /\ (forall j, 0 <= j <= size p -> bmp_bit (aloc p') j = true)
    /\ (forall j, size p < j < 2 * size p -> bmp_bit (aloc p') j = false)
    /\ pool_wf p'.
Proof.
  intros Hwf Hfull Hcap. pose proof Hwf as (Hpos & Hsz & Hlen & Hok).
  set (n := length (aloc p)) in *.
  assert (Hn : (0 < n)%nat) by lia.
  assert (Ha : bmp_alloc (aloc p) (size p) = (-1, aloc p)).
  { rewrite Hsz. apply bmp_alloc_full; [exact Hok|]. intros i Hi. apply Hfull. lia. }
  unfold bmp_reserve. rewrite Ha.
  cbn [Z.leb Z.compare].
  replace (0x3FFFFFFF <=? size p) with false by (symmetry; apply Z.leb_gt; lia).
  assert (Q1 : Z.quot (size p * 2) 64 = 2 * Z.of_nat n).
  { rewrite Hsz. replace (64 * Z.of_nat n * 2) with (2 * Z.of_nat n * 64) by lia.
    apply Z.quot_mul. lia. }
  assert (Q2 : Z.quot (size p) 64 = Z.of_nat n).
  { rewrite Hsz. rewrite Z.mul_comm. apply Z.quot_mul. lia. }
  assert (Q3 : Z.quot (size p * 2) 128 = Z.of_nat n).
  { rewrite Hsz. replace (64 * Z.of_nat n * 2) with (Z.of_nat n * 128) by lia.
    apply Z.quot_mul. lia. }
  assert (Q4 : Z.quot (size p * 2) 2 = size p) by (apply Z.quot_mul; lia).
  rewrite Q1, Q2, Q3, Q4.
  pose proof (grow_aloc (aloc p) junkw Hn) as G. cbv zeta in G. fold n in G. rewrite G.
  eexists. split; [reflexivity|]. cbn [tbl size aloc].
  split; [lia|]. split; [|split; [|split]].
  - intros i x Hx. unfold mem_realloc. apply lookup_app_l_Some.
    rewrite take_ge by lia. exact Hx.
  - intros j Hj. destruct (Z.eq_dec j (size p)) as [->|Hne].
    + rewrite bmp_bit_app_r by (fold n; lia). fold n.
      replace (size p - 64 * Z.of_nat n) with 0 by lia. reflexivity.
    + rewrite bmp_bit_app_l by (fold n; lia). apply Hfull. lia.
  - intros j Hj. rewrite bmp_bit_app_r by (fold n; lia). fold n.
    set (d := j - 64 * Z.of_nat n). assert (0 < d) by (subst d; lia).
    destruct (Z_lt_ge_dec d 64).
    + rewrite bmp_bit_head by lia. apply Z.bits_above_log2; simpl; lia.
    + rewrite bmp_bit_tail by lia. apply bmp_bit_zeros. lia.
  - unfold pool_wf. cbn [tbl size aloc]. split; [lia|]. split; [|split].
    + rewrite length_app. cbn [length]. rewrite length_replicate. fold n. lia.
    + unfold mem_realloc. rewrite take_ge by lia.
      rewrite length_app, length_replicate. lia.
    + apply Forall_app. split; [exact Hok|]. constructor; [unfold UINT64_MAX; lia|].
      apply Forall_replicate. unfold UINT64_MAX. lia.
Qed.

Lemma pool_full_or_free {T} (p : pool T) : pool_wf p ->
  pool_full p \/ exists k, first_free p k.
Proof.
  intros (Hpos & Hsz & Hlen & Hok).
  pose proof (bmp_alloc_from_spec (aloc p) 0 Hok) as H. cbv zeta in H.
  destruct (bmp_alloc_from (aloc p) (64 * Z.of_nat (length (aloc p))) 0) as [r bmp'].
  destruct H as [(_ & _ & Hall)|(i & _ & Hi & Hclr & Hlow & _)].
  - left. intros i Hi. apply Hall. lia.
  - right. exists i. split; [lia|]. split; assumption.
Qed.

(** Below the size limit a slot is always handed out. *)
Lemma bmp_reserve_room {T} (junk : T) junkw (p : pool T) :
  pool_wf p -> size p < 0x3FFFFFFF ->
  exists k p', bmp_reserve junk junkw p = Reserved k p'
    /\ 0 <= k < size p' /\ size p' <= 2 * size p /\ pool_wf p'.
Proof.
  intros Hwf Hcap. pose proof Hwf as (Hpos & _).
  destruct (pool_full_or_free p Hwf) as [Hfull|[k Hk]].
  - destruct (bmp_reserve_grow junk junkw p Hwf Hfull Hcap) as (p' & He & Hs & _ & _ & _ & Hwf').
    exists (size p), p'. split; [exact He|]. split; [lia|]. split; [lia|exact Hwf'].
  - destruct (bmp_reserve_free junk junkw p k Hwf Hk) as (p' & He & _ & Hs & _ & _ & Hwf').
    destruct Hk as (Hk & _). exists k, p'.
    split; [exact He|]. split; [lia|]. split; [lia|exact Hwf'].
Qed.

(** C7 (as amended): [bmp_reserve] on a well-formed pool.  When a slot is
    free, the lowest-numbered free slot is returned and marked allocated, and
    nothing else changes.  When every slot is allocated and the pool has fewer
    than [0x3FFFFFFF] slots, the number of slots doubles, the returned index is
    the old number of slots (the first slot of the added half, the only one of
    that half marked allocated), and every old slot keeps its object and stays
    allocated.  When every slot is allocated and the pool has [0x3FFFFFFF]
    slots or more, the pool is not grown: the call ends the process with
    "Out of memory!". *)
Theorem bmp_reserve_spec {T} (junk : T) (junkw : Z) (p : pool T) :
  pool_wf p ->
  (forall k, first_free p k ->
     exists p', bmp_reserve junk junkw p = Reserved k p'
       /\ tbl p' = tbl p /\ size p' = size p
       /\ bmp_bit (aloc p') k = true
       /\ (forall j, 0 <= j -> j <> k -> bmp_bit (aloc p') j = bmp_bit (aloc p) j)
       /\ pool_wf p')
  /\ (pool_full p -> size p < 0x3FFFFFFF ->
     exists p', bmp_reserve junk junkw p = Reserved (size p) p'
       /\ size p' = 2 * size p
       /\ (forall i x, tbl p !! i = Some x -> tbl p' !! i = Some x)
       /\ (forall j, 0 <= j <= size p -> bmp_bit (aloc p') j = true)
       /\ (forall j, size p < j < 2 * size p -> bmp_bit (aloc p') j = false)
       /\ pool_wf p')
  /\ (pool_full p -> 0x3FFFFFFF <= size p -> bmp_reserve junk junkw p = OutOfMemory).
Proof.
  intros Hwf. split; [|split].
  - intros k Hk. apply bmp_reserve_free; assumption.
  - intros Hfull Hcap. apply bmp_reserve_grow; assumption.
  - intros Hfull Hcap. apply bmp_reserve_out_of_memory; assumption.
Qed.

Lemma small_full_pool_wf : pool_wf small_full_pool.
Proof.
  unfold pool_wf, small_full_pool. cbn [tbl size aloc length].
  repeat split; try reflexivity. repeat constructor; discriminate.
Defined.

Lemma small_full_pool_full : pool_full small_full_pool.
Proof.
  intros i Hi. unfold small_full_pool in *. cbn [size aloc] in *.
  apply (bmp_bit_ones 1). lia.
Defined.

(** A full pool of 64 slots grows to 128 slots and hands out slot 64. *)
Lemma bmp_reserve_spec_witness :
  pool_wf small_full_pool /\
  exists p', bmp_reserve 0 0 small_full_pool = Reserved 64 p' /\ size p' = 128.
Proof.
  split; [exact small_full_pool_wf|].
  destruct (bmp_reserve_spec 0 0 small_full_pool small_full_pool_wf) as (_ & Hgrow & _).
  destruct (Hgrow small_full_pool_full ltac:(reflexivity)) as (p' & He & Hs & _).
  exists p'. split; [exact He|exact Hs].
Defined.

Lemma cap_pool_wf : pool_wf cap_pool.
Proof.
  unfold pool_wf, cap_pool. cbn [tbl size aloc].
  rewrite !length_replicate, !Z2Nat.id by discriminate.
  repeat split; try reflexivity; try discriminate.
  apply Forall_replicate. split; discriminate.
Qed.

Lemma cap_pool_full : pool_full cap_pool.
Proof.
  intros i Hi. unfold cap_pool in *. cbn [size aloc] in *.
  apply bmp_bit_ones. rewrite Z2Nat.id by discriminate. lia.
Qed.

(** C7 (as stated) fails at the size limit: in a well-formed pool of
    [0x40000000] slots with every bit set, the capacity does not double and no
    index is returned. *)
Lemma bmp_reserve_at_limit :
  pool_wf cap_pool /\ pool_full cap_pool
  /\ ~ (exists k p', bmp_reserve tt 0 cap_pool = Reserved k p').
Proof.
  split; [exact cap_pool_wf|]. split; [exact cap_pool_full|].
  intros (k & p' & H).
  rewrite (bmp_reserve_out_of_memory tt 0 cap_pool cap_pool_wf cap_pool_full) in H.
  - discriminate.
  - discriminate.
Qed.

End PoolFacts.
(** ** Numeric literals *)

Module NumpartFacts.
Import Numpart.

Example numpart_calc_hex : (numpart_calc hex_literal == 252)%Q.
Proof. reflexivity. Qed.

Example numpart_calc_dec :
  (numpart_calc (mkNumpart 1 12%Q 10 5%Q 1 (-1) 2) == 125 # 1000)%Q.
Proof. reflexivity. Qed.

Lemma numpart_new_ok : numpart_ok numpart_new.
Proof.
  unfold numpart_ok, numpart_new. cbn. repeat split; try lia; auto. 
Qed.

Lemma lex_num_setbase_ok info b : numpart_ok info -> In b [2; 8; 10; 16] ->
  numpart_ok (lex_num_setbase info b).
Proof. intros (Hb & He & Hf & Hz) Hin. unfold numpart_ok. cbn. auto. Qed.

Lemma lex_num_body_digit_ok info v info' : numpart_ok info ->
  lex_num_body_digit info v = Some info' -> numpart_ok info'.
Proof.
  intros (Hb & He & Hf & Hz). unfold lex_num_body_digit.
  destruct (np_base info <=? v); [discriminate|]. intros [= <-].
  unfold numpart_ok. cbn. auto.
Qed.

Lemma lex_num_frac_digit_ok info v info' : numpart_ok info ->
  lex_num_frac_digit info v = Some info' -> numpart_ok info'.
Proof.
  intros (Hb & He & Hf & Hz). unfold lex_num_frac_digit.
  destruct (np_base info <=? v); [discriminate|]. intros [= <-].
  unfold numpart_ok. cbn. repeat split; auto; try lia.
Qed.

Lemma lex_num_exp_sign_ok info m : numpart_ok info -> numpart_ok (lex_num_exp_sign info m).
Proof. intros H. exact H. Qed.

Lemma lex_num_exp_digit_ok info v : numpart_ok info -> 0 <= v ->
  numpart_ok (lex_num_exp_digit info v).
Proof.
  intros (Hb & He & Hf & Hz) Hv. unfold numpart_ok. cbn. repeat split; auto; lia.
Qed.





End NumpartFacts.
(** ** The pipe operator *)

Module ParserFacts.
Import Parser.

Section Pipe.

Variables dbl_add dbl_sub dbl_fmod dbl_mul dbl_div dbl_pow : Z -> Z -> Z.

Abbreviation expr_infix := (expr_infix dbl_add dbl_sub dbl_fmod dbl_mul dbl_div dbl_pow).
Abbreviation parser_infix := (parser_infix dbl_add dbl_sub dbl_fmod dbl_mul dbl_div dbl_pow).

Lemma expr_paren_not_group flp ex : forall f g, expr_paren flp ex <> EXPR_GROUP f g.
Proof. intros f g. destruct ex; discriminate. Qed.

Lemma expr_infix_comma flp left right :
  expr_infix flp KS_COMMA left right = expr_group flp left right.
Proof. destruct left, right; reflexivity. Qed.

Lemma expr_group_args flp left right : (forall f g, left <> EXPR_GROUP f g) ->
  call_args (expr_group flp left right) = left :: call_args right.
Proof.
  intros Hl. unfold expr_group, call_args.
  destruct left; try reflexivity. exfalso. eapply Hl. reflexivity.
Qed.

(** C6: the pipe.  [x | f y...] is the call [f] with [x] (in parentheses
    unless it is a number literal) put before the arguments it had; [x | f]
    for a bare name [f] is the call of [f] on that one argument; any other
    right operand is the parse error "Invalid pipe". *)
Theorem parser_infix_pipe (flp : filepos_st) (left right : expr) :
  match right with
  | EXPR_CALL rflp cmd params =>
      exists params',
        parser_infix flp KS_PIPE left right = pri_ok (EXPR_CALL rflp cmd params')
        /\ call_args params' = expr_paren (expr_flp left) left :: call_args params
  | EXPR_NAMES rflp names =>
      parser_infix flp KS_PIPE left right
        = pri_ok (EXPR_CALL rflp right (expr_paren (expr_flp left) left))
      /\ call_args (expr_paren (expr_flp left) left) = [expr_paren (expr_flp left) left]
  | _ => parser_infix flp KS_PIPE left right = pri_error "Invalid pipe"
  end.
Proof.
  destruct right; try reflexivity.
  - split; [reflexivity|]. destruct left; reflexivity.
  - eexists. split; [reflexivity|].
    rewrite expr_infix_comma. apply expr_group_args. apply expr_paren_not_group.
Qed.

End Pipe.

(** [x | f y] becomes [f (x), y]. *)
Example pipe_into_call : forall add sub fmod mul div pw,
  parser_infix add sub fmod mul div pw fp0 KS_PIPE name_x (EXPR_CALL fp0 name_f name_y)
  = pri_ok (EXPR_CALL fp0 name_f (EXPR_GROUP fp0 [EXPR_PAREN fp0 name_x; name_y])).
Proof. reflexivity. Qed.

End ParserFacts.
(** ** The stack of visited lists *)

Module CtxFacts.
Import Pool Ctx.

Lemma filter_length_le {A} (f g : A -> bool) (l : list A) :
  (forall x, In x l -> f x = true -> g x = true) ->
  (length (List.filter f l) <= length (List.filter g l))%nat.
Proof.
  induction l as [|x l IH]; intros H; cbn [List.filter]; [lia|].
  assert (IH' := IH (fun y Hy => H y (or_intror Hy))).
  destruct (f x) eqn:Ef.
  - rewrite (H x (or_introl eq_refl) Ef). cbn [length]. lia.
  - destruct (g x); cbn [length]; lia.
Qed.

Lemma filter_length_lt {A} (f g : A -> bool) (l : list A) x :
  (forall y, In y l -> f y = true -> g y = true) ->
  In x l -> f x = false -> g x = true ->
  (length (List.filter f l) < length (List.filter g l))%nat.
Proof.
  induction l as [|y l IH]; intros H Hin Hf Hg; [destruct Hin|].
  cbn [List.filter].
  assert (Hle := filter_length_le f g l (fun z Hz => H z (or_intror Hz))).
  destruct Hin as [->|Hin].
  - rewrite Hf, Hg. cbn [length]. lia.
  - assert (IH' := IH (fun z Hz => H z (or_intror Hz)) Hin Hf Hg).
    destruct (f y) eqn:Ef.
    + rewrite (H y (or_introl eq_refl) Ef). cbn [length]. lia.
    + destruct (g y); cbn [length]; lia.
Qed.

Lemma list_int_has_push li v x :
  list_int_has (list_int_push li v) x = list_int_has li x || (x =? v).
Proof.
  unfold list_int_has, list_int_push. rewrite existsb_app. cbn [existsb].
  rewrite orb_false_r. reflexivity.
Qed.

Lemma unvisited_push n li v : 0 <= v < Z.of_nat n -> list_int_has li v = false ->
  (unvisited n (list_int_push li v) < unvisited n li)%nat.
Proof.
  intros Hv Hnot. unfold unvisited.
  apply (filter_length_lt _ _ _ (Z.to_nat v)).
  - intros y _. rewrite list_int_has_push, negb_orb. intros H.
    apply andb_true_iff in H. apply H.
  - apply in_seq. lia.
  - rewrite Z2Nat.id by lia. rewrite list_int_has_push, Z.eqb_refl, orb_true_r. reflexivity.
  - rewrite Z2Nat.id by lia. rewrite Hnot. reflexivity.
Qed.

Lemma unvisited_push_le n li v : (unvisited n (list_int_push li v) <= unvisited n li)%nat.
Proof.
  unfold unvisited. apply filter_length_le.
  intros y _. rewrite list_int_has_push, negb_orb. intros H.
  apply andb_true_iff in H. apply H.
Qed.

Lemma var_index_nonneg v : 0 <= var_index v.
Proof. unfold var_index. apply Z.land_nonneg. right. unfold SINK_INDEX_MASK. lia. Qed.

(** A list with an element sits in the table. *)
Lemma var_castlist_in_range ctx a : ls_size (var_castlist ctx a) <> 0 ->
  0 <= var_index a < Z.of_nat (length (tbl (list_pool ctx))).
Proof.
  intros Hne. pose proof (var_index_nonneg a) as H0. split; [exact H0|].
  destruct (Z_lt_ge_dec (var_index a) (Z.of_nat (length (tbl (list_pool ctx))))) as [Hlt|Hge];
    [exact Hlt|].
  exfalso. apply Hne. unfold var_castlist. rewrite nth_overflow by lia. reflexivity.
Qed.

Lemma unvisited_nil n : unvisited n [] = n.
Proof.
  unfold unvisited. rewrite forallb_filter_id; [apply length_seq|].
  apply forallb_forall. intros x _. reflexivity.
Qed.

End CtxFacts.
(** ** Storing into a list by index *)

Module SetatFacts.
Import Pool Ctx Setat.

Example dbl_to_int_4 : dbl_to_int dbl_4 = Some 4.
Proof. reflexivity. Qed.

Example dbl_to_int_m5 : dbl_to_int dbl_m5 = Some (-5).
Proof. reflexivity. Qed.

Example dbl_to_int_half : dbl_to_int 0xBFE0000000000000 = Some 0.
Proof. reflexivity. Qed.

Example dbl_to_int_nan : dbl_to_int SINK_NAN = None.
Proof. reflexivity. Qed.




Lemma opi_list_pushnils_small ls totalsize : totalsize <= ls_size ls ->
  opi_list_pushnils ls totalsize = ls.
Proof.
  intros H. unfold opi_list_pushnils.
  replace (totalsize <=? ls_size ls) with true by (symmetry; apply Z.leb_le; lia).
  reflexivity.
Qed.

Lemma store_list_same ctx a : store_list ctx a (var_castlist ctx a) = ctx.
Proof.
  unfold store_list, var_castlist, with_list_pool.
  destruct ctx as [? ? ? ? lp ? ? ? ? ? ? ? ? ? ? ?]. destruct lp as [t s al rf].
  cbn [list_pool tbl size aloc ref prg call_stk lex_stk str_pool lex_index pc lastpc
       timeout timeout_left gc_left gc_level err passed failed async].
  f_equal. f_equal.
  destruct (nth_lookup_or_length t (Z.to_nat (var_index a)) empty_list) as [H|H].
  - apply list_insert_id. exact H.
  - apply list_insert_ge. exact H.
Qed.




(** C10: a negative index that stays negative after the length is added.
    The store does nothing: the case ends at its [break] with the context it
    started from, so no error is raised and no list changes. *)
Theorem op_setat_negative_noop (ctx : context) (A B C D E F i : Z) :
  sink_islist (var_get ctx A B) = true ->
  sink_isnum (var_get ctx C D) = true ->
  dbl_to_int (var_get ctx C D) = Some i ->
  i + ls_size (var_castlist ctx (var_get ctx A B)) < 0 ->
  op_setat ctx A B C D E F = OpNext ctx.
Proof.
  intros HX HY Hi Hneg. unfold op_setat. rewrite HX, HY, Hi. cbn [negb].
  assert (Hsz : 0 <= ls_size (var_castlist ctx (var_get ctx A B))) by (unfold ls_size; lia).
  replace (i <? 0) with true by (symmetry; apply Z.ltb_lt; lia).
  cbv iota.
  set (a := i + ls_size (var_castlist ctx (var_get ctx A B))) in *.
  replace (INT_MAX <=? a) with false by (symmetry; apply Z.leb_gt; unfold INT_MAX; lia).
  rewrite opi_list_pushnils_small by lia.
  replace (0 <=? a) with false by (symmetry; apply Z.leb_gt; lia).
  cbn [andb]. rewrite store_list_same. reflexivity.
Qed.

(** Storing at index -5 of a list of two elements changes nothing. *)
Lemma op_setat_negative_noop_witness :
  op_setat setat_ctx 0 0 0 2 0 3 = OpNext setat_ctx.
Proof.
  apply (op_setat_negative_noop setat_ctx 0 0 0 2 0 3 (-5)); reflexivity.
Defined.



End SetatFacts.
(** ** Ordering of values *)

Module OrderFacts.
Import Pool Ctx Order CtxFacts.

Example order_nil_num : opi_order ord_ctx SINK_NIL dbl_1 = Some (-1, ord_ctx).
Proof. reflexivity. Qed.

Example order_num_num : opi_order ord_ctx dbl_2 dbl_1 = Some (1, ord_ctx).
Proof. reflexivity. Qed.

Example order_str_str : opi_order ord_ctx (str_val 0) (str_val 1) = Some (-1, ord_ctx).
Proof. reflexivity. Qed.

Example order_list_list : opi_order ord_ctx (list_val 0) (list_val 1) = Some (-1, ord_ctx).
Proof. reflexivity. Qed.

Example order_list_str : opi_order ord_ctx (list_val 0) (str_val 1) = Some (1, ord_ctx).
Proof. reflexivity. Qed.

(** Two zeros of opposite sign: each is reported greater than the other. *)
Example order_zeros :
  opi_order ord_ctx 0 dbl_neg0 = Some (1, ord_ctx)
  /\ opi_order ord_ctx dbl_neg0 0 = Some (1, ord_ctx).
Proof. split; reflexivity. Qed.

(** C4 (as stated) fails on circular lists: with [a = {a}] and [b = {b}],
    [order a b] and [order b a] are both -1 (and both abort the context), so
    the results are not those of a total ordering. *)
Lemma order_circular_not_antisymmetric :
  opi_order cyc_ctx (list_val 0) (list_val 1)
    = Some (-1, opi_abortcstr cyc_ctx "Cannot sort circular lists")
  /\ opi_order cyc_ctx (list_val 1) (list_val 0)
    = Some (-1, opi_abortcstr cyc_ctx "Cannot sort circular lists")
  /\ ~ (forall r1 r2 c1 c2,
          opi_order cyc_ctx (list_val 0) (list_val 1) = Some (r1, c1) ->
          opi_order cyc_ctx (list_val 1) (list_val 0) = Some (r2, c2) ->
          r1 = - r2).
Proof.
  split; [reflexivity|]. split; [reflexivity|].
  intros H. specialize (H (-1) (-1) _ _ eq_refl eq_refl). discriminate H.
Qed.

(** *** Termination: the stack grows by an unvisited list at every level *)

Lemma sink_type_eqb_eq t1 t2 : sink_type_eqb t1 t2 = true <-> t1 = t2.
Proof. destruct t1, t2; cbn; split; intros H; try reflexivity; discriminate H. Qed.

Lemma sink_type_eqb_neq t1 t2 : sink_type_eqb t1 t2 = false <-> t1 <> t2.
Proof.
  destruct t1, t2; cbn; split; intros H; try reflexivity; try discriminate H;
    try (intros E; discriminate E); exfalso; apply H; reflexivity.
Qed.

Lemma sortboth_elems_total rec ctx v1 : forall v2,
  (forall x y, exists r c', rec ctx x y = Some (r, c') /\ order_outcome ctx r c') ->
  exists r c', sortboth_elems rec ctx v1 v2 = Some (r, c') /\ order_outcome ctx r c'.
Proof.
  induction v1 as [|x r1 IH]; intros v2 Hrec.
  - exists 0, ctx. split; [reflexivity|]. split; [right; left; reflexivity|left; reflexivity].
  - destruct v2 as [|y r2].
    + exists 0, ctx. split; [reflexivity|]. split; [right; left; reflexivity|left; reflexivity].
    + cbn [sortboth_elems]. destruct (Hrec x y) as (r & c' & He & Hs & Hc). rewrite He.
      destruct (r =? 0) eqn:E0.
      * apply Z.eqb_eq in E0. subst r.
        destruct Hc as [->|[_ Habs]]; [|discriminate Habs]. apply IH. exact Hrec.
      * exists r, c'. split; [reflexivity|]. split; assumption.
Qed.

Lemma sortboth_total fuel : forall ctx li a b,
  (unvisited (length (tbl (list_pool ctx))) li < fuel)%nat ->
  exists r ctx', sortboth fuel ctx li a b = Some (r, ctx') /\ order_outcome ctx r ctx'.
Proof.
  induction fuel as [|fuel IH]; intros ctx li a b Hfuel; [lia|].
  assert (Hok : forall r, is_sign r -> exists r0 ctx', Some (r, ctx) = Some (r0, ctx')
                                          /\ order_outcome ctx r0 ctx').
  { intros r Hr. exists r, ctx. split; [reflexivity|]. split; [exact Hr|left; reflexivity]. }
  cbn [sortboth]. cbv zeta.
  destruct (a =? b); [apply Hok; right; left; reflexivity|].
  destruct (negb (sink_type_eqb (sink_typeof a) (sink_typeof b))).
  { apply Hok. destruct (sink_typeof a), (sink_typeof b); unfold is_sign; auto. }
  destruct (sink_type_eqb (sink_typeof a) SINK_TYPE_NUM).
  { destruct (sink_num_isnan a), (sink_num_isnan b); try solve [apply Hok; unfold is_sign; auto].
    destruct (dbl_lt a b); apply Hok; unfold is_sign; auto. }
  destruct (sink_type_eqb (sink_typeof a) SINK_TYPE_STR).
  { destruct (str_size (var_caststr ctx a) =? 0), (str_size (var_caststr ctx b) =? 0);
      try solve [apply Hok; unfold is_sign; auto].
    destruct (memcmp _ _ _ =? 0).
    - destruct (str_size (var_caststr ctx a) =? str_size (var_caststr ctx b));
        [|destruct (str_size (var_caststr ctx a) <? str_size (var_caststr ctx b))];
        apply Hok; unfold is_sign; auto.
    - destruct (memcmp _ _ _ <? 0); apply Hok; unfold is_sign; auto. }
  destruct (list_int_has li (var_index a) || list_int_has li (var_index b)) eqn:Ehas.
  { exists (-1), (opi_abortcstr ctx "Cannot sort circular lists").
    split; [reflexivity|]. split; [left; reflexivity|right; split; reflexivity]. }
  apply orb_false_iff in Ehas. destruct Ehas as [Eh1 Eh2].
  destruct (ls_size (var_castlist ctx a) =? 0) eqn:E1.
  { destruct (ls_size (var_castlist ctx b) =? 0); apply Hok; unfold is_sign; auto. }
  destruct (ls_size (var_castlist ctx b) =? 0) eqn:E2; [apply Hok; unfold is_sign; auto|].
  apply Z.eqb_neq in E1. apply Z.eqb_neq in E2.
  pose proof (var_castlist_in_range ctx a E1) as Hr1.
  set (li' := list_int_push (list_int_push li (var_index a)) (var_index b)).
  assert (Hlt : (unvisited (length (tbl (list_pool ctx))) li' < fuel)%nat).
  { pose proof (unvisited_push _ li (var_index a) Hr1 Eh1).
    pose proof (unvisited_push_le (length (tbl (list_pool ctx)))
                  (list_int_push li (var_index a)) (var_index b)).
    subst li'. lia. }
  destruct (sortboth_elems_total (fun c x y => sortboth fuel c li' x y) ctx
              (take (Z.to_nat (if ls_size (var_castlist ctx a) <? ls_size (var_castlist ctx b)
                               then ls_size (var_castlist ctx a)
                               else ls_size (var_castlist ctx b)))
                    (vals (var_castlist ctx a)))
              (take (Z.to_nat (if ls_size (var_castlist ctx a) <? ls_size (var_castlist ctx b)
                               then ls_size (var_castlist ctx a)
                               else ls_size (var_castlist ctx b)))
                    (vals (var_castlist ctx b))))
    as (r & c' & He & Hs & Hc).
  { intros x y. apply IH. exact Hlt. }
  rewrite He. destruct (r =? 0) eqn:E0; cbn [negb].
  - apply Z.eqb_eq in E0. subst r.
    destruct Hc as [->|[_ Habs]]; [|discriminate Habs].
    destruct (ls_size (var_castlist ctx a) <? ls_size (var_castlist ctx b));
      [|destruct (ls_size (var_castlist ctx b) <? ls_size (var_castlist ctx a))];
      apply Hok; unfold is_sign; auto.
  - exists r, c'. split; [reflexivity|]. split; assumption.
Qed.

Lemma opi_order_total ctx a b :
  exists r ctx', opi_order ctx a b = Some (r, ctx') /\ order_outcome ctx r ctx'.
Proof. apply sortboth_total. rewrite unvisited_nil. lia. Qed.

(** *** The comparison computes [val_order] *)

Lemma land_low63 v : 0 <= v -> Z.land v 0x7FFFFFFFFFFFFFFF = v mod 2 ^ 63.
Proof. intros Hv. change 0x7FFFFFFFFFFFFFFF with (Z.ones 63). apply Z.land_ones. lia. Qed.

Lemma bit63_div v : 0 <= v <= UINT64_MAX -> Z.b2z (Z.testbit v 63) = v / 2 ^ 63.
Proof.
  intros Hv. rewrite Z.testbit_spec' by lia. apply Z.mod_small.
  split; [apply Z.div_pos; lia|].
  apply Z.div_lt_upper_bound; [lia|]. unfold UINT64_MAX in Hv. lia.
Qed.

Lemma dbl_key_inj a b :
  0 <= a <= UINT64_MAX -> 0 <= b <= UINT64_MAX ->
  a <> 0x8000000000000000 -> b <> 0x8000000000000000 ->
  dbl_key a = dbl_key b -> a = b.
Proof.
  intros Ha Hb Hna Hnb. unfold dbl_key, dbl_sign. cbv zeta.
  rewrite !land_low63 by lia.
  pose proof (bit63_div a Ha) as Ba. pose proof (bit63_div b Hb) as Bb.
  pose proof (Z.div_mod a (2 ^ 63) ltac:(lia)) as Da.
  pose proof (Z.div_mod b (2 ^ 63) ltac:(lia)) as Db.
  pose proof (Z.mod_pos_bound a (2 ^ 63) ltac:(lia)) as Ma.
  pose proof (Z.mod_pos_bound b (2 ^ 63) ltac:(lia)) as Mb.
  destruct (Z.testbit a 63), (Z.testbit b 63); cbn [Z.b2z] in Ba, Bb; intros Hk; lia.
Qed.

Lemma plain_ordered a b : plain_num a -> plain_num b ->
  sink_num_isnan a = false -> sink_num_isnan b = false -> a <> b ->
  dbl_lt a b = false -> dbl_lt b a = true.
Proof.
  intros (Ha & Pa) (Hb & Pb) Na Nb Hne.
  destruct Pa as [Pa|[Pa Za]]; [congruence|]. destruct Pb as [Pb|[Pb Zb]]; [congruence|].
  unfold dbl_lt. rewrite Pa, Pb. cbn [negb andb]. intros Hlt.
  apply Z.ltb_ge in Hlt. apply Z.ltb_lt.
  assert (dbl_key a <> dbl_key b) by (intros E; apply Hne; apply dbl_key_inj; assumption).
  lia.
Qed.

(** The string case of [sortboth] agrees with [bytes_order]. *)
Lemma memcmp_bytes_order s1 : forall s2,
  let res := memcmp s1 s2 (Nat.min (length s1) (length s2)) in
  (if res =? 0
   then if (length s1 =? length s2)%nat then 0
        else if (length s1 <? length s2)%nat then -1 else 1
   else if res <? 0 then -1 else 1) = bytes_order s1 s2.
Proof.
  induction s1 as [|x r1 IH]; intros [|y r2]; cbn [length Nat.min memcmp bytes_order];
    try reflexivity.
  destruct (x =? y) eqn:E.
  - apply Z.eqb_eq in E. subst y. rewrite Z.ltb_irrefl.
    specialize (IH r2). cbv zeta in IH. rewrite <- IH.
    cbn [Nat.eqb Nat.ltb Nat.leb]. reflexivity.
  - apply Z.eqb_neq in E.
    replace (x - y =? 0) with false by (symmetry; apply Z.eqb_neq; lia).
    destruct (x <? y) eqn:L.
    + apply Z.ltb_lt in L. replace (x - y <? 0) with true by (symmetry; apply Z.ltb_lt; lia).
      reflexivity.
    + apply Z.ltb_ge in L. replace (x - y <? 0) with false by (symmetry; apply Z.ltb_ge; lia).
      replace (y <? x) with true by (symmetry; apply Z.ltb_lt; lia). reflexivity.
Qed.

Lemma sortboth_str_case (s1 s2 : list Z) :
  (if str_size s1 =? 0 then if str_size s2 =? 0 then 0 else -1
   else if str_size s2 =? 0 then 1
   else
     let res := memcmp s1 s2 (Z.to_nat (if str_size s1 <? str_size s2 then str_size s1
                                        else str_size s2)) in
     if res =? 0
     then if str_size s1 =? str_size s2 then 0
          else if str_size s1 <? str_size s2 then -1 else 1
     else if res <? 0 then -1 else 1) = bytes_order s1 s2.
Proof.
  unfold str_size. destruct s1 as [|x r1]; [destruct s2; reflexivity|].
  destruct s2 as [|y r2]; [reflexivity|].
  replace (Z.of_nat (length (x :: r1)) =? 0) with false
    by (symmetry; apply Z.eqb_neq; cbn [length]; lia).
  replace (Z.of_nat (length (y :: r2)) =? 0) with false
    by (symmetry; apply Z.eqb_neq; cbn [length]; lia).
  rewrite <- (memcmp_bytes_order (x :: r1) (y :: r2)). cbv zeta.
  set (n1 := length (x :: r1)). set (n2 := length (y :: r2)).
  replace (Z.to_nat (if Z.of_nat n1 <? Z.of_nat n2 then Z.of_nat n1 else Z.of_nat n2))
    with (Nat.min n1 n2) by (destruct (Z.of_nat n1 <? Z.of_nat n2) eqn:E;
                             [apply Z.ltb_lt in E|apply Z.ltb_ge in E]; lia).
  replace (Z.of_nat n1 =? Z.of_nat n2) with (n1 =? n2)%nat
    by (destruct (n1 =? n2)%nat eqn:E; symmetry;
        [apply Nat.eqb_eq in E; apply Z.eqb_eq|apply Nat.eqb_neq in E; apply Z.eqb_neq]; lia).
  replace (Z.of_nat n1 <? Z.of_nat n2) with (n1 <? n2)%nat
    by (destruct (n1 <? n2)%nat eqn:E; symmetry;
        [apply Nat.ltb_lt in E; apply Z.ltb_lt|apply Nat.ltb_ge in E; apply Z.ltb_ge]; lia).
  reflexivity.
Qed.

Lemma sortboth_type_case a b :
  sink_typeof a <> sink_typeof b ->
  type_rank (sink_typeof a) <> type_rank (sink_typeof b)
  /\ match sink_typeof a with
     | SINK_TYPE_NIL => -1
     | SINK_TYPE_NUM => match sink_typeof b with SINK_TYPE_NIL => 1 | _ => -1 end
     | SINK_TYPE_STR => match sink_typeof b with SINK_TYPE_LIST => -1 | _ => 1 end
     | SINK_TYPE_LIST => 1
     end = (if type_rank (sink_typeof a) <? type_rank (sink_typeof b) then -1 else 1).
Proof.
  destruct (sink_typeof a), (sink_typeof b); intros H; cbn;
    try (exfalso; apply H; reflexivity); split; try reflexivity; discriminate.
Qed.

Lemma typeof_num_isnum a : sink_typeof a = SINK_TYPE_NUM -> sink_isnum a = true.
Proof.
  unfold sink_typeof, sink_isnum.
  destruct (sink_isnil a), (sink_isstr a), (sink_islist a); intros H; try discriminate H;
    reflexivity.
Qed.

(** The element loop stops with the shorter list, so its bound is implied. *)
Lemma sortboth_elems_take rec ctx v1 : forall v2,
  sortboth_elems rec ctx (take (Nat.min (length v1) (length v2)) v1)
                         (take (Nat.min (length v1) (length v2)) v2)
  = sortboth_elems rec ctx v1 v2.
Proof.
  revert ctx. induction v1 as [|x r1 IH]; intros ctx [|y r2]; try reflexivity.
  cbn [length Nat.min take sortboth_elems].
  destruct (rec ctx x y) as [[r c']|]; [|reflexivity].
  destruct (r =? 0); [apply IH|reflexivity].
Qed.

Lemma sortboth_elems_sound rec ctx v1 : forall v2 res ctx',
  failed ctx = false ->
  (forall x y r c', In x v1 -> In y v2 -> rec ctx x y = Some (r, c') ->
     ctx_outcome ctx r c' /\ (failed c' = false -> val_order ctx x y r)) ->
  sortboth_elems rec ctx v1 v2 = Some (res, ctx') ->
  ctx_outcome ctx res ctx'
  /\ (failed ctx' = false ->
      elems_order ctx v1 v2 (list_finish res (length v1) (length v2))).
Proof.
  induction v1 as [|x r1 IH]; intros v2 res ctx' Hf Hrec He.
  - destruct v2; cbn in He; injection He as <- <-; (split; [left; reflexivity|]); intros _;
      constructor.
  - destruct v2 as [|y r2].
    + cbn in He. injection He as <- <-. split; [left; reflexivity|]. intros _. constructor.
    + cbn [sortboth_elems] in He.
      destruct (rec ctx x y) as [[r c']|] eqn:Er; [|discriminate He].
      destruct (Hrec x y r c' (or_introl eq_refl) (or_introl eq_refl) Er) as [Hc Hv].
      destruct (r =? 0) eqn:E0.
      * apply Z.eqb_eq in E0. subst r.
        destruct Hc as [->|[_ Habs]]; [|discriminate Habs].
        destruct (IH r2 res ctx' Hf) as [Hc' Hv']; [|exact He|].
        { intros x' y' r' c'' Hx Hy. apply Hrec; right; assumption. }
        split; [exact Hc'|]. intros Hf'.
        apply eo_equal; [apply Hv; exact Hf|].
        specialize (Hv' Hf'). unfold list_finish in *. cbn [length].
        exact Hv'.
      * injection He as <- <-. split; [exact Hc|]. intros Hf'.
        unfold list_finish. rewrite E0. cbn [negb].
        apply eo_differ; [apply Hv; exact Hf'|]. apply Z.eqb_neq. exact E0.
Qed.

Lemma castlist_elems_plain ctx a b x :
  plain_nums ctx a b -> In x (vals (var_castlist ctx a)) ->
  sink_isnum x = true -> plain_num x.
Proof.
  intros (_ & _ & Hall) Hin. unfold var_castlist in Hin.
  destruct (nth_in_or_default (Z.to_nat (var_index a)) (tbl (list_pool ctx)) empty_list)
    as [Hnth|Hd].
  - rewrite Forall_forall in Hall. specialize (Hall _ (proj2 (list_elem_of_In _ _) Hnth)).
    rewrite Forall_forall in Hall. apply Hall. apply list_elem_of_In. exact Hin.
  - rewrite Hd in Hin. destruct Hin.
Qed.

Lemma sortboth_sound fuel : forall ctx li a b r ctx',
  failed ctx = false -> plain_nums ctx a b ->
  sortboth fuel ctx li a b = Some (r, ctx') ->
  ctx_outcome ctx r ctx' /\ (failed ctx' = false -> val_order ctx a b r).
Proof.
  induction fuel as [|fuel IH]; intros ctx li a b r ctx' Hf Hp He; [discriminate He|].
  cbn [sortboth] in He. cbv zeta in He.
  destruct (a =? b) eqn:Eab.
  { apply Z.eqb_eq in Eab. subst b. injection He as <- <-.
    split; [left; reflexivity|]. intros _. constructor. }
  apply Z.eqb_neq in Eab.
  destruct (sink_type_eqb (sink_typeof a) (sink_typeof b)) eqn:Et; cbn [negb] in He.
  2:{ apply sink_type_eqb_neq in Et. destruct (sortboth_type_case a b Et) as [Hr Hm].
      injection He as <- <-. split; [left; reflexivity|]. intros _.
      rewrite Hm. apply vo_types. exact Hr. }
  apply sink_type_eqb_eq in Et.
  destruct (sink_type_eqb (sink_typeof a) SINK_TYPE_NUM) eqn:En.
  { apply sink_type_eqb_eq in En. assert (Enb : sink_typeof b = SINK_TYPE_NUM) by congruence.
    destruct (sink_num_isnan a) eqn:Na; destruct (sink_num_isnan b) eqn:Nb.
    - injection He as <- <-. split; [left; reflexivity|]. intros _.
      apply vo_nan_nan; assumption.
    - injection He as <- <-. split; [left; reflexivity|]. intros _.
      apply vo_nan_l; assumption.
    - injection He as <- <-. split; [left; reflexivity|]. intros _.
      apply vo_nan_r; assumption.
    - destruct (dbl_lt a b) eqn:L; injection He as <- <-;
        (split; [left; reflexivity|]); intros _.
      + apply vo_num_lt; assumption.
      + apply vo_num_gt; try assumption.
        destruct Hp as (Pa & Pb & _).
        apply plain_ordered; try assumption.
        * apply Pa, typeof_num_isnum, En.
        * apply Pb, typeof_num_isnum, Enb. }
  destruct (sink_type_eqb (sink_typeof a) SINK_TYPE_STR) eqn:Es.
  { apply sink_type_eqb_eq in Es. assert (Esb : sink_typeof b = SINK_TYPE_STR) by congruence.
    assert (Hres : Some (bytes_order (var_caststr ctx a) (var_caststr ctx b), ctx)
                   = Some (r, ctx')).
    { rewrite <- He, <- sortboth_str_case. cbv zeta.
      destruct (str_size (var_caststr ctx a) =? 0);
        [destruct (str_size (var_caststr ctx b) =? 0); reflexivity|].
      destruct (str_size (var_caststr ctx b) =? 0); [reflexivity|].
      destruct (memcmp _ _ _ =? 0); reflexivity. }
    injection Hres as <- <-. split; [left; reflexivity|]. intros _.
    apply vo_str; assumption. }
  assert (Ela : sink_typeof a = SINK_TYPE_LIST).
  { apply sink_type_eqb_neq in En. apply sink_type_eqb_neq in Es.
    destruct (sink_typeof a) eqn:Ta; try congruence.
    exfalso. unfold sink_typeof in Ta, Et.
    destruct (sink_isnil a) eqn:Ia; [|destruct (sink_isstr a); [discriminate Ta|
      destruct (sink_islist a); discriminate Ta]].
    destruct (sink_isnil b) eqn:Ib; [|destruct (sink_isstr b); [discriminate Et|
      destruct (sink_islist b); discriminate Et]].
    apply Eab. unfold sink_isnil in Ia, Ib.
    apply Z.eqb_eq in Ia. apply Z.eqb_eq in Ib. congruence. }
  assert (Elb : sink_typeof b = SINK_TYPE_LIST) by congruence.
  destruct (list_int_has li (var_index a) || list_int_has li (var_index b)).
  { injection He as <- <-. split; [right; split; reflexivity|].
    cbn. intros Habs. discriminate Habs. }
  set (l1 := vals (var_castlist ctx a)) in *. set (l2 := vals (var_castlist ctx b)) in *.
  assert (Hsz1 : ls_size (var_castlist ctx a) = Z.of_nat (length l1)) by reflexivity.
  assert (Hsz2 : ls_size (var_castlist ctx b) = Z.of_nat (length l2)) by reflexivity.
  rewrite Hsz1, Hsz2 in He.
  destruct (Z.of_nat (length l1) =? 0) eqn:E1.
  { apply Z.eqb_eq in E1. assert (l1 = []) by (destruct l1; [reflexivity|cbn in E1; lia]).
    destruct (Z.of_nat (length l2) =? 0) eqn:E2; injection He as <- <-;
      (split; [left; reflexivity|]); intros _; apply vo_list; try assumption;
      fold l1 l2; rewrite H.
    - apply Z.eqb_eq in E2. assert (l2 = []) by (destruct l2; [reflexivity|cbn in E2; lia]).
      subst l2. rewrite H0. constructor.
    - apply Z.eqb_neq in E2. destruct l2; [cbn in E2; lia|]. constructor. }
  destruct (Z.of_nat (length l2) =? 0) eqn:E2.
  { apply Z.eqb_eq in E2. assert (l2 = []) by (destruct l2; [reflexivity|cbn in E2; lia]).
    apply Z.eqb_neq in E1. injection He as <- <-. split; [left; reflexivity|]. intros _.
    apply vo_list; try assumption. fold l1 l2. rewrite H.
    destruct l1; [cbn in E1; lia|]. constructor. }
  replace (Z.to_nat (if Z.of_nat (length l1) <? Z.of_nat (length l2)
                     then Z.of_nat (length l1) else Z.of_nat (length l2)))
    with (Nat.min (length l1) (length l2)) in He
    by (destruct (Z.of_nat (length l1) <? Z.of_nat (length l2)) eqn:E;
        [apply Z.ltb_lt in E|apply Z.ltb_ge in E]; lia).
  rewrite sortboth_elems_take in He.
  match type of He with
  | match sortboth_elems ?rec _ _ _ with _ => _ end = _ =>
      destruct (sortboth_elems rec ctx l1 l2) as [[res c']|] eqn:El; [|discriminate He];
      destruct (sortboth_elems_sound rec ctx l1 l2 res c' Hf) as [Hc Hv]; [|exact El|]
  end.
  { intros x y r0 c0 Hx Hy Hr0. eapply IH; [exact Hf| |exact Hr0].
    pose proof Hp as (Pa & Pb & Hall). split; [|split; [|exact Hall]].
    - exact (castlist_elems_plain ctx a b x Hp Hx).
    - exact (castlist_elems_plain ctx b a y (conj Pb (conj Pa Hall)) Hy). }
  assert (Hfin : Some (list_finish res (length l1) (length l2), c') = Some (r, ctx')).
  { rewrite <- He. unfold list_finish. destruct (negb (res =? 0)); [reflexivity|].
    replace (Z.of_nat (length l1) <? Z.of_nat (length l2)) with (length l1 <? length l2)%nat
      by (destruct (length l1 <? length l2)%nat eqn:E; symmetry;
          [apply Nat.ltb_lt in E; apply Z.ltb_lt|apply Nat.ltb_ge in E; apply Z.ltb_ge]; lia).
    replace (Z.of_nat (length l2) <? Z.of_nat (length l1)) with (length l2 <? length l1)%nat
      by (destruct (length l2 <? length l1)%nat eqn:E; symmetry;
          [apply Nat.ltb_lt in E; apply Z.ltb_lt|apply Nat.ltb_ge in E; apply Z.ltb_ge]; lia).
    destruct (length l1 <? length l2)%nat; [reflexivity|].
    destruct (length l2 <? length l1)%nat; reflexivity. }
  injection Hfin as <- <-. split.
  - destruct Hc as [->|[-> Hm1]]; [left; reflexivity|right].
    split; [reflexivity|]. unfold list_finish. rewrite Hm1. reflexivity.
  - intros Hf'. apply vo_list; try assumption. apply Hv. exact Hf'.
Qed.

Lemma typeof_differ a b : sink_typeof a <> sink_typeof b -> (a =? b) = false.
Proof. intros H. apply Z.eqb_neq. intros E. apply H. rewrite E. reflexivity. Qed.

(** nil < number < string < list, whatever the operands hold. *)
Lemma opi_order_types ctx a b :
  type_rank (sink_typeof a) <> type_rank (sink_typeof b) ->
  opi_order ctx a b
  = Some (if type_rank (sink_typeof a) <? type_rank (sink_typeof b) then -1 else 1, ctx).
Proof.
  intros Hr. assert (Ht : sink_typeof a <> sink_typeof b) by congruence.
  unfold opi_order. cbn [sortboth]. cbv zeta.
  rewrite (typeof_differ a b Ht).
  replace (sink_type_eqb (sink_typeof a) (sink_typeof b)) with false
    by (symmetry; apply sink_type_eqb_neq; exact Ht).
  cbn [negb]. destruct (sortboth_type_case a b Ht) as [_ ->]. reflexivity.
Qed.

(** C4 (as amended): [order] always returns -1, 0 or 1.  Across types the
    rule is nil < number < string < list: the operand of the lower type is
    reported smaller, without touching the context.  The context is left as it
    was, or the comparison of two lists met a list that was already on the
    stack of lists being compared (as in every circular list), and then the
    context is aborted with "Cannot sort circular lists" and the result is -1.
    When the comparison does not abort (and the numbers met are quiet NaNs or
    ordinary numbers other than negative zero), operands of one type are
    compared within the type as [val_order] says: numbers by value with NaN
    first, strings bytewise and then by length, lists by their first differing
    element and then by length. *)
Theorem opi_order_spec (ctx : context) (a b : sink_val) :
  exists r ctx',
    opi_order ctx a b = Some (r, ctx')
    /\ (r = -1 \/ r = 0 \/ r = 1)
    /\ (type_rank (sink_typeof a) < type_rank (sink_typeof b) -> r = -1 /\ ctx' = ctx)
    /\ (type_rank (sink_typeof b) < type_rank (sink_typeof a) -> r = 1 /\ ctx' = ctx)
    /\ (ctx' = ctx
        \/ (ctx' = opi_abortcstr ctx "Cannot sort circular lists" /\ r = -1
            /\ sink_typeof a = SINK_TYPE_LIST /\ sink_typeof b = SINK_TYPE_LIST))
    /\ (failed ctx = false -> failed ctx' = false -> plain_nums ctx a b ->
        val_order ctx a b r).
Proof.
  destruct (opi_order_total ctx a b) as (r & ctx' & He & Hs & Hc).
  exists r, ctx'. split; [exact He|]. split; [exact Hs|].
  split; [|split; [|split]].
  - intros Hlt. rewrite opi_order_types in He by lia.
    replace (type_rank (sink_typeof a) <? type_rank (sink_typeof b)) with true in He
      by (symmetry; apply Z.ltb_lt; lia).
    injection He as <- <-. split; reflexivity.
  - intros Hgt. rewrite opi_order_types in He by lia.
    replace (type_rank (sink_typeof a) <? type_rank (sink_typeof b)) with false in He
      by (symmetry; apply Z.ltb_ge; lia).
    injection He as <- <-. split; reflexivity.
  - destruct Hc as [Hc|[Hc Hr]]; [left; exact Hc|].
    destruct (Z.eq_dec (type_rank (sink_typeof a)) (type_rank (sink_typeof b))) as [Heq|Hne].
    + destruct (sink_type_eqb (sink_typeof a) SINK_TYPE_LIST) eqn:El.
      * apply sink_type_eqb_eq in El. right. repeat split; try assumption.
        rewrite El in Heq. destruct (sink_typeof b); try discriminate Heq. reflexivity.
      * left. unfold opi_order in He. cbn [sortboth] in He. cbv zeta in He.
        destruct (a =? b) eqn:Eab; [injection He as _ <-; reflexivity|].
        assert (Ht : sink_typeof a = sink_typeof b)
          by (destruct (sink_typeof a), (sink_typeof b); try discriminate Heq; reflexivity).
        rewrite <- Ht in He.
        replace (sink_type_eqb (sink_typeof a) (sink_typeof a)) with true in He
          by (symmetry; apply sink_type_eqb_eq; reflexivity).
        cbn [negb] in He.
        destruct (sink_typeof a) eqn:Ta; cbn [sink_type_eqb] in He;
          try discriminate El.
        -- (* nil and nil: the same pattern *)
           exfalso. unfold sink_typeof in Ta, Ht.
           destruct (sink_isnil a) eqn:Ia; [|destruct (sink_isstr a); [discriminate Ta|
             destruct (sink_islist a); discriminate Ta]].
           destruct (sink_isnil b) eqn:Ib; [|destruct (sink_isstr b); [discriminate Ht|
             destruct (sink_islist b); discriminate Ht]].
           unfold sink_isnil in Ia, Ib. apply Z.eqb_eq in Ia. apply Z.eqb_eq in Ib.
           apply Z.eqb_neq in Eab. congruence.
        -- destruct (sink_num_isnan a), (sink_num_isnan b); try destruct (dbl_lt a b);
             injection He as _ <-; reflexivity.
        -- destruct (str_size (var_caststr ctx a) =? 0);
             [destruct (str_size (var_caststr ctx b) =? 0); injection He as _ <-; reflexivity|].
           destruct (str_size (var_caststr ctx b) =? 0); [injection He as _ <-; reflexivity|].
           destruct (memcmp _ _ _ =? 0); injection He as _ <-; reflexivity.
    + left. rewrite opi_order_types in He by exact Hne. injection He as _ <-. reflexivity.
  - intros Hf Hf' Hp. unfold opi_order in He.
    destruct (sortboth_sound _ ctx [] a b r ctx' Hf Hp He) as [_ Hv]. apply Hv. exact Hf'.
Qed.

End OrderFacts.
(** ** Antisymmetry of the ordering *)

Module OrderSymFacts.
Import Pool Ctx Order CtxFacts OrderFacts.

Lemma bytes_order_antisym s1 : forall s2, bytes_order s2 s1 = - bytes_order s1 s2.
Proof.
  induction s1 as [|x r1 IH]; intros [|y r2]; cbn [bytes_order]; try reflexivity.
  destruct (Z.ltb_spec x y), (Z.ltb_spec y x); try reflexivity; try lia. apply IH.
Qed.

Lemma dbl_lt_asym a b : dbl_lt a b = true -> dbl_lt b a = false.
Proof.
  unfold dbl_lt. intros H. apply andb_true_iff in H as [H L].
  apply Z.ltb_lt in L. apply andb_false_iff. right. apply Z.ltb_ge. lia.
Qed.

Lemma abort_changes ctx msg : failed ctx = false -> opi_abortcstr ctx msg <> ctx.
Proof. intros Hf E. apply (f_equal failed) in E. cbn in E. congruence. Qed.

Lemma pair_ctx (r r' : Z) (c c' : context) : Some (r, c) = Some (r', c') -> r = r' /\ c = c'.
Proof. intros H. injection H as -> ->. split; reflexivity. Qed.

Lemma sortboth_elems_antisym
    (rec rec' : context -> sink_val -> sink_val -> option (Z * context)) ctx v1 :
  forall v2 res,
  (forall x y c, In x v1 -> In y v2 -> rec ctx x y = Some (0, c) -> c = ctx) ->
  (forall x y r, In x v1 -> In y v2 -> rec ctx x y = Some (r, ctx) ->
     rec' ctx y x = Some (- r, ctx)) ->
  sortboth_elems rec ctx v1 v2 = Some (res, ctx) ->
  sortboth_elems rec' ctx v2 v1 = Some (- res, ctx).
Proof.
  induction v1 as [|x r1 IH]; intros v2 res Hz Hrec He.
  - destruct v2; cbn in He; apply pair_ctx in He as [<- _]; reflexivity.
  - destruct v2 as [|y r2].
    + cbn in He. apply pair_ctx in He as [<- _]. reflexivity.
    + cbn [sortboth_elems] in *.
      destruct (rec ctx x y) as [[r c]|] eqn:Er; [|discriminate He].
      destruct (Z.eqb_spec r 0) as [->|Hr].
      * pose proof (Hz x y c (or_introl eq_refl) (or_introl eq_refl) Er). subst c.
        rewrite (Hrec x y 0 (or_introl eq_refl) (or_introl eq_refl) Er).
        change (- 0 =? 0) with true. cbv iota.
        apply IH; [| |exact He].
        -- intros x' y' c' Hx Hy. apply Hz; right; assumption.
        -- intros x' y' r' Hx Hy. apply Hrec; right; assumption.
      * apply pair_ctx in He as [<- ->].
        rewrite (Hrec x y r (or_introl eq_refl) (or_introl eq_refl) Er).
        replace (- r =? 0) with false by (symmetry; apply Z.eqb_neq; lia). reflexivity.
Qed.

Lemma typeof_list_both a b :
  sink_typeof a = sink_typeof b ->
  sink_type_eqb (sink_typeof a) SINK_TYPE_NUM = false ->
  sink_type_eqb (sink_typeof a) SINK_TYPE_STR = false ->
  a <> b -> sink_typeof a = SINK_TYPE_LIST.
Proof.
  intros Et En Es Eab. apply sink_type_eqb_neq in En. apply sink_type_eqb_neq in Es.
  destruct (sink_typeof a) eqn:Ta; try congruence.
  exfalso. symmetry in Et. unfold sink_typeof in Ta, Et.
  destruct (sink_isnil a) eqn:Ia; [|destruct (sink_isstr a); [discriminate Ta|
    destruct (sink_islist a); discriminate Ta]].
  destruct (sink_isnil b) eqn:Ib; [|destruct (sink_isstr b); [discriminate Et|
    destruct (sink_islist b); discriminate Et]].
  apply Eab. unfold sink_isnil in Ia, Ib.
  apply Z.eqb_eq in Ia. apply Z.eqb_eq in Ib. congruence.
Qed.

Lemma sortboth_antisym fuel : forall ctx li li' a b r,
  failed ctx = false -> plain_nums ctx a b ->
  (forall v, list_int_has li' v = list_int_has li v) ->
  sortboth fuel ctx li a b = Some (r, ctx) ->
  sortboth fuel ctx li' b a = Some (- r, ctx).
Proof.
  induction fuel as [|fuel IH]; intros ctx li li' a b r Hf Hp Hli He; [discriminate He|].
  cbn [sortboth] in *. cbv zeta in *.
  destruct (Z.eqb_spec a b) as [Eab|Eab].
  { subst b. rewrite Z.eqb_refl. apply pair_ctx in He as [<- _]. reflexivity. }
  replace (b =? a) with false by (symmetry; apply Z.eqb_neq; congruence).
  destruct (sink_type_eqb (sink_typeof a) (sink_typeof b)) eqn:Et; cbn [negb] in He.
  2:{ apply sink_type_eqb_neq in Et.
      replace (sink_type_eqb (sink_typeof b) (sink_typeof a)) with false
        by (symmetry; apply sink_type_eqb_neq; congruence).
      cbn [negb]. apply pair_ctx in He as [<- _].
      destruct (sink_typeof a), (sink_typeof b); try reflexivity;
        exfalso; apply Et; reflexivity. }
  apply sink_type_eqb_eq in Et. rewrite <- Et.
  replace (sink_type_eqb (sink_typeof a) (sink_typeof a)) with true
    by (symmetry; apply sink_type_eqb_eq; reflexivity).
  cbn [negb].
  destruct (sink_type_eqb (sink_typeof a) SINK_TYPE_NUM) eqn:En.
  { apply sink_type_eqb_eq in En. assert (Enb : sink_typeof b = SINK_TYPE_NUM) by congruence.
    destruct Hp as (Pa & Pb & _).
    specialize (Pa (typeof_num_isnum a En)). specialize (Pb (typeof_num_isnum b Enb)).
    destruct (sink_num_isnan a) eqn:Na; destruct (sink_num_isnan b) eqn:Nb;
      try (apply pair_ctx in He as [<- _]; reflexivity).
    destruct (dbl_lt a b) eqn:L; apply pair_ctx in He as [<- _].
    - rewrite (dbl_lt_asym a b L). reflexivity.
    - rewrite (plain_ordered a b Pa Pb Na Nb Eab L). reflexivity. }
  destruct (sink_type_eqb (sink_typeof a) SINK_TYPE_STR) eqn:Es.
  { assert (H1 : Some (bytes_order (var_caststr ctx a) (var_caststr ctx b), ctx)
                 = Some (r, ctx)).
    { rewrite <- He, <- sortboth_str_case. cbv zeta.
      destruct (str_size (var_caststr ctx a) =? 0);
        [destruct (str_size (var_caststr ctx b) =? 0); reflexivity|].
      destruct (str_size (var_caststr ctx b) =? 0); [reflexivity|].
      destruct (memcmp _ _ _ =? 0); reflexivity. }
    apply pair_ctx in H1 as [<- _]. clear He.
    rewrite <- bytes_order_antisym, <- sortboth_str_case. cbv zeta.
    destruct (str_size (var_caststr ctx b) =? 0);
      [destruct (str_size (var_caststr ctx a) =? 0); reflexivity|].
    destruct (str_size (var_caststr ctx a) =? 0); [reflexivity|].
    destruct (memcmp _ _ _ =? 0); reflexivity. }
  assert (Ela : sink_typeof a = SINK_TYPE_LIST) by (apply (typeof_list_both a b); assumption).
  rewrite !Hli, (orb_comm (list_int_has li (var_index b))).
  destruct (list_int_has li (var_index a) || list_int_has li (var_index b)).
  { apply pair_ctx in He as [_ Habs]. exfalso. exact (abort_changes _ _ Hf Habs). }
  set (l1 := vals (var_castlist ctx a)) in *. set (l2 := vals (var_castlist ctx b)) in *.
  assert (Hsz1 : ls_size (var_castlist ctx a) = Z.of_nat (length l1)) by reflexivity.
  assert (Hsz2 : ls_size (var_castlist ctx b) = Z.of_nat (length l2)) by reflexivity.
  rewrite Hsz1, Hsz2 in *.
  destruct (Z.eqb_spec (Z.of_nat (length l1)) 0) as [E1|E1].
  { destruct (Z.of_nat (length l2) =? 0); apply pair_ctx in He as [<- _]; reflexivity. }
  destruct (Z.eqb_spec (Z.of_nat (length l2)) 0) as [E2|E2].
  { apply pair_ctx in He as [<- _]. reflexivity. }
  replace (Z.to_nat (if Z.of_nat (length l1) <? Z.of_nat (length l2)
                     then Z.of_nat (length l1) else Z.of_nat (length l2)))
    with (Nat.min (length l1) (length l2)) in He
    by (destruct (Z.of_nat (length l1) <? Z.of_nat (length l2)) eqn:E;
        [apply Z.ltb_lt in E|apply Z.ltb_ge in E]; lia).
  replace (Z.to_nat (if Z.of_nat (length l2) <? Z.of_nat (length l1)
                     then Z.of_nat (length l2) else Z.of_nat (length l1)))
    with (Nat.min (length l2) (length l1))
    by (destruct (Z.of_nat (length l2) <? Z.of_nat (length l1)) eqn:E;
        [apply Z.ltb_lt in E|apply Z.ltb_ge in E]; lia).
  rewrite sortboth_elems_take in *.
  set (lia1 := list_int_push (list_int_push li (var_index a)) (var_index b)) in *.
  set (lib1 := list_int_push (list_int_push li' (var_index b)) (var_index a)).
  assert (Hli1 : forall v, list_int_has lib1 v = list_int_has lia1 v).
  { intros v. subst lia1 lib1. rewrite !list_int_has_push, Hli.
    destruct (list_int_has li v), (v =? var_index a), (v =? var_index b); reflexivity. }
  assert (Hpe : forall x y, In x l1 -> In y l2 -> plain_nums ctx x y).
  { intros x y Hx Hy. pose proof Hp as (Pa & Pb & Hall). split; [|split; [|exact Hall]].
    - exact (castlist_elems_plain ctx a b x Hp Hx).
    - exact (castlist_elems_plain ctx b a y (conj Pb (conj Pa Hall)) Hy). }
  destruct (sortboth_elems (fun c x y => sortboth fuel c lia1 x y) ctx l1 l2)
    as [[res c']|] eqn:El; [|discriminate He].
  assert (Hc : c' = ctx).
  { destruct (negb (res =? 0)); [apply pair_ctx in He as [_ ->]; reflexivity|].
    destruct (Z.of_nat (length l1) <? Z.of_nat (length l2));
      [apply pair_ctx in He as [_ ->]; reflexivity|].
    destruct (Z.of_nat (length l2) <? Z.of_nat (length l1));
      apply pair_ctx in He as [_ ->]; reflexivity. }
  subst c'.
  rewrite (sortboth_elems_antisym (fun c x y => sortboth fuel c lia1 x y)
             (fun c x y => sortboth fuel c lib1 x y) ctx l1 l2 res); [| | |exact El].
  - destruct (res =? 0) eqn:E0; cbn [negb] in He.
    + apply Z.eqb_eq in E0. rewrite E0. change (- 0 =? 0) with true. cbn [negb].
      destruct (Z.ltb_spec (Z.of_nat (length l1)) (Z.of_nat (length l2))) as [L1|L1].
      * apply pair_ctx in He as [<- _].
        replace (Z.of_nat (length l2) <? Z.of_nat (length l1)) with false
          by (symmetry; apply Z.ltb_ge; lia).
        replace (Z.of_nat (length l1) <? Z.of_nat (length l2)) with true
          by (symmetry; apply Z.ltb_lt; lia).
        reflexivity.
      * destruct (Z.ltb_spec (Z.of_nat (length l2)) (Z.of_nat (length l1))) as [L2|L2];
          apply pair_ctx in He as [<- _]; reflexivity.
    + apply Z.eqb_neq in E0.
      replace (- res =? 0) with false by (symmetry; apply Z.eqb_neq; lia).
      cbn [negb]. apply pair_ctx in He as [<- _]. reflexivity.
  - intros x y c Hx Hy Hr.
    destruct (sortboth_sound fuel ctx lia1 x y 0 c Hf (Hpe x y Hx Hy) Hr) as [[->|[_ Habs]] _];
      [reflexivity|discriminate Habs].
  - intros x y r0 Hx Hy Hr. apply (IH ctx lia1 lib1 x y r0 Hf (Hpe x y Hx Hy) Hli1 Hr).
Qed.

Lemma ord_ctx_plain : plain_nums ord_ctx (list_val 0) (list_val 1).
Proof.
  assert (P1 : plain_num dbl_1).
  { split; [split; discriminate|]. right. split; [reflexivity|discriminate]. }
  split; [discriminate|]. split; [discriminate|].
  unfold ord_ctx, base_ctx. cbn [list_pool tbl].
  constructor; [|constructor; [|constructor]]; cbn [vals];
    (constructor; [intros _; exact P1|constructor; [intros H; discriminate H|constructor]]).
Qed.

(** Away from its exceptions the comparison is antisymmetric: when [order a b]
    leaves the context as it was (it met no list twice), in a context that
    has not failed and with no number among the operands and the elements of
    the lists other than quiet NaNs and ordinary numbers that are not
    negative zero, [order b a] leaves the context as it was too, and its
    result is the opposite. *)
Theorem opi_order_antisymmetric (ctx : context) (a b : sink_val) (r : Z) :
  failed ctx = false -> plain_nums ctx a b ->
  opi_order ctx a b = Some (r, ctx) -> opi_order ctx b a = Some (- r, ctx).
Proof.
  intros Hf Hp He. unfold opi_order in *.
  apply (sortboth_antisym _ ctx [] [] a b r Hf Hp); [reflexivity|exact He].
Qed.

Lemma opi_order_antisymmetric_witness :
  opi_order ord_ctx (list_val 1) (list_val 0) = Some (- -1, ord_ctx).
Proof.
  apply (opi_order_antisymmetric ord_ctx (list_val 0) (list_val 1) (-1)).
  - reflexivity.
  - exact ord_ctx_plain.
  - reflexivity.
Defined.

End OrderSymFacts.
(** ** Pickling to JSON *)

Module PickleFacts.
Import Pool Ctx Pickle CtxFacts.

Example pk_isjson_number : pk_isjson [ch "-"; ch "1"; ch "."; ch "5"; ch "e"; ch "+"; ch "3"] = true.
Proof. reflexivity. Qed.

Example pk_isjson_nan : pk_isjson [ch "n"; ch "a"; ch "n"] = false.
Proof. reflexivity. Qed.

Example pk_isjson_null : pk_isjson json_null = true.
Proof. reflexivity. Qed.

Example pickle_tree :
  pk_tojson printf_example 3 tree_ctx (list_val 0) []
  = Some (Some [ch "["; ch "1"; ch ","; ch "["; ch "n"; ch "u"; ch "l"; ch "l"; ch "]"; ch ",";
                ch "["; ch "n"; ch "u"; ch "l"; ch "l"; ch "]"; ch "]"], []).
Proof. reflexivity. Qed.

Example pickle_loop :
  opi_pickle_json printf_example [] 0 loop_ctx (list_val 0)
  = Returned (SINK_NIL,
              opi_abortcstr loop_ctx "Cannot pickle circular structure to JSON format").
Proof. reflexivity. Qed.

(** *** Allocation of the result string *)

Lemma sink_str_newblobgive_room junk junkw ctx (s : list Z) : str_pool_room ctx ->
  exists idx ctx',
    sink_str_newblobgive junk junkw ctx s = Some (str_val idx, ctx')
    /\ 0 <= idx < 2 ^ 31
    /\ var_caststr ctx' (str_val idx) = s
    /\ failed ctx' = failed ctx /\ err ctx' = err ctx
    /\ list_pool ctx' = list_pool ctx.
Proof.
  intros (Hwf & Hcap).
  destruct (PoolFacts.bmp_reserve_room junk junkw (str_pool ctx) Hwf Hcap)
    as (k & p' & He & Hk & Hs & Hwf').
  unfold sink_str_newblobgive. rewrite He.
  exists k. eexists. split; [reflexivity|].
  assert (Hk31 : 0 <= k < 2 ^ 31) by lia.
  split; [exact Hk31|]. split; [|repeat split].
  unfold var_caststr. rewrite ValueFacts.var_index_str_val by exact Hk31.
  cbn [str_pool with_str_pool tbl].
  apply nth_lookup_Some, list_lookup_insert_eq.
  destruct Hwf' as (_ & _ & Hlen & _). lia.
Qed.

(** *** Numbers that are not finite *)

Lemma nonfinite_text_not_json s : nonfinite_text s -> pk_isjson s = false.
Proof.
  intros (sign & rest & Hsign & Hs).
  destruct Hsign as [-> | ->]; destruct Hs as [-> | ->]; reflexivity.
Qed.

Lemma nonfinite_text_numtostr snprintf v :
  nonfinite_text (snprintf v) -> numtostr snprintf v = snprintf v.
Proof.
  intros (sign & rest & Hsign & Hs). unfold numtostr.
  destruct Hsign as [-> | ->]; destruct Hs as [-> | ->]; reflexivity.
Qed.

(** C9: a number that is NaN or an infinity pickles to the text "null"
    without error, whatever text C's [printf] has for it among those the
    standard allows. *)
Theorem pickle_json_nonfinite (snprintf_g16 : sink_val -> list Z) (junk : list Z)
    (junkw : Z) (ctx : context) (v : sink_val) :
  c99_nonfinite snprintf_g16 -> str_pool_room ctx ->
  sink_typeof v = SINK_TYPE_NUM -> dbl_nonfinite v = true ->
  exists idx ctx',
    opi_pickle_json snprintf_g16 junk junkw ctx v = Returned (str_val idx, ctx')
    /\ sink_isstr (str_val idx) = true
    /\ var_caststr ctx' (str_val idx) = json_null
    /\ failed ctx' = failed ctx /\ err ctx' = err ctx.
Proof.
  intros Hc Hroom Hnum Hnf. specialize (Hc v Hnf).
  destruct (sink_str_newblobgive_room junk junkw ctx json_null Hroom)
    as (idx & ctx' & He & Hi & Hs & Hf & Herr & _).
  exists idx, ctx'. unfold opi_pickle_json. cbn [pk_tojson]. rewrite Hnum.
  rewrite (nonfinite_text_numtostr _ _ Hc), (nonfinite_text_not_json _ Hc), He.
  split; [reflexivity|]. split; [apply ValueFacts.sink_isstr_str_val; exact Hi|].
  repeat split; assumption.
Qed.

Lemma printf_example_c99 : c99_nonfinite printf_example.
Proof.
  intros v Hv. unfold printf_example, dbl_isnan, dbl_isinf. unfold dbl_nonfinite in Hv.
  rewrite Hv. cbn [andb]. destruct (dbl_mant v =? 0); cbn [negb].
  - destruct (dbl_sign v).
    + exists [ch "-"], []. split; [right; reflexivity|left; reflexivity].
    + exists [], []. split; [left; reflexivity|left; reflexivity].
  - exists [], []. split; [left; reflexivity|right; reflexivity].
Qed.

Lemma pk_ctx_room lists : str_pool_room (pk_ctx lists).
Proof.
  unfold str_pool_room, pool_wf, pk_ctx. cbn [str_pool tbl size aloc].
  repeat split; try reflexivity. repeat constructor; discriminate.
Qed.

(** Positive infinity pickles to "null". *)
Lemma pickle_json_nonfinite_witness :
  exists idx ctx',
    opi_pickle_json printf_example [] 0 tree_ctx dbl_inf = Returned (str_val idx, ctx')
    /\ sink_isstr (str_val idx) = true
    /\ var_caststr ctx' (str_val idx) = json_null
    /\ failed ctx' = failed tree_ctx /\ err ctx' = err tree_ctx.
Proof.
  apply (pickle_json_nonfinite printf_example [] 0 tree_ctx dbl_inf).
  - exact printf_example_c99.
  - apply pk_ctx_room.
  - reflexivity.
  - reflexivity.
Defined.

(** *** The walk finds exactly the reference cycles *)

Lemma list_int_pop_push li v : list_int_pop (list_int_push li v) = li.
Proof. unfold list_int_pop, list_int_push. apply removelast_last. Qed.

Lemma pk_tojson_elems_spec ctx rec li1 vs : forall strs,
  (forall v, In v vs ->
     exists res li', rec v li1 = Some (res, li')
       /\ (res = None -> circ ctx li1 v)
       /\ (forall s, res = Some s -> li' = li1 /\ ~ circ ctx li1 v)) ->
  exists res li', pk_tojson_elems rec vs li1 strs = Some (res, li')
    /\ (res = None -> exists v, In v vs /\ circ ctx li1 v)
    /\ (forall ss, res = Some ss -> li' = li1 /\ forall v, In v vs -> ~ circ ctx li1 v).
Proof.
  induction vs as [|v rest IH]; intros strs Hrec.
  - exists (Some strs), li1. split; [reflexivity|]. split; [discriminate|].
    intros ss _. split; [reflexivity|]. intros v [].
  - cbn [pk_tojson_elems].
    destruct (Hrec v (or_introl eq_refl)) as (res & li' & He & Hn & Hs). rewrite He.
    destruct res as [s2|].
    + destruct (Hs s2 eq_refl) as [-> Hnc].
      destruct (IH (strs ++ [s2])) as (res' & li'' & He' & Hn' & Hs').
      { intros w Hw. apply Hrec. right. exact Hw. }
      exists res', li''. split; [exact He'|]. split.
      * intros E. destruct (Hn' E) as (w & Hw & Hc). exists w. split; [right; exact Hw|exact Hc].
      * intros ss E. destruct (Hs' ss E) as [-> Hall]. split; [reflexivity|].
        intros w [<-|Hw]; [exact Hnc|apply Hall; exact Hw].
    + exists None, li'. split; [reflexivity|]. split.
      * intros _. exists v. split; [left; reflexivity|apply Hn; reflexivity].
      * intros ss E. discriminate E.
Qed.

Lemma pk_tojson_spec snprintf fuel : forall ctx a li,
  (unvisited (length (tbl (list_pool ctx))) li < fuel)%nat ->
  exists res li', pk_tojson snprintf fuel ctx a li = Some (res, li')
    /\ (res = None -> circ ctx li a)
    /\ (forall s, res = Some s -> li' = li /\ ~ circ ctx li a).
Proof.
  induction fuel as [|fuel IH]; intros ctx a li Hfuel; [lia|].
  assert (Hleaf : forall s : list Z, sink_typeof a <> SINK_TYPE_LIST ->
            exists (res : option (list Z)) (li' : list Z),
              Some (Some s, li) = Some (res, li')
              /\ (res = None -> circ ctx li a)
              /\ (forall s0, res = Some s0 -> li' = li /\ ~ circ ctx li a)).
  { intros s Hnl. exists (Some s), li. split; [reflexivity|]. split; [discriminate|].
    intros s0 _. split; [reflexivity|]. intros Hc. apply Hnl. destruct Hc; assumption. }
  cbn [pk_tojson]. destruct (sink_typeof a) eqn:Ta.
  - apply Hleaf. discriminate.
  - destruct (pk_isjson (numtostr snprintf a)); apply Hleaf; discriminate.
  - apply Hleaf. discriminate.
  - cbv zeta. destruct (list_int_has li (var_index a)) eqn:Eh.
    { exists None, li. split; [reflexivity|]. split.
      - intros _. apply circ_here; assumption.
      - intros s E. discriminate E. }
    set (li1 := list_int_push li (var_index a)).
    destruct (pk_tojson_elems_spec ctx (pk_tojson snprintf fuel ctx) li1
                (vals (var_castlist ctx a)) []) as (res & li' & He & Hn & Hs).
    { intros v Hv. apply IH.
      assert (Hne : ls_size (var_castlist ctx a) <> 0).
      { unfold ls_size. destruct (vals (var_castlist ctx a)); [destruct Hv|cbn [length]; lia]. }
      pose proof (var_castlist_in_range ctx a Hne) as Hr.
      pose proof (unvisited_push _ li (var_index a) Hr Eh). subst li1. lia. }
    rewrite He. destruct res as [strs|].
    + destruct (Hs strs eq_refl) as [-> Hall].
      exists (Some (json_array strs)), (list_int_pop li1).
      split; [reflexivity|]. split; [discriminate|].
      intros s _. split; [apply list_int_pop_push|].
      intros Hc. inversion Hc as [li0 a0 _ Hh|li0 a0 v _ _ Hv Hcv]; subst.
      * congruence.
      * exact (Hall v Hv Hcv).
    + exists None, li'. split; [reflexivity|]. split.
      * intros _. destruct (Hn eq_refl) as (v & Hv & Hc).
        apply (circ_deep ctx li a v); assumption.
      * intros s E. discriminate E.
Qed.

Lemma circ_is_list ctx li a : circ ctx li a -> sink_typeof a = SINK_TYPE_LIST.
Proof. intros H. destruct H; assumption. Qed.

Lemma list_edge_elem ctx a v :
  In v (vals (var_castlist ctx a)) -> sink_typeof v = SINK_TYPE_LIST ->
  list_edge ctx (var_index a) (var_index v).
Proof. intros Hin Hv. exists v. repeat split; assumption. Qed.

Lemma step_rt_trans {A} (R : relation A) x y z :
  R x y -> clos_refl_trans A R y z -> clos_trans A R x z.
Proof.
  intros Hxy Hyz. apply clos_rt_rtn1 in Hyz. induction Hyz as [|u w Hu Hw IH].
  - apply t_step. exact Hxy.
  - eapply t_trans; [exact IH|apply t_step; exact Hu].
Qed.

Lemma circ_leads_back ctx li a : circ ctx li a -> leads_back ctx li a.
Proof.
  induction 1 as [li a Ha Hh|li a v Ha Hh Hv Hc IH].
  - exists (var_index a). split; [apply rt_refl|left; exact Hh].
  - pose proof (list_edge_elem ctx a v Hv (circ_is_list _ _ _ Hc)) as He.
    destruct IH as (k & Hk & [Hs|Hcyc]).
    + rewrite list_int_has_push in Hs. apply orb_true_iff in Hs. destruct Hs as [Hs|Hs].
      * exists k. split; [|left; exact Hs].
        eapply rt_trans; [apply rt_step; exact He|exact Hk].
      * apply Z.eqb_eq in Hs. subst k. exists (var_index a). split; [apply rt_refl|right].
        exact (step_rt_trans _ _ _ _ He Hk).
    + exists k. split; [|right; exact Hcyc].
      eapply rt_trans; [apply rt_step; exact He|exact Hk].
Qed.

Lemma leads_back_circ ctx m : forall li a,
  (unvisited (length (tbl (list_pool ctx))) li <= m)%nat ->
  sink_typeof a = SINK_TYPE_LIST -> leads_back ctx li a -> circ ctx li a.
Proof.
  induction m as [|m IH]; intros li a Hm Ha (k & Hk & Hend);
    (destruct (list_int_has li (var_index a)) eqn:Eh; [apply circ_here; assumption|]).
  all: assert (Hstep : exists v, In v (vals (var_castlist ctx a))
                        /\ sink_typeof v = SINK_TYPE_LIST
                        /\ leads_back ctx (list_int_push li (var_index a)) v).
  1,3: (apply clos_rt_rt1n in Hk; inversion Hk as [E|y z Hy Hz]; subst;
    [ destruct Hend as [Hs|Hcyc]; [congruence|];
      apply clos_trans_t1n in Hcyc; inversion Hcyc as [y Hy|y z Hy Hz]; subst;
      destruct Hy as (v & Hv & Hvl & Hvi); exists v; (split; [exact Hv|]);
      (split; [exact Hvl|]); exists (var_index a);
      (split; [|left; rewrite list_int_has_push, Z.eqb_refl; apply orb_true_r]);
      [ rewrite Hvi; apply rt_refl
      | rewrite Hvi; apply clos_t1n_trans in Hz; clear -Hz;
        induction Hz; [apply rt_step; assumption|eapply rt_trans; eassumption] ]
    | destruct Hy as (v & Hv & Hvl & Hvi); exists v; (split; [exact Hv|]);
      (split; [exact Hvl|]); exists k; split;
      [ rewrite Hvi; apply clos_rt1n_rt; exact Hz
      | destruct Hend as [Hs|Hcyc];
        [left; rewrite list_int_has_push, Hs; reflexivity|right; exact Hcyc] ] ]).
  all: destruct Hstep as (v & Hv & Hvl & Hlb).
  all: assert (Hne : ls_size (var_castlist ctx a) <> 0)
         by (unfold ls_size; destruct (vals (var_castlist ctx a)); [destruct Hv|cbn [length]; lia]).
  all: pose proof (var_castlist_in_range ctx a Hne) as Hr.
  all: pose proof (unvisited_push _ li (var_index a) Hr Eh) as Hlt.
  - lia.
  - apply (circ_deep ctx li a v); try assumption. apply IH; [lia|exact Hvl|exact Hlb].
Qed.

(** The walk from an empty stack fails exactly on the values that contain a
    reference cycle. *)
Lemma circ_has_cycle ctx a : circ ctx [] a <-> has_cycle ctx a.
Proof.
  split.
  - intros Hc. split; [exact (circ_is_list _ _ _ Hc)|].
    destruct (circ_leads_back _ _ _ Hc) as (k & Hk & [Hs|Hcyc]); [discriminate Hs|].
    exists k. split; assumption.
  - intros (Ha & k & Hk & Hcyc).
    apply (leads_back_circ ctx (length (tbl (list_pool ctx)))); [|exact Ha|].
    + rewrite unvisited_nil. lia.
    + exists k. split; [exact Hk|right; exact Hcyc].
Qed.

(** [pk_tojson] with the fuel [opi_pickle_json] gives it always returns. *)
Lemma pk_tojson_total snprintf ctx a :
  exists res li',
    pk_tojson snprintf (S (length (tbl (list_pool ctx)))) ctx a [] = Some (res, li')
    /\ (res = None <-> has_cycle ctx a).
Proof.
  destruct (pk_tojson_spec snprintf (S (length (tbl (list_pool ctx)))) ctx a [])
    as (res & li' & He & Hn & Hs).
  { rewrite unvisited_nil. lia. }
  exists res, li'. split; [exact He|]. split.
  - intros E. apply circ_has_cycle. apply Hn. exact E.
  - intros Hc. apply circ_has_cycle in Hc. destruct res as [s|]; [|reflexivity].
    destruct (Hs s eq_refl) as [_ Hnc]. contradiction.
Qed.




End PickleFacts.
(** ** Garbage collection: the mark phase returns, the tick cost *)

Module GcFacts.
Import Pool Ctx Gc PoolFacts CtxFacts.

Lemma some_eq {A} (a b : A) : Some a = Some b -> a = b.
Proof. intros H. injection H. auto. Qed.

Lemma length_bmp_setbit l i : length (bmp_setbit l i) = length l.
Proof.
  unfold bmp_setbit. destruct (l !! Z.to_nat (Z.quot i 64)); [|reflexivity].
  apply length_insert.
Qed.

Lemma index_split i j : 0 <= i -> 0 <= j ->
  (j =? i) = (Z.to_nat (Z.quot j 64) =? Z.to_nat (Z.quot i 64))%nat && (Z.rem j 64 =? Z.rem i 64).
Proof.
  intros Hi Hj.
  rewrite !Z.quot_div_nonneg, !Z.rem_mod_nonneg by lia.
  pose proof (Z.div_mod i 64 ltac:(lia)) as Ei.
  pose proof (Z.div_mod j 64 ltac:(lia)) as Ej.
  pose proof (Z.div_pos i 64 Hi ltac:(lia)) as Pi.
  pose proof (Z.div_pos j 64 Hj ltac:(lia)) as Pj.
  destruct (Z.eqb_spec j i) as [->|Hne].
  - rewrite Nat.eqb_refl, Z.eqb_refl. reflexivity.
  - destruct (Nat.eqb_spec (Z.to_nat (j / 64)) (Z.to_nat (i / 64))) as [Hq|Hq]; [|reflexivity].
    destruct (Z.eqb_spec (j mod 64) (i mod 64)) as [Hr|Hr]; [|reflexivity].
    exfalso. apply Hne. assert (j / 64 = i / 64) by lia. lia.
Qed.

(** The bits of a bitmap after [bmp_setbit]: bit [i] is set when its word
    exists, and no other bit changes. *)
Lemma bmp_bit_setbit l i j : 0 <= i -> 0 <= j ->
  bmp_bit (bmp_setbit l i) j =
    if (Z.to_nat (Z.quot i 64) <? length l)%nat then (j =? i) || bmp_bit l j else bmp_bit l j.
Proof.
  intros Hi Hj. unfold bmp_setbit.
  destruct (l !! Z.to_nat (Z.quot i 64)) as [w|] eqn:E.
  - pose proof (lookup_lt_Some _ _ _ E) as Hlt.
    destruct (Nat.ltb_spec (Z.to_nat (Z.quot i 64)) (length l)) as [_|Hge]; [|lia].
    rewrite (index_split i j Hi Hj). unfold bmp_bit. rewrite !nth_lookup.
    destruct (Nat.eqb_spec (Z.to_nat (Z.quot j 64)) (Z.to_nat (Z.quot i 64))) as [Hq|Hq].
    + rewrite Hq, list_lookup_insert_eq by exact Hlt. rewrite E. cbn [default from_option id andb].
      rewrite set_bit_testbit.
      * destruct (Z.rem j 64 =? Z.rem i 64); reflexivity.
      * rewrite Z.rem_mod_nonneg by lia. apply Z.mod_pos_bound. lia.
      * rewrite Z.rem_mod_nonneg by lia. apply Z.mod_pos_bound. lia.
    + rewrite list_lookup_insert_ne by (intros Heq; apply Hq; symmetry; exact Heq).
      reflexivity.
  - pose proof (lookup_ge_None_1 _ _ E) as Hge.
    destruct (Nat.ltb_spec (Z.to_nat (Z.quot i 64)) (length l)) as [Hlt|_]; [lia|].
    reflexivity.
Qed.

Lemma clear_bits_setbit_le l i : 0 <= i ->
  (clear_bits (bmp_setbit l i) <= clear_bits l)%nat.
Proof.
  intros Hi. unfold clear_bits. rewrite length_bmp_setbit.
  apply filter_length_le. intros x _.
  rewrite bmp_bit_setbit by lia.
  destruct (Z.to_nat (Z.quot i 64) <? length l)%nat; [|auto].
  rewrite negb_orb. intros H. apply andb_true_iff in H. apply H.
Qed.

Lemma clear_bits_setbit_lt l i : 0 <= i -> (Z.to_nat (Z.quot i 64) < length l)%nat ->
  bmp_bit l i = false ->
  (clear_bits (bmp_setbit l i) < clear_bits l)%nat.
Proof.
  intros Hi Hk Hb. unfold clear_bits. rewrite length_bmp_setbit.
  assert (Hlt : (Z.to_nat (Z.quot i 64) <? length l)%nat = true) by (apply Nat.ltb_lt; exact Hk).
  apply (filter_length_lt _ _ _ (Z.to_nat i)).
  - intros y _. rewrite bmp_bit_setbit by lia. rewrite Hlt, negb_orb.
    intros H. apply andb_true_iff in H. apply H.
  - apply in_seq. rewrite Z.quot_div_nonneg in Hk by lia.
    pose proof (Z.div_mod i 64 ltac:(lia)) as E.
    pose proof (Z.mod_pos_bound i 64 ltac:(lia)) as B.
    pose proof (Z.div_pos i 64 Hi ltac:(lia)) as P. lia.
  - rewrite Z2Nat.id by lia. rewrite bmp_bit_setbit by lia.
    rewrite Hlt, Z.eqb_refl. reflexivity.
  - rewrite Z2Nat.id by lia. rewrite Hb. reflexivity.
Qed.

Lemma context_markvals_S f ltbl vs refs :
  context_markvals (S f) ltbl vs refs = markvals_loop (context_markvals f ltbl) ltbl vs refs.
Proof. reflexivity. Qed.

Lemma context_markvals_nil f ltbl refs : context_markvals f ltbl [] refs = Some refs.
Proof. destruct f; reflexivity. Qed.

(** The mark phase returns: each recursive call follows a bit of [list_ref]
    that was clear and is now set. *)
Lemma context_markvals_total fuel : forall ltbl vs sref lref,
  (length ltbl <= 64 * length lref)%nat -> (clear_bits lref < fuel)%nat ->
  exists sref' lref', context_markvals fuel ltbl vs (sref, lref) = Some (sref', lref')
    /\ length lref' = length lref /\ (clear_bits lref' <= clear_bits lref)%nat
    /\ length sref' = length sref.
Proof.
  induction fuel as [|f IHf]; intros ltbl vs sref lref Hcov Hfuel; [lia|].
  rewrite context_markvals_S.
  revert sref lref Hcov Hfuel.
  induction vs as [|v rest IHvs]; intros sref lref Hcov Hfuel.
  - exists sref, lref. cbn. repeat split; lia.
  - cbn [markvals_loop fst snd].
    destruct (sink_isstr v).
    + destruct (IHvs (bmp_setbit sref (var_index v)) lref Hcov Hfuel)
        as (s' & l' & E & H1 & H2 & H3).
      exists s', l'. rewrite E. rewrite length_bmp_setbit in H3. repeat split; assumption.
    + destruct (sink_islist v); [|apply IHvs; assumption].
      pose proof (var_index_nonneg v) as Hidx.
      unfold bmp_hassetbit.
      destruct (bmp_bit lref (var_index v)) eqn:Hb.
      * apply IHvs; assumption.
      * destruct (Nat.lt_ge_cases (Z.to_nat (Z.quot (var_index v) 64)) (length lref))
          as [Hin|Hout].
        -- pose proof (clear_bits_setbit_lt lref (var_index v) Hidx Hin Hb) as Hlt.
           destruct (IHf ltbl (vals (nth (Z.to_nat (var_index v)) ltbl empty_list))
                         sref (bmp_setbit lref (var_index v)))
             as (s1 & l1 & E1 & H1 & H2 & H3).
           { rewrite length_bmp_setbit. exact Hcov. }
           { lia. }
           rewrite E1. rewrite length_bmp_setbit in H1.
           destruct (IHvs s1 l1) as (s2 & l2 & E2 & G1 & G2 & G3).
           { rewrite H1. exact Hcov. }
           { lia. }
           exists s2, l2. rewrite E2. repeat split; lia.
        -- assert (Hnth : nth (Z.to_nat (var_index v)) ltbl empty_list = empty_list).
           { apply nth_overflow.
             rewrite Z.quot_div_nonneg in Hout by lia.
             pose proof (Z.div_mod (var_index v) 64 ltac:(lia)) as E.
             pose proof (Z.mod_pos_bound (var_index v) 64 ltac:(lia)) as B.
             pose proof (Z.div_pos (var_index v) 64 Hidx ltac:(lia)) as P. lia. }
           rewrite Hnth. cbn [vals empty_list]. rewrite context_markvals_nil.
           assert (Hsame : bmp_setbit lref (var_index v) = lref).
           { unfold bmp_setbit. rewrite lookup_ge_None_2 by lia. reflexivity. }
           rewrite Hsame. apply IHvs; assumption.
Qed.

Lemma clear_bits_le l : (clear_bits l <= 64 * length l)%nat.
Proof.
  unfold clear_bits.
  etransitivity; [apply filter_length_le with (g := fun _ => true); reflexivity|].
  rewrite forallb_filter_id by (apply forallb_forall; reflexivity).
  rewrite length_seq. lia.
Qed.

Lemma mark_roots_total ltbl roots : forall sref lref,
  (length ltbl <= 64 * length lref)%nat ->
  exists sref' lref', mark_roots ltbl roots (sref, lref) = Some (sref', lref')
    /\ length lref' = length lref /\ length sref' = length sref.
Proof.
  induction roots as [|vs more IH]; intros sref lref Hcov.
  - exists sref, lref. cbn. repeat split; reflexivity.
  - cbn [mark_roots]. unfold markvals_top, mark_fuel. cbn [snd].
    destruct (context_markvals_total (S (64 * length lref)) ltbl vs sref lref Hcov)
      as (s1 & l1 & E & H1 & _ & H3).
    { pose proof (clear_bits_le lref). lia. }
    rewrite E.
    destruct (IH s1 l1) as (s2 & l2 & E2 & G1 & G3).
    { rewrite H1. exact Hcov. }
    exists s2, l2. rewrite E2. repeat split; congruence.
Qed.

Lemma length_memset0_all (w : list Z) n : length (memset0 w 0 n) = length w.
Proof.
  unfold memset0. rewrite !length_app, length_replicate, length_drop, length_take.
  change (Z.to_nat 0) with 0%nat. lia.
Qed.

(** *** The mark phase marks what can be reached *)

Lemma str_not_list v : sink_isstr v = true -> sink_islist v = false.
Proof.
  unfold sink_isstr, sink_islist. intros H. apply Z.eqb_eq in H. rewrite H. reflexivity.
Qed.

Lemma refs_le_refl r : refs_le r r.
Proof. unfold refs_le. repeat split; auto. Qed.

Lemma refs_le_trans r1 r2 r3 : refs_le r1 r2 -> refs_le r2 r3 -> refs_le r1 r3.
Proof.
  unfold refs_le. intros (A1 & A2 & A3 & A4) (B1 & B2 & B3 & B4).
  split; [congruence|]. split; [congruence|]. split; auto.
Qed.

Lemma marked_mono r r' v : refs_le r r' -> marked r v -> marked r' v.
Proof.
  unfold refs_le, marked, in_words. intros (A1 & A2 & A3 & A4) [M1 M2].
  pose proof (var_index_nonneg v) as H0. split.
  - intros Hs Hin. apply A3; [exact H0|]. apply M1; [exact Hs|]. rewrite <- A1. exact Hin.
  - intros Hl Hin. apply A4; [exact H0|]. apply M2; [exact Hl|]. rewrite <- A2. exact Hin.
Qed.

Lemma closed_since_trans ltbl r1 r2 r3 :
  refs_le r2 r3 -> closed_since ltbl r1 r2 -> closed_since ltbl r2 r3 ->
  closed_since ltbl r1 r3.
Proof.
  unfold closed_since. intros Hle C1 C2 idx H0 Hb1 Hb3.
  destruct (bmp_bit (snd r2) idx) eqn:Hb2.
  - apply (Forall_impl _ _ _ (C1 idx H0 Hb1 Hb2)). intros v Hv.
    exact (marked_mono _ _ _ Hle Hv).
  - exact (C2 idx H0 Hb2 Hb3).
Qed.

Lemma setbit_le_fst sref lref i : 0 <= i -> refs_le (sref, lref) (bmp_setbit sref i, lref).
Proof.
  intros Hi. unfold refs_le. cbn [fst snd]. split; [apply length_bmp_setbit|].
  split; [reflexivity|]. split; [|auto].
  intros j Hj Hb. rewrite bmp_bit_setbit by lia. rewrite Hb.
  destruct (_ <? _)%nat; [apply orb_true_r|reflexivity].
Qed.

Lemma setbit_le_snd sref lref i : 0 <= i -> refs_le (sref, lref) (sref, bmp_setbit lref i).
Proof.
  intros Hi. unfold refs_le. cbn [fst snd]. split; [reflexivity|].
  split; [apply length_bmp_setbit|]. split; [auto|].
  intros j Hj Hb. rewrite bmp_bit_setbit by lia. rewrite Hb.
  destruct (_ <? _)%nat; [apply orb_true_r|reflexivity].
Qed.

Lemma setbit_sets l i : 0 <= i -> in_words l i -> bmp_bit (bmp_setbit l i) i = true.
Proof.
  unfold in_words. intros Hi Hin. rewrite bmp_bit_setbit by lia.
  destruct (Nat.ltb_spec (Z.to_nat (Z.quot i 64)) (length l)); [|lia].
  rewrite Z.eqb_refl. reflexivity.
Qed.

(** What [context_markvals] returns: no bit is cleared, every value of the
    array is marked, and every list marked on the way has its elements
    marked. *)
Lemma context_markvals_sound fuel : forall ltbl vs r r',
  context_markvals fuel ltbl vs r = Some r' ->
  refs_le r r' /\ Forall (marked r') vs /\ closed_since ltbl r r'.
Proof.
  induction fuel as [|f IHf]; intros ltbl vs.
  - (* no recursive call is possible *)
    induction vs as [|v rest IHvs]; intros r r' H.
    + cbn in H. apply some_eq in H. subst r'. split; [apply refs_le_refl|].
      split; [constructor|]. intros idx _ Hb1 Hb2. congruence.
    + destruct r as [sref lref]. cbn [context_markvals markvals_loop fst snd] in H.
      pose proof (var_index_nonneg v) as Hidx.
      destruct (sink_isstr v) eqn:Es.
      * apply IHvs in H. destruct H as (L & Fm & C).
        pose proof (setbit_le_fst sref lref (var_index v) Hidx) as L1.
        split; [exact (refs_le_trans _ _ _ L1 L)|]. split.
        -- constructor; [|exact Fm]. apply (marked_mono _ _ _ L). split.
           ++ intros _ Hin. apply setbit_sets; [exact Hidx|].
              unfold in_words in *. cbn [fst] in Hin. rewrite length_bmp_setbit in Hin. exact Hin.
           ++ intros Hl. rewrite (str_not_list v Es) in Hl. discriminate.
        -- intros idx H0 Hb1 Hb2. exact (C idx H0 Hb1 Hb2).
      * destruct (sink_islist v) eqn:El.
        -- unfold bmp_hassetbit in H. destruct (bmp_bit lref (var_index v)) eqn:Hb; [|discriminate].
           apply IHvs in H. destruct H as (L & Fm & C).
           split; [exact L|]. split; [|exact C].
           constructor; [|exact Fm]. apply (marked_mono _ _ _ L). split.
           ++ intros Hs. congruence.
           ++ intros _ _. exact Hb.
        -- apply IHvs in H. destruct H as (L & Fm & C).
           split; [exact L|]. split; [|exact C].
           constructor; [|exact Fm]. split; intros Hx; congruence.
  - induction vs as [|v rest IHvs]; intros r r' H.
    + cbn in H. apply some_eq in H. subst r'. split; [apply refs_le_refl|].
      split; [constructor|]. intros idx _ Hb1 Hb2. congruence.
    + destruct r as [sref lref]. rewrite context_markvals_S in H.
      cbn [markvals_loop fst snd] in H. rewrite <- context_markvals_S in H.
      pose proof (var_index_nonneg v) as Hidx.
      destruct (sink_isstr v) eqn:Es.
      * apply IHvs in H. destruct H as (L & Fm & C).
        pose proof (setbit_le_fst sref lref (var_index v) Hidx) as L1.
        split; [exact (refs_le_trans _ _ _ L1 L)|]. split.
        -- constructor; [|exact Fm]. apply (marked_mono _ _ _ L). split.
           ++ intros _ Hin. apply setbit_sets; [exact Hidx|].
              unfold in_words in *. cbn [fst] in Hin. rewrite length_bmp_setbit in Hin. exact Hin.
           ++ intros Hl. rewrite (str_not_list v Es) in Hl. discriminate.
        -- intros idx H0 Hb1 Hb2. exact (C idx H0 Hb1 Hb2).
      * destruct (sink_islist v) eqn:El.
        -- unfold bmp_hassetbit in H. destruct (bmp_bit lref (var_index v)) eqn:Hb.
           ++ apply IHvs in H. destruct H as (L & Fm & C).
              split; [exact L|]. split; [|exact C].
              constructor; [|exact Fm]. apply (marked_mono _ _ _ L). split.
              ** intros Hs. congruence.
              ** intros _ _. exact Hb.
           ++ destruct (context_markvals f ltbl _ (sref, bmp_setbit lref (var_index v)))
                as [r2|] eqn:E2; [|discriminate].
              apply IHf in E2. destruct E2 as (L2 & F2 & C2).
              apply IHvs in H. destruct H as (L3 & F3 & C3).
              pose proof (setbit_le_snd sref lref (var_index v) Hidx) as L1.
              pose proof (refs_le_trans _ _ _ L1 L2) as L12.
              split; [exact (refs_le_trans _ _ _ L12 L3)|]. split.
              ** constructor; [|exact F3]. apply (marked_mono _ _ _ (refs_le_trans _ _ _ L2 L3)).
                 split; [intros Hs; congruence|].
                 intros _ Hin. cbn [snd] in *. apply setbit_sets; [exact Hidx|].
                 unfold in_words in *. rewrite length_bmp_setbit in Hin. exact Hin.
              ** pose proof (closed_since_trans ltbl _ _ _ L3 C2 C3) as C13.
                 intros idx H0 Hb1 Hb3. cbn [snd] in Hb1.
                 destruct (Z.eq_dec idx (var_index v)) as [->|Hne].
                 --- apply (Forall_impl _ _ _ F2). intros e He.
                     exact (marked_mono _ _ _ L3 He).
                 --- apply (C13 idx H0); [|exact Hb3]. cbn [snd].
                     rewrite bmp_bit_setbit by lia. rewrite Hb1.
                     destruct (_ <? _)%nat; [|reflexivity].
                     destruct (Z.eqb_spec idx (var_index v)); [contradiction|reflexivity].
        -- apply IHvs in H. destruct H as (L & Fm & C).
           split; [exact L|]. split; [|exact C].
           constructor; [|exact Fm]. split; intros Hx; congruence.
Qed.

(** A collection returns. *)
Lemma context_gc_total ctx : ref_covers ctx -> exists ctx', context_gc ctx = Some ctx'.
Proof.
  intros Hcov. unfold context_gc, context_mark.
  destruct (mark_roots_total (tbl (list_pool (context_clearref ctx)))
              (gc_roots (context_clearref ctx))
              (ref (str_pool (context_clearref ctx)))
              (ref (list_pool (context_clearref ctx)))) as (s & l & E & _).
  { unfold context_clearref. cbn. rewrite length_memset0_all. exact Hcov. }
  rewrite E. eexists. reflexivity.
Qed.

(** What a collection does to the fields outside the pools: the tick budget
    loses [SINK_GC_TICKS], floored at zero, and the countdown is set anew. *)
Lemma context_gc_fields ctx ctx' : context_gc ctx = Some ctx' ->
  timeout_left ctx' = Z.max 0 (timeout_left ctx - SINK_GC_TICKS)
  /\ gc_left ctx' = match gc_level ctx with
                    | SINK_GC_DEFAULT => 10000
                    | SINK_GC_LOWMEM => 1000
                    | SINK_GC_NONE => gc_left ctx
                    end
  /\ timeout ctx' = timeout ctx /\ pc ctx' = pc ctx /\ lastpc ctx' = lastpc ctx
  /\ prg ctx' = prg ctx /\ gc_level ctx' = gc_level ctx
  /\ call_stk ctx' = call_stk ctx /\ lex_stk ctx' = lex_stk ctx
  /\ lex_index ctx' = lex_index ctx
  /\ passed ctx' = passed ctx /\ failed ctx' = failed ctx /\ async ctx' = async ctx
  /\ err ctx' = err ctx.
Proof.
  unfold context_gc, context_mark. intros H.
  destruct (mark_roots _ _ _) as [[sref lref]|]; [|discriminate].
  apply some_eq in H. subst ctx'. unfold context_gcleft, SINK_GC_TICKS.
  cbn [gc_level context_sweep with_list_pool with_str_pool context_clearref].
  destruct (gc_level ctx) eqn:El;
    cbn [gc_level timeout_left gc_left timeout pc lastpc prg call_stk lex_stk lex_index
         passed failed async err context_sweep with_list_pool with_str_pool with_ticks
         context_clearref];
    (split; [destruct (Z.leb_spec (timeout_left ctx) 100); lia|]);
    repeat split; try reflexivity; try exact El.
Qed.

Lemma mark_roots_sound ltbl roots : forall r r',
  mark_roots ltbl roots r = Some r' ->
  refs_le r r' /\ Forall (Forall (marked r')) roots /\ closed_since ltbl r r'.
Proof.
  induction roots as [|vs more IH]; intros r r' H.
  - cbn in H. apply some_eq in H. subst r'. split; [apply refs_le_refl|].
    split; [constructor|]. intros idx _ Hb1 Hb2. congruence.
  - cbn [mark_roots] in H. unfold markvals_top in H.
    destruct (context_markvals _ ltbl vs r) as [r1|] eqn:E1; [|discriminate].
    apply context_markvals_sound in E1. destruct E1 as (L1 & F1 & C1).
    apply IH in H. destruct H as (L2 & F2 & C2).
    split; [exact (refs_le_trans _ _ _ L1 L2)|]. split.
    + constructor; [|exact F2]. apply (Forall_impl _ _ _ F1). intros v Hv.
      exact (marked_mono _ _ _ L2 Hv).
    + exact (closed_since_trans ltbl _ _ _ L2 C1 C2).
Qed.

(** When every marked list has its elements marked and the roots are marked,
    everything that can be reached is marked. *)
Lemma reach_marked ltbl roots r v :
  (length ltbl <= 64 * length (snd r))%nat ->
  Forall (Forall (marked r)) roots ->
  (forall idx, 0 <= idx -> bmp_bit (snd r) idx = true ->
     Forall (marked r) (vals (nth (Z.to_nat idx) ltbl empty_list))) ->
  reach ltbl roots v -> marked r v.
Proof.
  intros Hcov Hroots Hclosed Hr. induction Hr as [vs v Hvs Hv|l e Hl IH Hlist He].
  - rewrite List.Forall_forall in Hroots. specialize (Hroots vs Hvs).
    rewrite List.Forall_forall in Hroots. exact (Hroots v Hv).
  - pose proof (var_index_nonneg l) as Hidx.
    assert (Hin : (Z.to_nat (var_index l) < length ltbl)%nat).
    { destruct (Nat.lt_ge_cases (Z.to_nat (var_index l)) (length ltbl)) as [Hlt|Hge];
        [exact Hlt|].
      rewrite nth_overflow in He by exact Hge. destruct He. }
    assert (Hw : in_words (snd r) (var_index l)).
    { unfold in_words. rewrite Z.quot_div_nonneg by lia.
      pose proof (Z.div_mod (var_index l) 64 ltac:(lia)) as E.
      pose proof (Z.mod_pos_bound (var_index l) 64 ltac:(lia)) as B.
      pose proof (Z.div_pos (var_index l) 64 Hidx ltac:(lia)) as P. lia. }
    destruct IH as [_ M2]. specialize (M2 Hlist Hw).
    specialize (Hclosed (var_index l) Hidx M2).
    rewrite List.Forall_forall in Hclosed. exact (Hclosed e He).
Qed.

(** *** The sweep *)

Lemma land_bit_zero a k : 0 <= k ->
  (Z.land a (Z.shiftl 1 k) =? 0) = negb (Z.testbit a k).
Proof.
  intros Hk. destruct (Z.testbit a k) eqn:Hb; cbn [negb].
  - apply Z.eqb_neq. intros H0.
    assert (Ht : Z.testbit (Z.land a (Z.shiftl 1 k)) k = true).
    { rewrite Z.land_spec, Hb, Z.shiftl_1_l, Z.pow2_bits_true by lia. reflexivity. }
    rewrite H0, Z.bits_0 in Ht. discriminate.
  - apply Z.eqb_eq. apply Z.bits_inj'. intros n Hn.
    rewrite Z.land_spec, Z.bits_0, Z.shiftl_1_l, Z.pow2_bits_eqb by lia.
    destruct (Z.eqb_spec k n) as [->|Hne]; [rewrite Hb; reflexivity|apply andb_false_r].
Qed.

Lemma sweep_bits_spec n : forall bi aw rw j, 0 <= bi -> 0 <= j ->
  Z.testbit (sweep_bits n bi aw rw) j =
    if (bi <=? j) && (j <? bi + Z.of_nat n) then Z.testbit aw j && Z.testbit rw j
    else Z.testbit aw j.
Proof.
  induction n as [|n IH]; intros bi aw rw j Hbi Hj.
  - cbn [sweep_bits]. destruct (Z.leb_spec bi j), (Z.ltb_spec j (bi + Z.of_nat 0));
      cbn [andb]; try reflexivity; lia.
  - cbn [sweep_bits]. cbv zeta. rewrite !land_bit_zero by lia. rewrite negb_involutive.
    destruct (Z.testbit aw bi) eqn:Ha; cbn [negb orb].
    + destruct (Z.testbit rw bi) eqn:Hr.
      * rewrite IH by lia.
        destruct (Z.leb_spec (bi + 1) j), (Z.ltb_spec j (bi + 1 + Z.of_nat n)),
          (Z.leb_spec bi j), (Z.ltb_spec j (bi + Z.of_nat (S n))); cbn [andb];
          try reflexivity; try lia.
        assert (j = bi) by lia. subst j. rewrite Ha, Hr. reflexivity.
      * rewrite IH by lia.
        assert (Hx : forall m, 0 <= m ->
                  Z.testbit (Z.lxor aw (Z.shiftl 1 bi)) m
                  = if m =? bi then false else Z.testbit aw m).
        { intros m Hm. rewrite Z.lxor_spec, Z.shiftl_1_l, Z.pow2_bits_eqb by lia.
          rewrite (Z.eqb_sym bi m).
          destruct (Z.eqb_spec m bi) as [->|Hne]; [rewrite Ha; reflexivity|apply xorb_false_r]. }
        rewrite Hx by lia.
        destruct (Z.leb_spec (bi + 1) j), (Z.ltb_spec j (bi + 1 + Z.of_nat n)),
          (Z.leb_spec bi j), (Z.ltb_spec j (bi + Z.of_nat (S n))), (Z.eqb_spec j bi);
          cbn [andb]; try reflexivity; try lia.
        subst j. rewrite Hr. symmetry. apply andb_false_r.
    + rewrite IH by lia.
      destruct (Z.leb_spec (bi + 1) j), (Z.ltb_spec j (bi + 1 + Z.of_nat n)),
        (Z.leb_spec bi j), (Z.ltb_spec j (bi + Z.of_nat (S n))); cbn [andb];
        try reflexivity; try lia.
      assert (j = bi) by lia. subst j. rewrite Ha. reflexivity.
Qed.

Lemma sweep_word_spec aw rw j : 0 <= j ->
  Z.testbit (sweep_word aw rw) j =
    if j <? 64 then Z.testbit aw j && Z.testbit rw j else Z.testbit aw j.
Proof.
  intros Hj. unfold sweep_word. destruct (Z.eqb_spec aw rw) as [->|Hne].
  - destruct (j <? 64); [symmetry; apply andb_diag|reflexivity].
  - rewrite sweep_bits_spec by lia.
    destruct (Z.leb_spec 0 j); [|lia]. cbn [andb]. reflexivity.
Qed.

(** A slot whose bit is set in the reachability bitmap, or lies beyond it,
    keeps its allocation bit through the sweep. *)
Lemma sweephelp_keeps ms : forall aloc ref i, 0 <= i ->
  (in_words ref i -> bmp_bit ref i = true) ->
  bmp_bit (context_sweephelp ms aloc ref) i = bmp_bit aloc i.
Proof.
  induction ms as [|ms IH]; intros aloc ref i Hi Hk; [reflexivity|].
  destruct aloc as [|aw al]; [reflexivity|]. destruct ref as [|rw rl]; [reflexivity|].
  cbn [context_sweephelp].
  destruct (Z_lt_ge_dec i 64) as [Hlt|Hge].
  - rewrite !bmp_bit_head by lia. rewrite sweep_word_spec by lia.
    destruct (Z.ltb_spec i 64); [|lia].
    assert (Hr : Z.testbit rw i = true).
    { rewrite <- (bmp_bit_head rw rl i) by lia. apply Hk.
      unfold in_words. rewrite Z.quot_small by lia. cbn. lia. }
    rewrite Hr. apply andb_true_r.
  - rewrite !(bmp_bit_tail _ _ i) by lia. apply IH; [lia|].
    intros Hin. rewrite <- (bmp_bit_tail rw rl i) by lia. apply Hk.
    unfold in_words in *. rewrite Z.quot_div_nonneg in * by lia.
    replace i with ((i - 64) + 1 * 64) by lia. rewrite Z.div_add by lia.
    assert (0 <= (i - 64) / 64) by (apply Z.div_pos; lia). cbn [length]. lia.
Qed.

(** The pools after a collection: the tables are left alone, the
    reachability bitmaps are those of the mark phase, and the allocation
    bitmaps are swept against them. *)
Lemma context_gc_pools ctx ctx' : context_gc ctx = Some ctx' ->
  exists sref lref,
    mark_roots (tbl (list_pool ctx)) (gc_roots ctx)
      (ref (str_pool (context_clearref ctx)), ref (list_pool (context_clearref ctx)))
    = Some (sref, lref)
    /\ str_pool ctx' = sweep_pool (mkPool (tbl (str_pool ctx)) (size (str_pool ctx))
                                          (aloc (str_pool ctx)) sref)
    /\ list_pool ctx' = sweep_pool (mkPool (tbl (list_pool ctx)) (size (list_pool ctx))
                                           (aloc (list_pool ctx)) lref).
Proof.
  unfold context_gc, context_mark. intros H.
  change (tbl (list_pool (context_clearref ctx))) with (tbl (list_pool ctx)) in H.
  change (gc_roots (context_clearref ctx)) with (gc_roots ctx) in H.
  destruct (mark_roots _ _ _) as [[sref lref]|]; [|discriminate].
  apply some_eq in H. subst ctx'. exists sref, lref. split; [reflexivity|].
  unfold context_gcleft.
  cbn [gc_level context_sweep with_list_pool with_str_pool context_clearref].
  destruct (gc_level ctx); split; reflexivity.
Qed.

(** A collection frees no object that can be reached from the pinned values
    or from a register of a frame: the allocation bit of every string and of
    every list that can be reached is what it was, and both tables are left
    as they were. *)
Theorem context_gc_keeps_reachable (ctx ctx' : context) (v : sink_val) :
  gc_shape ctx -> context_gc ctx = Some ctx' ->
  reach (tbl (list_pool ctx)) (gc_roots ctx) v ->
  (sink_isstr v = true ->
   bmp_bit (aloc (str_pool ctx')) (var_index v) = bmp_bit (aloc (str_pool ctx)) (var_index v))
  /\ (sink_islist v = true ->
      bmp_bit (aloc (list_pool ctx')) (var_index v)
      = bmp_bit (aloc (list_pool ctx)) (var_index v))
  /\ tbl (str_pool ctx') = tbl (str_pool ctx)
  /\ tbl (list_pool ctx') = tbl (list_pool ctx).
Proof.
  intros [Hcov Hsz] Hgc Hreach.
  destruct (context_gc_pools ctx ctx' Hgc) as (sref & lref & Hm & Es & El).
  apply mark_roots_sound in Hm. destruct Hm as (L & Froots & C).
  destruct L as (_ & Ll & _). cbn [fst snd] in Ll.
  assert (Hzero : ref (list_pool (context_clearref ctx))
                  = replicate (length (ref (list_pool ctx))) 0).
  { unfold context_clearref. cbn [list_pool with_list_pool with_str_pool ref].
    unfold memset0. change (Z.to_nat 0) with 0%nat. rewrite take_0. cbn [app].
    rewrite drop_ge by lia. rewrite app_nil_r. f_equal. lia. }
  assert (Hlen : length lref = length (ref (list_pool ctx))).
  { rewrite Ll, Hzero. apply length_replicate. }
  assert (Hmarked : marked (sref, lref) v).
  { apply (reach_marked (tbl (list_pool ctx)) (gc_roots ctx)); [|exact Froots| |exact Hreach].
    - cbn [snd]. rewrite Hlen. exact Hcov.
    - intros idx H0 Hb. apply (C idx H0); [|exact Hb]. cbn [snd].
      rewrite Hzero. apply bmp_bit_zeros. exact H0. }
  pose proof (var_index_nonneg v) as Hidx. destruct Hmarked as [M1 M2].
  rewrite Es, El. unfold sweep_pool. cbn [aloc tbl ref size].
  split; [|split; [|split; reflexivity]].
  - intros Hs. apply sweephelp_keeps; [exact Hidx|]. intros Hin. exact (M1 Hs Hin).
  - intros Hl. apply sweephelp_keeps; [exact Hidx|]. intros Hin. exact (M2 Hl Hin).
Qed.

(** *** The mark phase marks nothing else *)

Lemma only_reach_setbit_fst ltbl roots r0 sref lref i :
  only_reach ltbl roots r0 (sref, lref) -> only_reach ltbl roots r0 (bmp_setbit sref i, lref).
Proof. unfold only_reach. cbn [snd]. auto. Qed.

Lemma only_reach_setbit_snd ltbl roots r0 sref lref v :
  reach ltbl roots v -> sink_islist v = true ->
  only_reach ltbl roots r0 (sref, lref) ->
  only_reach ltbl roots r0 (sref, bmp_setbit lref (var_index v)).
Proof.
  unfold only_reach. cbn [snd]. intros Hr Hl H idx H0 Hb.
  pose proof (var_index_nonneg v) as Hidx.
  rewrite bmp_bit_setbit in Hb by lia.
  destruct (_ <? _)%nat; [|exact (H idx H0 Hb)].
  destruct (Z.eqb_spec idx (var_index v)) as [->|Hne]; cbn [orb] in Hb.
  - right. exists v. split; [exact Hr|]. split; [exact Hl|reflexivity].
  - exact (H idx H0 Hb).
Qed.

Lemma context_markvals_only_reach ltbl roots r0 fuel : forall vs r r',
  Forall (reach ltbl roots) vs -> only_reach ltbl roots r0 r ->
  context_markvals fuel ltbl vs r = Some r' -> only_reach ltbl roots r0 r'.
Proof.
  induction fuel as [|f IHf].
  - induction vs as [|v rest IHvs]; intros r r' Hvs Hr H.
    + cbn in H. apply some_eq in H. subst r'. exact Hr.
    + destruct r as [sref lref]. cbn [context_markvals markvals_loop fst snd] in H.
      inversion Hvs as [|? ? Hv Hrest]; subst.
      destruct (sink_isstr v).
      * apply (IHvs _ _ Hrest) in H; [exact H|]. apply only_reach_setbit_fst. exact Hr.
      * destruct (sink_islist v) eqn:El; [|exact (IHvs _ _ Hrest Hr H)].
        unfold bmp_hassetbit in H. destruct (bmp_bit lref (var_index v)); [|discriminate].
        exact (IHvs _ _ Hrest Hr H).
  - induction vs as [|v rest IHvs]; intros r r' Hvs Hr H.
    + cbn in H. apply some_eq in H. subst r'. exact Hr.
    + destruct r as [sref lref]. rewrite context_markvals_S in H.
      cbn [markvals_loop fst snd] in H. rewrite <- context_markvals_S in H.
      inversion Hvs as [|? ? Hv Hrest]; subst.
      destruct (sink_isstr v).
      * apply (IHvs _ _ Hrest) in H; [exact H|]. apply only_reach_setbit_fst. exact Hr.
      * destruct (sink_islist v) eqn:El; [|exact (IHvs _ _ Hrest Hr H)].
        unfold bmp_hassetbit in H. destruct (bmp_bit lref (var_index v)).
        -- exact (IHvs _ _ Hrest Hr H).
        -- destruct (context_markvals f ltbl _ (sref, bmp_setbit lref (var_index v)))
             as [r2|] eqn:E2; [|discriminate].
           apply IHf in E2.
           ++ exact (IHvs _ _ Hrest E2 H).
           ++ apply List.Forall_forall. intros e He. exact (reach_elem _ _ v e Hv El He).
           ++ apply only_reach_setbit_snd; assumption.
Qed.

Lemma mark_roots_only_reach ltbl roots r0 : forall rs r r',
  incl rs roots -> only_reach ltbl roots r0 r ->
  mark_roots ltbl rs r = Some r' -> only_reach ltbl roots r0 r'.
Proof.
  induction rs as [|vs more IH]; intros r r' Hincl Hr H.
  - cbn in H. apply some_eq in H. subst r'. exact Hr.
  - cbn [mark_roots] in H. unfold markvals_top in H.
    destruct (context_markvals _ ltbl vs r) as [r1|] eqn:E1; [|discriminate].
    apply (context_markvals_only_reach ltbl roots r0) in E1; [|  |exact Hr].
    + apply (IH r1 r'); [|exact E1|exact H]. intros x Hx. apply Hincl. right. exact Hx.
    + apply List.Forall_forall. intros v Hv.
      apply (reach_root _ _ vs v); [apply Hincl; left; reflexivity|exact Hv].
Qed.

(** A slot whose bit is clear in the reachability bitmap loses its
    allocation bit in the sweep. *)
Lemma sweephelp_frees ms : forall aloc ref i, 0 <= i ->
  (Z.to_nat (Z.quot i 64) < ms)%nat -> in_words ref i -> bmp_bit ref i = false ->
  bmp_bit (context_sweephelp ms aloc ref) i = false.
Proof.
  assert (Hnil : forall i, bmp_bit [] i = false).
  { intros i. unfold bmp_bit. destruct (Z.to_nat (Z.quot i 64)); apply Z.bits_0. }
  induction ms as [|ms IH]; intros aloc ref i Hi Hms Hin Hb; [lia|].
  destruct aloc as [|aw al]; [apply Hnil|].
  destruct ref as [|rw rl]; [unfold in_words in Hin; cbn in Hin; lia|].
  cbn [context_sweephelp].
  destruct (Z_lt_ge_dec i 64) as [Hlt|Hge].
  - rewrite (bmp_bit_head rw rl i) in Hb by lia. rewrite bmp_bit_head by lia.
    rewrite sweep_word_spec by lia.
    destruct (Z.ltb_spec i 64); [|lia]. rewrite Hb. apply andb_false_r.
  - rewrite (bmp_bit_tail rw rl i) in Hb by lia. rewrite (bmp_bit_tail _ _ i) by lia.
    assert (Hq : Z.to_nat (Z.quot i 64) = S (Z.to_nat (Z.quot (i - 64) 64))).
    { rewrite !Z.quot_div_nonneg by lia.
      replace i with ((i - 64) + 1 * 64) at 1 by lia. rewrite Z.div_add by lia.
      assert (0 <= (i - 64) / 64) by (apply Z.div_pos; lia). lia. }
    apply IH; [lia|lia| |exact Hb].
    unfold in_words in *. cbn [length] in Hin. lia.
Qed.

(** A collection frees every list that cannot be reached: a slot of the list
    pool that no value reachable from the pinned values or the registers
    refers to has its allocation bit clear afterwards. *)
Theorem context_gc_frees_unreachable (ctx ctx' : context) (i : Z) :
  gc_shape ctx -> context_gc ctx = Some ctx' ->
  0 <= i -> in_words (ref (list_pool ctx)) i ->
  (forall v, reach (tbl (list_pool ctx)) (gc_roots ctx) v -> sink_islist v = true ->
             var_index v <> i) ->
  bmp_bit (aloc (list_pool ctx')) i = false.
Proof.
  intros [Hcov Hsz] Hgc Hi Hin Hnone.
  destruct (context_gc_pools ctx ctx' Hgc) as (sref & lref & Hm & _ & El).
  assert (Hzero : ref (list_pool (context_clearref ctx))
                  = replicate (length (ref (list_pool ctx))) 0).
  { unfold context_clearref. cbn [list_pool with_list_pool with_str_pool ref].
    unfold memset0. change (Z.to_nat 0) with 0%nat. rewrite take_0. cbn [app].
    rewrite drop_ge by lia. rewrite app_nil_r. f_equal. lia. }
  pose proof (mark_roots_sound _ _ _ _ Hm) as ((_ & Ll & _) & _). cbn [fst snd] in Ll.
  assert (Hlen : length lref = length (ref (list_pool ctx))).
  { rewrite Ll, Hzero. apply length_replicate. }
  pose proof (mark_roots_only_reach (tbl (list_pool ctx)) (gc_roots ctx)
                (ref (str_pool (context_clearref ctx)), ref (list_pool (context_clearref ctx)))
                (gc_roots ctx) _ _ (incl_refl _)
                (fun idx H0 Hb => or_introl Hb) Hm) as Honly.
  assert (Hclear : bmp_bit lref i = false).
  { destruct (bmp_bit lref i) eqn:Hb; [|reflexivity].
    destruct (Honly i Hi Hb) as [H0|(v & Hr & Hl & Hv)].
    - cbn [snd] in H0. rewrite Hzero, bmp_bit_zeros in H0 by exact Hi. discriminate.
    - exfalso. exact (Hnone v Hr Hl Hv). }
  rewrite El. unfold sweep_pool. cbn [aloc size ref tbl].
  apply sweephelp_frees; [exact Hi| |unfold in_words in *; rewrite Hlen; exact Hin|exact Hclear].
  unfold in_words in Hin. lia.
Qed.

(** The sweep of one word of an allocation bitmap against the word of the
    reachability bitmap is their bitwise AND: the loop over the 64 bits clears
    exactly the bits that are allocated and not referenced. *)
Theorem sweep_word_land (aw rw : Z) :
  0 <= aw <= UINT64_MAX -> sweep_word aw rw = Z.land aw rw.
Proof.
  intros Ha. apply Z.bits_inj'. intros j Hj.
  rewrite sweep_word_spec, Z.land_spec by exact Hj.
  destruct (Z.ltb_spec j 64); [reflexivity|].
  rewrite (word_high_bits aw j Ha) by lia. reflexivity.
Qed.

Lemma sweep_word_land_witness : sweep_word 7 5 = Z.land 7 5.
Proof. apply (sweep_word_land 7 5). unfold UINT64_MAX. lia. Defined.

(** The mark phase returns on every heap, circular lists included: a list is
    entered only when its bit of the reachability bitmap is clear, and the bit
    is set before its elements are visited. *)
Theorem context_mark_returns (ctx : context) :
  ref_covers ctx ->
  exists ctx', context_mark ctx = Some ctx'
    /\ tbl (list_pool ctx') = tbl (list_pool ctx)
    /\ length (ref (list_pool ctx')) = length (ref (list_pool ctx))
    /\ lex_stk ctx' = lex_stk ctx.
Proof.
  intros Hcov. unfold context_mark.
  destruct (mark_roots_total (tbl (list_pool ctx)) (gc_roots ctx)
              (ref (str_pool ctx)) (ref (list_pool ctx)) Hcov) as (s & l & E & Hl & _).
  rewrite E. eexists. split; [reflexivity|]. cbn. repeat split. exact Hl.
Qed.

Lemma context_mark_returns_witness :
  exists ctx', context_mark gc_ctx = Some ctx'
    /\ tbl (list_pool ctx') = tbl (list_pool gc_ctx)
    /\ length (ref (list_pool ctx')) = length (ref (list_pool gc_ctx))
    /\ lex_stk ctx' = lex_stk gc_ctx.
Proof. apply (context_mark_returns gc_ctx). unfold ref_covers. vm_compute. lia. Defined.

Example gc_frees_garbage :
  exists ctx', context_gc gc_ctx = Some ctx'
    /\ aloc (str_pool ctx') = [2] /\ aloc (list_pool ctx') = [3]
    /\ ref (str_pool ctx') = [2] /\ ref (list_pool ctx') = [3].
Proof. eexists. split; [vm_compute; reflexivity|]. repeat split. Qed.

Lemma gc_ctx_reach_str : reach (tbl (list_pool gc_ctx)) (gc_roots gc_ctx) (str_val 1).
Proof.
  apply (reach_elem _ _ (list_val 0)).
  - apply (reach_root _ _ (list_val 0 :: replicate 255 SINK_NIL)).
    + right. left. reflexivity.
    + left. reflexivity.
  - reflexivity.
  - left. reflexivity.
Defined.

Lemma gc_ctx_shape : gc_shape gc_ctx.
Proof. unfold gc_shape. vm_compute. split; [lia|discriminate]. Defined.

Lemma context_gc_keeps_reachable_witness :
  exists ctx', context_gc gc_ctx = Some ctx'
    /\ ((sink_isstr (str_val 1) = true ->
         bmp_bit (aloc (str_pool ctx')) (var_index (str_val 1))
         = bmp_bit (aloc (str_pool gc_ctx)) (var_index (str_val 1)))
        /\ (sink_islist (str_val 1) = true ->
            bmp_bit (aloc (list_pool ctx')) (var_index (str_val 1))
            = bmp_bit (aloc (list_pool gc_ctx)) (var_index (str_val 1)))
        /\ tbl (str_pool ctx') = tbl (str_pool gc_ctx)
        /\ tbl (list_pool ctx') = tbl (list_pool gc_ctx)).
Proof.
  eexists. split; [vm_compute; reflexivity|].
  apply (context_gc_keeps_reachable gc_ctx _ (str_val 1));
    [exact gc_ctx_shape|vm_compute; reflexivity|exact gc_ctx_reach_str].
Defined.

Lemma context_gc_frees_unreachable_witness :
  exists ctx', context_gc gc_ctx = Some ctx' /\ bmp_bit (aloc (list_pool ctx')) 2 = false.
Proof.
  eexists. split; [vm_compute; reflexivity|].
  apply (context_gc_frees_unreachable gc_ctx _ 2);
    [exact gc_ctx_shape|vm_compute; reflexivity|lia|unfold in_words; vm_compute; lia|].
  intros v Hr. induction Hr as [vs v Hvs Hv|l e Hl IH Hlist He]; intros Hv2 Heq.
  - destruct Hvs as [<-|[<-|[]]]; [destruct Hv|].
    destruct Hv as [<-|Hv]; [vm_compute in Heq; discriminate|].
    apply list_elem_of_In, elem_of_replicate in Hv. destruct Hv as [-> _].
    vm_compute in Hv2. discriminate.
  - assert (Hl01 : var_index l = 0 \/ var_index l = 1).
    { pose proof (var_index_nonneg l) as H0.
      destruct (Z.eq_dec (var_index l) 0) as [E0|N0]; [left; exact E0|].
      destruct (Z.eq_dec (var_index l) 1) as [E1|N1]; [right; exact E1|].
      destruct (Z.eq_dec (var_index l) 2) as [E2|N2]; [exfalso; exact (IH Hlist E2)|].
      exfalso.
      assert (Hn : exists n, Z.to_nat (var_index l) = S (S (S n))).
      { exists (Z.to_nat (var_index l) - 3)%nat. lia. }
      destruct Hn as [n Hn]. rewrite Hn in He. cbn [gc_ctx list_pool tbl nth] in He.
      destruct (nth_in_or_default n (replicate 61 empty_list) empty_list) as [Hx|Hx].
      - apply list_elem_of_In, elem_of_replicate in Hx. destruct Hx as [Hx _].
        rewrite Hx in He. destruct He.
      - rewrite Hx in He. destruct He. }
    destruct Hl01 as [E|E]; rewrite E in He; cbn in He.
    + destruct He as [<-|[<-|[]]]; vm_compute in Hv2; vm_compute in Heq; discriminate.
    + destruct He as [<-|[]]. vm_compute in Heq. discriminate.
Defined.

End GcFacts.
(** ** A second collection *)

Module GcAgainFacts.
Import Pool Ctx Gc PoolFacts CtxFacts GcFacts.

Lemma memset0_all_zero (w : list Z) n : (length w <= Z.to_nat n)%nat ->
  memset0 w 0 n = replicate (length w) 0.
Proof.
  intros H. unfold memset0. change (Z.to_nat 0) with 0%nat.
  rewrite take_0, drop_ge, app_nil_r by lia. cbn [app]. f_equal. lia.
Qed.

Lemma context_gc_roots ctx ctx' : context_gc ctx = Some ctx' ->
  pinned ctx' = pinned ctx /\ str_prealloc_memset ctx' = str_prealloc_memset ctx
  /\ str_prealloc_lastmask ctx' = str_prealloc_lastmask ctx.
Proof.
  unfold context_gc, context_mark. intros H.
  destruct (mark_roots _ _ _) as [[sref lref]|]; [|discriminate].
  apply some_eq in H. subst ctx'. unfold context_gcleft.
  cbn [gc_level context_sweep with_list_pool with_str_pool context_clearref].
  destruct (gc_level ctx); repeat split.
Qed.

Lemma sweep_word_idem aw rw : sweep_word (sweep_word aw rw) rw = sweep_word aw rw.
Proof.
  apply Z.bits_inj'. intros j Hj. rewrite !sweep_word_spec by exact Hj.
  destruct (j <? 64); [|reflexivity].
  destruct (Z.testbit aw j), (Z.testbit rw j); reflexivity.
Qed.

Lemma sweephelp_idem ms : forall aloc ref,
  context_sweephelp ms (context_sweephelp ms aloc ref) ref = context_sweephelp ms aloc ref.
Proof.
  induction ms as [|ms IH]; intros aloc ref; [reflexivity|].
  destruct aloc as [|aw al]; [reflexivity|]. destruct ref as [|rw rl]; [reflexivity|].
  cbn [context_sweephelp]. rewrite sweep_word_idem, IH. reflexivity.
Qed.

(** The reachability bitmaps [context_clearref] leaves depend on the old ones
    through their lengths alone, when [size / 64] words cover them. *)
Lemma clearref_refs ctx ctx' :
  Z.of_nat (length (ref (str_pool ctx))) <= Z.quot (size (str_pool ctx)) 64 ->
  Z.of_nat (length (ref (list_pool ctx))) <= Z.quot (size (list_pool ctx)) 64 ->
  size (str_pool ctx') = size (str_pool ctx) ->
  size (list_pool ctx') = size (list_pool ctx) ->
  length (ref (str_pool ctx')) = length (ref (str_pool ctx)) ->
  length (ref (list_pool ctx')) = length (ref (list_pool ctx)) ->
  str_prealloc_memset ctx' = str_prealloc_memset ctx ->
  str_prealloc_lastmask ctx' = str_prealloc_lastmask ctx ->
  ref (str_pool (context_clearref ctx')) = ref (str_pool (context_clearref ctx))
  /\ ref (list_pool (context_clearref ctx')) = ref (list_pool (context_clearref ctx)).
Proof.
  intros Hs Hl Ss Sl Ls Ll Pm Pl. unfold context_clearref.
  cbn [str_pool list_pool with_str_pool with_list_pool ref].
  rewrite Ss, Sl, Pm, Pl.
  rewrite !memset0_all_zero by lia. rewrite Ls, Ll. split; reflexivity.
Qed.

(** A collection right after a collection frees nothing: the second one
    returns, and it leaves both pools, tables and bitmaps, as the first one
    left them. *)
Theorem context_gc_twice (ctx ctx1 : context) :
  gc_shape ctx ->
  Z.of_nat (length (ref (str_pool ctx))) <= Z.quot (size (str_pool ctx)) 64 ->
  context_gc ctx = Some ctx1 ->
  exists ctx2, context_gc ctx1 = Some ctx2
    /\ str_pool ctx2 = str_pool ctx1 /\ list_pool ctx2 = list_pool ctx1.
Proof.
  intros [Hcov Hl] Hs H1.
  destruct (context_gc_pools ctx ctx1 H1) as (sref & lref & Hm & Es & El).
  destruct (context_gc_roots ctx ctx1 H1) as (Rp & Rm & Rl).
  pose proof (context_gc_fields ctx ctx1 H1) as F.
  assert (Rx : lex_stk ctx1 = lex_stk ctx) by (apply F).
  pose proof (mark_roots_sound _ _ _ _ Hm) as ((Ls & Ll & _) & _). cbn [fst snd] in Ls, Ll.
  assert (Hlen_s : length (ref (str_pool (context_clearref ctx))) = length (ref (str_pool ctx))).
  { unfold context_clearref. cbn [str_pool with_str_pool ref].
    rewrite length_insert. destruct (0 <? str_prealloc_memset ctx).
    - unfold memset_ones. rewrite length_app, length_replicate, length_drop, length_memset0_all.
      lia.
    - apply length_memset0_all. }
  assert (Hlen_l : length (ref (list_pool (context_clearref ctx)))
                   = length (ref (list_pool ctx))).
  { unfold context_clearref. cbn [list_pool with_str_pool with_list_pool ref].
    apply length_memset0_all. }
  assert (Hcov1 : ref_covers ctx1).
  { unfold ref_covers. rewrite El. cbn [sweep_pool tbl ref]. rewrite Ll, Hlen_l. exact Hcov. }
  destruct (context_gc_total ctx1 Hcov1) as [ctx2 H2].
  exists ctx2. split; [exact H2|].
  destruct (context_gc_pools ctx1 ctx2 H2) as (sref2 & lref2 & Hm2 & Es2 & El2).
  destruct (clearref_refs ctx ctx1 Hs Hl) as [Cs Cl].
  { rewrite Es. reflexivity. }
  { rewrite El. reflexivity. }
  { rewrite Es. cbn [sweep_pool ref]. rewrite Ls. exact Hlen_s. }
  { rewrite El. cbn [sweep_pool ref]. rewrite Ll. exact Hlen_l. }
  { exact Rm. }
  { exact Rl. }
  assert (Hsame : Some (sref2, lref2) = Some (sref, lref)).
  { rewrite <- Hm2, <- Hm, Cs, Cl. unfold gc_roots. rewrite Rp, Rx, El. reflexivity. }
  apply some_eq in Hsame. injection Hsame as -> ->.
  rewrite Es2, El2, Es, El. unfold sweep_pool. cbn [tbl size aloc ref].
  rewrite !sweephelp_idem. split; reflexivity.
Qed.

Lemma context_gc_twice_witness :
  exists ctx2, context_gc
                 (with_ticks (with_list_pool (with_str_pool gc_ctx
                    (mkPool (replicate 64 []) 64 [2] [2]))
                    (mkPool (tbl (list_pool gc_ctx)) 64 [3] [3])) 0 10000) = Some ctx2
    /\ str_pool ctx2 = mkPool (replicate 64 []) 64 [2] [2]
    /\ list_pool ctx2 = mkPool (tbl (list_pool gc_ctx)) 64 [3] [3].
Proof.
  apply (context_gc_twice gc_ctx).
  - split; [vm_compute; lia|vm_compute; discriminate].
  - vm_compute. discriminate.
  - vm_compute. reflexivity.
Defined.

End GcAgainFacts.
(** ** Reading pickled values back *)

Module UnpickleFacts.
Import Pool Ctx Order Vm Pickle Unpickle GcFacts.

Example fmjson_string_escapes :
  pk_fmjson_string (json_string [ch "a"; 10; DQUOTE; 200] ++ [ch ","])
  = Some ([ch "a"; 10; DQUOTE; 200], [ch ","]).
Proof. reflexivity. Qed.

Example fmjson_string_short_escape :
  pk_fmjson_string [DQUOTE; ch "\"; ch "u"; ch "0"; ch "0"; ch "4"; DQUOTE] = None.
Proof. reflexivity. Qed.

(** *** Hexadecimal digits *)

Lemma toNibble_cases n : 0 <= n < 16 ->
  (n <= 9 /\ toNibble n = 48 + n) \/ (10 <= n /\ toNibble n = 55 + n).
Proof.
  intros Hn. unfold toNibble. change (ch "0") with 48. change (ch "A") with 65.
  destruct (Z.leb_spec 0 n); [|lia].
  destruct (Z.leb_spec n 9); cbn [andb]; [left; lia|].
  destruct (Z.ltb_spec n 16); [right; lia|lia].
Qed.

Lemma isHex_toNibble n : 0 <= n < 16 -> isHex (toNibble n) = true.
Proof.
  intros Hn. unfold isHex, isNum. change (ch "0") with 48. change (ch "9") with 57.
  change (ch "a") with 97. change (ch "f") with 102.
  change (ch "A") with 65. change (ch "F") with 70.
  destruct (toNibble_cases n Hn) as [[H ->]|[H ->]].
  - replace (48 <=? 48 + n) with true by (symmetry; apply Z.leb_le; lia).
    replace (48 + n <=? 57) with true by (symmetry; apply Z.leb_le; lia).
    reflexivity.
  - replace (65 <=? 55 + n) with true by (symmetry; apply Z.leb_le; lia).
    replace (55 + n <=? 70) with true by (symmetry; apply Z.leb_le; lia).
    cbn [andb]. apply orb_true_r.
Qed.

Lemma toHex_toNibble n : 0 <= n < 16 -> toHex (toNibble n) = n.
Proof.
  intros Hn. unfold toHex, isNum. change (ch "0") with 48. change (ch "9") with 57.
  change (ch "a") with 97.
  destruct (toNibble_cases n Hn) as [[H ->]|[H ->]].
  - replace (48 <=? 48 + n) with true by (symmetry; apply Z.leb_le; lia).
    replace (48 + n <=? 57) with true by (symmetry; apply Z.leb_le; lia).
    cbn [andb]. lia.
  - replace (55 + n <=? 57) with false by (symmetry; apply Z.leb_gt; lia).
    rewrite andb_false_r.
    replace (97 <=? 55 + n) with false by (symmetry; apply Z.leb_gt; lia).
    lia.
Qed.

Lemma land_15_range x : 0 <= Z.land x 0x0F < 16.
Proof.
  change 0x0F with (Z.ones 4). rewrite Z.land_ones by lia.
  apply Z.mod_pos_bound. reflexivity.
Qed.

(** *** What [pk_isjson] makes of a string written by [pk_tojson] *)

Lemma isjson_loop_step b rest st ar st' ar' :
  pk_isjson_step st ar b (hd 0 rest) = Some (st', ar', false) ->
  pk_isjson_loop (b :: rest) st ar = pk_isjson_loop rest st' ar'.
Proof.
  intros H. cbn [pk_isjson_loop].
  change (match rest with [] => 0 | c :: _ => c end) with (hd 0 rest).
  rewrite H. reflexivity.
Qed.

Lemma isjson_escape b T :
  pk_isjson_loop (json_escape b ++ T) PKV_STR 0 = pk_isjson_loop T PKV_STR 0.
Proof.
  unfold json_escape.
  destruct ((b =? DQUOTE) || (b =? ch "\")) eqn:E1.
  { apply orb_true_iff in E1 as [E|E]; apply Z.eqb_eq in E; subst b; reflexivity. }
  destruct (Z.eqb_spec b 8) as [->|N1]; [reflexivity|].
  destruct (Z.eqb_spec b 12) as [->|N2]; [reflexivity|].
  destruct (Z.eqb_spec b 10) as [->|N3]; [reflexivity|].
  destruct (Z.eqb_spec b 13) as [->|N4]; [reflexivity|].
  destruct (Z.eqb_spec b 9) as [->|N5]; [reflexivity|].
  destruct ((b <? 32) || (128 <=? b)) eqn:E2.
  - pose proof (isHex_toNibble _ (land_15_range (Z.shiftr b 4))) as HX.
    pose proof (isHex_toNibble _ (land_15_range b)) as HY.
    set (X := toNibble (Z.land (Z.shiftr b 4) 15)) in *.
    set (Y := toNibble (Z.land b 15)) in *.
    cbn [app].
    rewrite (isjson_loop_step _ _ _ _ PKV_STR_ESC 0) by reflexivity.
    rewrite (isjson_loop_step _ _ _ _ PKV_STR_U1 0) by reflexivity.
    rewrite (isjson_loop_step _ _ _ _ PKV_STR_U2 0) by reflexivity.
    rewrite (isjson_loop_step _ _ _ _ PKV_STR_U3 0)
      by (cbn [pk_isjson_step hd]; rewrite HX; reflexivity).
    rewrite (isjson_loop_step _ _ _ _ PKV_STR_U4 0)
      by (cbn [pk_isjson_step hd]; rewrite HY; reflexivity).
    apply isjson_loop_step. reflexivity.
  - apply orb_false_iff in E1 as [Q1 Q2]. apply orb_false_iff in E2 as [Q3 _].
    cbn [app]. apply isjson_loop_step. cbn [pk_isjson_step].
    change (ch " ") with 32. rewrite Q1, Q2, Q3. reflexivity.
Qed.

Lemma isjson_string_body src :
  pk_isjson_loop (concat (map json_escape src) ++ [DQUOTE]) PKV_STR 0 = true.
Proof.
  induction src as [|b src IH]; [reflexivity|].
  cbn [map concat]. rewrite <- app_assoc, isjson_escape. exact IH.
Qed.

(** Whatever the bytes of a string, the text [pk_tojson] writes for it is
    accepted by [pk_isjson]. *)
Lemma pk_isjson_json_string (src : list Z) : pk_isjson (json_string src) = true.
Proof.
  unfold pk_isjson, json_string.
  rewrite (isjson_loop_step _ _ _ _ PKV_STR 0) by reflexivity.
  apply isjson_string_body.
Qed.

(** *** Reading a written string back *)

Lemma lor_shiftl_add a b k : 0 <= k -> 0 <= a < 2 ^ k -> 0 <= b ->
  Z.lor a (Z.shiftl b k) = a + b * 2 ^ k.
Proof.
  intros Hk Ha Hb.
  assert (Hd : Z.land a (Z.shiftl b k) = 0).
  { apply Z.bits_inj'. intros n Hn. rewrite Z.land_spec, Z.bits_0.
    destruct (Z_lt_ge_dec n k) as [Hlt|Hge].
    - rewrite Z.shiftl_spec_low by lia. apply andb_false_r.
    - replace a with (a mod 2 ^ k) by (apply Z.mod_small; lia).
      rewrite Z.mod_pow2_bits_high by lia. reflexivity. }
  rewrite <- Z.lxor_lor by exact Hd. rewrite <- Z.add_nocarry_lxor by exact Hd.
  rewrite Z.shiftl_mul_pow2 by lia. reflexivity.
Qed.

Lemma land_ones_mod a k : 0 <= k -> Z.land a (Z.ones k) = a mod 2 ^ k.
Proof. intros Hk. apply Z.land_ones. exact Hk. Qed.

Lemma byte_of_nibbles b : 0 <= b < 256 ->
  uint8 (Z.lor (Z.shiftl (toHex (toNibble (Z.land (Z.shiftr b 4) 0x0F))) 4)
               (toHex (toNibble (Z.land b 0x0F)))) = b.
Proof.
  intros Hb. rewrite !toHex_toNibble by apply land_15_range.
  change 0x0F with (Z.ones 4). rewrite !land_ones_mod by lia.
  rewrite Z.shiftr_div_pow2 by lia.
  rewrite Z.lor_comm, lor_shiftl_add; [| lia | apply Z.mod_pos_bound; lia
                                        | apply Z.mod_pos_bound; lia ].
  unfold uint8. change (2 ^ 4) with 16. change (2 ^ 8) with 256.
  Z.div_mod_to_equations. lia.
Qed.

Lemma fmjson_escape b T str : 0 <= b < 256 ->
  fmjson_str (json_escape b ++ T) str = fmjson_str T (str ++ [b]).
Proof.
  intros Hb. unfold json_escape.
  destruct ((b =? DQUOTE) || (b =? ch "\")) eqn:E1.
  { apply orb_true_iff in E1 as [E|E]; apply Z.eqb_eq in E; subst b; reflexivity. }
  destruct (Z.eqb_spec b 8) as [->|N1]; [reflexivity|].
  destruct (Z.eqb_spec b 12) as [->|N2]; [reflexivity|].
  destruct (Z.eqb_spec b 10) as [->|N3]; [reflexivity|].
  destruct (Z.eqb_spec b 13) as [->|N4]; [reflexivity|].
  destruct (Z.eqb_spec b 9) as [->|N5]; [reflexivity|].
  destruct ((b <? 32) || (128 <=? b)) eqn:E2.
  - pose proof (isHex_toNibble _ (land_15_range (Z.shiftr b 4))) as HX.
    pose proof (isHex_toNibble _ (land_15_range b)) as HY.
    pose proof (byte_of_nibbles b Hb) as HB.
    set (X := toNibble (Z.land (Z.shiftr b 4) 15)) in *.
    set (Y := toNibble (Z.land b 15)) in *.
    cbn [app fmjson_str].
    change (ch "\" =? DQUOTE) with false. change (ch "\" =? ch "\") with true.
    change (ch "u" =? DQUOTE) with false. change (ch "u" =? ch "\") with false.
    change (ch "u" =? ch "b") with false. change (ch "u" =? ch "f") with false.
    change (ch "u" =? ch "n") with false. change (ch "u" =? ch "r") with false.
    change (ch "u" =? ch "t") with false. change (ch "u" =? ch "u") with true.
    change (ch "0" =? ch "0") with true.
    cbn [orb negb]. rewrite HX, HY. cbn [orb negb]. rewrite HB. reflexivity.
  - apply orb_false_iff in E1 as [Q1 Q2]. apply orb_false_iff in E2 as [Q3 _].
    cbn [app fmjson_str]. rewrite Q1, Q2, Q3. reflexivity.
Qed.

Lemma fmjson_str_body src : forall str rest, is_bytes src ->
  fmjson_str (concat (map json_escape src) ++ DQUOTE :: rest) str = Some (str ++ src, rest).
Proof.
  induction src as [|b src IH]; intros str rest Hs.
  - cbn [map concat app fmjson_str]. change (DQUOTE =? DQUOTE) with true.
    rewrite app_nil_r. reflexivity.
  - apply Forall_cons in Hs as [Hb Hs].
    cbn [map concat]. rewrite <- app_assoc, fmjson_escape by exact Hb.
    rewrite IH by exact Hs. rewrite <- app_assoc. reflexivity.
Qed.

(** The string branch of [pk_fmjson] reads back the bytes of every string
    from the text [pk_tojson] writes for it, and stops after the closing
    quote. *)
Theorem fmjson_reads_json_string (src rest : list Z) :
  is_bytes src -> pk_fmjson_string (json_string src ++ rest) = Some (src, rest).
Proof.
  intros Hs. unfold json_string. cbn [app pk_fmjson_string].
  change (isSpace DQUOTE) with false. change (DQUOTE =? DQUOTE) with true.
  cbn [negb]. rewrite <- app_assoc. cbn [app].
  apply (fmjson_str_body src [] rest Hs).
Qed.

Lemma fmjson_reads_json_string_witness :
  pk_fmjson_string (json_string [ch "a"; 7; 255; DQUOTE] ++ [ch "]"])
  = Some ([ch "a"; 7; 255; DQUOTE], [ch "]"]).
Proof.
  apply (fmjson_reads_json_string [ch "a"; 7; 255; DQUOTE] [ch "]"]).
  repeat constructor; vm_compute; discriminate.
Defined.

(** *** The size of the buffer *)

Lemma json_escape_width b : Z.of_nat (length (json_escape b)) = json_width b.
Proof.
  unfold json_escape, json_width.
  destruct (b =? DQUOTE), (b =? ch "\"), (b =? 8), (b =? 12), (b =? 10), (b =? 13),
    (b =? 9), ((b <? 32) || (128 <=? b)); reflexivity.
Qed.

Lemma json_tot_loop_spec src : forall tot,
  json_tot_loop src tot = tot + Z.of_nat (length (concat (map json_escape src))).
Proof.
  induction src as [|b src IH]; intros tot; cbn [json_tot_loop map concat length].
  - lia.
  - rewrite IH, length_app, <- json_escape_width. lia.
Qed.

(** The text [pk_tojson] writes for a string has exactly the size computed
    beforehand, which is the size of the buffer less the byte kept for the
    final NUL: the rendering loop never writes outside the buffer. *)
Theorem json_string_fills_buffer (src : list Z) : str_size (json_string src) = json_tot src.
Proof.
  unfold str_size, json_string, json_tot. rewrite json_tot_loop_spec.
  cbn [length]. rewrite length_app. cbn [length]. lia.
Qed.

(** *** Sizes and indices of the binary format *)

Lemma bytes_all (P : Z -> bool) :
  forallb P (map Z.of_nat (seq 0 256)) = true -> forall y, 0 <= y < 256 -> P y = true.
Proof.
  intros H y Hy. rewrite forallb_forall in H. apply H.
  apply in_map_iff. exists (Z.to_nat y). split; [lia|]. apply in_seq. lia.
Qed.

Lemma lor_128 y : 0 <= y < 256 -> Z.lor 0x80 y = 128 + y mod 128.
Proof.
  intros Hy. apply Z.eqb_eq.
  apply (bytes_all (fun y => Z.lor 0x80 y =? 128 + y mod 128)); [reflexivity|exact Hy].
Qed.

Lemma lxor_128 y : 0 <= y < 128 -> Z.lxor (128 + y) 0x80 = y.
Proof.
  intros Hy. apply Z.eqb_eq.
  pose proof (bytes_all (fun y => (128 <=? y) || (Z.lxor (128 + y) 0x80 =? y))
                ltac:(reflexivity) y ltac:(lia)) as H. cbv beta in H.
  apply orb_true_iff in H as [H|H]; [apply Z.leb_le in H; lia|exact H].
Qed.

Lemma lor_add a b k : 0 <= k -> 0 <= b < 2 ^ k -> 0 <= a -> a mod 2 ^ k = 0 ->
  Z.lor a b = a + b.
Proof.
  intros Hk Hb Ha Hm.
  assert (E : a = a / 2 ^ k * 2 ^ k).
  { pose proof (Z.div_mod a (2 ^ k) ltac:(lia)). lia. }
  rewrite E at 1. rewrite <- Z.shiftl_mul_pow2 by lia.
  rewrite Z.lor_comm, lor_shiftl_add; [lia|lia|lia|].
  apply Z.div_pos; lia.
Qed.

Lemma uint8_byte i k : 0 <= k ->
  uint8 (Z.land (Z.shiftr i k) 0xFF) = (i / 2 ^ k) mod 256.
Proof.
  intros Hk. unfold uint8. change 0xFF with (Z.ones 8).
  rewrite land_ones_mod, Z.shiftr_div_pow2 by lia.
  change (2 ^ 8) with 256. apply Z.mod_mod. lia.
Qed.

Lemma uint8_low i : uint8 (Z.land i 0xFF) = i mod 256.
Proof.
  unfold uint8. change 0xFF with (Z.ones 8). rewrite land_ones_mod by lia.
  change (2 ^ 8) with 256. apply Z.mod_mod. lia.
Qed.

Lemma bytes_le32 b0 b1 b2 b3 :
  0 <= b0 < 256 -> 0 <= b1 < 256 -> 0 <= b2 < 256 -> 0 <= b3 < 256 ->
  Z.lor (Z.lor (Z.lor b0 (Z.shiftl b1 8)) (Z.shiftl b2 16)) (Z.shiftl b3 24)
  = b0 + 256 * b1 + 65536 * b2 + 16777216 * b3.
Proof.
  intros H0 H1 H2 H3.
  change (2 ^ 8) with 256 in *.
  rewrite (lor_shiftl_add b0 b1 8) by (change (2 ^ 8) with 256; lia).
  rewrite (lor_shiftl_add _ b2 16)
    by (change (2 ^ 8) with 256; change (2 ^ 16) with 65536; lia).
  rewrite (lor_shiftl_add _ b3 24)
    by (change (2 ^ 8) with 256; change (2 ^ 16) with 65536;
        change (2 ^ 24) with 16777216; lia).
  change (2 ^ 8) with 256; change (2 ^ 16) with 65536; change (2 ^ 24) with 16777216.
  lia.
Qed.

(** A count written by [pk_tobin_vint] is read back by [pk_fmbin_vint]
    without its bit 31, and the reader stops after it: counts below
    2147483648 survive; a larger one loses 2147483648, the top bit of the
    first byte being the mark of the four-byte form. *)
Theorem vint_round_trip (i : Z) (rest : list Z) :
  0 <= i < 2 ^ 32 ->
  pk_fmbin_vint (pk_tobin_vint i ++ rest) = Some (i mod 2 ^ 31, rest).
Proof.
  intros Hi. unfold pk_tobin_vint. destruct (Z.ltb_spec i 128) as [Hs|Hb].
  - cbn [app pk_fmbin_vint]. unfold uint8. rewrite Z.mod_small by lia.
    replace (i <? 128) with true by (symmetry; apply Z.ltb_lt; lia).
    rewrite Z.mod_small by lia. reflexivity.
  - rewrite !uint8_byte, uint8_low by lia.
    set (y := Z.shiftr i 24).
    assert (Hy : 0 <= y < 256).
    { subst y. rewrite Z.shiftr_div_pow2 by lia. change (2 ^ 24) with 16777216.
      change (2 ^ 32) with 4294967296 in Hi. Z.div_mod_to_equations. lia. }
    rewrite (lor_128 y Hy).
    assert (Hv : uint8 (128 + y mod 128) = 128 + y mod 128).
    { unfold uint8. apply Z.mod_small. change (2 ^ 8) with 256.
      Z.div_mod_to_equations. lia. }
    rewrite Hv. cbn [app pk_fmbin_vint].
    replace (128 + y mod 128 <? 128) with false
      by (symmetry; apply Z.ltb_ge; Z.div_mod_to_equations; lia).
    rewrite lxor_128 by (apply Z.mod_pos_bound; lia).
    f_equal. f_equal.
    assert (Hrel : (i mod 256) + 256 * ((i / 2 ^ 8) mod 256)
                   + 65536 * ((i / 2 ^ 16) mod 256) + 16777216 * (y mod 128)
                   = i mod 2 ^ 31).
    { subst y. rewrite Z.shiftr_div_pow2 by lia.
      change (2 ^ 8) with 256. change (2 ^ 16) with 65536.
      change (2 ^ 24) with 16777216. change (2 ^ 31) with 2147483648.
      change (2 ^ 32) with 4294967296 in Hi. Z.div_mod_to_equations. lia. }
    pose proof (Z.mod_pos_bound i 256 ltac:(lia)) as B0.
    pose proof (Z.mod_pos_bound (i / 2 ^ 8) 256 ltac:(lia)) as B1.
    pose proof (Z.mod_pos_bound (i / 2 ^ 16) 256 ltac:(lia)) as B2.
    pose proof (Z.mod_pos_bound y 128 ltac:(lia)) as B3.
    set (c0 := i mod 256) in *. set (c1 := (i / 2 ^ 8) mod 256) in *.
    set (c2 := (i / 2 ^ 16) mod 256) in *. set (c3 := y mod 128) in *.
    clearbody c0 c1 c2 c3. rewrite <- Hrel. clear Hrel.
    rewrite !Z.shiftl_mul_pow2 by lia.
    change (2 ^ 8) with 256. change (2 ^ 16) with 65536. change (2 ^ 24) with 16777216.
    unfold uint32. change (2 ^ 32) with 4294967296.
    rewrite (Z.mod_small (c3 * 16777216)), (Z.mod_small (c2 * 65536)),
      (Z.mod_small (c1 * 256)) by lia.
    rewrite (lor_add (c3 * 16777216) (c2 * 65536) 24)
      by (change (2 ^ 24) with 16777216; try lia; Z.div_mod_to_equations; lia).
    rewrite (lor_add _ (c1 * 256) 16)
      by (change (2 ^ 16) with 65536; try lia; Z.div_mod_to_equations; lia).
    rewrite (lor_add _ c0 8)
      by (change (2 ^ 8) with 256; try lia; Z.div_mod_to_equations; lia).
    rewrite Z.mod_small by lia. lia.
Qed.

Lemma vint_round_trip_witness :
  pk_fmbin_vint (pk_tobin_vint 70000 ++ [0xF7]) = Some (70000 mod 2 ^ 31, [0xF7]).
Proof. apply (vint_round_trip 70000 [0xF7]). split; [discriminate|reflexivity]. Defined.

Example vint_loses_top_bit :
  pk_fmbin_vint (pk_tobin_vint (2 ^ 31 + 5)) = Some (5, []).
Proof. reflexivity. Qed.


(** *** Numbers of the binary format *)

Lemma fmbin_F0 b r : pk_fmbin_num (0xF0 :: b :: r) = FmOk (sink_num_int b) r.
Proof. reflexivity. Qed.

Lemma fmbin_F1 b r : pk_fmbin_num (0xF1 :: b :: r) = FmOk (sink_num_int (b - 256)) r.
Proof. reflexivity. Qed.

Lemma fmbin_F2 b0 b1 r :
  pk_fmbin_num (0xF2 :: b0 :: b1 :: r) = FmOk (sink_num_int (Z.lor b0 (Z.shiftl b1 8))) r.
Proof. reflexivity. Qed.

Lemma fmbin_F3 b0 b1 r :
  pk_fmbin_num (0xF3 :: b0 :: b1 :: r)
  = FmOk (sink_num_int (Z.lor b0 (Z.shiftl b1 8) - 65536)) r.
Proof. reflexivity. Qed.

Lemma fmbin_F4 b0 b1 b2 b3 r :
  pk_fmbin_num (0xF4 :: b0 :: b1 :: b2 :: b3 :: r)
  = if 128 <=? b3 then FmUndefined
    else FmOk (sink_num_int (Z.lor (Z.lor (Z.lor b0 (Z.shiftl b1 8)) (Z.shiftl b2 16))
                                   (Z.shiftl b3 24))) r.
Proof. reflexivity. Qed.

Lemma fmbin_F5 b0 b1 b2 b3 r :
  pk_fmbin_num (0xF5 :: b0 :: b1 :: b2 :: b3 :: r)
  = FmOk (sink_num_int
            (uint32 (Z.lor (Z.lor (Z.lor b0 (Z.shiftl b1 8)) (Z.shiftl b2 16))
                           (Z.shiftl b3 24)) - 4294967296)) r.
Proof. reflexivity. Qed.

Lemma uint8_small b : 0 <= b < 256 -> uint8 b = b.
Proof. intros H. apply Z.mod_small. exact H. Qed.

Lemma word_bytes n : 0 <= n < 4294967296 ->
  n mod 256 + 256 * ((n / 2 ^ 8) mod 256) + 65536 * ((n / 2 ^ 16) mod 256)
  + 16777216 * ((n / 2 ^ 24) mod 256) = n.
Proof.
  intros Hn. change (2 ^ 8) with 256. change (2 ^ 16) with 65536.
  change (2 ^ 24) with 16777216. Z.div_mod_to_equations. lia.
Qed.

Lemma half_bytes n : 0 <= n < 65536 ->
  Z.lor (uint8 (Z.land n 0xFF)) (Z.shiftl (uint8 (Z.shiftr n 8)) 8) = n.
Proof.
  intros Hn. rewrite uint8_low. rewrite Z.shiftr_div_pow2 by lia.
  change (2 ^ 8) with 256.
  rewrite (uint8_small (n / 256)) by (Z.div_mod_to_equations; lia).
  rewrite lor_shiftl_add
    by (change (2 ^ 8) with 256; try lia; Z.div_mod_to_equations; lia).
  change (2 ^ 8) with 256. Z.div_mod_to_equations. lia.
Qed.

Lemma word_of_bytes n : 0 <= n < 4294967296 ->
  Z.lor (Z.lor (Z.lor (uint8 (Z.land n 0xFF))
                      (Z.shiftl (uint8 (Z.land (Z.shiftr n 8) 0xFF)) 8))
               (Z.shiftl (uint8 (Z.land (Z.shiftr n 16) 0xFF)) 16))
        (Z.shiftl (uint8 (Z.land (Z.shiftr n 24) 0xFF)) 24) = n.
Proof.
  intros Hn. rewrite uint8_low, !uint8_byte by lia.
  rewrite bytes_le32 by (apply Z.mod_pos_bound; lia).
  apply word_bytes. exact Hn.
Qed.

(** The integers of the binary format: every [num] from -4294967296 to
    2147483647 is read back. *)
Lemma fmbin_tobin_int num rest : -4294967296 <= num < 2147483648 ->
  pk_fmbin_num (pk_tobin_int num ++ rest) = FmOk (sink_num_int num) rest.
Proof.
  intros Hn. unfold pk_tobin_int.
  destruct (Z.ltb_spec num 0) as [Hneg|Hpos].
  - destruct (Z.leb_spec (-256) num) as [H1|H1]; cbv zeta; cbn [app].
    + rewrite fmbin_F1, uint8_low, Z.mod_small by lia. do 2 f_equal. lia.
    + destruct (Z.leb_spec (-65536) num) as [H2|H2]; cbn [app].
      * rewrite fmbin_F3, half_bytes by lia. do 2 f_equal. lia.
      * rewrite fmbin_F5, word_of_bytes by lia.
        unfold uint32. rewrite Z.mod_small by (change (2 ^ 32) with 4294967296; lia).
        do 2 f_equal. lia.
  - destruct (Z.ltb_spec num 256) as [H1|H1]; cbn [app].
    + rewrite fmbin_F0, uint8_low, Z.mod_small by lia. reflexivity.
    + destruct (Z.ltb_spec num 65536) as [H2|H2]; cbn [app].
      * rewrite fmbin_F2, half_bytes by lia. reflexivity.
      * rewrite fmbin_F4, word_of_bytes by lia.
        rewrite uint8_byte by lia.
        replace (128 <=? (num / 2 ^ 24) mod 256) with false; [reflexivity|].
        symmetry. apply Z.leb_gt. change (2 ^ 24) with 16777216.
        Z.div_mod_to_equations. lia.
Qed.

Lemma fmbin_tobin_high num rest : 2147483648 <= num < 4294967296 ->
  pk_fmbin_num (pk_tobin_int num ++ rest) = FmUndefined.
Proof.
  intros Hn. unfold pk_tobin_int.
  replace (num <? 0) with false by (symmetry; apply Z.ltb_ge; lia).
  replace (num <? 256) with false by (symmetry; apply Z.ltb_ge; lia).
  replace (num <? 65536) with false by (symmetry; apply Z.ltb_ge; lia).
  cbn [app]. rewrite fmbin_F4, uint8_byte by lia.
  replace (128 <=? (num / 2 ^ 24) mod 256) with true; [reflexivity|].
  symmetry. apply Z.leb_le. change (2 ^ 24) with 16777216.
  Z.div_mod_to_equations. lia.
Qed.

Lemma dbl_fields a : 0 <= a <= UINT64_MAX ->
  exists s, (s = 0 \/ s = 1)
    /\ a = s * 2 ^ 63 + dbl_exp a * 2 ^ 52 + dbl_mant a
    /\ 0 <= dbl_exp a < 2048 /\ 0 <= dbl_mant a < 2 ^ 52
    /\ dbl_sign a = (s =? 1).
Proof.
  intros Ha. unfold UINT64_MAX in Ha. exists (a / 2 ^ 63).
  unfold dbl_exp, dbl_mant, dbl_sign.
  change 0x7FF with (Z.ones 11). change 0xFFFFFFFFFFFFF with (Z.ones 52).
  rewrite !land_ones_mod, Z.shiftr_div_pow2 by lia.
  assert (Hs : a / 2 ^ 63 = 0 \/ a / 2 ^ 63 = 1).
  { change (2 ^ 63) with 9223372036854775808. Z.div_mod_to_equations. lia. }
  split; [exact Hs|]. split; [|split; [|split]].
  - change (2 ^ 63) with 9223372036854775808. change (2 ^ 52) with 4503599627370496.
    change (2 ^ 11) with 2048. Z.div_mod_to_equations. lia.
  - apply Z.mod_pos_bound. reflexivity.
  - apply Z.mod_pos_bound. reflexivity.
  - destruct (Z.testbit a 63) eqn:Hb.
    + apply Z.testbit_true in Hb; [|lia]. destruct Hs as [Hs|Hs]; rewrite Hs in *.
      * discriminate Hb.
      * reflexivity.
    + apply Z.testbit_false in Hb; [|lia]. destruct Hs as [Hs|Hs]; rewrite Hs in *.
      * reflexivity.
      * discriminate Hb.
Qed.

(** The double of the truncation of an integral double is that double,
    negative zero apart. *)
Lemma sink_num_int_trunc a t : 0 <= a <= UINT64_MAX ->
  dbl_trunc a = Some t -> dbl_integral a = true ->
  -4294967296 <= t < 4294967296 -> a <> dbl_neg0 ->
  sink_num_int t = a.
Proof.
  intros Ha Ht Hi Hr Hz.
  destruct (dbl_fields a Ha) as (s & Hs & Ea & He & Hm & Hsg).
  unfold dbl_trunc in Ht. unfold dbl_integral, dbl_isnan, dbl_isinf in Hi.
  unfold dbl_nonfinite in Ht.
  set (e := dbl_exp a) in *. set (mant := dbl_mant a) in *.
  destruct (Z.eqb_spec e 0x7FF) as [E7|E7]; [discriminate Ht|].
  cbn [andb] in Hi. apply some_eq in Ht.
  destruct (Z.eqb_spec e 0) as [E0|E0].
  - (* zero or subnormal *)
    change (1075 <=? 1) with false in *. cbv iota in *.
    change (1075 - 1) with 1074 in *.
    rewrite land_ones_mod in Hi by lia. apply Z.eqb_eq in Hi.
    assert (Hlt : 2 ^ 52 < 2 ^ 1074) by (apply Z.pow_lt_mono_r; lia).
    rewrite Z.mod_small in Hi by lia.
    assert (a = 0).
    { destruct Hs as [->| ->]; [lia|]. exfalso. apply Hz. unfold dbl_neg0. lia. }
    rewrite Hi in Ht. change (Z.shiftr 0 1074) with 0 in Ht.
    assert (t = 0) by (destruct (dbl_sign a); lia).
    subst t. rewrite H. reflexivity.
  - destruct (Z.leb_spec 1075 e) as [Hbig|Hsmall].
    + exfalso.
      assert (2 ^ 52 <= Z.shiftl (mant + 2 ^ 52) (e - 1075)).
      { rewrite Z.shiftl_mul_pow2 by lia.
        assert (0 < 2 ^ (e - 1075)) by (apply Z.pow_pos_nonneg; lia).
        change (2 ^ 52) with 4503599627370496 in *. nia. }
      change (2 ^ 52) with 4503599627370496 in *.
      destruct (dbl_sign a); lia.
    + set (k := 1075 - e) in *.
      rewrite land_ones_mod in Hi by lia. apply Z.eqb_eq in Hi.
      rewrite Z.shiftr_div_pow2 in Ht by lia.
      set (m := mant + 2 ^ 52) in *. set (mag := m / 2 ^ k) in *.
      assert (HP : 0 < 2 ^ k) by (apply Z.pow_pos_nonneg; lia).
      assert (Em : m = mag * 2 ^ k).
      { pose proof (Z.div_mod m (2 ^ k) ltac:(lia)). subst mag. lia. }
      assert (Hmag : 1 <= mag <= 4294967296).
      { split; [|destruct (dbl_sign a); lia].
        assert (0 < mag); [|lia]. subst m. change (2 ^ 52) with 4503599627370496 in *. nia. }
      assert (Hk : k <= 52).
      { destruct (Z_le_gt_dec k 52) as [?|Hgt]; [assumption|exfalso].
        assert (2 ^ 53 <= 2 ^ k) by (apply Z.pow_le_mono_r; lia).
        subst m. change (2 ^ 52) with 4503599627370496 in *.
        change (2 ^ 53) with 9007199254740992 in *. nia. }
      assert (HQ : 2 ^ (52 - k) * 2 ^ k = 2 ^ 52).
      { rewrite <- Z.pow_add_r by lia. f_equal. lia. }
      assert (HQp : 0 < 2 ^ (52 - k)) by (apply Z.pow_pos_nonneg; lia).
      assert (Hlog : Z.log2 mag = 52 - k).
      { apply Z.log2_unique; [lia|]. replace (Z.succ (52 - k)) with (52 - k + 1) by lia.
        rewrite Z.pow_add_r by lia. change (2 ^ 1) with 2.
        subst m. change (2 ^ 52) with 4503599627370496 in *. nia. }
      assert (Habs : Z.abs t = mag) by (subst t; destruct (dbl_sign a); lia).
      assert (Hneg : (t <? 0) = dbl_sign a).
      { subst t. destruct (dbl_sign a); [apply Z.ltb_lt|apply Z.ltb_ge]; lia. }
      unfold sink_num_int.
      replace (t =? 0) with false by (symmetry; apply Z.eqb_neq; lia).
      rewrite Habs, Hlog, Hneg.
      replace (52 - k + 1023) with e by (subst k; lia).
      replace (52 - (52 - k)) with k by lia.
      rewrite !Z.shiftl_mul_pow2 by lia.
      replace ((mag - 2 ^ (52 - k)) * 2 ^ k) with mant by (subst m; lia).
      rewrite (Z.lor_comm (e * 2 ^ 52)), <- (Z.shiftl_mul_pow2 e 52) by lia.
      rewrite lor_shiftl_add by lia.
      rewrite Hsg. destruct Hs as [->| ->]; cbn [Z.eqb Pos.eqb].
      * rewrite Z.lor_0_l. lia.
      * change (Z.shiftl 1 63) with (2 ^ 63).
        rewrite lor_add with (k := 63); [lia|lia| |lia|reflexivity].
        change (2 ^ 63) with 9223372036854775808.
        change (2 ^ 52) with 4503599627370496 in *. lia.
Qed.

Lemma lor_next_byte a n : 0 <= n ->
  Z.lor (a mod 2 ^ n) (Z.shiftl ((a / 2 ^ n) mod 256) n) = a mod 2 ^ (n + 8).
Proof.
  intros Hn. assert (0 < 2 ^ n) by (apply Z.pow_pos_nonneg; lia).
  rewrite lor_shiftl_add;
    [|lia|apply Z.mod_pos_bound; lia|apply Z.mod_pos_bound; lia].
  rewrite Z.pow_add_r by lia. change (2 ^ 8) with 256.
  rewrite Z.rem_mul_r by lia. lia.
Qed.

Lemma fmbin_F6 a r : 0 <= a <= UINT64_MAX ->
  pk_fmbin_num (0xF6 :: map (pattern_byte a) [0; 1; 2; 3; 4; 5; 6; 7] ++ r)
  = FmOk (if dbl_isnan a then SINK_NAN else a) r.
Proof.
  intros Ha. cbn [map app].
  assert (E : Z.lor (Z.lor (Z.lor (Z.lor (Z.lor (Z.lor (Z.lor
                (pattern_byte a 0) (Z.shiftl (pattern_byte a 1) 8))
                (Z.shiftl (pattern_byte a 2) 16)) (Z.shiftl (pattern_byte a 3) 24))
                (Z.shiftl (pattern_byte a 4) 32)) (Z.shiftl (pattern_byte a 5) 40))
                (Z.shiftl (pattern_byte a 6) 48)) (Z.shiftl (pattern_byte a 7) 56) = a).
  { unfold pattern_byte. rewrite !uint8_byte by lia.
    change (8 * 0) with 0. change (8 * 1) with 8. change (8 * 2) with 16.
    change (8 * 3) with 24. change (8 * 4) with 32. change (8 * 5) with 40.
    change (8 * 6) with 48. change (8 * 7) with 56.
    change (2 ^ 0) with 1. rewrite Z.div_1_r.
    change 256 with (2 ^ 8) at 1.
    rewrite (lor_next_byte a 8) by lia. change (8 + 8) with 16.
    rewrite (lor_next_byte a 16) by lia. change (16 + 8) with 24.
    rewrite (lor_next_byte a 24) by lia. change (24 + 8) with 32.
    rewrite (lor_next_byte a 32) by lia. change (32 + 8) with 40.
    rewrite (lor_next_byte a 40) by lia. change (40 + 8) with 48.
    rewrite (lor_next_byte a 48) by lia. change (48 + 8) with 56.
    rewrite (lor_next_byte a 56) by lia. change (56 + 8) with 64.
    apply Z.mod_small. unfold UINT64_MAX in Ha. change (2 ^ 64) with 18446744073709551616.
    lia. }
  change (pk_fmbin_num (0xF6 :: ?b0 :: ?b1 :: ?b2 :: ?b3 :: ?b4 :: ?b5 :: ?b6 :: ?b7 :: r))
    with (FmOk (if dbl_isnan (Z.lor (Z.lor (Z.lor (Z.lor (Z.lor (Z.lor (Z.lor
                       b0 (Z.shiftl b1 8)) (Z.shiftl b2 16)) (Z.shiftl b3 24))
                       (Z.shiftl b4 32)) (Z.shiftl b5 40)) (Z.shiftl b6 48)) (Z.shiftl b7 56))
                then SINK_NAN
                else Z.lor (Z.lor (Z.lor (Z.lor (Z.lor (Z.lor (Z.lor
                       b0 (Z.shiftl b1 8)) (Z.shiftl b2 16)) (Z.shiftl b3 24))
                       (Z.shiftl b4 32)) (Z.shiftl b5 40)) (Z.shiftl b6 48)) (Z.shiftl b7 56)) r).
  rewrite E. reflexivity.
Qed.

(** A number written by [pk_tobin] and read by [pk_fmbin]: every number that
    is no NaN comes back as it was, with two exceptions.  Negative zero
    comes back as zero; and an integral number from 2147483648 to 4294967295
    is written in the four-byte form with a last byte of 128 or more, which
    the reader shifts into the sign bit of an [int]. *)
Theorem pickle_bin_number (a : sink_val) (rest : list Z) :
  0 <= a <= UINT64_MAX -> dbl_isnan a = false ->
  (high_uint a -> pk_fmbin_num (pk_tobin_num a ++ rest) = FmUndefined)
  /\ (~ high_uint a -> a <> dbl_neg0 ->
      pk_fmbin_num (pk_tobin_num a ++ rest) = FmOk a rest)
  /\ (a = dbl_neg0 -> pk_fmbin_num (pk_tobin_num a ++ rest) = FmOk 0 rest).
Proof.
  intros Ha Hnan.
  assert (Hraw : pk_fmbin_num (0xF6 :: map (pattern_byte a) [0; 1; 2; 3; 4; 5; 6; 7] ++ rest)
                 = FmOk a rest).
  { rewrite fmbin_F6 by exact Ha. rewrite Hnan. reflexivity. }
  split; [|split].
  - intros (num & Ht & Hi & Hr). unfold pk_tobin_num. rewrite Ht, Hi.
    replace (-4294967296 <=? num) with true by (symmetry; apply Z.leb_le; lia).
    replace (num <? 4294967296) with true
      by (symmetry; apply Z.ltb_lt; change (2 ^ 32) with 4294967296 in Hr; lia).
    cbn [andb]. apply fmbin_tobin_high.
    change (2 ^ 31) with 2147483648 in Hr. change (2 ^ 32) with 4294967296 in Hr. lia.
  - intros Hh Hz. unfold pk_tobin_num.
    destruct (dbl_trunc a) as [num|] eqn:Ht; [|exact Hraw].
    destruct (dbl_integral a) eqn:Hi; [|exact Hraw].
    destruct (Z.leb_spec (-4294967296) num) as [H1|H1]; [|exact Hraw].
    destruct (Z.ltb_spec num 4294967296) as [H2|H2]; [|exact Hraw].
    cbn [andb].
    assert (Hlow : num < 2147483648).
    { destruct (Z_lt_ge_dec num 2147483648) as [?|Hge]; [assumption|exfalso].
      apply Hh. exists num. split; [exact Ht|]. split; [exact Hi|].
      change (2 ^ 31) with 2147483648. change (2 ^ 32) with 4294967296. lia. }
    rewrite fmbin_tobin_int by lia.
    rewrite (sink_num_int_trunc a num Ha Ht Hi ltac:(lia) Hz). reflexivity.
  - intros ->. reflexivity.
Qed.

Lemma pickle_bin_number_witness :
  (high_uint dbl_m300 -> pk_fmbin_num (pk_tobin_num dbl_m300 ++ [0xF7]) = FmUndefined)
  /\ (~ high_uint dbl_m300 -> dbl_m300 <> dbl_neg0 ->
      pk_fmbin_num (pk_tobin_num dbl_m300 ++ [0xF7]) = FmOk dbl_m300 [0xF7])
  /\ (dbl_m300 = dbl_neg0 -> pk_fmbin_num (pk_tobin_num dbl_m300 ++ [0xF7]) = FmOk 0 [0xF7]).
Proof.
  apply (pickle_bin_number dbl_m300 [0xF7]).
  - split; vm_compute; discriminate.
  - reflexivity.
Defined.

Example pickle_bin_m300 : pk_tobin_num dbl_m300 = [0xF3; 0xD4; 0xFE].
Proof. reflexivity. Qed.

Example pickle_bin_half :
  pk_tobin_num dbl_half = [0xF6; 0; 0; 0; 0; 0; 0; 0xE0; 0x3F].
Proof. reflexivity. Qed.

Example pickle_bin_3e9 :
  pk_tobin_num dbl_3e9 = [0xF4; 0x00; 0x5E; 0xD0; 0xB2] /\ high_uint dbl_3e9.
Proof.
  split; [reflexivity|]. exists 3000000000. repeat split; try reflexivity; discriminate.
Qed.

End UnpickleFacts.
(** ** The JSON text of a value is accepted by [pk_isjson] *)

Module JsonValidFacts.
Import Pool Ctx Pickle Unpickle GcFacts PickleFacts UnpickleFacts.

Ltac split_ifs :=
  repeat match goal with
         | H : context [if ?c then _ else _] |- _ => destruct c eqn:?
         | |- context [if ?c then _ else _] => destruct c eqn:?
         end.

Ltac closed_absurd :=
  solve [ match goal with
          | H : _ = true |- _ => vm_compute in H; discriminate H
          | H : _ = false |- _ => vm_compute in H; discriminate H
          end ].

Lemma isSpace_not_sep b : isSpace b = true -> (b =? ch ",") = false /\ (b =? ch "]") = false.
Proof.
  unfold isSpace. intros H.
  repeat (apply orb_true_iff in H as [H|H]); apply Z.eqb_eq in H; subst b; split; reflexivity.
Qed.

(** One turn with more arrays open takes the same way. *)
Lemma isjson_step_shift st ar b nb st' ar' sk k : 0 <= ar -> 0 <= k ->
  pk_isjson_step st ar b nb = Some (st', ar', sk) ->
  pk_isjson_step st (ar + k) b nb = Some (st', ar' + k, sk) /\ 0 <= ar'.
Proof.
  intros Har Hk H. destruct st; cbn [pk_isjson_step] in *.
  19:{ destruct (Z.ltb_spec 0 ar) as [Hpos|Hzero].
       - replace (0 <? ar + k) with true by (symmetry; apply Z.ltb_lt; lia).
         split_ifs; try discriminate; apply some_eq in H; injection H as <- <- <-;
           (split; [first [reflexivity|do 3 f_equal; lia]|lia]).
       - destruct (isSpace b) eqn:Es; cbn [negb] in H; [|discriminate].
         destruct (isSpace_not_sep b Es) as [E1 E2]. rewrite E1, E2. cbn [negb].
         apply some_eq in H. injection H as <- <- <-.
         destruct (0 <? ar + k); (split; [reflexivity|lia]). }
  all: split_ifs; try discriminate; apply some_eq in H; injection H as <- <- <-;
    (split; [first [reflexivity|do 3 f_equal; lia]|lia]).
Qed.

(** A turn that ends a value at the end of the text ends it before a comma
    or a closing bracket as well. *)
Lemma isjson_step_last st ar b c ar' : c = ch "," \/ c = ch "]" ->
  pk_isjson_step st ar b 0 = Some (PKV_ENDVAL, ar', false) ->
  pk_isjson_step st ar b c = Some (PKV_ENDVAL, ar', false).
Proof.
  intros [-> | ->] H; destruct st; cbn [pk_isjson_step] in *;
    split_ifs; try discriminate; try closed_absurd; exact H.
Qed.

Lemma isjson_step_skip st ar b nb st' ar' :
  pk_isjson_step st ar b nb = Some (st', ar', true) -> st' = PKV_NUM_EXP.
Proof.
  intros H. destruct st; cbn [pk_isjson_step] in H; split_ifs; try discriminate;
    apply some_eq in H; injection H as <- _ E; try discriminate E; reflexivity.
Qed.

Lemma endval_is st : pkv_is_endval st = true -> st = PKV_ENDVAL.
Proof. destruct st; intros H; try discriminate H; reflexivity. Qed.

(** A text accepted on its own, followed by a comma or a closing bracket
    inside [k] more arrays: the scan reaches the separator at the end of a
    value. *)
Lemma isjson_embed n : forall s st ar k c T,
  (length s <= n)%nat -> 0 <= ar -> 0 <= k -> c = ch "," \/ c = ch "]" ->
  pk_isjson_loop s st ar = true ->
  exists ar', 0 <= ar'
    /\ pk_isjson_loop (s ++ c :: T) st (ar + k) = pk_isjson_loop (c :: T) PKV_ENDVAL (ar' + k).
Proof.
  induction n as [|n IH]; intros s st ar k c T Hlen Har Hk Hc H.
  - destruct s; [|cbn [length] in Hlen; lia].
    cbn [pk_isjson_loop] in H. apply endval_is in H. subst st.
    exists ar. split; [exact Har|reflexivity].
  - destruct s as [|b rest].
    { cbn [pk_isjson_loop] in H. apply endval_is in H. subst st.
      exists ar. split; [exact Har|reflexivity]. }
    cbn [pk_isjson_loop] in H.
    destruct rest as [|b2 rest2].
    + destruct (pk_isjson_step st ar b 0) as [[[st' ar1] sk]|] eqn:Es; [|discriminate H].
      assert (st' = PKV_ENDVAL) by (destruct sk; apply endval_is; exact H). subst st'.
      destruct sk; [apply isjson_step_skip in Es; discriminate Es|].
      apply (isjson_step_last _ _ _ c _ Hc) in Es.
      destruct (isjson_step_shift _ _ _ _ _ _ _ k Har Hk Es) as [Es' Har1].
      exists ar1. split; [exact Har1|]. cbn [app].
      apply isjson_loop_step. exact Es'.
    + destruct (pk_isjson_step st ar b b2) as [[[st' ar1] sk]|] eqn:Es; [|discriminate H].
      destruct (isjson_step_shift _ _ _ _ _ _ _ k Har Hk Es) as [Es' Har1].
      cbn [app pk_isjson_loop]. rewrite Es'. cbn [length] in Hlen.
      destruct sk.
      * apply (IH rest2 st' ar1 k c T); [lia|exact Har1|exact Hk|exact Hc|exact H].
      * apply (IH (b2 :: rest2) st' ar1 k c T); [cbn [length]; lia|exact Har1|exact Hk|exact Hc|].
        exact H.
Qed.

(** *** Arrays *)

Lemma accepted_cons s : accepted s -> exists b rest, s = b :: rest.
Proof. destruct s as [|b rest]; [intros H; discriminate H|]. intros _. eauto. Qed.

Lemma isjson_start_space b nb k : isSpace b = true ->
  pk_isjson_step PKV_START k b nb = Some (PKV_START, k, false).
Proof.
  unfold isSpace. intros H.
  repeat (apply orb_true_iff in H as [H|H]); apply Z.eqb_eq in H; subst b; reflexivity.
Qed.

Lemma isjson_array_space b nb k : isSpace b = true ->
  pk_isjson_step PKV_ARRAY k b nb
  = if negb (isSpace nb) && negb (nb =? ch "]") then Some (PKV_START, k, false)
    else Some (PKV_ARRAY, k, false).
Proof.
  intros H. cbn [pk_isjson_step]. destruct (isSpace_not_sep b H) as [_ ->]. reflexivity.
Qed.

Lemma accepted_not_bracket rest : ~ accepted (ch "]" :: rest).
Proof. unfold accepted. cbn [pk_isjson_loop]. intros H. discriminate H. Qed.

(** After an opening bracket followed by white space the scan waits in
    [PKV_ARRAY] for the value; it finds the accepted text as from
    [PKV_START]. *)
Lemma isjson_array_spaces s : forall k T, accepted s -> isSpace (hd 0 s) = true ->
  pk_isjson_loop (s ++ T) PKV_ARRAY k = pk_isjson_loop (s ++ T) PKV_START k.
Proof.
  induction s as [|b rest IH]; intros k T Ha Hs; [discriminate Ha|].
  cbn [hd] in Hs.
  assert (Hrest : accepted rest).
  { unfold accepted in *. cbn [pk_isjson_loop] in Ha.
    change (match rest with [] => 0 | c :: _ => c end) with (hd 0 rest) in Ha.
    rewrite (isjson_start_space b _ 0 Hs) in Ha. exact Ha. }
  destruct (accepted_cons rest Hrest) as (b2 & rest2 & ->).
  cbn [app]. 
  rewrite (isjson_loop_step b _ PKV_START k PKV_START k)
    by (apply isjson_start_space; exact Hs).
  cbn [pk_isjson_loop]. rewrite (isjson_array_space b b2 k Hs).
  destruct (isSpace b2) eqn:E2; cbn [negb andb].
  - apply (IH k T Hrest). exact E2.
  - destruct (Z.eqb_spec b2 (ch "]")) as [->|Hne]; cbn [negb].
    + exfalso. exact (accepted_not_bracket rest2 Hrest).
    + reflexivity.
Qed.

Lemma isjson_close k : 0 < k -> pk_isjson_loop [ch "]"] PKV_ENDVAL k = true.
Proof.
  intros Hk. cbn [pk_isjson_loop pk_isjson_step].
  replace (0 <? k) with true by (symmetry; apply Z.ltb_lt; lia). reflexivity.
Qed.

Lemma isjson_comma k T : 0 < k ->
  pk_isjson_loop (ch "," :: T) PKV_ENDVAL k = pk_isjson_loop T PKV_START k.
Proof.
  intros Hk. apply isjson_loop_step. cbn [pk_isjson_step].
  replace (0 <? k) with true by (symmetry; apply Z.ltb_lt; lia). reflexivity.
Qed.

Lemma isjson_join strs : Forall accepted strs -> strs <> [] -> forall k, 0 < k ->
  pk_isjson_loop (json_join strs ++ [ch "]"]) PKV_START k = true.
Proof.
  induction strs as [|e rest IH]; intros Hall Hne k Hk; [congruence|].
  apply Forall_cons in Hall as [He Hrest].
  destruct rest as [|e2 rest'].
  - cbn [json_join].
    destruct (isjson_embed (length e) e PKV_START 0 k (ch "]") [] ltac:(lia) ltac:(lia)
                ltac:(lia) (or_intror eq_refl) He) as (ar' & Har & E).
    change (0 + k) with k in E. rewrite E. apply isjson_close. lia.
  - change (json_join (e :: e2 :: rest')) with (e ++ ch "," :: json_join (e2 :: rest')).
    rewrite <- app_assoc. cbn [app].
    destruct (isjson_embed (length e) e PKV_START 0 k (ch ",")
                (json_join (e2 :: rest') ++ [ch "]"]) ltac:(lia) ltac:(lia)
                ltac:(lia) (or_introl eq_refl) He) as (ar' & Har & E).
    change (0 + k) with k in E. rewrite E, isjson_comma by lia.
    apply IH; [exact Hrest|discriminate|lia].
Qed.

Lemma isjson_open b rest :
  pk_isjson_loop (ch "[" :: b :: rest) PKV_START 0
  = pk_isjson_loop (b :: rest) (if isSpace b || (b =? ch "]") then PKV_ARRAY else PKV_START) 1.
Proof.
  apply isjson_loop_step. cbn [pk_isjson_step hd].
  change (ch "[" =? ch "n") with false. change (ch "[" =? ch "0") with false.
  change (ch "[" =? ch "-") with false. change (isNum (ch "[")) with false.
  change (ch "[" =? DQUOTE) with false. change (ch "[" =? ch "[") with true.
  cbv iota. destruct (isSpace b || (b =? ch "]")); reflexivity.
Qed.

Lemma isjson_array strs : Forall accepted strs -> accepted (json_array strs).
Proof.
  intros Hall. destruct strs as [|e rest]; [reflexivity|].
  pose proof (isjson_join (e :: rest) Hall ltac:(discriminate) 1 ltac:(lia)) as Hj.
  pose proof Hall as Hall'. apply Forall_cons in Hall' as [He _].
  destruct (accepted_cons e He) as (b & e' & ->).
  assert (Hshape : exists T, json_join ((b :: e') :: rest) ++ [ch "]"] = (b :: e') ++ T).
  { destruct rest as [|e2 rest'].
    - exists [ch "]"]. reflexivity.
    - exists (ch "," :: json_join (e2 :: rest') ++ [ch "]"]).
      change (json_join ((b :: e') :: e2 :: rest'))
        with ((b :: e') ++ ch "," :: json_join (e2 :: rest')).
      rewrite <- app_assoc. reflexivity. }
  destruct Hshape as [T HT].
  unfold accepted, json_array. rewrite HT in *. cbn [app] in *.
  rewrite isjson_open.
  destruct (isSpace b) eqn:Es; cbn [orb].
  - change (b :: e' ++ T) with ((b :: e') ++ T).
    rewrite isjson_array_spaces by assumption. exact Hj.
  - destruct (Z.eqb_spec b (ch "]")) as [->|Hne].
    + exfalso. exact (accepted_not_bracket e' He).
    + exact Hj.
Qed.

(** *** Every text written is accepted *)

Lemma pk_tojson_elems_accepted
    (rec : sink_val -> list Z -> option (option str_st * list Z)) vs :
  forall li strs res li',
  (forall v l s l', In v vs -> rec v l = Some (Some s, l') -> accepted s) ->
  Forall accepted strs ->
  pk_tojson_elems rec vs li strs = Some (Some res, li') -> Forall accepted res.
Proof.
  induction vs as [|v rest IH]; intros li strs res li' Hrec Hs H; cbn [pk_tojson_elems] in H.
  - apply some_eq in H. injection H as <- _. exact Hs.
  - destruct (rec v li) as [[[s2|] l2]|] eqn:Er; try discriminate H.
    apply (IH l2 (strs ++ [s2]) res li'); [| |exact H].
    + intros w l s l' Hw. apply Hrec. right. exact Hw.
    + apply Forall_app. split; [exact Hs|]. constructor; [|constructor].
      exact (Hrec v li s2 l2 (or_introl eq_refl) Er).
Qed.

Section Written.

Variable snprintf_g16 : sink_val -> list Z.

(** Every text [pk_tojson] returns is one [pk_isjson] accepts, whatever
    [snprintf] prints for the numbers: a number whose text is not accepted is
    written as null, a string is written with its escapes, and the elements
    of a list are set between brackets and commas. *)
Theorem pickle_json_is_json (fuel : nat) : forall ctx a li s li',
  pk_tojson snprintf_g16 fuel ctx a li = Some (Some s, li') -> pk_isjson s = true.
Proof.
  induction fuel as [|fuel IH]; intros ctx a li s li' H; [discriminate H|].
  cbn [pk_tojson] in H. destruct (sink_typeof a).
  - apply some_eq in H. injection H as <- _. reflexivity.
  - destruct (pk_isjson (numtostr snprintf_g16 a)) eqn:Ej;
      apply some_eq in H; injection H as <- _; [exact Ej|reflexivity].
  - apply some_eq in H. injection H as <- _. apply pk_isjson_json_string.
  - cbv zeta in H. destruct (list_int_has li (var_index a)); [discriminate H|].
    destruct (pk_tojson_elems _ _ _ _) as [[[strs|] l2]|] eqn:Ee; try discriminate H.
    apply some_eq in H. injection H as <- _. apply isjson_array.
    apply (pk_tojson_elems_accepted _ _ _ _ _ _ ltac:(intros v l s l' _; apply IH)
             ltac:(constructor) Ee).
Qed.

End Written.

Lemma pickle_json_is_json_witness :
  pk_isjson [ch "["; ch "1"; ch ","; ch "["; ch "n"; ch "u"; ch "l"; ch "l"; ch "]"; ch ",";
             ch "["; ch "n"; ch "u"; ch "l"; ch "l"; ch "]"; ch "]"] = true.
Proof.
  apply (pickle_json_is_json printf_example 3 tree_ctx (list_val 0) [] _ []).
  reflexivity.
Defined.

(** *** Brackets are not counted to the end *)

Lemma isjson_more_arrays n : forall s st ar k,
  (length s <= n)%nat -> 0 <= ar -> 0 <= k ->
  pk_isjson_loop s st ar = true -> pk_isjson_loop s st (ar + k) = true.
Proof.
  induction n as [|n IH]; intros s st ar k Hlen Har Hk H.
  - destruct s; [exact H|cbn [length] in Hlen; lia].
  - destruct s as [|b rest]; [exact H|].
    cbn [pk_isjson_loop] in *.
    destruct (pk_isjson_step st ar b _) as [[[st' ar1] sk]|] eqn:Es; [|discriminate H].
    destruct (isjson_step_shift _ _ _ _ _ _ _ k Har Hk Es) as [Es' Har1].
    rewrite Es'. cbn [length] in Hlen. destruct sk.
    + destruct rest as [|b2 rest2]; [exact H|].
      apply IH; [cbn [length] in Hlen; lia|exact Har1|exact Hk|exact H].
    + apply IH; [lia|exact Har1|exact Hk|exact H].
Qed.

(** [pk_isjson] does not ask for an array to be closed: an opening bracket
    before a text it accepts gives a text it accepts. *)
Theorem pk_isjson_unclosed_array (s : list Z) :
  pk_isjson s = true -> pk_isjson (ch "[" :: s) = true.
Proof.
  intros Ha. destruct (accepted_cons s Ha) as (b & rest & ->).
  pose proof (isjson_more_arrays _ _ PKV_START 0 1 (Nat.le_refl _) ltac:(lia) ltac:(lia) Ha)
    as H1.
  change (0 + 1) with 1 in H1.
  unfold pk_isjson. rewrite isjson_open.
  destruct (isSpace b) eqn:Es; cbn [orb].
  - rewrite <- (app_nil_r (b :: rest)), isjson_array_spaces by assumption.
    rewrite app_nil_r. exact H1.
  - destruct (Z.eqb_spec b (ch "]")) as [->|Hne].
    + exfalso. exact (accepted_not_bracket rest Ha).
    + exact H1.
Qed.

Lemma pk_isjson_unclosed_array_witness : pk_isjson (ch "[" :: json_null) = true.
Proof. apply (pk_isjson_unclosed_array json_null). reflexivity. Defined.

End JsonValidFacts.
(** ** UTF-8 *)

Module Utf8Facts.
Import Unpickle Utf8 UnpickleFacts.

Example utf8_str_euro : utf8_str_bytes [0x20AC; 0x41] = [0xE2; 0x82; 0xAC; 0x41].
Proof. reflexivity. Qed.

Example utf8_list_euro : utf8_list [0xE2; 0x82; 0xAC; 0x41] = Some [0x20AC; 0x41].
Proof. reflexivity. Qed.

Example utf8_list_overlong : utf8_list [0xC0; 0x80] = None.
Proof. reflexivity. Qed.

(** *** Bytes of a sequence *)

Lemma lead_byte base n x : 0 <= x < 256 ->
  forallb (fun y => (n <=? y) || ((uint8 (Z.lor base y) =? base + y)
                                  && (Z.land (base + y) (n - 1) =? y)))
          (map Z.of_nat (seq 0 256)) = true ->
  x < n -> uint8 (Z.lor base x) = base + x /\ Z.land (base + x) (n - 1) = x.
Proof.
  intros Hx Hall Hn.
  pose proof (bytes_all _ Hall x Hx) as H. cbv beta in H.
  apply orb_true_iff in H as [H|H]; [apply Z.leb_le in H; lia|].
  apply andb_true_iff in H as [H1 H2]. apply Z.eqb_eq in H1. apply Z.eqb_eq in H2.
  split; assumption.
Qed.

Lemma byte_C0 x : 0 <= x < 32 ->
  uint8 (Z.lor 0xC0 x) = 0xC0 + x /\ Z.land (0xC0 + x) 0x1F = x.
Proof. intros H. apply (lead_byte 0xC0 32 x); [lia|reflexivity|lia]. Qed.

Lemma byte_E0 x : 0 <= x < 16 ->
  uint8 (Z.lor 0xE0 x) = 0xE0 + x /\ Z.land (0xE0 + x) 0x0F = x.
Proof. intros H. apply (lead_byte 0xE0 16 x); [lia|reflexivity|lia]. Qed.

Lemma byte_F0 x : 0 <= x < 8 ->
  uint8 (Z.lor 0xF0 x) = 0xF0 + x /\ Z.land (0xF0 + x) 0x07 = x.
Proof. intros H. apply (lead_byte 0xF0 8 x); [lia|reflexivity|lia]. Qed.

Lemma byte_80 x : 0 <= x < 64 ->
  uint8 (Z.lor 0x80 x) = 0x80 + x /\ Z.land (0x80 + x) 0x3F = x.
Proof. intros H. apply (lead_byte 0x80 64 x); [lia|reflexivity|lia]. Qed.

Lemma six_bits b k : 0 <= k -> Z.land (Z.shiftr b k) 0x3F = (b / 2 ^ k) mod 64.
Proof.
  intros Hk. change 0x3F with (Z.ones 6).
  rewrite land_ones_mod, Z.shiftr_div_pow2 by lia. reflexivity.
Qed.

Lemma six_low b : Z.land b 0x3F = b mod 64.
Proof. change 0x3F with (Z.ones 6). rewrite land_ones_mod by lia. reflexivity. Qed.

Lemma add_six c y : 0 <= c -> 0 <= y < 64 -> Z.lor (Z.shiftl c 6) y = c * 64 + y.
Proof.
  intros Hc Hy. rewrite Z.lor_comm, lor_shiftl_add by (change (2 ^ 6) with 64; lia).
  change (2 ^ 6) with 64. lia.
Qed.

Lemma utf8_encode_1 b : 0 <= b < 0x80 -> utf8_encode b = [b].
Proof.
  intros H. unfold utf8_encode.
  replace (b <? 0x80) with true by (symmetry; apply Z.ltb_lt; lia).
  rewrite uint8_small by lia. reflexivity.
Qed.

Lemma utf8_encode_2 b : 0x80 <= b < 0x800 ->
  utf8_encode b = [0xC0 + b / 64; 0x80 + b mod 64].
Proof.
  intros H. unfold utf8_encode.
  replace (b <? 0x80) with false by (symmetry; apply Z.ltb_ge; lia).
  replace (b <? 0x800) with true by (symmetry; apply Z.ltb_lt; lia).
  rewrite six_low, Z.shiftr_div_pow2 by lia. change (2 ^ 6) with 64.
  rewrite (proj1 (byte_C0 (b / 64) ltac:(Z.div_mod_to_equations; lia))).
  rewrite (proj1 (byte_80 (b mod 64) ltac:(Z.div_mod_to_equations; lia))).
  reflexivity.
Qed.

Lemma utf8_encode_3 b : 0x800 <= b < 0x10000 ->
  utf8_encode b = [0xE0 + b / 4096; 0x80 + (b / 64) mod 64; 0x80 + b mod 64].
Proof.
  intros H. unfold utf8_encode.
  replace (b <? 0x80) with false by (symmetry; apply Z.ltb_ge; lia).
  replace (b <? 0x800) with false by (symmetry; apply Z.ltb_ge; lia).
  replace (b <? 0x10000) with true by (symmetry; apply Z.ltb_lt; lia).
  rewrite six_bits, six_low, Z.shiftr_div_pow2 by lia.
  change (2 ^ 6) with 64. change (2 ^ 12) with 4096.
  rewrite (proj1 (byte_E0 (b / 4096) ltac:(Z.div_mod_to_equations; lia))).
  rewrite (proj1 (byte_80 ((b / 64) mod 64) ltac:(Z.div_mod_to_equations; lia))).
  rewrite (proj1 (byte_80 (b mod 64) ltac:(Z.div_mod_to_equations; lia))).
  reflexivity.
Qed.

Lemma utf8_encode_4 b : 0x10000 <= b < 0x110000 ->
  utf8_encode b
  = [0xF0 + b / 262144; 0x80 + (b / 4096) mod 64; 0x80 + (b / 64) mod 64; 0x80 + b mod 64].
Proof.
  intros H. unfold utf8_encode.
  replace (b <? 0x80) with false by (symmetry; apply Z.ltb_ge; lia).
  replace (b <? 0x800) with false by (symmetry; apply Z.ltb_ge; lia).
  replace (b <? 0x10000) with false by (symmetry; apply Z.ltb_ge; lia).
  rewrite !six_bits, six_low, Z.shiftr_div_pow2 by lia.
  change (2 ^ 6) with 64. change (2 ^ 12) with 4096. change (2 ^ 18) with 262144.
  rewrite (proj1 (byte_F0 (b / 262144) ltac:(Z.div_mod_to_equations; lia))).
  rewrite (proj1 (byte_80 ((b / 4096) mod 64) ltac:(Z.div_mod_to_equations; lia))).
  rewrite (proj1 (byte_80 ((b / 64) mod 64) ltac:(Z.div_mod_to_equations; lia))).
  rewrite (proj1 (byte_80 (b mod 64) ltac:(Z.div_mod_to_equations; lia))).
  reflexivity.
Qed.

(** *** One byte of the two loops *)

Ltac by_cases :=
  repeat match goal with
         | |- context [?a <? ?b] =>
             first [ replace (a <? b) with true by (symmetry; apply Z.ltb_lt; lia)
                   | replace (a <? b) with false by (symmetry; apply Z.ltb_ge; lia) ]
         | |- context [?a <=? ?b] =>
             first [ replace (a <=? b) with true by (symmetry; apply Z.leb_le; lia)
                   | replace (a <=? b) with false by (symmetry; apply Z.leb_gt; lia) ]
         | |- context [?a =? ?b] =>
             first [ replace (a =? b) with true by (symmetry; apply Z.eqb_eq; lia)
                   | replace (a =? b) with false by (symmetry; apply Z.eqb_neq; lia) ]
         end.

Lemma list_ascii b rest c m res : 0 <= b < 0x80 ->
  utf8_list_loop (b :: rest) 0 c m res = utf8_list_loop rest 0 c m (res ++ [b]).
Proof. intros H. cbn [utf8_list_loop]. by_cases. reflexivity. Qed.

Lemma list_lead2 x rest c m res : 0 <= x < 32 ->
  utf8_list_loop (0xC0 + x :: rest) 0 c m res = utf8_list_loop rest 1 x 0x80 res.
Proof.
  intros H. cbn [utf8_list_loop]. rewrite (proj2 (byte_C0 x H)). by_cases. reflexivity.
Qed.

Lemma list_lead3 x rest c m res : 0 <= x < 16 ->
  utf8_list_loop (0xE0 + x :: rest) 0 c m res = utf8_list_loop rest 2 x 0x800 res.
Proof.
  intros H. cbn [utf8_list_loop]. rewrite (proj2 (byte_E0 x H)). by_cases. reflexivity.
Qed.

Lemma list_lead4 x rest c m res : 0 <= x < 8 ->
  utf8_list_loop (0xF0 + x :: rest) 0 c m res = utf8_list_loop rest 3 x 0x10000 res.
Proof.
  intros H. cbn [utf8_list_loop]. rewrite (proj2 (byte_F0 x H)). by_cases. reflexivity.
Qed.

Lemma list_cont y rest st c m res : 1 < st -> 0 <= y < 64 -> 0 <= c ->
  utf8_list_loop (0x80 + y :: rest) st c m res
  = utf8_list_loop rest (st - 1) (c * 64 + y) m res.
Proof.
  intros Hs Hy Hc. cbn [utf8_list_loop]. cbv zeta.
  rewrite (proj2 (byte_80 y Hy)), add_six by lia. by_cases. reflexivity.
Qed.

Lemma list_last y rest c m res : 0 <= y < 64 -> 0 <= c ->
  utf8_reject (c * 64 + y) m = false ->
  utf8_list_loop (0x80 + y :: rest) 1 c m res
  = utf8_list_loop rest 0 (c * 64 + y) m (res ++ [c * 64 + y]).
Proof.
  intros Hy Hc Hr. cbn [utf8_list_loop]. cbv zeta.
  rewrite (proj2 (byte_80 y Hy)), add_six by lia. change (1 - 1) with 0.
  rewrite Hr. by_cases. reflexivity.
Qed.

Lemma valid_ascii b rest c m : 0 <= b < 0x80 ->
  utf8_valid_loop (b :: rest) 0 c m = utf8_valid_loop rest 0 c m.
Proof. intros H. cbn [utf8_valid_loop]. by_cases. reflexivity. Qed.

Lemma valid_lead2 x rest c m : 0 <= x < 32 ->
  utf8_valid_loop (0xC0 + x :: rest) 0 c m = utf8_valid_loop rest 1 x 0x80.
Proof.
  intros H. cbn [utf8_valid_loop]. rewrite (proj2 (byte_C0 x H)). by_cases. reflexivity.
Qed.

Lemma valid_lead3 x rest c m : 0 <= x < 16 ->
  utf8_valid_loop (0xE0 + x :: rest) 0 c m = utf8_valid_loop rest 2 x 0x800.
Proof.
  intros H. cbn [utf8_valid_loop]. rewrite (proj2 (byte_E0 x H)). by_cases. reflexivity.
Qed.

Lemma valid_lead4 x rest c m : 0 <= x < 8 ->
  utf8_valid_loop (0xF0 + x :: rest) 0 c m = utf8_valid_loop rest 3 x 0x10000.
Proof.
  intros H. cbn [utf8_valid_loop]. rewrite (proj2 (byte_F0 x H)). by_cases. reflexivity.
Qed.

Lemma valid_cont y rest st c m : 1 < st -> 0 <= y < 64 -> 0 <= c ->
  utf8_valid_loop (0x80 + y :: rest) st c m = utf8_valid_loop rest (st - 1) (c * 64 + y) m.
Proof.
  intros Hs Hy Hc. cbn [utf8_valid_loop]. cbv zeta.
  rewrite (proj2 (byte_80 y Hy)), add_six by lia. by_cases. reflexivity.
Qed.

Lemma valid_last y rest c m : 0 <= y < 64 -> 0 <= c ->
  utf8_reject (c * 64 + y) m = false ->
  utf8_valid_loop (0x80 + y :: rest) 1 c m = utf8_valid_loop rest 0 (c * 64 + y) m.
Proof.
  intros Hy Hc Hr. cbn [utf8_valid_loop]. cbv zeta.
  rewrite (proj2 (byte_80 y Hy)), add_six by lia. change (1 - 1) with 0.
  rewrite Hr. by_cases. reflexivity.
Qed.

(** *** A list of codepoints, written and read back *)

Lemma codepoint_ok_range b : codepoint_ok b = true ->
  0 <= b < 0x110000 /\ (b < 0xD800 \/ 0xE000 <= b).
Proof.
  unfold codepoint_ok. intros H.
  apply andb_true_iff in H as [H H3]. apply andb_true_iff in H as [H1 H2].
  apply Z.leb_le in H1. apply Z.ltb_lt in H2. apply orb_true_iff in H3.
  split; [lia|]. destruct H3 as [H3|H3]; [left; apply Z.ltb_lt|right; apply Z.leb_le]; exact H3.
Qed.

Lemma utf8_reject_ok b m : codepoint_ok b = true -> m <= b -> utf8_reject b m = false.
Proof.
  intros H Hm. apply codepoint_ok_range in H as [H1 H2]. unfold utf8_reject.
  replace (b <? m) with false by (symmetry; apply Z.ltb_ge; lia).
  replace (0x110000 <=? b) with false by (symmetry; apply Z.leb_gt; lia).
  cbn [orb]. destruct H2 as [H2|H2].
  - replace (b <? 0xD800) with true by (symmetry; apply Z.ltb_lt; lia).
    replace (0xD800 <=? b) with false by (symmetry; apply Z.leb_gt; lia). reflexivity.
  - replace (b <? 0xE000) with false by (symmetry; apply Z.ltb_ge; lia).
    apply andb_false_r.
Qed.

Lemma list_encode b rest c m res : codepoint_ok b = true ->
  exists c' m',
    utf8_list_loop (utf8_encode b ++ rest) 0 c m res
    = utf8_list_loop rest 0 c' m' (res ++ [b]).
Proof.
  intros Hok. pose proof (codepoint_ok_range b Hok) as [Hr _].
  destruct (Z_lt_ge_dec b 0x80) as [H1|H1].
  { rewrite utf8_encode_1 by lia. cbn [app]. rewrite list_ascii by lia. eauto. }
  destruct (Z_lt_ge_dec b 0x800) as [H2|H2].
  { rewrite utf8_encode_2 by lia. cbn [app].
    rewrite list_lead2 by (Z.div_mod_to_equations; lia).
    assert (E : b / 64 * 64 + b mod 64 = b) by (Z.div_mod_to_equations; lia).
    rewrite list_last;
      [rewrite E; eauto|Z.div_mod_to_equations; lia|Z.div_mod_to_equations; lia|].
    rewrite E. apply utf8_reject_ok; [exact Hok|lia]. }
  destruct (Z_lt_ge_dec b 0x10000) as [H3|H3].
  { rewrite utf8_encode_3 by lia. cbn [app].
    rewrite list_lead3 by (Z.div_mod_to_equations; lia).
    rewrite list_cont by (try lia; Z.div_mod_to_equations; lia). change (2 - 1) with 1.
    assert (E : (b / 4096 * 64 + (b / 64) mod 64) * 64 + b mod 64 = b)
      by (Z.div_mod_to_equations; lia).
    rewrite list_last;
      [rewrite E; eauto|Z.div_mod_to_equations; lia|Z.div_mod_to_equations; lia|].
    rewrite E. apply utf8_reject_ok; [exact Hok|lia]. }
  rewrite utf8_encode_4 by lia. cbn [app].
  rewrite list_lead4 by (Z.div_mod_to_equations; lia).
  rewrite list_cont by (try lia; Z.div_mod_to_equations; lia). change (3 - 1) with 2.
  rewrite list_cont by (try lia; Z.div_mod_to_equations; lia). change (2 - 1) with 1.
  assert (E : ((b / 262144 * 64 + (b / 4096) mod 64) * 64 + (b / 64) mod 64) * 64 + b mod 64
              = b) by (Z.div_mod_to_equations; lia).
  rewrite list_last;
    [rewrite E; eauto|Z.div_mod_to_equations; lia|Z.div_mod_to_equations; lia|].
  rewrite E. apply utf8_reject_ok; [exact Hok|lia].
Qed.

Lemma valid_encode b rest c m : codepoint_ok b = true ->
  exists c' m',
    utf8_valid_loop (utf8_encode b ++ rest) 0 c m = utf8_valid_loop rest 0 c' m'.
Proof.
  intros Hok. pose proof (codepoint_ok_range b Hok) as [Hr _].
  destruct (Z_lt_ge_dec b 0x80) as [H1|H1].
  { rewrite utf8_encode_1 by lia. cbn [app]. rewrite valid_ascii by lia. eauto. }
  destruct (Z_lt_ge_dec b 0x800) as [H2|H2].
  { rewrite utf8_encode_2 by lia. cbn [app].
    rewrite valid_lead2 by (Z.div_mod_to_equations; lia).
    assert (E : b / 64 * 64 + b mod 64 = b) by (Z.div_mod_to_equations; lia).
    rewrite valid_last;
      [eauto|Z.div_mod_to_equations; lia|Z.div_mod_to_equations; lia|].
    rewrite E. apply utf8_reject_ok; [exact Hok|lia]. }
  destruct (Z_lt_ge_dec b 0x10000) as [H3|H3].
  { rewrite utf8_encode_3 by lia. cbn [app].
    rewrite valid_lead3 by (Z.div_mod_to_equations; lia).
    rewrite valid_cont by (try lia; Z.div_mod_to_equations; lia). change (2 - 1) with 1.
    assert (E : (b / 4096 * 64 + (b / 64) mod 64) * 64 + b mod 64 = b)
      by (Z.div_mod_to_equations; lia).
    rewrite valid_last;
      [eauto|Z.div_mod_to_equations; lia|Z.div_mod_to_equations; lia|].
    rewrite E. apply utf8_reject_ok; [exact Hok|lia]. }
  rewrite utf8_encode_4 by lia. cbn [app].
  rewrite valid_lead4 by (Z.div_mod_to_equations; lia).
  rewrite valid_cont by (try lia; Z.div_mod_to_equations; lia). change (3 - 1) with 2.
  rewrite valid_cont by (try lia; Z.div_mod_to_equations; lia). change (2 - 1) with 1.
  assert (E : ((b / 262144 * 64 + (b / 4096) mod 64) * 64 + (b / 64) mod 64) * 64 + b mod 64
              = b) by (Z.div_mod_to_equations; lia).
  rewrite valid_last;
    [eauto|Z.div_mod_to_equations; lia|Z.div_mod_to_equations; lia|].
  rewrite E. apply utf8_reject_ok; [exact Hok|lia].
Qed.

Lemma utf8_str_loop_app cps : forall bytes,
  utf8_str_loop cps bytes = bytes ++ concat (map utf8_encode cps).
Proof.
  induction cps as [|b rest IH]; intros bytes; cbn [utf8_str_loop map concat].
  - rewrite app_nil_r. reflexivity.
  - rewrite IH, app_assoc. reflexivity.
Qed.

Lemma utf8_encode_width b : codepoint_ok b = true ->
  Z.of_nat (length (utf8_encode b)) = utf8_width b.
Proof.
  intros Hok. pose proof (codepoint_ok_range b Hok) as [Hr _]. unfold utf8_width.
  destruct (Z.ltb_spec b 0x80); [rewrite utf8_encode_1 by lia; reflexivity|].
  destruct (Z.ltb_spec b 0x800); [rewrite utf8_encode_2 by lia; reflexivity|].
  destruct (Z.ltb_spec b 0x10000); [rewrite utf8_encode_3 by lia; reflexivity|].
  rewrite utf8_encode_4 by lia. reflexivity.
Qed.

Lemma list_written cps : forall c m res, Forall (fun b => codepoint_ok b = true) cps ->
  utf8_list_loop (concat (map utf8_encode cps)) 0 c m res = Some (res ++ cps).
Proof.
  induction cps as [|b rest IH]; intros c m res Hall; cbn [map concat].
  - rewrite app_nil_r. reflexivity.
  - apply Forall_cons in Hall as [Hb Hrest].
    destruct (list_encode b (concat (map utf8_encode rest)) c m res Hb) as (c' & m' & ->).
    rewrite IH by exact Hrest. rewrite <- app_assoc. reflexivity.
Qed.

Lemma valid_written cps : forall c m, Forall (fun b => codepoint_ok b = true) cps ->
  utf8_valid_loop (concat (map utf8_encode cps)) 0 c m = true.
Proof.
  induction cps as [|b rest IH]; intros c m Hall; cbn [map concat]; [reflexivity|].
  apply Forall_cons in Hall as [Hb Hrest].
  destruct (valid_encode b (concat (map utf8_encode rest)) c m Hb) as (c' & m' & ->).
  apply IH. exact Hrest.
Qed.

Lemma tot_written cps : forall tot, Forall (fun b => codepoint_ok b = true) cps ->
  utf8_tot_loop cps tot = tot + Z.of_nat (length (concat (map utf8_encode cps))).
Proof.
  induction cps as [|b rest IH]; intros tot Hall; cbn [utf8_tot_loop map concat length].
  - lia.
  - apply Forall_cons in Hall as [Hb Hrest].
    rewrite IH, length_app, <- utf8_encode_width by assumption. lia.
Qed.

(** The string [opi_utf8_str] makes of a list of codepoints: its bytes fill
    the buffer exactly as counted beforehand, [opi_utf8_valid] accepts it,
    and [opi_utf8_list] reads the same codepoints back from it. *)
Theorem utf8_str_round_trip (cps : list Z) :
  Forall (fun b => codepoint_ok b = true) cps ->
  Z.of_nat (length (utf8_str_bytes cps)) = utf8_tot_loop cps 0
  /\ utf8_valid (utf8_str_bytes cps) = true
  /\ utf8_list (utf8_str_bytes cps) = Some cps.
Proof.
  intros Hall. unfold utf8_str_bytes, utf8_valid, utf8_list.
  rewrite utf8_str_loop_app. cbn [app].
  split; [rewrite tot_written by exact Hall; lia|].
  split; [apply valid_written; exact Hall|].
  apply (list_written cps 0 0 [] Hall).
Qed.

Lemma utf8_str_round_trip_witness :
  Z.of_nat (length (utf8_str_bytes [0x1F600; 0x20AC; 0xE9; 0x41]))
  = utf8_tot_loop [0x1F600; 0x20AC; 0xE9; 0x41] 0
  /\ utf8_valid (utf8_str_bytes [0x1F600; 0x20AC; 0xE9; 0x41]) = true
  /\ utf8_list (utf8_str_bytes [0x1F600; 0x20AC; 0xE9; 0x41])
     = Some [0x1F600; 0x20AC; 0xE9; 0x41].
Proof.
  apply (utf8_str_round_trip [0x1F600; 0x20AC; 0xE9; 0x41]).
  repeat constructor.
Defined.

(** *** A sequence cut short at the end of the string *)

Lemma truncated_loops s : forall st c m res lead, utf8_lead lead ->
  utf8_valid_loop s st c m = true ->
  utf8_valid_loop (s ++ [lead]) st c m = false
  /\ utf8_list_loop (s ++ [lead]) st c m res = utf8_list_loop s st c m res
  /\ utf8_list_loop s st c m res <> None.
Proof.
  induction s as [|b rest IH]; intros st c m res lead Hl Hv.
  - cbn [utf8_valid_loop] in Hv. apply Z.eqb_eq in Hv. subst st.
    unfold utf8_lead in Hl. cbn [app utf8_valid_loop utf8_list_loop].
    change (0 =? 0) with true. cbv iota.
    replace (lead <? 0x80) with false by (symmetry; apply Z.ltb_ge; lia).
    replace (lead <? 0xC0) with false by (symmetry; apply Z.ltb_ge; lia).
    replace (lead <? 0xF8) with true by (symmetry; apply Z.ltb_lt; lia).
    destruct (lead <? 0xE0); [repeat split; discriminate|].
    destruct (lead <? 0xF0); repeat split; discriminate.
  - cbn [app utf8_valid_loop utf8_list_loop] in *. cbv zeta in *.
    repeat match goal with
           | H : context [if ?x then _ else _] |- _ => destruct x eqn:?
           end; try discriminate Hv; apply IH; assumption.
Qed.

(** [opi_utf8_list] does not test the state after its loop: a string that
    ends with the first byte of a sequence of two, three or four bytes, after
    a text [opi_utf8_valid] accepts, is refused by [opi_utf8_valid] and read
    by [opi_utf8_list] without an error, as the text before that byte. *)
Theorem utf8_list_truncated (s : list Z) (lead : Z) :
  utf8_lead lead -> utf8_valid s = true ->
  utf8_valid (s ++ [lead]) = false
  /\ utf8_list (s ++ [lead]) = utf8_list s
  /\ utf8_list s <> None.
Proof.
  intros Hl Hv. unfold utf8_valid, utf8_list in *.
  apply truncated_loops; assumption.
Qed.

Lemma utf8_list_truncated_witness :
  utf8_valid ([0x41] ++ [0xE2]) = false
  /\ utf8_list ([0x41] ++ [0xE2]) = utf8_list [0x41]
  /\ utf8_list [0x41] <> None.
Proof.
  apply (utf8_list_truncated [0x41] 0xE2); [split; [discriminate|reflexivity]|reflexivity].
Defined.

(** *** A valid string, read and written back *)

Lemma valid_bad_lead b rest c m : 0x80 <= b < 0xC0 \/ 0xF8 <= b ->
  utf8_valid_loop (b :: rest) 0 c m = false.
Proof.
  intros H. cbn [utf8_valid_loop]. change (0 =? 0) with true. cbv iota.
  destruct H as [H|H]; by_cases; reflexivity.
Qed.

Lemma valid_bad_cont b rest st c m : st <> 0 -> b < 0x80 \/ 0xC0 <= b ->
  utf8_valid_loop (b :: rest) st c m = false.
Proof.
  intros Hs H. cbn [utf8_valid_loop].
  replace (st =? 0) with false by (symmetry; apply Z.eqb_neq; exact Hs).
  destruct H; by_cases; cbn [orb]; try reflexivity; rewrite ?orb_true_r; reflexivity.
Qed.

Lemma valid_end st c m : st <> 0 -> utf8_valid_loop [] st c m = false.
Proof. intros Hs. cbn [utf8_valid_loop]. apply Z.eqb_neq. exact Hs. Qed.

Lemma valid_last_inv y rest c m : 0 <= y < 64 -> 0 <= c ->
  utf8_valid_loop (0x80 + y :: rest) 1 c m = true ->
  utf8_reject (c * 64 + y) m = false.
Proof.
  intros Hy Hc H. cbn [utf8_valid_loop] in H. cbv zeta in H.
  rewrite (proj2 (byte_80 y Hy)), add_six in H by lia. change (1 - 1) with 0 in H.
  change (1 =? 0) with false in H. change (0 =? 0) with true in H. cbv iota in H.
  replace (0x80 + y <? 0x80) with false in H by (symmetry; apply Z.ltb_ge; lia).
  replace (0xC0 <=? 0x80 + y) with false in H by (symmetry; apply Z.leb_gt; lia).
  cbn [orb] in H. destruct (utf8_reject (c * 64 + y) m); [discriminate H|reflexivity].
Qed.

Lemma utf8_reject_inv cp m : utf8_reject cp m = false ->
  m <= cp < 0x110000 /\ (cp < 0xD800 \/ 0xE000 <= cp).
Proof.
  unfold utf8_reject. intros H.
  apply orb_false_iff in H as [H H3]. apply orb_false_iff in H as [H1 H2].
  apply Z.ltb_ge in H1. apply Z.leb_gt in H2. split; [lia|].
  apply andb_false_iff in H3 as [H3|H3]; [left; apply Z.leb_gt|right; apply Z.ltb_ge]; exact H3.
Qed.

Lemma codepoint_ok_intro cp : 0 <= cp < 0x110000 -> cp < 0xD800 \/ 0xE000 <= cp ->
  codepoint_ok cp = true.
Proof.
  intros H1 H2. unfold codepoint_ok.
  replace (0 <=? cp) with true by (symmetry; apply Z.leb_le; lia).
  replace (cp <? 0x110000) with true by (symmetry; apply Z.ltb_lt; lia).
  cbn [andb]. apply orb_true_iff.
  destruct H2; [left; apply Z.ltb_lt|right; apply Z.leb_le]; assumption.
Qed.

(** The continuation byte at the head of what is left of a valid text. *)
Lemma valid_needs_cont rest st c m : st <> 0 -> Forall (fun b => 0 <= b < 256) rest ->
  utf8_valid_loop rest st c m = true ->
  exists y rest', rest = 0x80 + y :: rest' /\ 0 <= y < 64
                  /\ Forall (fun b => 0 <= b < 256) rest'.
Proof.
  intros Hs Hb Hv. destruct rest as [|b rest'].
  - rewrite valid_end in Hv by exact Hs. discriminate Hv.
  - apply Forall_cons in Hb as [Hb Hrest].
    destruct (Z_lt_ge_dec b 0x80) as [H1|H1];
      [rewrite valid_bad_cont in Hv by (try exact Hs; lia); discriminate Hv|].
    destruct (Z_lt_ge_dec b 0xC0) as [H2|H2];
      [|rewrite valid_bad_cont in Hv by (try exact Hs; lia); discriminate Hv].
    exists (b - 0x80), rest'. split; [f_equal; lia|]. split; [lia|exact Hrest].
Qed.

Lemma valid_read n : forall s c m res,
  (length s <= n)%nat -> Forall (fun b => 0 <= b < 256) s ->
  utf8_valid_loop s 0 c m = true ->
  exists cps, utf8_list_loop s 0 c m res = Some (res ++ cps)
              /\ Forall (fun b => codepoint_ok b = true) cps
              /\ concat (map utf8_encode cps) = s.
Proof.
  induction n as [|n IH]; intros s c m res Hlen Hb Hv.
  { destruct s; [|cbn [length] in Hlen; lia].
    exists []. rewrite app_nil_r. repeat split. constructor. }
  destruct s as [|b rest].
  { exists []. rewrite app_nil_r. repeat split. constructor. }
  cbn [length] in Hlen. apply Forall_cons in Hb as [Hb Hrest].
  destruct (Z_lt_ge_dec b 0x80) as [H1|H1].
  { rewrite valid_ascii in Hv by lia. rewrite list_ascii by lia.
    destruct (IH rest c m (res ++ [b]) ltac:(lia) Hrest Hv) as (cps & El & Hok & Henc).
    exists (b :: cps). rewrite El, <- app_assoc. split; [reflexivity|].
    split; [constructor; [apply codepoint_ok_intro; lia|exact Hok]|].
    cbn [map concat]. rewrite utf8_encode_1, Henc by lia. reflexivity. }
  destruct (Z_lt_ge_dec b 0xC0) as [H2|H2];
    [rewrite valid_bad_lead in Hv by lia; discriminate Hv|].
  destruct (Z_lt_ge_dec b 0xF8) as [H5|H5];
    [|rewrite valid_bad_lead in Hv by lia; discriminate Hv].
  destruct (Z_lt_ge_dec b 0xE0) as [H3|H3].
  { (* two bytes *)
    set (x := b - 0xC0). replace b with (0xC0 + x) in * by (subst x; lia).
    assert (Hx : 0 <= x < 32) by (subst x; lia). clearbody x.
    rewrite valid_lead2 in Hv by exact Hx. rewrite list_lead2 by exact Hx.
    destruct (valid_needs_cont rest 1 x 0x80 ltac:(lia) Hrest Hv) as (y & r1 & -> & Hy & Hr1).
    pose proof (valid_last_inv y r1 x 0x80 Hy ltac:(lia) Hv) as Hrej.
    rewrite valid_last in Hv by (try exact Hrej; lia).
    rewrite list_last by (try exact Hrej; lia).
    apply utf8_reject_inv in Hrej as [Hr Hs].
    cbn [length] in Hlen.
    destruct (IH r1 (x * 64 + y) 0x80 (res ++ [x * 64 + y]) ltac:(lia) Hr1 Hv)
      as (cps & El & Hok & Henc).
    exists (x * 64 + y :: cps). rewrite El, <- app_assoc. split; [reflexivity|].
    split; [constructor; [apply codepoint_ok_intro; lia|exact Hok]|].
    cbn [map concat]. rewrite utf8_encode_2, Henc by lia. cbn [app].
    repeat f_equal; Z.div_mod_to_equations; lia. }
  destruct (Z_lt_ge_dec b 0xF0) as [H4|H4].
  { (* three bytes *)
    set (x := b - 0xE0). replace b with (0xE0 + x) in * by (subst x; lia).
    assert (Hx : 0 <= x < 16) by (subst x; lia). clearbody x.
    rewrite valid_lead3 in Hv by exact Hx. rewrite list_lead3 by exact Hx.
    destruct (valid_needs_cont rest 2 x 0x800 ltac:(lia) Hrest Hv) as (y & r1 & -> & Hy & Hr1).
    rewrite valid_cont in Hv by lia. rewrite list_cont by lia. change (2 - 1) with 1 in *.
    destruct (valid_needs_cont r1 1 _ 0x800 ltac:(lia) Hr1 Hv) as (z & r2 & -> & Hz & Hr2).
    pose proof (valid_last_inv z r2 (x * 64 + y) 0x800 Hz ltac:(lia) Hv) as Hrej.
    rewrite valid_last in Hv by (try exact Hrej; lia).
    rewrite list_last by (try exact Hrej; lia).
    apply utf8_reject_inv in Hrej as [Hr Hs].
    cbn [length] in Hlen.
    destruct (IH r2 ((x * 64 + y) * 64 + z) 0x800 (res ++ [(x * 64 + y) * 64 + z])
                ltac:(lia) Hr2 Hv) as (cps & El & Hok & Henc).
    exists ((x * 64 + y) * 64 + z :: cps). rewrite El, <- app_assoc. split; [reflexivity|].
    split; [constructor; [apply codepoint_ok_intro; lia|exact Hok]|].
    cbn [map concat]. rewrite utf8_encode_3, Henc by lia. cbn [app].
    repeat f_equal; Z.div_mod_to_equations; lia. }
  (* four bytes *)
  set (x := b - 0xF0). replace b with (0xF0 + x) in * by (subst x; lia).
  assert (Hx : 0 <= x < 8) by (subst x; lia). clearbody x.
  rewrite valid_lead4 in Hv by exact Hx. rewrite list_lead4 by exact Hx.
  destruct (valid_needs_cont rest 3 x 0x10000 ltac:(lia) Hrest Hv) as (y & r1 & -> & Hy & Hr1).
  rewrite valid_cont in Hv by lia. rewrite list_cont by lia. change (3 - 1) with 2 in *.
  destruct (valid_needs_cont r1 2 _ 0x10000 ltac:(lia) Hr1 Hv) as (z & r2 & -> & Hz & Hr2).
  rewrite valid_cont in Hv by lia. rewrite list_cont by lia. change (2 - 1) with 1 in *.
  destruct (valid_needs_cont r2 1 _ 0x10000 ltac:(lia) Hr2 Hv) as (w & r3 & -> & Hw & Hr3).
  pose proof (valid_last_inv w r3 ((x * 64 + y) * 64 + z) 0x10000 Hw ltac:(lia) Hv) as Hrej.
  rewrite valid_last in Hv by (try exact Hrej; lia).
  rewrite list_last by (try exact Hrej; lia).
  apply utf8_reject_inv in Hrej as [Hr Hs].
  cbn [length] in Hlen.
  destruct (IH r3 (((x * 64 + y) * 64 + z) * 64 + w) 0x10000
              (res ++ [((x * 64 + y) * 64 + z) * 64 + w]) ltac:(lia) Hr3 Hv)
    as (cps & El & Hok & Henc).
  exists (((x * 64 + y) * 64 + z) * 64 + w :: cps). rewrite El, <- app_assoc.
  split; [reflexivity|].
  split; [constructor; [apply codepoint_ok_intro; lia|exact Hok]|].
  cbn [map concat]. rewrite utf8_encode_4, Henc by lia. cbn [app].
  repeat f_equal; Z.div_mod_to_equations; lia.
Qed.

(** On the bytes of a string [opi_utf8_valid] accepts, [opi_utf8_list]
    succeeds, every number it returns is a codepoint, and [opi_utf8_str]
    makes the same bytes of them again: no text has two encodings (overlong
    sequences are refused). *)
Theorem utf8_valid_round_trip (s : list Z) :
  Forall (fun b => 0 <= b < 256) s -> utf8_valid s = true ->
  exists cps, utf8_list s = Some cps
              /\ Forall (fun b => codepoint_ok b = true) cps
              /\ utf8_str_bytes cps = s.
Proof.
  intros Hb Hv. unfold utf8_valid, utf8_list, utf8_str_bytes in *.
  destruct (valid_read (length s) s 0 0 [] (Nat.le_refl _) Hb Hv) as (cps & El & Hok & Henc).
  exists cps. rewrite utf8_str_loop_app. cbn [app] in *. repeat split; assumption.
Qed.

Lemma utf8_valid_round_trip_witness :
  exists cps, utf8_list [0xE2; 0x82; 0xAC; 0x41] = Some cps
              /\ Forall (fun b => codepoint_ok b = true) cps
              /\ utf8_str_bytes cps = [0xE2; 0x82; 0xAC; 0x41].
Proof.
  apply (utf8_valid_round_trip [0xE2; 0x82; 0xAC; 0x41]); [|reflexivity].
  repeat constructor; discriminate.
Defined.

End Utf8Facts.
(** ** The run loop: tick accounting *)

Module RunFacts.
Import Pool Ctx Gc Vm Run GcFacts.

Lemma gc_tick_total ctx : ref_covers ctx -> exists ctx', gc_tick ctx = Some ctx'.
Proof.
  intros Hcov. unfold gc_tick.
  destruct (gc_level ctx); [eexists; reflexivity| |];
    (destruct (_ <=? 0); [apply context_gc_total; exact Hcov|eexists; reflexivity]).
Qed.

(** The countdown changes the tick budget only through a collection. *)
Lemma gc_tick_fields ctx ctx' : gc_tick ctx = Some ctx' ->
  timeout_left ctx' =
    (if gc_due ctx then Z.max 0 (timeout_left ctx - SINK_GC_TICKS) else timeout_left ctx)
  /\ timeout ctx' = timeout ctx /\ pc ctx' = pc ctx /\ prg ctx' = prg ctx
  /\ passed ctx' = passed ctx /\ failed ctx' = failed ctx /\ async ctx' = async ctx.
Proof.
  unfold gc_tick, gc_due. intros H.
  destruct (gc_level ctx) eqn:El.
  - apply some_eq in H. subst ctx'. repeat split; reflexivity.
  - cbn [gc_left with_ticks] in H. destruct (gc_left ctx - 1 <=? 0).
    + apply context_gc_fields in H. cbn [timeout_left with_ticks] in H.
      destruct H as (H1 & _ & H3 & H4 & _ & H6 & _ & _ & _ & _ & H11 & H12 & H13 & _).
      repeat split; assumption.
    + apply some_eq in H. subst ctx'. repeat split; reflexivity.
  - cbn [gc_left with_ticks] in H. destruct (gc_left ctx - 1 <=? 0).
    + apply context_gc_fields in H. cbn [timeout_left with_ticks] in H.
      destruct H as (H1 & _ & H3 & H4 & _ & H6 & _ & _ & _ & _ & H11 & H12 & H13 & _).
      repeat split; assumption.
    + apply some_eq in H. subst ctx'. repeat split; reflexivity.
Qed.

Example run_three_ticks :
  exists ctx', context_run_w switch0 5 timed_ctx = RunResult SINK_RUN_TIMEOUT ctx'
    /\ pc ctx' = 0 /\ timeout_left ctx' = 3 /\ gc_left ctx' = 9997.
Proof. eexists. split; [vm_compute; reflexivity|]. repeat split. Qed.




Lemma context_gc_covers ctx ctx' : context_gc ctx = Some ctx' -> ref_covers ctx -> ref_covers ctx'.
Proof.
  unfold context_gc, context_mark, ref_covers. intros H Hcov.
  destruct (mark_roots_total (tbl (list_pool (context_clearref ctx)))
              (gc_roots (context_clearref ctx))
              (ref (str_pool (context_clearref ctx)))
              (ref (list_pool (context_clearref ctx)))) as (s & l & E & Hl & _).
  { unfold context_clearref. cbn. rewrite length_memset0_all. exact Hcov. }
  rewrite E in H. apply some_eq in H. subst ctx'.
  unfold context_gcleft.
  cbn [gc_level context_sweep with_list_pool with_str_pool context_clearref].
  destruct (gc_level ctx);
    cbn [list_pool with_ticks context_sweep with_list_pool with_str_pool sweep_pool tbl ref];
    rewrite Hl; unfold context_clearref; cbn [list_pool with_list_pool with_str_pool ref tbl];
    rewrite length_memset0_all; exact Hcov.
Qed.

Lemma gc_tick_covers ctx ctx' : gc_tick ctx = Some ctx' -> ref_covers ctx -> ref_covers ctx'.
Proof.
  unfold gc_tick. intros H Hcov.
  destruct (gc_level ctx).
  - apply some_eq in H. subst ctx'. exact Hcov.
  - destruct (_ <=? 0).
    + apply (context_gc_covers _ _ H). exact Hcov.
    + apply some_eq in H. subst ctx'. exact Hcov.
  - destruct (_ <=? 0).
    + apply (context_gc_covers _ _ H). exact Hcov.
    + apply some_eq in H. subst ctx'. exact Hcov.
Qed.




(** A byte above 0x98 is never stepped over: the [switch] has no case for
    it, the program counter stays, and without a timeout the loop goes on for
    as long as it is given fuel. *)
Theorem run_undefined_opcode_spins (junk : list_st) (junkw : Z) (fuel : nat) (ctx : context) :
  0 <= pc ctx < Z.of_nat (length (ops (prg ctx))) ->
  0x98 < nth (Z.to_nat (pc ctx)) (ops (prg ctx)) 0 ->
  timeout ctx <= 0 -> ref_covers ctx ->
  run_loop (vm_switch junk junkw) fuel ctx = RunOutOfFuel.
Proof.
  revert ctx. induction fuel as [|fuel IH]; intros ctx Hpc Hop Ht Hcov; cbn [run_loop];
    destruct (Z.ltb_spec (pc ctx) (Z.of_nat (length (ops (prg ctx))))); try lia;
    [reflexivity|].
  unfold loop_pass.
  assert (Hsw : vm_switch junk junkw (with_pc ctx (pc ctx) (pc ctx))
                = SwBreak (with_pc ctx (pc ctx) (pc ctx))).
  { unfold vm_switch. cbn [prg pc with_pc]. unfold byte_at.
    destruct (Z.ltb_spec (pc ctx) 0); [lia|].
    destruct (ops (prg ctx) !! Z.to_nat (pc ctx)) as [b|] eqn:E.
    - rewrite (nth_lookup_Some _ _ 0 _ E) in Hop.
      unfold OP_NOP, OP_MOVE, OP_NIL, OP_SETAT, OP_JUMP, OP_JUMPTRUE, OP_JUMPFALSE,
        OP_CMDTAIL, OP_CALL, OP_RETURN, OP_RETURNTAIL, OP_ORDER, OP_GC_GETLEVEL,
        OP_GC_SETLEVEL, OP_GC_RUN.
      repeat match goal with
             | |- context [b =? ?k] => destruct (Z.eqb_spec b k); [lia|]
             end.
      destruct (Z.ltb_spec 0x98 b); [reflexivity|lia].
    - apply lookup_ge_None_1 in E. lia. }
  rewrite Hsw.
  assert (Hcov1 : ref_covers (with_pc ctx (pc ctx) (pc ctx))) by exact Hcov.
  destruct (gc_tick_total _ Hcov1) as [c2 Eg]. rewrite Eg.
  destruct (gc_tick_fields _ c2 Eg) as (_ & G2 & G3 & G4 & _).
  cbn [timeout pc prg with_pc] in G2, G3, G4.
  unfold timeout_tick. destruct (Z.ltb_spec 0 (timeout c2)); [lia|].
  apply IH.
  - rewrite G3, G4. exact Hpc.
  - rewrite G3, G4. exact Hop.
  - lia.
  - exact (gc_tick_covers _ c2 Eg Hcov1).
Qed.

Lemma run_undefined_opcode_spins_witness :
  run_loop (vm_switch empty_list 0) 50 stuck_ctx = RunOutOfFuel.
Proof.
  apply (run_undefined_opcode_spins empty_list 0 50 stuck_ctx).
  - vm_compute. split; [discriminate|reflexivity].
  - vm_compute. reflexivity.
  - vm_compute. discriminate.
  - unfold ref_covers. vm_compute. lia.
Defined.

(** Passing and failing are final outside the REPL: when a run has ended in
    PASS or FAIL, every later run returns the same status at once, whatever
    the opcodes, and leaves the context as it found it. *)
Theorem run_result_is_final (op_switch : context -> switch_result) (fuel : nat)
    (r : sink_run) (ctx ctx' : context) :
  repl (prg ctx) = false -> r = SINK_RUN_PASS \/ r = SINK_RUN_FAIL ->
  RUNDONE r ctx = RunResult r ctx' ->
  context_run_w op_switch fuel ctx' = RunResult r ctx'.
Proof.
  intros Hrepl Hr Hdone.
  assert (Hc : ctx' = with_status (context_reset ctx) (err (context_reset ctx))
                        (match r with SINK_RUN_PASS => true | _ => false end)
                        (match r with SINK_RUN_FAIL => true | _ => false end)
                        (async (context_reset ctx))).
  { unfold RUNDONE in Hdone.
    assert (Hp : prg (context_reset ctx) = prg ctx).
    { unfold context_reset. destruct (unwind _ _ _). reflexivity. }
    destruct Hr as [-> | ->]; rewrite Hp, Hrepl in Hdone; congruence. }
  assert (Hreset : context_reset ctx' = with_status ctx' (err ctx') false false (async ctx')).
  { subst ctx'. unfold context_reset. destruct (unwind (call_stk ctx) _ _) as [lx li].
    cbn. reflexivity. }
  assert (Hp' : prg ctx' = prg ctx).
  { subst ctx'. unfold context_reset. destruct (unwind _ _ _). reflexivity. }
  unfold context_run_w, RUNDONE.
  destruct Hr as [-> | ->].
  - assert (Hpass : passed ctx' = true) by (subst ctx'; reflexivity).
    rewrite Hpass, Hreset. cbn [prg with_status]. rewrite Hp', Hrepl.
    f_equal. rewrite Hc. reflexivity.
  - assert (Hpass : passed ctx' = false) by (subst ctx'; reflexivity).
    assert (Hfail : failed ctx' = true) by (subst ctx'; reflexivity).
    rewrite Hpass, Hfail, Hreset. cbn [prg with_status]. rewrite Hp', Hrepl.
    f_equal. rewrite Hc. reflexivity.
Qed.

Lemma run_result_is_final_witness :
  context_run_w switch0 0
    (with_status (with_pc nop_ctx 2 0) None true false false)
  = RunResult SINK_RUN_PASS (with_status (with_pc nop_ctx 2 0) None true false false).
Proof.
  apply (run_result_is_final switch0 0 SINK_RUN_PASS nop_ctx).
  - reflexivity.
  - left. reflexivity.
  - vm_compute. reflexivity.
Defined.



End RunFacts.
(** ** Validation against the run loop *)

Module ValidateFacts.
Import Pool Ctx Gc Vm Run Validate GcFacts.

Example validate_rejects_truncated_move :
  program_validate (mkProgram [OP_MOVE; 0; 0; 0] [] [] false) = Some false.
Proof. vm_compute. reflexivity. Qed.

Example validate_rejects_jump_into_operands :
  program_validate (mkProgram [OP_JUMP; 2; 0; 0; 0] [] [] false) = Some false.
Proof. vm_compute. reflexivity. Qed.

Example validate_rejects_unknown_opcode :
  program_validate (mkProgram [0x99] [] [] false) = Some false.
Proof. vm_compute. reflexivity. Qed.

Example validate_accepts_jump_over_command :
  program_validate call_prog = Some true.
Proof. vm_compute. reflexivity. Qed.

Example run_call_and_return :
  exists ctx', context_run_w switch0 4 (new_ctx (ops call_prog)) = RunResult SINK_RUN_PASS ctx'
    /\ passed ctx' = true /\ pc ctx' = 20 /\ call_stk ctx' = [].
Proof. eexists. split; [vm_compute; reflexivity|]. repeat split. Qed.

(** The bytes [op_paramcat] has a case for are 0x00 to 0x98. *)
Lemma op_paramcat_range op : op_paramcat op <> OPPC_INVALID -> 0 <= op <= 0x98.
Proof.
  intros H. destruct op as [|p|p]; [lia| |exfalso; apply H; reflexivity].
  destruct (Z.leb_spec (Z.pos p) 0x98) as [Hle|Hgt]; [lia|].
  exfalso. apply H. clear H.
  do 8 (destruct p as [p|p|]; try reflexivity; try (exfalso; lia)).
Qed.

Lemma op_paramcat_table :
  forallb (fun n => match op_paramcat (Z.of_nat n) with OPPC_INVALID => false | _ => true end)
          (seq 0 153) = true.
Proof. vm_compute. reflexivity. Qed.

Lemma bindo_Some {A B} (o : option A) (f : A -> option B) (b : B) :
  bindo o f = Some b -> exists a, o = Some a /\ f a = Some b.
Proof. destruct o as [a|]; [|discriminate]. intros H. exists a. split; [reflexivity|exact H]. Qed.

Lemma need_le_refl st : need_le st st.
Proof. split; [reflexivity|auto]. Qed.

Lemma need_le_trans st1 st2 st3 : need_le st1 st2 -> need_le st2 st3 -> need_le st1 st3.
Proof. intros [L1 H1] [L2 H2]. split; [congruence|auto]. Qed.

Lemma need_le_same st st' : op_need st' = op_need st -> need_le st st'.
Proof. intros E. unfold need_le. rewrite E. split; [reflexivity|auto]. Qed.

Lemma nth_insert_Z (l : list Z) (k t : nat) (x : Z) :
  nth t (<[k := x]> l) 0 = if (t =? k)%nat && (k <? length l)%nat then x else nth t l 0.
Proof.
  rewrite !nth_lookup.
  destruct (Nat.eqb_spec t k) as [->|Hne]; cbn [andb].
  - destruct (Nat.ltb_spec k (length l)) as [Hlt|Hge].
    + rewrite list_lookup_insert_eq by exact Hlt. reflexivity.
    + rewrite list_insert_ge by exact Hge. reflexivity.
  - rewrite list_lookup_insert_ne by (intros E; apply Hne; symmetry; exact E). reflexivity.
Qed.

Lemma scans_trans ops st1 st2 st3 : scans ops st1 st2 -> scans ops st2 st3 -> scans ops st1 st3.
Proof.
  unfold scans. intros (H1 & H2 & H3 & H4) (G1 & G2 & G3 & G4).
  split; [lia|]. split; [congruence|]. split; [congruence|].
  apply (need_le_trans _ _ _ H4 G4).
Qed.

Lemma READVAR_scans ops st st' : READVAR ops st = Some st' ->
  scans ops st st' /\ v_pc st' = v_pc st + 2.
Proof.
  unfold READVAR, scans. destruct (Z.ltb_spec (osize ops) (v_pc st + 2)); [discriminate|].
  destruct (v_level st <? bytes ops (v_pc st)); [discriminate|].
  intros He. apply some_eq in He. subst st'. cbn [v_pc op_actual v_level set_pc].
  split; [|lia]. split; [lia|]. split; [reflexivity|]. split; [reflexivity|].
  apply need_le_same. reflexivity.
Qed.

Lemma READLOC_scans L ops st st' : L <> 0 -> READLOC L ops st = Some st' ->
  scans ops st st' /\ v_pc st' = v_pc st + 4.
Proof.
  unfold READLOC, scans. intros HL.
  destruct (Z.ltb_spec (osize ops) (v_pc st + 4)); [discriminate|].
  set (jl := to_uint32 _).
  destruct (0x80000000 <=? jl); [discriminate|].
  intros He. apply some_eq in He. subst st'. cbn [v_pc op_actual v_level op_need].
  split; [|lia]. split; [lia|]. split; [reflexivity|]. split; [reflexivity|].
  unfold need_le. cbn [op_need]. split.
  - destruct (jl <? osize ops); [apply length_insert|reflexivity].
  - intros t Ht. destruct (jl <? osize ops); [|exact Ht].
    rewrite nth_insert_Z. destruct (_ && _); [exact HL|exact Ht].
Qed.

Lemma READDATA_scans S ops st st' : 0 <= S -> READDATA S ops st = Some st' ->
  scans ops st st' /\ v_pc st' = v_pc st + S.
Proof.
  unfold READDATA, scans. intros HS. destruct (Z.ltb_spec (osize ops) (v_pc st + S)); [discriminate|].
  intros He. apply some_eq in He. subst st'. cbn [v_pc op_actual v_level set_pc].
  split; [|lia]. split; [lia|]. split; [reflexivity|]. split; [reflexivity|].
  apply need_le_same. reflexivity.
Qed.

Lemma READINDEX_scans ops st r : READINDEX ops st = Some r ->
  scans ops st (snd r) /\ v_pc (snd r) = v_pc st + 4.
Proof.
  unfold READINDEX, scans. destruct (Z.ltb_spec (osize ops) (v_pc st + 4)); [discriminate|].
  intros He. apply some_eq in He. subst r. cbn [snd v_pc op_actual v_level set_pc].
  split; [|lia]. split; [lia|]. split; [reflexivity|]. split; [reflexivity|].
  apply need_le_same. reflexivity.
Qed.

Lemma scans_refl ops st : v_pc st <= osize ops -> scans ops st st.
Proof.
  intros H. unfold scans. split; [lia|]. split; [reflexivity|]. split; [reflexivity|].
  apply need_le_refl.
Qed.

Lemma readvars_scans n ops : forall st st', v_pc st <= osize ops ->
  readvars n ops st = Some st' ->
  scans ops st st' /\ v_pc st' = v_pc st + 2 * Z.of_nat n.
Proof.
  induction n as [|n IH]; intros st st' Hle H.
  - apply some_eq in H. subst st'. split; [apply scans_refl; exact Hle|lia].
  - cbn [readvars] in H. apply bindo_Some in H. destruct H as (st1 & H1 & H2).
    apply READVAR_scans in H1. destruct H1 as [S1 P1].
    apply IH in H2; [|unfold scans in S1; lia]. destruct H2 as [S2 P2].
    split; [exact (scans_trans _ _ _ _ S1 S2)|lia].
Qed.

Lemma readvars_pc n ops : forall st st',
  readvars n ops st = Some st' -> v_pc st' = v_pc st + 2 * Z.of_nat n.
Proof.
  induction n as [|n IH]; intros st st' H.
  - apply some_eq in H. subst st'. lia.
  - cbn [readvars] in H. apply bindo_Some in H. destruct H as (st1 & H1 & H2).
    apply READVAR_scans in H1. destruct H1 as [_ P1]. apply IH in H2. lia.
Qed.

Lemma READCNT_scans ops st st' : READCNT ops st = Some st' ->
  scans ops st st'
  /\ v_pc st' = v_pc st + 1 + 2 * Z.of_nat (Z.to_nat (bytes ops (v_pc st))).
Proof.
  unfold READCNT. destruct (Z.ltb_spec (osize ops) (v_pc st + 1)); [discriminate|].
  intros He. apply readvars_scans in He; [|cbn; lia]. destruct He as [S P].
  cbn [set_pc v_pc] in P.
  split; [|lia]. unfold scans in *. cbn [set_pc v_pc op_actual v_level] in S.
  destruct S as (S1 & S2 & S3 & S4).
  split; [lia|]. split; [exact S2|]. split; [exact S3|exact S4].
Qed.

Ltac chase :=
  repeat match goal with
  | H : bindo _ _ = Some _ |- _ =>
      let a := fresh "st" in let H1 := fresh "M" in let H2 := fresh "M" in
      apply bindo_Some in H; destruct H as (a & H1 & H2)
  | H : READVAR _ _ = Some _ |- _ =>
      let S := fresh "S" in let P := fresh "P" in
      apply READVAR_scans in H; destruct H as [S P]
  | H : READLOC _ _ _ = Some _ |- _ =>
      let S := fresh "S" in let P := fresh "P" in
      apply READLOC_scans in H; [destruct H as [S P]|lia]
  | H : READDATA _ _ _ = Some _ |- _ =>
      let S := fresh "S" in let P := fresh "P" in
      apply READDATA_scans in H; [destruct H as [S P]|lia]
  | H : READCNT _ _ = Some _ |- _ =>
      let S := fresh "S" in let P := fresh "P" in
      apply READCNT_scans in H; destruct H as [S P]
  | H : READINDEX _ _ = Some _ |- _ =>
      let S := fresh "S" in let P := fresh "P" in
      apply READINDEX_scans in H; destruct H as [S P]
  | H : (if ?c then None else _) = Some _ |- _ =>
      let E := fresh "E" in destruct c eqn:E; [discriminate|]
  end.

Ltac solve_scans :=
  repeat match goal with
         | H : readvars _ _ _ = Some _ |- _ =>
             let S := fresh "S" in let P := fresh "P" in
             apply readvars_scans in H; [destruct H as [S P]|lia]
         | H : (if ?c then _ else _) = Some _ |- _ =>
             let E := fresh "E" in destruct c eqn:E; try discriminate
         | H : Some _ = Some _ |- _ => apply some_eq in H; subst
         end;
  repeat match goal with
         | H1 : scans ?o ?a ?b, H2 : scans ?o ?b ?c |- _ =>
             pose proof (scans_trans o a b c H1 H2); clear H1 H2
         end;
  first [ assumption
        | match goal with
          | H : scans ?o ?a ?b |- scans ?o ?a ?c =>
              unfold scans in *; cbn [v_pc op_actual v_level op_need] in *;
              repeat match goal with H : _ /\ _ |- _ => destruct H end;
              (split; [lia|]); (split; [congruence|]); (split; [congruence|]);
              assumption
          end
        | apply scans_refl; lia ].

(** One opcode of the scan: the cursor moves forward inside the buffer, the
    opcode byte is a defined one, the only alignment recorded is that of the
    opcode's own location, and no required alignment is dropped. *)
Lemma validate_op_scan prg st st' :
  0 <= v_pc st < osize (ops prg) -> validate_op prg st = Some st' ->
  v_pc st < v_pc st' <= osize (ops prg)
  /\ op_paramcat (bytes (ops prg) (v_pc st)) <> OPPC_INVALID
  /\ (exists a, (a = 1 \/ a = 2)
       /\ op_actual st' = <[Z.to_nat (v_pc st) := a]> (op_actual st))
  /\ need_le st st'.
Proof.
  intros Hpc H. unfold validate_op in H. cbv zeta in H.
  apply bindo_Some in H. destruct H as (stm & Hm & He).
  apply some_eq in He. subst st'. cbn [v_pc op_actual].
  set (st0 := mkV (v_pc st + 1) (v_level st) (v_wasjump st) (v_jumploc st) (v_jumplocs st)
                  (<[Z.to_nat (v_pc st) := 1]> (op_actual st)) (op_need st)) in *.
  assert (P0 : v_pc st0 = v_pc st + 1) by reflexivity.
  assert (A0 : op_actual st0 = <[Z.to_nat (v_pc st) := 1]> (op_actual st)) by reflexivity.
  assert (N0 : need_le st st0) by (apply need_le_same; reflexivity).
  assert (Hone : scans (ops prg) st0 stm ->
            v_pc st < v_pc stm <= osize (ops prg)
            /\ (exists a, (a = 1 \/ a = 2)
                 /\ op_actual stm = <[Z.to_nat (v_pc st) := a]> (op_actual st))
            /\ need_le st stm).
  { unfold scans. intros (S1 & S2 & _ & S4). split; [lia|]. split.
    - exists 1. split; [left; reflexivity|]. rewrite S2. exact A0.
    - exact (need_le_trans _ _ _ N0 S4). }
  clearbody st0.
  assert (Hc : op_paramcat (bytes (ops prg) (v_pc st)) <> OPPC_INVALID
               /\ (v_pc st < v_pc stm <= osize (ops prg)
                   /\ (exists a, (a = 1 \/ a = 2)
                        /\ op_actual stm = <[Z.to_nat (v_pc st) := a]> (op_actual st))
                   /\ need_le st stm)).
  { destruct (op_paramcat (bytes (ops prg) (v_pc st))) eqn:Ec; try discriminate;
      (split; [discriminate|]).
    all: try solve [apply Hone; chase; solve_scans].
    - destruct (negb (v_wasjump st0)); [discriminate|].
      destruct (Z.ltb_spec (osize (ops prg)) (v_pc st0 + 2)); [discriminate|].
      destruct (255 <? v_level st0); [discriminate|].
      destruct (negb _); [discriminate|].
      apply some_eq in Hm. subst stm. cbn [v_pc op_actual]. split; [lia|]. split.
      + exists 2. split; [right; reflexivity|].
        rewrite A0, P0. replace (v_pc st + 1 - 1) with (v_pc st) by lia.
        apply list_insert_insert_eq.
      + exact N0.
    - destruct (v_level st0 <=? 0); [discriminate|].
      destruct (negb _); [discriminate|].
      apply some_eq in Hm. subst stm. cbn [v_pc op_actual]. split; [lia|]. split.
      + exists 1. split; [left; reflexivity|exact A0].
      + exact N0. }
  destruct Hc as (H1 & H2 & H3 & H4).
  split; [exact H2|]. split; [exact H1|]. split; [exact H3|exact H4].
Qed.

(** When the scan is done, the cursor stands at the end of the buffer. *)
Lemma validate_loop_done prg : forall fuel st st',
  0 <= v_pc st <= osize (ops prg) ->
  validate_loop fuel prg st = ScanDone st' -> v_pc st' = osize (ops prg).
Proof.
  induction fuel as [|fuel IH]; intros st st' H0; cbn [validate_loop];
    destruct (Z.ltb_spec (v_pc st) (osize (ops prg))) as [Hlt|Hge]; try discriminate.
  - intros He. assert (st' = st) by congruence. subst st'. lia.
  - destruct (validate_op prg st) as [st1|] eqn:E; [|discriminate].
    destruct (validate_op_scan prg st st1 ltac:(lia) E) as (Hp & _).
    apply IH. lia.
  - intros He. assert (st' = st) by congruence. subst st'. lia.
Qed.

Lemma visited_start prg : visited prg (validate_start prg).
Proof.
  unfold visited, validate_start, opcode_start, osize. cbn [v_pc op_actual op_need].
  split; [lia|]. split; [apply length_replicate|]. split; [apply length_replicate|].
  intros i Hi. exfalso. apply Hi. rewrite nth_lookup.
  destruct (replicate (length (ops prg)) 0 !! i) as [x|] eqn:E; [|reflexivity].
  apply lookup_replicate in E. destruct E as [-> _]. reflexivity.
Qed.

Lemma visited_step prg st st1 :
  visited prg st -> v_pc st < osize (ops prg) -> validate_op prg st = Some st1 ->
  visited prg st1.
Proof.
  intros (Hpc & Hlen & Hlenn & Hv) Hlt E.
  destruct (validate_op_scan prg st st1 ltac:(lia) E) as (Hp & _ & (a & Ha & Hact) & Hneed).
  assert (Ha0 : a <> 0) by (destruct Ha; lia).
  assert (Hin : (Z.to_nat (v_pc st) < length (op_actual st))%nat)
    by (unfold osize in Hlt; lia).
  assert (Hkeep : forall t, opcode_start st t -> opcode_start st1 t).
  { unfold opcode_start. intros t Ht. rewrite Hact, nth_insert_Z.
    destruct (_ && _); [exact Ha0|exact Ht]. }
  assert (Hnew : opcode_start st1 (Z.to_nat (v_pc st))).
  { unfold opcode_start. rewrite Hact, nth_insert_Z, Nat.eqb_refl.
    destruct (Nat.ltb_spec (Z.to_nat (v_pc st)) (length (op_actual st))); [exact Ha0|lia]. }
  split; [lia|]. split; [rewrite Hact, length_insert; exact Hlen|].
  split; [destruct Hneed as [Hl _]; congruence|].
  intros i Hi. unfold opcode_start in Hi. rewrite Hact, nth_insert_Z in Hi.
  destruct (Nat.eqb_spec i (Z.to_nat (v_pc st))) as [Ei|Ei]; cbn [andb] in Hi.
  - split; [lia|]. exists st, st1. unfold visit.
    split; [lia|]. split; [exact E|]. split; [apply need_le_refl|left; reflexivity].
  - destruct (Hv i Hi) as (Hb & s & s' & V1 & V2 & V3 & V4).
    split; [lia|]. exists s, s'. unfold visit.
    split; [exact V1|]. split; [exact V2|]. split; [exact (need_le_trans _ _ _ V3 Hneed)|].
    right. destruct V4 as [V4|V4]; [rewrite V4; exact Hnew|exact (Hkeep _ V4)].
Qed.

Lemma validate_loop_visited prg : forall fuel st st',
  visited prg st -> validate_loop fuel prg st = ScanDone st' -> visited prg st'.
Proof.
  induction fuel as [|fuel IH]; intros st st' Hv; cbn [validate_loop];
    destruct (Z.ltb_spec (v_pc st) (osize (ops prg))) as [Hlt|Hge]; try discriminate.
  - intros He. assert (st' = st) by congruence. subst st'. exact Hv.
  - destruct (validate_op prg st) as [st1|] eqn:E; [|discriminate].
    apply IH. exact (visited_step prg st st1 Hv Hlt E).
  - intros He. assert (st' = st) by congruence. subst st'. exact Hv.
Qed.

Lemma validate_scan_visited prg st : validate_scan prg = ScanDone st ->
  visited prg st /\ v_pc st = osize (ops prg).
Proof.
  intros H. split.
  - exact (validate_loop_visited prg _ _ _ (visited_start prg) H).
  - apply (validate_loop_done prg (length (ops prg)) (validate_start prg) st);
      [unfold osize; cbn [validate_start v_pc]; lia|exact H].
Qed.

Lemma bytes_range ops k : bytes_ok ops -> 0 <= bytes ops k <= 255.
Proof.
  intros Hok. unfold bytes.
  destruct (nth_in_or_default (Z.to_nat k) ops 0) as [Hin| ->]; [|lia].
  unfold bytes_ok in Hok. rewrite List.Forall_forall in Hok. apply Hok. exact Hin.
Qed.

(** The scan steps over an opcode and exactly the operand bytes of its
    category. *)
Lemma validate_op_operands prg s s' :
  bytes_ok (ops prg) -> validate_op prg s = Some s' ->
  v_pc s' = v_pc s + 1 + operand_bytes (ops prg) (v_pc s) (op_paramcat (bytes (ops prg) (v_pc s))).
Proof.
  intros Hok H. unfold validate_op in H. cbv zeta in H.
  apply bindo_Some in H. destruct H as (stm & Hm & He).
  apply some_eq in He. subst s'. cbn [v_pc].
  set (st0 := mkV (v_pc s + 1) (v_level s) (v_wasjump s) (v_jumploc s) (v_jumplocs s)
                  (<[Z.to_nat (v_pc s) := 1]> (op_actual s)) (op_need s)) in *.
  assert (P0 : v_pc st0 = v_pc s + 1) by reflexivity.
  clearbody st0.
  destruct (op_paramcat (bytes (ops prg) (v_pc s))) eqn:Ec; try discriminate;
    cbn [operand_bytes].
  all: chase.
  all: repeat match goal with
         | H : readvars _ _ _ = Some _ |- _ => apply readvars_pc in H
         | H : (if ?c then _ else _) = Some _ |- _ =>
             let E := fresh "E" in destruct c eqn:E; try discriminate
         | H : Some _ = Some _ |- _ => apply some_eq in H; subst
         end.
  all: cbn [v_pc] in *.
  all: repeat match goal with
         | P : v_pc ?a = _ |- _ => is_var a; rewrite P in *; clear P
         | P : v_pc (snd ?a) = _ |- _ => is_var a; rewrite P in *; clear P
         end.
  all: try lia.
  all: match goal with
       | |- context [Z.to_nat (bytes ?o ?x)] =>
           match goal with
           | |- context [2 * bytes o ?y] =>
               replace x with y by lia; pose proof (bytes_range o y Hok); lia
           end
       end.
Qed.

Lemma to_int32_uint32 z : to_uint32 z < 2 ^ 31 -> to_int32 z = to_uint32 z.
Proof.
  unfold to_int32, to_uint32. intros H.
  destruct (Z.ltb_spec (z mod 2 ^ 32) (2 ^ 31)); [reflexivity|lia].
Qed.

Lemma READINDEX_val ops st r : READINDEX ops st = Some r -> fst r = loc_at ops (v_pc st).
Proof.
  unfold READINDEX. destruct (osize ops <? v_pc st + 4); [discriminate|].
  intros He. apply some_eq in He. subst r. reflexivity.
Qed.

Lemma READLOC_val L ops st st' : READLOC L ops st = Some st' ->
  let t := loc_at ops (v_pc st) in
  0 <= t
  /\ (t < osize ops -> (Z.to_nat t < length (op_need st))%nat ->
      nth (Z.to_nat t) (op_need st') 0 = L).
Proof.
  unfold READLOC, loc_at, loc32. intros H.
  destruct (osize ops <? v_pc st + 4); [discriminate|].
  set (sum := bytes ops (v_pc st) + _ + _ + _) in *.
  destruct (Z.leb_spec 0x80000000 (to_uint32 sum)) as [|Hlt]; [discriminate|].
  apply some_eq in H. subst st'. cbn [op_need]. cbv zeta.
  rewrite (to_int32_uint32 sum) by lia.
  assert (H0 : 0 <= to_uint32 sum) by (unfold to_uint32; apply Z.mod_pos_bound; lia).
  split; [exact H0|]. intros Ht Hlen.
  destruct (Z.ltb_spec (to_uint32 sum) (osize ops)); [|lia].
  rewrite nth_insert_Z, Nat.eqb_refl.
  destruct (Nat.ltb_spec (Z.to_nat (to_uint32 sum)) (length (op_need st))); [reflexivity|lia].
Qed.

(** An accepted [[INDEX]] operand lies inside its table. *)
Lemma validate_op_index prg s s' n :
  validate_op prg s = Some s' ->
  index_table prg (op_paramcat (bytes (ops prg) (v_pc s))) = Some n ->
  0 <= loc_at (ops prg) (v_pc s + 3) < n.
Proof.
  intros H Hn. unfold validate_op in H. cbv zeta in H.
  apply bindo_Some in H. destruct H as (stm & Hm & _).
  set (st0 := mkV (v_pc s + 1) (v_level s) (v_wasjump s) (v_jumploc s) (v_jumplocs s)
                  (<[Z.to_nat (v_pc s) := 1]> (op_actual s)) (op_need s)) in *.
  assert (P0 : v_pc st0 = v_pc s + 1) by reflexivity. clearbody st0.
  destruct (op_paramcat (bytes (ops prg) (v_pc s))); try discriminate;
    cbn [index_table] in Hn; apply some_eq in Hn; subst n;
    apply bindo_Some in Hm; destruct Hm as (st1 & M1 & M2);
    apply bindo_Some in M2; destruct M2 as (r & M2 & M3);
    apply READVAR_scans in M1; destruct M1 as [_ P1];
    apply READINDEX_val in M2;
    (destruct (Z.ltb_spec (fst r) 0); [discriminate|]); cbn [orb] in M3;
    match type of M3 with (if ?c then _ else _) = _ => destruct c eqn:Ec end;
    try discriminate;
    apply Z.leb_gt in Ec;
    replace (v_pc s + 3) with (v_pc st1) by lia; rewrite <- M2; lia.
Qed.

(** An accepted jump requires an alignment of its target. *)
Lemma validate_op_jump prg s s' off :
  validate_op prg s = Some s' ->
  jump_offset (op_paramcat (bytes (ops prg) (v_pc s))) = Some off ->
  let t := loc_at (ops prg) (v_pc s + off) in
  0 <= t
  /\ (t < osize (ops prg) -> (Z.to_nat t < length (op_need s))%nat ->
      nth (Z.to_nat t) (op_need s') 0 <> 0).
Proof.
  intros H Hoff. unfold validate_op in H. cbv zeta in H.
  apply bindo_Some in H. destruct H as (stm & Hm & He).
  apply some_eq in He. subst s'. cbn [op_need].
  set (st0 := mkV (v_pc s + 1) (v_level s) (v_wasjump s) (v_jumploc s) (v_jumplocs s)
                  (<[Z.to_nat (v_pc s) := 1]> (op_actual s)) (op_need s)) in *.
  assert (P0 : v_pc st0 = v_pc s + 1) by reflexivity.
  assert (N0 : op_need st0 = op_need s) by reflexivity. clearbody st0.
  destruct (op_paramcat (bytes (ops prg) (v_pc s))); try discriminate;
    cbn [jump_offset] in Hoff; apply some_eq in Hoff; subst off.
  - apply READLOC_val in Hm. cbv zeta in Hm. rewrite P0, N0 in Hm.
    destruct Hm as [H0 H1]. split; [exact H0|]. intros Ht Hl. rewrite (H1 Ht Hl). lia.
  - apply bindo_Some in Hm. destruct Hm as (st1 & M1 & M2).
    pose proof M1 as M1'. apply READVAR_scans in M1. destruct M1 as [(_ & _ & _ & [Ln _]) P1].
    apply READLOC_val in M2. cbv zeta in M2.
    replace (v_pc st1) with (v_pc s + 3) in M2 by lia.
    destruct M2 as [H0 H1]. split; [exact H0|]. intros Ht Hl.
    rewrite H1; [lia|exact Ht|]. rewrite Ln, N0. exact Hl.
Qed.

Lemma aligned_nth need : forall actual t,
  aligned need actual = true -> (t < length need)%nat -> (t < length actual)%nat ->
  nth t need 0 <> 0 -> nth t actual 0 = nth t need 0.
Proof.
  induction need as [|n need IH]; intros actual t Ha Hn Hl Hne; [cbn in Hn; lia|].
  destruct actual as [|a actual]; [cbn in Hl; lia|].
  cbn [aligned] in Ha.
  destruct (Z.eqb_spec n 0) as [En|En]; cbn [negb andb] in Ha.
  - destruct t as [|t]; [cbn in Hne; lia|]. cbn [nth].
    apply IH; [exact Ha|cbn in Hn; lia|cbn in Hl; lia|exact Hne].
  - destruct (Z.eqb_spec n a) as [Ea|Ea]; cbn [negb] in Ha; [|discriminate].
    destruct t as [|t]; [cbn; congruence|]. cbn [nth].
    apply IH; [exact Ha|cbn in Hn; lia|cbn in Hl; lia|exact Hne].
Qed.

(** The scan never runs out of fuel: every opcode moves the cursor forward. *)
Lemma validate_loop_fuel prg : forall fuel st,
  0 <= v_pc st -> osize (ops prg) - v_pc st <= Z.of_nat fuel ->
  validate_loop fuel prg st <> ScanOutOfFuel.
Proof.
  induction fuel as [|fuel IH]; intros st H0 Hf; cbn [validate_loop];
    destruct (Z.ltb_spec (v_pc st) (osize (ops prg))) as [Hlt|Hge]; try discriminate; try lia.
  destruct (validate_op prg st) as [st'|] eqn:E; [|discriminate].
  destruct (validate_op_scan prg st st' ltac:(lia) E) as (Hp & _).
  apply IH; lia.
Qed.

(** [program_validate] returns on every program, and it accepts only when the
    scan of opcodes and operands ends exactly at the end of the buffer: no
    operand of an accepted program is cut short by the end of the buffer. *)
Theorem program_validate_returns (prg : program) :
  exists b, program_validate prg = Some b
    /\ (b = true ->
        exists st, validate_scan prg = ScanDone st /\ v_pc st = osize (ops prg)).
Proof.
  unfold program_validate, validate_scan.
  pose proof (validate_loop_fuel prg (length (ops prg)) (validate_start prg)) as Hfuel.
  destruct (validate_loop (length (ops prg)) prg (validate_start prg)) as [st| |] eqn:E.
  - exists (aligned (op_need st) (op_actual st)). split; [reflexivity|].
    intros _. exists st. split; [reflexivity|].
    apply (validate_loop_done prg (length (ops prg)) (validate_start prg) st);
      [unfold osize; cbn [validate_start v_pc]; lia|exact E].
  - exists false. split; [reflexivity|discriminate].
  - exfalso. apply Hfuel;
      [cbn [validate_start v_pc]; lia|unfold osize; cbn [validate_start v_pc]; lia|reflexivity].
Qed.

(** The opcode bytes [op_paramcat] gives a category are exactly 0x00 to
    0x98, [OP_NOP] to [OP_GC_RUN]: every other byte is [OPPC_INVALID]. *)
Theorem op_paramcat_defined (op : Z) :
  op_paramcat op <> OPPC_INVALID <-> 0 <= op <= 0x98.
Proof.
  split; [apply op_paramcat_range|].
  intros Hr. pose proof op_paramcat_table as Ht.
  rewrite forallb_forall in Ht. specialize (Ht (Z.to_nat op)).
  rewrite Z2Nat.id in Ht by lia.
  assert (Hin : In (Z.to_nat op) (seq 0 153)) by (apply in_seq; lia).
  specialize (Ht Hin). destruct (op_paramcat op); [discriminate|congruence..].
Qed.

(** In a scan that [program_validate] completes, every location recorded as
    the start of an opcode lies in the buffer and holds a defined opcode byte,
    0x00 to 0x98: the byte the run loop dispatches on there has a case. *)
Theorem validated_opcodes_defined (prg : program) (st : vstate) (i : nat) :
  validate_scan prg = ScanDone st -> opcode_start st i ->
  Z.of_nat i < osize (ops prg)
  /\ 0 <= bytes (ops prg) (Z.of_nat i) <= 0x98.
Proof.
  intros Hs Hi. destruct (validate_scan_visited prg st Hs) as [(Hpc & _ & _ & Hv) He].
  destruct (Hv i Hi) as (Hlt & s & s' & V1 & V2 & _).
  split; [lia|]. apply op_paramcat_range. rewrite <- V1.
  destruct (validate_op_scan prg s s' ltac:(lia) V2) as (_ & Hc & _). exact Hc.
Qed.

Lemma validated_opcodes_defined_witness :
  Z.of_nat 12 < osize (ops call_prog)
  /\ 0 <= bytes (ops call_prog) (Z.of_nat 12) <= 0x98.
Proof.
  eapply (validated_opcodes_defined call_prog _ 12%nat);
    [vm_compute; reflexivity|vm_compute; discriminate].
Defined.

Lemma scan_next (prg : program) (st : vstate) (i : nat) :
  bytes_ok (ops prg) -> validate_scan prg = ScanDone st -> opcode_start st i ->
  let n := Z.of_nat i + 1
           + operand_bytes (ops prg) (Z.of_nat i) (op_paramcat (bytes (ops prg) (Z.of_nat i))) in
  Z.of_nat i < n <= osize (ops prg)
  /\ (n = osize (ops prg) \/ opcode_start st (Z.to_nat n)).
Proof.
  intros Hok Hs Hi. cbv zeta.
  destruct (validate_scan_visited prg st Hs) as [(Hpc & _ & _ & Hv) He].
  destruct (Hv i Hi) as (Hlt & s & s' & V1 & V2 & _ & V4).
  pose proof (validate_op_operands prg s s' Hok V2) as Hn. rewrite V1 in Hn.
  destruct (validate_op_scan prg s s' ltac:(lia) V2) as (Hp & _).
  rewrite <- Hn. split; [lia|]. destruct V4 as [V4|V4]; [left; lia|right; exact V4].
Qed.

(** In a completed scan of a buffer of bytes, the operands of every opcode
    recorded lie inside the buffer, laid out as the category of the opcode
    says, and what follows them is the end of the buffer or the start of the
    next opcode recorded. *)
Theorem validated_operands_in_buffer (prg : program) (st : vstate) (i : nat) :
  bytes_ok (ops prg) -> validate_scan prg = ScanDone st -> opcode_start st i ->
  let n := Z.of_nat i + 1
           + operand_bytes (ops prg) (Z.of_nat i) (op_paramcat (bytes (ops prg) (Z.of_nat i))) in
  Z.of_nat i < n <= osize (ops prg)
  /\ (n = osize (ops prg) \/ opcode_start st (Z.to_nat n)).
Proof.
  intros Hok Hs Hi. cbv zeta.
  destruct (validate_scan_visited prg st Hs) as [(Hpc & _ & _ & Hv) He].
  destruct (Hv i Hi) as (Hlt & s & s' & V1 & V2 & _ & V4).
  pose proof (validate_op_operands prg s s' Hok V2) as Hn. rewrite V1 in Hn.
  destruct (validate_op_scan prg s s' ltac:(lia) V2) as (Hp & _).
  rewrite <- Hn. split; [lia|]. destruct V4 as [V4|V4]; [left; lia|right; exact V4].
Qed.

Lemma validated_operands_in_buffer_witness :
  let n := Z.of_nat 12 + 1
           + operand_bytes (ops call_prog) (Z.of_nat 12)
               (op_paramcat (bytes (ops call_prog) (Z.of_nat 12))) in
  Z.of_nat 12 < n <= osize (ops call_prog)
  /\ (n = osize (ops call_prog)
      \/ opcode_start call_prog_scan (Z.to_nat n)).
Proof.
  apply (validated_operands_in_buffer call_prog call_prog_scan 12%nat).
  - unfold bytes_ok. repeat constructor; vm_compute; discriminate.
  - vm_compute. reflexivity.
  - vm_compute. discriminate.
Defined.

(** In a completed scan, the index operand of every opcode recorded that
    names a string ([OP_STR]) lies inside the string table, and that of every
    one that names a native ([OP_ISNATIVE], [OP_NATIVE]) inside the key
    table. *)
Theorem validated_table_indices (prg : program) (st : vstate) (i : nat) (n : Z) :
  validate_scan prg = ScanDone st -> opcode_start st i ->
  index_table prg (op_paramcat (bytes (ops prg) (Z.of_nat i))) = Some n ->
  0 <= loc_at (ops prg) (Z.of_nat i + 3) < n.
Proof.
  intros Hs Hi Hn.
  destruct (validate_scan_visited prg st Hs) as [(Hpc & _ & _ & Hv) He].
  destruct (Hv i Hi) as (Hlt & s & s' & V1 & V2 & _).
  rewrite <- V1 in *. exact (validate_op_index prg s s' n V2 Hn).
Qed.

Lemma validated_table_indices_witness :
  0 <= loc_at (ops str_prog) (Z.of_nat 0 + 3) < 2.
Proof.
  eapply (validated_table_indices str_prog _ 0%nat 2);
    [vm_compute; reflexivity|vm_compute; discriminate|reflexivity].
Defined.

(** In a program that [program_validate] accepts, the target of every jump
    recorded ([OP_JUMP], [OP_JUMPTRUE], [OP_JUMPFALSE]) is not negative, and
    when it lies inside the buffer it is the start of an opcode recorded: a
    jump never lands among the operands of an opcode. *)
Lemma scan_jump_target (prg : program) (st : vstate) (i : nat) (off : Z) :
  program_validate prg = Some true -> validate_scan prg = ScanDone st ->
  opcode_start st i ->
  jump_offset (op_paramcat (bytes (ops prg) (Z.of_nat i))) = Some off ->
  let t := loc_at (ops prg) (Z.of_nat i + off) in
  0 <= t /\ (t < osize (ops prg) -> opcode_start st (Z.to_nat t)).
Proof.
  intros Hacc Hs Hi Hoff. cbv zeta.
  unfold program_validate in Hacc. rewrite Hs in Hacc. apply some_eq in Hacc.
  destruct (validate_scan_visited prg st Hs) as [(Hpc & Hla & Hln & Hv) He].
  destruct (Hv i Hi) as (Hlt & s & s' & V1 & V2 & [Vl Vn] & _).
  rewrite <- V1 in *.
  destruct (validate_op_scan prg s s' ltac:(lia) V2) as (_ & _ & _ & [Ll _]).
  destruct (validate_op_jump prg s s' off V2 Hoff) as [H0 H1].
  split; [exact H0|]. intros Ht. unfold opcode_start.
  assert (Hlen : (Z.to_nat (loc_at (ops prg) (v_pc s + off)) < length (ops prg))%nat)
    by (unfold osize in Ht; lia).
  assert (Hls : length (op_need s) = length (ops prg)) by congruence.
  rewrite (aligned_nth (op_need st) (op_actual st) _ Hacc); [| lia | lia |].
  - apply Vn. apply H1; [exact Ht|]. rewrite Hls. exact Hlen.
  - apply Vn. apply H1; [exact Ht|]. rewrite Hls. exact Hlen.
Qed.

(** C1 does not hold of the code.  [program_validate] accepts the buffer
    [stray_call], whose only opcode is a call to location 16 of 8 bytes: the
    macro [READLOC] records the required alignment of a location only when the
    location lies inside the buffer, and checks nothing otherwise.  The run
    from PC = 0 then executes [OP_CALL], sets the program counter to 15 and
    reads [ops->bytes[16]] in [LOAD_abc], outside the buffer. *)
Theorem validate_accepts_stray_call :
  program_validate stray_call = Some true
  /\ osize (ops stray_call) = 8
  /\ forall junk junkw fuel,
       context_run_w (vm_switch junk junkw) (S fuel) (new_ctx (ops stray_call))
       = RunOutOfBuffer 16.
Proof.
  split; [vm_compute; reflexivity|]. split; [reflexivity|].
  intros junk junkw fuel. vm_compute. reflexivity.
Qed.

End ValidateFacts.
(** ** What validation gives the run loop *)

Module SoundFacts.
Import Pool Ctx Gc Setat Order Vm Run Validate GcFacts OrderFacts ValidateFacts.

Lemma byte_at_bytes ops i : 0 <= i < osize ops -> byte_at ops i = Loaded (bytes ops i).
Proof.
  intros Hi. unfold byte_at, bytes, osize in *.
  destruct (Z.ltb_spec i 0); [lia|].
  destruct (ops !! Z.to_nat i) as [b|] eqn:E.
  - rewrite (nth_lookup_Some _ _ 0 _ E). reflexivity.
  - apply lookup_ge_None_1 in E. lia.
Qed.

Lemma load_bytes_ok n : forall ops i, 0 <= i -> i + Z.of_nat n <= osize ops ->
  exists bs, load_bytes n ops i = Loaded bs /\ length bs = n
             /\ forall k, (k < n)%nat -> nth k bs 0 = bytes ops (i + Z.of_nat k).
Proof.
  induction n as [|n IH]; intros ops i H0 Hle.
  - exists []. split; [reflexivity|]. split; [reflexivity|]. intros k Hk. lia.
  - cbn [load_bytes]. rewrite byte_at_bytes by lia.
    destruct (IH ops (i + 1) ltac:(lia) ltac:(lia)) as (bs & E & Hl & Hn).
    rewrite E. exists (bytes ops i :: bs). split; [reflexivity|].
    split; [cbn; lia|]. intros k Hk. destruct k as [|k].
    + cbn. f_equal. lia.
    + cbn [nth]. rewrite Hn by lia. f_equal. lia.
Qed.

Lemma LOAD_ok n ctx : 0 <= pc ctx + 1 ->
  pc ctx + 1 + Z.of_nat n <= osize (ops (prg ctx)) ->
  exists bs, LOAD n ctx = Loaded (bs, with_pc ctx (pc ctx + 1 + Z.of_nat n) (lastpc ctx))
             /\ length bs = n
             /\ forall k, (k < n)%nat -> nth k bs 0 = bytes (ops (prg ctx)) (pc ctx + 1 + Z.of_nat k).
Proof.
  intros H0 Hle. unfold LOAD.
  destruct (load_bytes_ok n (ops (prg ctx)) (pc ctx + 1) H0 Hle) as (bs & E & Hl & Hn).
  rewrite E. exists bs. split; [reflexivity|]. split; [exact Hl|exact Hn].
Qed.

Lemma var_set_fields ctx f i v ctx' : var_set ctx f i v = Some ctx' ->
  pc ctx' = pc ctx /\ prg ctx' = prg ctx.
Proof.
  unfold var_set. destruct (lex_stk ctx !! Z.to_nat f) as [[|fr chain]|]; try discriminate.
  destruct (i <? Z.of_nat (length fr)); [|discriminate].
  intros H. apply some_eq in H. subst ctx'. split; reflexivity.
Qed.

Lemma break_with_inv o ctx1 : break_with o = SwBreak ctx1 -> o = Some ctx1.
Proof. destruct o; cbn; [intros H; congruence|discriminate]. Qed.

Lemma break_with_in_buffer o j : break_with o <> SwOutOfBuffer j.
Proof. destruct o; discriminate. Qed.

Lemma of_op_result_in_buffer r j : of_op_result r <> SwOutOfBuffer j.
Proof. destruct r; discriminate. Qed.

Lemma op_setat_pc ctx A B C D E F ctx1 :
  op_setat ctx A B C D E F = OpNext ctx1 -> pc ctx1 = pc ctx.
Proof.
  unfold op_setat. cbv zeta.
  destruct (negb (sink_islist (var_get ctx A B))); [discriminate|].
  destruct (negb (sink_isnum (var_get ctx C D))); [discriminate|].
  destruct (dbl_to_int (var_get ctx C D)) as [a|]; [|discriminate].
  destruct (INT_MAX <=? _); [discriminate|].
  destruct (_ && _); intros H; assert (Hc := f_equal (fun r => match r with OpNext c => pc c | _ => pc ctx end) H);
    cbn in Hc; symmetry; exact Hc.
Qed.

Lemma opi_order_pc ctx a b r ctx' : opi_order ctx a b = Some (r, ctx') -> pc ctx' = pc ctx.
Proof.
  intros H. destruct (opi_order_total ctx a b) as (r0 & c0 & E & _ & Hc).
  rewrite E in H. apply some_eq in H. assert (c0 = ctx') by congruence. subst c0.
  destruct Hc as [->|[-> _]]; reflexivity.
Qed.

Lemma vm_switch_nop junk junkw ctx :
  byte_at (ops (prg ctx)) (pc ctx) = Loaded OP_NOP ->
  vm_switch junk junkw ctx = SwBreak (with_pc ctx (pc ctx + 1) (lastpc ctx)).
Proof. unfold vm_switch. intros ->. reflexivity. Qed.

Lemma vm_switch_move junk junkw ctx :
  byte_at (ops (prg ctx)) (pc ctx) = Loaded OP_MOVE ->
  vm_switch junk junkw ctx =
    match LOAD 4 ctx with
    | OutOfBuffer j => SwOutOfBuffer j
    | Loaded ([A; B; C; D], ctx1) => break_with (var_set ctx1 A B (var_get ctx1 C D))
    | Loaded _ => SwUndefined
    end.
Proof. unfold vm_switch. intros ->. reflexivity. Qed.

Lemma vm_switch_nil junk junkw ctx :
  byte_at (ops (prg ctx)) (pc ctx) = Loaded OP_NIL ->
  vm_switch junk junkw ctx =
    match LOAD 2 ctx with
    | OutOfBuffer j => SwOutOfBuffer j
    | Loaded ([A; B], ctx1) => break_with (var_set ctx1 A B SINK_NIL)
    | Loaded _ => SwUndefined
    end.
Proof. unfold vm_switch. intros ->. reflexivity. Qed.

Lemma vm_switch_setat junk junkw ctx :
  byte_at (ops (prg ctx)) (pc ctx) = Loaded OP_SETAT ->
  vm_switch junk junkw ctx =
    match LOAD 6 ctx with
    | OutOfBuffer j => SwOutOfBuffer j
    | Loaded ([A; B; C; D; E; F], ctx1) => of_op_result (op_setat ctx1 A B C D E F)
    | Loaded _ => SwUndefined
    end.
Proof. unfold vm_switch. intros ->. reflexivity. Qed.

Lemma vm_switch_order junk junkw ctx :
  byte_at (ops (prg ctx)) (pc ctx) = Loaded OP_ORDER ->
  vm_switch junk junkw ctx =
    match LOAD 6 ctx with
    | OutOfBuffer j => SwOutOfBuffer j
    | Loaded ([A; B; C; D; E; F], ctx1) =>
        match opi_order ctx1 (var_get ctx1 C D) (var_get ctx1 E F) with
        | Some (r, ctx2) => break_with (var_set ctx2 A B (sink_num_int r))
        | None => SwUndefined
        end
    | Loaded _ => SwUndefined
    end.
Proof. unfold vm_switch. intros ->. reflexivity. Qed.

Lemma vm_switch_gc_getlevel junk junkw ctx :
  byte_at (ops (prg ctx)) (pc ctx) = Loaded OP_GC_GETLEVEL ->
  vm_switch junk junkw ctx =
    match LOAD 2 ctx with
    | OutOfBuffer j => SwOutOfBuffer j
    | Loaded ([A; B], ctx1) =>
        break_with (var_set ctx1 A B (sink_num_int (gc_level_num (gc_level ctx1))))
    | Loaded _ => SwUndefined
    end.
Proof. unfold vm_switch. intros ->. reflexivity. Qed.

Lemma vm_switch_gc_setlevel junk junkw ctx :
  byte_at (ops (prg ctx)) (pc ctx) = Loaded OP_GC_SETLEVEL ->
  vm_switch junk junkw ctx = op_gc_setlevel ctx.
Proof. unfold vm_switch. intros ->. reflexivity. Qed.

Lemma vm_switch_gc_run junk junkw ctx :
  byte_at (ops (prg ctx)) (pc ctx) = Loaded OP_GC_RUN ->
  vm_switch junk junkw ctx =
    match LOAD 2 ctx with
    | OutOfBuffer j => SwOutOfBuffer j
    | Loaded ([A; B], ctx1) =>
        match context_gc ctx1 with
        | Some ctx2 => break_with (var_set ctx2 A B SINK_NIL)
        | None => SwUndefined
        end
    | Loaded _ => SwUndefined
    end.
Proof. unfold vm_switch. intros ->. reflexivity. Qed.

Lemma op_gc_setlevel_step ctx :
  0 <= pc ctx + 1 -> pc ctx + 1 + 4 <= osize (ops (prg ctx)) ->
  (forall j, op_gc_setlevel ctx <> SwOutOfBuffer j)
  /\ (forall ctx1, op_gc_setlevel ctx = SwBreak ctx1 -> pc ctx1 = pc ctx + 1 + 4).
Proof.
  intros H0 Hle. unfold op_gc_setlevel.
  destruct (LOAD_ok 4 ctx H0 Hle) as (bs & EL & Hl & _). rewrite EL.
  do 4 (destruct bs as [|? bs]; [cbn in Hl; lia|]). destruct bs; [|cbn in Hl; lia].
  cbv zeta.
  destruct (negb _); [split; [discriminate|discriminate]|].
  destruct (dbl_to_int _) as [J|]; [|split; discriminate].
  assert (Hset : forall l,
    (forall j, break_with (var_set (context_gcleft
                 (with_gc_level (with_pc ctx (pc ctx + 1 + Z.of_nat 4) (lastpc ctx)) l) false)
                 z z0 SINK_NIL) <> SwOutOfBuffer j)
    /\ (forall ctx1, break_with (var_set (context_gcleft
                 (with_gc_level (with_pc ctx (pc ctx + 1 + Z.of_nat 4) (lastpc ctx)) l) false)
                 z z0 SINK_NIL) = SwBreak ctx1 -> pc ctx1 = pc ctx + 1 + 4)).
  { intros l. split; [intros j; apply break_with_in_buffer|].
    intros ctx1 Hb. apply break_with_inv in Hb. apply var_set_fields in Hb.
    destruct Hb as [Hp _]. rewrite Hp. unfold context_gcleft.
    destruct l; cbn [gc_level with_gc_level gc_left with_pc];
      repeat match goal with |- context [if ?c then _ else _] => destruct c end;
      reflexivity. }
  destruct (J =? 0); [apply Hset|]. destruct (J =? 1); [apply Hset|].
  destruct (J =? 2); [apply Hset|]. split; discriminate.
Qed.

(** At the start of an opcode that the scan recorded, the run loop's case for
    an opcode of [plain_ops] reads its operands inside the buffer, and when it
    ends at its [break] the program counter stands where the scan went on:
    at the end of the buffer or at the start of the next opcode recorded. *)
Theorem vm_plain_step (junk : list_st) (junkw : Z) (p : program) (st : vstate) (i : nat)
    (ctx : context) :
  bytes_ok (ops p) -> validate_scan p = ScanDone st -> opcode_start st i ->
  prg ctx = p -> pc ctx = Z.of_nat i ->
  In (bytes (ops p) (Z.of_nat i)) plain_ops ->
  (forall j, vm_switch junk junkw ctx <> SwOutOfBuffer j)
  /\ (forall ctx1, vm_switch junk junkw ctx = SwBreak ctx1 ->
        pc ctx1 = osize (ops p)
        \/ (0 <= pc ctx1 /\ opcode_start st (Z.to_nat (pc ctx1)))).
Proof.
  intros Hok Hs Hi Hp Hpc Hin.
  destruct (scan_next p st i Hok Hs Hi) as [Hn Hnext]. cbv zeta in Hn, Hnext.
  assert (Hb : byte_at (ops (prg ctx)) (pc ctx) = Loaded (bytes (ops p) (Z.of_nat i))).
  { rewrite Hp, Hpc. apply byte_at_bytes. lia. }
  assert (Hgoal : forall k : Z,
            operand_bytes (ops p) (Z.of_nat i) (op_paramcat (bytes (ops p) (Z.of_nat i))) = k ->
            (forall j, vm_switch junk junkw ctx <> SwOutOfBuffer j)
            /\ (forall ctx1, vm_switch junk junkw ctx = SwBreak ctx1 -> pc ctx1 = pc ctx + 1 + k) ->
            (forall j, vm_switch junk junkw ctx <> SwOutOfBuffer j)
            /\ (forall ctx1, vm_switch junk junkw ctx = SwBreak ctx1 ->
                  pc ctx1 = osize (ops p)
                  \/ (0 <= pc ctx1 /\ opcode_start st (Z.to_nat (pc ctx1))))).
  { intros k Hk [G1 G2]. split; [exact G1|]. intros ctx1 E. rewrite (G2 ctx1 E).
    rewrite Hk in Hn, Hnext. rewrite Hpc.
    destruct Hnext as [Hx|Hx]; [left; exact Hx|right; split; [lia|exact Hx]]. }
  assert (Hload : forall k : nat,
            operand_bytes (ops p) (Z.of_nat i) (op_paramcat (bytes (ops p) (Z.of_nat i)))
            = Z.of_nat k ->
            exists bs, LOAD k ctx = Loaded (bs, with_pc ctx (pc ctx + 1 + Z.of_nat k) (lastpc ctx))
                       /\ length bs = k).
  { intros k Hk. rewrite Hk in Hn.
    destruct (LOAD_ok k ctx) as (bs & E & Hl & _); [lia|rewrite Hp; lia|].
    exists bs. split; assumption. }
  unfold plain_ops in Hin. cbn [In] in Hin.
  destruct Hin as [Ho|[Ho|[Ho|[Ho|[Ho|[Ho|[Ho|[Ho|[]]]]]]]]]; rewrite <- Ho in Hb, Hgoal, Hload.
  - apply (Hgoal 0); [reflexivity|]. rewrite (vm_switch_nop junk junkw ctx Hb).
    split; [discriminate|]. intros ctx1 E. assert (E' := f_equal (fun r => match r with SwBreak c => pc c | _ => 0 end) E).
    cbn in E'. lia.
  - apply (Hgoal 4); [reflexivity|]. rewrite (vm_switch_move junk junkw ctx Hb).
    destruct (Hload 4%nat eq_refl) as (bs & EL & Hl). rewrite EL.
    do 4 (destruct bs as [|? bs]; [cbn in Hl; lia|]). destruct bs; [|cbn in Hl; lia].
    split; [intros j; apply break_with_in_buffer|].
    intros ctx1 E. apply break_with_inv in E. apply var_set_fields in E.
    destruct E as [E _]. rewrite E. reflexivity.
  - apply (Hgoal 2); [reflexivity|]. rewrite (vm_switch_nil junk junkw ctx Hb).
    destruct (Hload 2%nat eq_refl) as (bs & EL & Hl). rewrite EL.
    do 2 (destruct bs as [|? bs]; [cbn in Hl; lia|]). destruct bs; [|cbn in Hl; lia].
    split; [intros j; apply break_with_in_buffer|].
    intros ctx1 E. apply break_with_inv in E. apply var_set_fields in E.
    destruct E as [E _]. rewrite E. reflexivity.
  - apply (Hgoal 6); [reflexivity|]. rewrite (vm_switch_setat junk junkw ctx Hb).
    destruct (Hload 6%nat eq_refl) as (bs & EL & Hl). rewrite EL.
    do 6 (destruct bs as [|? bs]; [cbn in Hl; lia|]). destruct bs; [|cbn in Hl; lia].
    split; [intros j; apply of_op_result_in_buffer|].
    intros ctx1 E. destruct (op_setat _ _ _ _ _ _ _) as [c|r c|] eqn:Es; try discriminate.
    cbn [of_op_result] in E. assert (c = ctx1) by congruence. subst c.
    apply op_setat_pc in Es. rewrite Es. reflexivity.
  - apply (Hgoal 6); [reflexivity|]. rewrite (vm_switch_order junk junkw ctx Hb).
    destruct (Hload 6%nat eq_refl) as (bs & EL & Hl). rewrite EL.
    do 6 (destruct bs as [|? bs]; [cbn in Hl; lia|]). destruct bs; [|cbn in Hl; lia].
    destruct (opi_order _ _ _) as [[r c2]|] eqn:Eo; [|split; discriminate].
    split; [intros j; apply break_with_in_buffer|].
    intros ctx1 E. apply break_with_inv in E. apply var_set_fields in E.
    destruct E as [E _]. rewrite E. apply opi_order_pc in Eo. rewrite Eo. reflexivity.
  - apply (Hgoal 2); [reflexivity|]. rewrite (vm_switch_gc_getlevel junk junkw ctx Hb).
    destruct (Hload 2%nat eq_refl) as (bs & EL & Hl). rewrite EL.
    do 2 (destruct bs as [|? bs]; [cbn in Hl; lia|]). destruct bs; [|cbn in Hl; lia].
    split; [intros j; apply break_with_in_buffer|].
    intros ctx1 E. apply break_with_inv in E. apply var_set_fields in E.
    destruct E as [E _]. rewrite E. reflexivity.
  - apply (Hgoal 4); [reflexivity|]. rewrite (vm_switch_gc_setlevel junk junkw ctx Hb).
    apply op_gc_setlevel_step; [lia|].
    assert (Hk : operand_bytes (ops p) (Z.of_nat i) (op_paramcat OP_GC_SETLEVEL) = 4)
      by reflexivity.
    rewrite Ho in Hk. rewrite Hk in Hn. rewrite Hp. lia.
  - apply (Hgoal 2); [reflexivity|]. rewrite (vm_switch_gc_run junk junkw ctx Hb).
    destruct (Hload 2%nat eq_refl) as (bs & EL & Hl). rewrite EL.
    do 2 (destruct bs as [|? bs]; [cbn in Hl; lia|]). destruct bs; [|cbn in Hl; lia].
    destruct (context_gc _) as [c2|] eqn:Eg; [|split; discriminate].
    split; [intros j; apply break_with_in_buffer|].
    intros ctx1 E. apply break_with_inv in E. apply var_set_fields in E.
    destruct E as [E _]. rewrite E. apply context_gc_fields in Eg.
    destruct Eg as (_ & _ & _ & Eg & _). rewrite Eg. reflexivity.
Qed.

Lemma vm_plain_step_witness :
  (forall j, vm_switch empty_list 0 (new_ctx (ops move_prog)) <> SwOutOfBuffer j)
  /\ (forall ctx1, vm_switch empty_list 0 (new_ctx (ops move_prog)) = SwBreak ctx1 ->
        pc ctx1 = osize (ops move_prog)
        \/ (0 <= pc ctx1 /\ opcode_start move_prog_scan (Z.to_nat (pc ctx1)))).
Proof.
  apply (vm_plain_step empty_list 0 move_prog move_prog_scan 0%nat (new_ctx (ops move_prog))).
  - unfold bytes_ok. repeat constructor; vm_compute; discriminate.
  - vm_compute. reflexivity.
  - vm_compute. discriminate.
  - reflexivity.
  - reflexivity.
  - right. left. reflexivity.
Defined.

Lemma vm_switch_jump junk junkw ctx :
  byte_at (ops (prg ctx)) (pc ctx) = Loaded OP_JUMP ->
  vm_switch junk junkw ctx =
    match LOAD 4 ctx with
    | OutOfBuffer j => SwOutOfBuffer j
    | Loaded ([A; B; C; D], ctx1) =>
        let loc := loc32 A B C D in
        if repl (prg ctx1) && (loc =? -1) then
          SwDone SINK_RUN_REPLMORE (with_pc ctx1 (pc ctx1 - 5) (lastpc ctx1))
        else SwBreak (with_pc ctx1 loc (lastpc ctx1))
    | Loaded _ => SwUndefined
    end.
Proof. unfold vm_switch. intros ->. reflexivity. Qed.

Lemma vm_switch_jumptrue junk junkw ctx :
  byte_at (ops (prg ctx)) (pc ctx) = Loaded OP_JUMPTRUE ->
  vm_switch junk junkw ctx = op_jumpif false ctx.
Proof. unfold vm_switch. intros ->. reflexivity. Qed.

Lemma vm_switch_jumpfalse junk junkw ctx :
  byte_at (ops (prg ctx)) (pc ctx) = Loaded OP_JUMPFALSE ->
  vm_switch junk junkw ctx = op_jumpif true ctx.
Proof. unfold vm_switch. intros ->. reflexivity. Qed.

Lemma op_jumpif_step on_nil ctx :
  0 <= pc ctx + 1 -> pc ctx + 1 + 6 <= osize (ops (prg ctx)) ->
  (forall j, op_jumpif on_nil ctx <> SwOutOfBuffer j)
  /\ (forall ctx1, op_jumpif on_nil ctx = SwBreak ctx1 ->
        pc ctx1 = pc ctx + 1 + 6 \/ pc ctx1 = loc_at (ops (prg ctx)) (pc ctx + 3)).
Proof.
  intros H0 Hle. unfold op_jumpif.
  destruct (LOAD_ok 6 ctx H0 Hle) as (bs & EL & Hl & Hn). rewrite EL.
  pose proof (Hn 2%nat ltac:(lia)) as N2. pose proof (Hn 3%nat ltac:(lia)) as N3.
  pose proof (Hn 4%nat ltac:(lia)) as N4. pose proof (Hn 5%nat ltac:(lia)) as N5.
  do 6 (destruct bs as [|? bs]; [cbn in Hl; lia|]). destruct bs; [|cbn in Hl; lia].
  cbn [nth] in N2, N3, N4, N5. cbv zeta.
  destruct (Bool.eqb _ on_nil).
  - destruct (_ && _); [split; discriminate|]. split; [discriminate|].
    intros ctx1 E.
    assert (E' := f_equal (fun r => match r with SwBreak c => pc c | _ => 0 end) E).
    cbn [pc with_pc] in E'. right. rewrite <- E'. unfold loc_at. rewrite N2, N3, N4, N5.
    repeat (f_equal; try lia).
  - split; [discriminate|]. intros ctx1 E.
    assert (E' := f_equal (fun r => match r with SwBreak c => pc c | _ => 0 end) E).
    cbn [pc with_pc] in E'. left. lia.
Qed.

(** In a program that [program_validate] accepts, at the start of a jump that
    the scan recorded ([OP_JUMP], [OP_JUMPTRUE], [OP_JUMPFALSE]), the run
    loop's case reads its operands inside the buffer, and when it ends at its
    [break] the program counter is at or beyond the end of the buffer, which
    ends the loop, or at the start of an opcode recorded: a jump does not land
    among the operands of an opcode. *)
Theorem vm_jump_step (junk : list_st) (junkw : Z) (p : program) (st : vstate) (i : nat)
    (ctx : context) :
  bytes_ok (ops p) -> program_validate p = Some true -> validate_scan p = ScanDone st ->
  opcode_start st i -> prg ctx = p -> pc ctx = Z.of_nat i ->
  In (bytes (ops p) (Z.of_nat i)) jump_ops ->
  (forall j, vm_switch junk junkw ctx <> SwOutOfBuffer j)
  /\ (forall ctx1, vm_switch junk junkw ctx = SwBreak ctx1 ->
        0 <= pc ctx1
        /\ (osize (ops p) <= pc ctx1 \/ opcode_start st (Z.to_nat (pc ctx1)))).
Proof.
  intros Hok Hacc Hs Hi Hp Hpc Hin.
  destruct (scan_next p st i Hok Hs Hi) as [Hn Hnext]. cbv zeta in Hn, Hnext.
  assert (Hb : byte_at (ops (prg ctx)) (pc ctx) = Loaded (bytes (ops p) (Z.of_nat i))).
  { rewrite Hp, Hpc. apply byte_at_bytes. lia. }
  pose proof (scan_jump_target p st i) as Hj.
  unfold jump_ops in Hin. cbn [In] in Hin.
  destruct Hin as [Ho|[Ho|[Ho|[]]]]; rewrite <- Ho in Hb, Hn, Hnext, Hj.
  - specialize (Hj 1 Hacc Hs Hi eq_refl). cbv zeta in Hj. destruct Hj as [J0 J1].
    change (operand_bytes (ops p) (Z.of_nat i) (op_paramcat OP_JUMP)) with 4 in Hn, Hnext.
    rewrite (vm_switch_jump junk junkw ctx Hb).
    destruct (LOAD_ok 4 ctx) as (bs & EL & Hl & Hnth); [lia|rewrite Hp; lia|]. rewrite EL.
    pose proof (Hnth 0%nat ltac:(lia)) as N0. pose proof (Hnth 1%nat ltac:(lia)) as N1.
    pose proof (Hnth 2%nat ltac:(lia)) as N2. pose proof (Hnth 3%nat ltac:(lia)) as N3.
    do 4 (destruct bs as [|? bs]; [cbn in Hl; lia|]). destruct bs; [|cbn in Hl; lia].
    cbn [nth] in N0, N1, N2, N3. cbv zeta.
    assert (Hloc : loc32 z z0 z1 z2 = loc_at (ops p) (Z.of_nat i + 1)).
    { unfold loc_at. rewrite N0, N1, N2, N3, Hp, Hpc. repeat (f_equal; try lia). }
    rewrite Hloc.
    destruct (_ && _); [split; discriminate|]. split; [discriminate|].
    intros ctx1 E.
    assert (E' := f_equal (fun r => match r with SwBreak c => pc c | _ => 0 end) E).
    cbn [pc with_pc] in E'. rewrite <- E'. split; [exact J0|].
    destruct (Z_lt_ge_dec (loc_at (ops p) (Z.of_nat i + 1)) (osize (ops p))) as [Hlt|Hge];
      [right; exact (J1 Hlt)|left; lia].
  - specialize (Hj 3 Hacc Hs Hi eq_refl). cbv zeta in Hj. destruct Hj as [J0 J1].
    change (operand_bytes (ops p) (Z.of_nat i) (op_paramcat OP_JUMPTRUE)) with 6 in Hn, Hnext.
    rewrite (vm_switch_jumptrue junk junkw ctx Hb).
    destruct (op_jumpif_step false ctx) as [G1 G2]; [lia|rewrite Hp; lia|].
    split; [exact G1|]. intros ctx1 E. destruct (G2 ctx1 E) as [G|G]; rewrite G.
    + rewrite Hpc. split; [lia|]. destruct Hnext as [Hx|Hx]; [left; lia|right; exact Hx].
    + rewrite Hp, Hpc. split; [exact J0|].
      destruct (Z_lt_ge_dec (loc_at (ops p) (Z.of_nat i + 3)) (osize (ops p))) as [Hlt|Hge];
        [right; exact (J1 Hlt)|left; lia].
  - specialize (Hj 3 Hacc Hs Hi eq_refl). cbv zeta in Hj. destruct Hj as [J0 J1].
    change (operand_bytes (ops p) (Z.of_nat i) (op_paramcat OP_JUMPFALSE)) with 6 in Hn, Hnext.
    rewrite (vm_switch_jumpfalse junk junkw ctx Hb).
    destruct (op_jumpif_step true ctx) as [G1 G2]; [lia|rewrite Hp; lia|].
    split; [exact G1|]. intros ctx1 E. destruct (G2 ctx1 E) as [G|G]; rewrite G.
    + rewrite Hpc. split; [lia|]. destruct Hnext as [Hx|Hx]; [left; lia|right; exact Hx].
    + rewrite Hp, Hpc. split; [exact J0|].
      destruct (Z_lt_ge_dec (loc_at (ops p) (Z.of_nat i + 3)) (osize (ops p))) as [Hlt|Hge];
        [right; exact (J1 Hlt)|left; lia].
Qed.

Lemma vm_jump_step_witness :
  (forall j, vm_switch empty_list 0 (new_ctx (ops call_prog)) <> SwOutOfBuffer j)
  /\ (forall ctx1, vm_switch empty_list 0 (new_ctx (ops call_prog)) = SwBreak ctx1 ->
        0 <= pc ctx1
        /\ (osize (ops call_prog) <= pc ctx1
            \/ opcode_start call_prog_scan (Z.to_nat (pc ctx1)))).
Proof.
  apply (vm_jump_step empty_list 0 call_prog call_prog_scan 0%nat (new_ctx (ops call_prog))).
  - unfold bytes_ok. repeat constructor; vm_compute; discriminate.
  - vm_compute. reflexivity.
  - vm_compute. reflexivity.
  - vm_compute. discriminate.
  - reflexivity.
  - reflexivity.
  - left. reflexivity.
Defined.

End SoundFacts.
(** ** Allocation of lists *)

Module AllocFacts.
Import Pool Ctx Setat Vm Run ValueFacts PoolFacts.

Lemma sink_islist_list_val i : 0 <= i < 2 ^ 31 -> sink_islist (list_val i) = true.
Proof.
  intros Hi. unfold sink_islist, list_val.
  rewrite Z.land_lor_distr_l, (tag_mask_small i) by lia. reflexivity.
Qed.

(** A set bit of a bitmap lies within its words. *)
Lemma bmp_bit_within bmp j : 0 <= j -> bmp_bit bmp j = true ->
  j < 64 * Z.of_nat (length bmp).
Proof.
  intros Hj Hb. destruct (Z_lt_ge_dec j (64 * Z.of_nat (length bmp))) as [?|Hge];
    [assumption|exfalso].
  unfold bmp_bit in Hb. rewrite nth_overflow in Hb.
  - rewrite Z.bits_0 in Hb. discriminate Hb.
  - rewrite Z.quot_div_nonneg by lia.
    assert (Z.of_nat (length bmp) <= j / 64) by (apply Z.div_le_lower_bound; lia). lia.
Qed.

(** A new list takes a slot that was free: the slot is marked allocated and
    holds the elements given, the value returned is a list that names it, and
    every list allocated before stays allocated and keeps its contents. *)
Theorem list_newblob_fresh (junk : list_st) (junkw : Z) (ctx : context) (vs : list sink_val) :
  pool_wf (list_pool ctx) -> size (list_pool ctx) < 0x3FFFFFFF ->
  exists i ctx',
    sink_list_newblob junk junkw ctx vs = Some (list_val i, ctx')
    /\ sink_typeof (list_val i) = SINK_TYPE_LIST /\ var_index (list_val i) = i
    /\ bmp_bit (aloc (list_pool ctx)) i = false
    /\ bmp_bit (aloc (list_pool ctx')) i = true
    /\ vals (var_castlist ctx' (list_val i)) = vs
    /\ (forall j, 0 <= j -> j <> i -> bmp_bit (aloc (list_pool ctx)) j = true ->
          bmp_bit (aloc (list_pool ctx')) j = true
          /\ nth (Z.to_nat j) (tbl (list_pool ctx')) empty_list
             = nth (Z.to_nat j) (tbl (list_pool ctx)) empty_list)
    /\ pool_wf (list_pool ctx').
Proof.
  intros Hwf Hcap. pose proof Hwf as (Hpos & Hsz & Hlen & Hok).
  unfold sink_list_newblob.
  destruct (pool_full_or_free (list_pool ctx) Hwf) as [Hfull|[k Hk]].
  - destruct (bmp_reserve_grow junk junkw (list_pool ctx) Hwf Hfull Hcap)
      as (p' & He & Hs & Hkeep & Hset & Hclr & Hwf').
    rewrite He. pose proof Hwf' as (_ & Hsz' & Hlen' & Hok').
    set (i := size (list_pool ctx)) in *.
    assert (Hi : 0 <= i < 2 ^ 31) by (change (2 ^ 31) with 2147483648; lia).
    exists i. eexists. split; [reflexivity|].
    rewrite (var_index_list_val i Hi).
    split; [apply typeof_list_islist, sink_islist_list_val; exact Hi|].
    split; [reflexivity|]. cbn [list_pool with_list_pool aloc tbl size ref].
    split; [|split; [|split; [|split]]].
    + destruct (bmp_bit (aloc (list_pool ctx)) i) eqn:Hb; [|reflexivity].
      apply bmp_bit_within in Hb; lia.
    + apply Hset. lia.
    + unfold var_castlist. cbn [list_pool with_list_pool tbl].
      rewrite (var_index_list_val i Hi).
      rewrite (nth_lookup_Some _ _ _ (mkList vs (Z.of_nat (length vs) + sink_list_grow)));
        [reflexivity|].
      apply list_lookup_insert_eq. lia.
    + intros j Hj Hne Hb. pose proof (bmp_bit_within _ j Hj Hb) as Hlt.
      split; [apply Hset; lia|].
      destruct (lookup_lt_is_Some_2 (tbl (list_pool ctx)) (Z.to_nat j) ltac:(lia)) as [x Hx].
      rewrite (nth_lookup_Some _ _ _ x), (nth_lookup_Some _ _ _ x); [reflexivity|exact Hx|].
      rewrite list_lookup_insert_ne by lia. apply Hkeep. exact Hx.
    + unfold pool_wf. cbn [tbl size aloc]. rewrite length_insert.
      split; [lia|]. split; [exact Hsz'|]. split; [exact Hlen'|exact Hok'].
  - destruct (bmp_reserve_free junk junkw (list_pool ctx) k Hwf Hk)
      as (p' & He & Ht & Hs & Hset & Hoth & Hwf').
    rewrite He. pose proof Hwf' as (_ & Hsz' & Hlen' & Hok').
    destruct Hk as (Hk & Hfree & _).
    assert (Hi : 0 <= k < 2 ^ 31) by (change (2 ^ 31) with 2147483648; lia).
    exists k. eexists. split; [reflexivity|].
    rewrite (var_index_list_val k Hi).
    split; [apply typeof_list_islist, sink_islist_list_val; exact Hi|].
    split; [reflexivity|]. cbn [list_pool with_list_pool aloc tbl size ref].
    split; [exact Hfree|]. split; [exact Hset|]. split; [|split].
    + unfold var_castlist. cbn [list_pool with_list_pool tbl].
      rewrite (var_index_list_val k Hi).
      rewrite (nth_lookup_Some _ _ _ (mkList vs (Z.of_nat (length vs) + sink_list_grow)));
        [reflexivity|].
      apply list_lookup_insert_eq. lia.
    + intros j Hj Hne Hb. split; [rewrite Hoth by assumption; exact Hb|].
      rewrite Ht. pose proof (bmp_bit_within _ j Hj Hb) as Hlt.
      destruct (lookup_lt_is_Some_2 (tbl (list_pool ctx)) (Z.to_nat j) ltac:(lia)) as [x Hx].
      rewrite (nth_lookup_Some _ _ _ x), (nth_lookup_Some _ _ _ x); [reflexivity|exact Hx|].
      rewrite list_lookup_insert_ne by lia. exact Hx.
    + unfold pool_wf. cbn [tbl size aloc]. rewrite length_insert.
      split; [lia|]. split; [exact Hsz'|]. split; [exact Hlen'|exact Hok'].
Qed.

Lemma list_newblob_fresh_witness :
  exists i ctx',
    sink_list_newblob empty_list 0 nop_ctx [SINK_NIL] = Some (list_val i, ctx')
    /\ sink_typeof (list_val i) = SINK_TYPE_LIST /\ var_index (list_val i) = i
    /\ bmp_bit (aloc (list_pool nop_ctx)) i = false
    /\ bmp_bit (aloc (list_pool ctx')) i = true
    /\ vals (var_castlist ctx' (list_val i)) = [SINK_NIL]
    /\ (forall j, 0 <= j -> j <> i -> bmp_bit (aloc (list_pool nop_ctx)) j = true ->
          bmp_bit (aloc (list_pool ctx')) j = true
          /\ nth (Z.to_nat j) (tbl (list_pool ctx')) empty_list
             = nth (Z.to_nat j) (tbl (list_pool nop_ctx)) empty_list)
    /\ pool_wf (list_pool ctx').
Proof.
  apply (list_newblob_fresh empty_list 0 nop_ctx [SINK_NIL]).
  - unfold pool_wf. cbn. repeat split; try reflexivity.
    repeat constructor; discriminate.
  - reflexivity.
Defined.

End AllocFacts.
(** ** Calling a command and returning from it *)

Module CallFacts.
Import Pool Ctx Gc Order Vm Run Validate GcFacts.

Lemma load_bytes_nth n : forall ops i bs, load_bytes n ops i = Loaded bs ->
  length bs = n
  /\ forall k, (k < n)%nat -> byte_at ops (i + Z.of_nat k) = Loaded (nth k bs 0).
Proof.
  induction n as [|n IH]; intros ops i bs H; cbn [load_bytes] in H.
  - injection H as <-. split; [reflexivity|]. intros k Hk. lia.
  - destruct (byte_at ops i) as [b|j] eqn:Eb; [|discriminate].
    destruct (load_bytes n ops (i + 1)) as [bs'|j] eqn:El; [|discriminate].
    injection H as <-. destruct (IH _ _ _ El) as [Hl Hn].
    split; [cbn [length]; lia|]. intros [|k] Hk.
    + replace (i + Z.of_nat 0) with i by lia. exact Eb.
    + replace (i + Z.of_nat (S k)) with (i + 1 + Z.of_nat k) by lia.
      cbn [nth]. apply Hn. lia.
Qed.

Lemma byte_at_In ops i b : byte_at ops i = Loaded b -> In b ops.
Proof.
  unfold byte_at. destruct (i <? 0); [discriminate|].
  destruct (ops !! Z.to_nat i) as [x|] eqn:E; [|discriminate].
  intros H. injection H as <-. apply list_elem_of_In. eapply list_elem_of_lookup_2. exact E.
Qed.

Lemma LOAD_frames n ctx bs c : LOAD n ctx = Loaded (bs, c) ->
  same_frames ctx c /\ pc c = pc ctx + 1 + Z.of_nat n
  /\ length bs = n
  /\ forall k, (k < n)%nat ->
       byte_at (ops (prg ctx)) (pc ctx + 1 + Z.of_nat k) = Loaded (nth k bs 0).
Proof.
  unfold LOAD. destruct (load_bytes n (ops (prg ctx)) (pc ctx + 1)) as [bs'|j] eqn:E;
    [|discriminate].
  intros H. injection H as <- <-. destruct (load_bytes_nth _ _ _ _ E) as [Hl Hn].
  repeat split; assumption.
Qed.

Lemma load_args_frames n : forall ctx p c, load_args n ctx = Loaded (p, c) ->
  same_frames ctx c /\ pc c = pc ctx + 2 * Z.of_nat n.
Proof.
  induction n as [|n IH]; intros ctx p c H; cbn [load_args] in H.
  - injection H as <- <-. repeat split. lia.
  - destruct (load_bytes 2 (ops (prg ctx)) (pc ctx)) as [[|E [|F [|? ?]]]|j]; try discriminate.
    destruct (load_args n (with_pc ctx (pc ctx + 2) (lastpc ctx))) as [[p' c']|j] eqn:El;
      [|discriminate].
    injection H as <- <-. destruct (IH _ _ _ El) as [(H1 & H2 & H3 & H4) H5].
    cbn [with_pc call_stk lex_stk lex_index prg pc] in *.
    repeat split; try assumption. lia.
Qed.

Lemma rest_args_frames junk junkw ctx p C p' c :
  rest_args junk junkw ctx p C = Some (p', c) -> same_frames ctx c /\ pc c = pc ctx.
Proof.
  unfold rest_args, sink_list_newempty, sink_list_newblob.
  destruct (C =? 0xFF).
  - intros H. apply some_eq in H. injection H as <- <-. repeat split.
  - destruct (Z.of_nat (length p) <=? C);
      destruct (bmp_reserve junk junkw (list_pool ctx)) as [index q|]; try discriminate;
      intros H; apply some_eq in H; injection H as <- <-; repeat split.
Qed.

(** What [OP_CALL] leaves when it reaches its [break]. *)
Lemma op_call_frames junk junkw ctx c1 : op_call junk junkw ctx = SwBreak c1 ->
  exists A B G B' fr,
    byte_at (ops (prg ctx)) (pc ctx + 7) = Loaded G
    /\ In A (ops (prg ctx)) /\ In B (ops (prg ctx)) /\ In B' (ops (prg ctx))
    /\ call_stk c1
       = mkCcs (pc ctx + 8 + 2 * Z.of_nat (Z.to_nat G)) A B (lex_index ctx) :: call_stk ctx
    /\ lex_index c1 = B'
    /\ lex_stk c1
       = <[Z.to_nat B' := fr :: nth (Z.to_nat B') (lex_grow (lex_stk ctx) B') []]>
           (lex_grow (lex_stk ctx) B').
Proof.
  unfold op_call. intros H.
  destruct (LOAD 7 ctx) as [[bs ctx1]|j] eqn:L1; [|discriminate].
  destruct bs as [|A [|B [|C [|D [|E [|F [|G [|? ?]]]]]]]]; try discriminate.
  destruct (LOAD_frames _ _ _ _ L1) as ((S1 & S2 & S3 & S4) & P1 & _ & N1).
  destruct (loc32 C D E F =? -1); [discriminate|].
  destruct (load_args (Z.to_nat G) ctx1) as [[p ctx2]|j] eqn:L2; [|discriminate].
  destruct (load_args_frames _ _ _ _ L2) as ((T1 & T2 & T3 & T4) & P2).
  match type of H with context [LOAD 3 ?c] => set (ctx3 := c) in * end.
  destruct (LOAD 3 ctx3) as [[bs ctx4]|j] eqn:L3; [|discriminate].
  destruct bs as [|A' [|B' [|C' [|? ?]]]]; try discriminate.
  destruct (LOAD_frames _ _ _ _ L3) as ((U1 & U2 & U3 & U4) & _ & _ & N3).
  destruct (rest_args junk junkw ctx4 p C') as [[p' ctx5]|] eqn:L4; [|discriminate].
  destruct (rest_args_frames _ _ _ _ _ _ _ L4) as ((V1 & V2 & V3 & V4) & _).
  injection H as <-.
  exists A, B, G, B', (lxs_get p').
  subst ctx3. cbn [with_call_lex call_stk lex_stk lex_index] in *.
  split; [|split; [|split; [|split; [|split; [|split]]]]].
  - specialize (N1 6%nat ltac:(lia)). cbn [nth] in N1.
    replace (pc ctx + 7) with (pc ctx + 1 + Z.of_nat 6) by lia. exact N1.
  - apply (byte_at_In _ _ _ (N1 0%nat ltac:(lia))).
  - apply (byte_at_In _ _ _ (N1 1%nat ltac:(lia))).
  - specialize (N3 1%nat ltac:(lia)). cbn [nth with_call_lex prg] in N3.
    rewrite T4, S4 in N3. apply (byte_at_In _ _ _ N3).
  - rewrite V1, U1, P2, P1, T3, S3, T1, S1. do 2 f_equal. lia.
  - reflexivity.
  - rewrite V2, U2, T2, S2. reflexivity.
Qed.

Lemma nth_lex_grow lx li f : nth f (lex_grow lx li) [] = nth f lx ([] : list (list sink_val)).
Proof.
  unfold lex_grow. rewrite !nth_lookup.
  destruct (lx !! f) as [x|] eqn:E.
  - rewrite (lookup_app_l_Some _ _ _ _ E). reflexivity.
  - apply lookup_ge_None_1 in E. rewrite lookup_app_r by lia.
    destruct (replicate (Z.to_nat (li + 1) - length lx) [] !! (f - length lx)%nat) as [y|] eqn:R;
      [|reflexivity].
    apply lookup_replicate in R as [-> _]. reflexivity.
Qed.

(** A call followed by the return from the command called leaves the caller
    where it was: the call stack and the lexical level are those before the
    call, the program counter stands after the operands of the call, the
    target register of the call holds the value returned, and every other
    register of every level reads as before the call. *)
Theorem call_then_return (junk : list_st) (junkw : Z) (ctx c1 : context) (X : sink_val) :
  bytes_ok (ops (prg ctx)) -> op_call junk junkw ctx = SwBreak c1 ->
  exists s G,
    call_stk c1 = s :: call_stk ctx
    /\ byte_at (ops (prg ctx)) (pc ctx + 7) = Loaded G
    /\ ((exists fr chain, lex_stk ctx !! Z.to_nat (ccs_frame s) = Some (fr :: chain)
                          /\ ccs_index s < Z.of_nat (length fr)) ->
        exists c2,
          leave_command c1 X = Some c2
          /\ call_stk c2 = call_stk ctx /\ lex_index c2 = lex_index ctx
          /\ pc c2 = pc ctx + 8 + 2 * Z.of_nat (Z.to_nat G)
          /\ var_get c2 (ccs_frame s) (ccs_index s) = X
          /\ forall f i, 0 <= f -> 0 <= i -> f <> ccs_frame s \/ i <> ccs_index s ->
               var_get c2 f i = var_get ctx f i).
Proof.
  intros Hok Hc.
  destruct (op_call_frames _ _ _ _ Hc) as (A & B & G & B' & fr0 & HG & IA & IB & IB' & Hcs & Hli & Hlx).
  unfold bytes_ok in Hok. rewrite List.Forall_forall in Hok.
  pose proof (Hok _ IA) as RA. pose proof (Hok _ IB) as RB. pose proof (Hok _ IB') as RB'.
  eexists. exists G. split; [exact Hcs|]. split; [exact HG|].
  cbn [ccs_frame ccs_index]. intros (fr & chain & Hfr & Hidx).
  set (lx := lex_grow (lex_stk ctx) B') in *.
  assert (Hlen : (Z.to_nat B' < length lx)%nat).
  { subst lx. unfold lex_grow. rewrite length_app, length_replicate. lia. }
  assert (Hself : lx !! Z.to_nat B' = Some (nth (Z.to_nat B') lx [])).
  { destruct (lookup_lt_is_Some_2 lx (Z.to_nat B') Hlen) as [x Hx].
    rewrite (nth_lookup_Some _ _ _ _ Hx). exact Hx. }
  assert (HlxA : lx !! Z.to_nat A = Some (fr :: chain)).
  { subst lx. unfold lex_grow. apply lookup_app_l_Some. exact Hfr. }
  unfold leave_command. rewrite Hcs, Hli, Hlx.
  rewrite list_lookup_insert_eq by exact Hlen.
  rewrite list_insert_insert_eq, (list_insert_id _ _ _ Hself).
  unfold var_set. cbn [with_call_lex lex_stk ccs_frame ccs_index ccs_lex_index ccs_pc call_stk
                       lex_index pc].
  rewrite HlxA.
  replace (B <? Z.of_nat (length fr)) with true by (symmetry; apply Z.ltb_lt; lia).
  eexists. split; [reflexivity|].
  cbn [with_pc with_call_lex call_stk lex_index pc lex_stk].
  split; [reflexivity|]. split; [reflexivity|]. split; [reflexivity|].
  assert (HA : (Z.to_nat A < length lx)%nat) by (eapply lookup_lt_Some; exact HlxA).
  split.
  - unfold var_get. cbn [lex_stk with_pc with_call_lex].
    rewrite (nth_lookup_Some _ _ _ (<[Z.to_nat B := X]> fr :: chain))
      by (apply list_lookup_insert_eq; exact HA).
    cbn [hd]. apply nth_lookup_Some, list_lookup_insert_eq. lia.
  - intros f i Hf Hi Hne. unfold var_get. cbn [lex_stk with_pc with_call_lex].
    destruct (Z.eq_dec f A) as [->|Hfa].
    + destruct Hne as [Hne|Hne]; [congruence|].
      rewrite (nth_lookup_Some _ _ _ (<[Z.to_nat B := X]> fr :: chain))
        by (apply list_lookup_insert_eq; exact HA).
      rewrite (nth_lookup_Some (lex_stk ctx) _ _ (fr :: chain)) by exact Hfr.
      cbn [hd]. rewrite !nth_lookup, list_lookup_insert_ne by lia. reflexivity.
    + rewrite (nth_lookup (<[_ := _]> lx)), list_lookup_insert_ne by lia.
      rewrite <- nth_lookup. subst lx. rewrite nth_lex_grow. reflexivity.
Qed.

Lemma call_then_return_witness :
  exists s G,
    call_stk called_ctx = s :: call_stk call_site
    /\ byte_at (ops (prg call_site)) (pc call_site + 7) = Loaded G
    /\ ((exists fr chain, lex_stk call_site !! Z.to_nat (ccs_frame s) = Some (fr :: chain)
                          /\ ccs_index s < Z.of_nat (length fr)) ->
        exists c2,
          leave_command called_ctx dbl_1 = Some c2
          /\ call_stk c2 = call_stk call_site /\ lex_index c2 = lex_index call_site
          /\ pc c2 = pc call_site + 8 + 2 * Z.of_nat (Z.to_nat G)
          /\ var_get c2 (ccs_frame s) (ccs_index s) = dbl_1
          /\ forall f i, 0 <= f -> 0 <= i -> f <> ccs_frame s \/ i <> ccs_index s ->
               var_get c2 f i = var_get call_site f i).
Proof.
  apply (call_then_return empty_list 0 call_site called_ctx dbl_1).
  - unfold bytes_ok. repeat constructor; vm_compute; discriminate.
  - vm_compute. reflexivity.
Defined.

(** *** The arguments of a call *)






End CallFacts.
